(** * ESP game console: espoyunkonsolu.ino

    A shallow embedding of the sketch
    [src/espoyunkonsolu/espoyunkonsolu.ino]: the two mini-games [game1]
    (grid-maze tank) and [game2] (lane-dodge shooter), and the shell
    around them (software clock, loading screen, WiFi attempt, menus
    and buttons); the properties of the engine that the specification
    states, and further properties that the code shows.

    Conventions.
    - [int] and [long] values are [Z]; the arithmetic on them stays far
      from the 32-bit limits on every path modelled here.
    - [unsigned long] values (clock stamps, the score) are [Z] in
      [0, 2^32) with the wrap-around written out ([u32]).
    - [float] is IEEE-754 binary32, modelled exactly by the Standard
      Library's [SpecFloat] at precision 24 and exponent bound 128.
    - The display, the clock, the buttons, the analog axis and the
      random source are collaborators: the clock, buttons and axis are
      inputs of a frame, the random source is a stream of raw 32-bit
      draws, and every display call of the game loop is recorded in a
      log carried by the state. *)

From Stdlib Require Import ZArith Lia Bool Ascii.
From Stdlib Require Import Floats.SpecFloat.
From stdpp Require Import base list relations.

Local Open Scope Z_scope.

(** ** binary32 arithmetic *)

Module F32.

Definition prec : Z := 24.
Definition emax : Z := 128.

Definition float := spec_float.

Definition add : float -> float -> float := SFadd prec emax.
Definition sub : float -> float -> float := SFsub prec emax.
Definition mul : float -> float -> float := SFmul prec emax.
Definition div : float -> float -> float := SFdiv prec emax.
Definition neg : float -> float := SFopp.
Definition ltb : float -> float -> bool := SFltb.
Definition gtb (a b : float) : bool := SFltb b a.
Definition leb : float -> float -> bool := SFleb.

(** [(float)z] for an integer [z]: round to nearest, ties to even. *)
Definition of_int (z : Z) : float := binary_normalize prec emax z 0 false.

(** [(int)f]: truncation toward zero.  The conversion of a NaN or an
    infinity is undefined in C++; the model gives 0 there. *)
Definition to_int (f : float) : Z :=
  match f with
  | S754_finite s m e =>
      let v := match e with
               | Zneg p => Z.pos m / 2 ^ Z.pos p
               | _ => Z.pos m * 2 ^ e
               end in
      if s then - v else v
  | _ => 0
  end.

(** A decimal literal [n/d] with [n] and [d] exactly representable:
    the correctly rounded quotient is the literal's value. *)
Definition lit (n d : Z) : float := div (of_int n) (of_int d).

Definition is_nan (f : float) : bool :=
  match f with S754_nan => true | _ => false end.

Definition zero : float := S754_zero false.
Definition one : float := of_int 1.
Definition mone : float := of_int (-1).

Definition finite (f : float) : bool :=
  match f with S754_finite _ _ _ => true | _ => false end.

Definition finite_or_zero (f : float) : bool :=
  match f with S754_finite _ _ _ | S754_zero _ => true | _ => false end.

(** Membership in the closed interval [-1, 1]; false for a NaN. *)
Definition in_unit (f : float) : bool := leb mone f && leb f one.

End F32.

Abbreviation float := F32.float.

(** ** Input conditioner of [game2] *)

Record JoystickCalib := { minVal : Z; maxVal : Z; center : Z }.

(** The calibration routine: one centre sample, then the minimum and
    the maximum of the samples read during the 3000 ms sweep. *)
Definition sweep_step (acc : Z * Z) (val : Z) : Z * Z :=
  let '(mn, mx) := acc in
  ((if val <? mn then val else mn), (if val >? mx then val else mx)).

Definition calibrate (centerSample : Z) (sweep : list Z) : JoystickCalib :=
  let '(mn, mx) := fold_left sweep_step sweep (4095, 0) in
  {| minVal := mn; maxVal := mx; center := centerSample |}.

(** [if(raw<calib.minVal) raw=calib.minVal; if(raw>calib.maxVal) raw=calib.maxVal;] *)
Definition clamp_raw (calib : JoystickCalib) (raw : Z) : Z :=
  let raw := if raw <? minVal calib then minVal calib else raw in
  if raw >? maxVal calib then maxVal calib else raw.

(** The integer divisor of the branch the normalisation takes. *)
Definition norm_divisor (calib : JoystickCalib) (raw : Z) : Z :=
  let raw := clamp_raw calib raw in
  if raw >=? center calib then maxVal calib - center calib
  else center calib - minVal calib.

(** The quotient before [constrain]. *)
Definition norm_quotient (calib : JoystickCalib) (raw : Z) : float :=
  let raw := clamp_raw calib raw in
  if raw >=? center calib
  then F32.div (F32.of_int (raw - center calib))
               (F32.of_int (maxVal calib - center calib))
  else F32.div (F32.of_int (raw - center calib))
               (F32.of_int (center calib - minVal calib)).

(** Arduino's [constrain(amt,low,high)] macro. *)
Definition constrain (amt low high : float) : float :=
  if F32.ltb amt low then low else if F32.gtb amt high then high else amt.

(** Arduino's [abs(x)] macro: [((x)>0?(x):-(x))]. *)
Definition fabs (x : float) : float :=
  if F32.gtb x F32.zero then x else F32.neg x.

Definition DEADZONE_RATIO : float := F32.lit 15 100.

(** [n=constrain(n,-1.0f,1.0f);] *)
Definition normalize (calib : JoystickCalib) (raw : Z) : float :=
  constrain (norm_quotient calib raw) F32.mone F32.one.

(** [if(abs(n)<DEADZONE_RATIO) n=0.0f;] *)
Definition deadzone (n : float) : float :=
  if F32.ltb (fabs n) DEADZONE_RATIO then F32.zero else n.

(** The control value of a frame before smoothing. *)
Definition control (calib : JoystickCalib) (raw : Z) : float :=
  deadzone (normalize calib raw).

(** [lastN=lastN*0.6f+n*0.4f;] *)
Definition smooth (lastN n : float) : float :=
  F32.add (F32.mul lastN (F32.lit 6 10)) (F32.mul n (F32.lit 4 10)).

(** The range of [analogRead] at the 12-bit resolution [setup] selects. *)
Definition adc (z : Z) : Prop := 0 <= z <= 4095.

Definition scenario_calib : JoystickCalib :=
  {| minVal := 200; maxVal := 3800; center := 2000 |}.

Definition flat_calib : JoystickCalib :=
  {| minVal := 2000; maxVal := 2000; center := 2000 |}.

(** ** 32-bit unsigned clock arithmetic *)

Definition u32 (z : Z) : Z := z mod 2 ^ 32.

(** [(long)u] on a target where [long] has 32 bits. *)
Definition to_long (u : Z) : Z :=
  let u := u32 u in if u <? 2 ^ 31 then u else u - 2 ^ 32.

(** ** The grid-maze game ([game1]) *)

Module Game1.

Definition MAP_SIZE : Z := 8.
Definition CELL_SIZE : Z := 15.
Definition JOY_THRESHOLD_LOW : Z := 1000.
Definition JOY_THRESHOLD_HIGH : Z := 3000.
Definition TANK_MOVE_DELAY : Z := 150.
Definition BULLET_MOVE_DELAY : Z := 50.
Definition FIRE_DEBOUNCE : Z := 200.

Definition gameMap : list (list Z) :=
  [ [1;1;1;1;1;1;1;1];
    [1;0;0;1;0;0;0;1];
    [1;0;1;1;0;1;0;1];
    [1;0;0;0;0;1;0;1];
    [1;1;0;1;0;0;0;1];
    [1;0;0;0;1;1;0;1];
    [1;0;1;0;0;0;0;1];
    [1;1;1;1;1;1;1;1] ].

(** [gameMap[y][x]], defined for indices inside the array. *)
Definition cell (y x : Z) : option Z :=
  if (0 <=? y) && (0 <=? x)
  then row ← gameMap !! Z.to_nat y; row !! Z.to_nat x
  else None.

Definition in_map (x y : Z) : bool :=
  (0 <=? x) && (x <? MAP_SIZE) && (0 <=? y) && (y <? MAP_SIZE).

Inductive Color := BLACK | GREEN | RED | WHITE.

Inductive Op := FillRect (x y w h : Z) (c : Color).

Record State := {
  tankX : Z; tankY : Z; tankDir : Z;
  prevTankX : Z; prevTankY : Z;
  bulletActive : bool;
  bulletX : Z; bulletY : Z; bulletDir : Z;
  prevBulletActive : bool;
  prevBulletX : Z; prevBulletY : Z;
  lastTankMove : Z; lastBulletMove : Z; lastFireTime : Z;
  screen : list Op
}.

(** What one pass of the [while(true)] loop of [game1] reads. *)
Record Input := {
  now : Z;          (* millis() at the top of the pass *)
  joyY : Z; joyX : Z;
  firePressed : bool;   (* digitalRead(BTN_3) == LOW *)
  fireClock : Z;    (* millis() inside readJoystickAndFire *)
  backPressed : bool    (* digitalRead(BTN_BACK) == LOW *)
}.

(** The joystick decision: the requested cell and direction, if any. *)
Definition request (s : State) (jy jx : Z) : option (Z * Z * Z) :=
  if jy <? JOY_THRESHOLD_LOW then Some (tankX s, tankY s - 1, 0)
  else if jy >? JOY_THRESHOLD_HIGH then Some (tankX s, tankY s + 1, 2)
  else if jx <? JOY_THRESHOLD_LOW then Some (tankX s - 1, tankY s, 3)
  else if jx >? JOY_THRESHOLD_HIGH then Some (tankX s + 1, tankY s, 1)
  else None.

(** The guard of the move:
    [newX >= 0 && newX < MAP_SIZE && newY >=0 && newY < MAP_SIZE && gameMap[newY][newX] == 0]. *)
Definition passable (newX newY : Z) : bool :=
  in_map newX newY && bool_decide (cell newY newX = Some 0).

Definition readJoystickAndFire (i : Input) (s : State) : State :=
  let '(nx, ny, dir, wantsToMove) :=
    match request s (joyY i) (joyX i) with
    | Some (nx, ny, d) => (nx, ny, d, true)
    | None => (tankX s, tankY s, tankDir s, false)
    end in
  let '(tx, ty) :=
    if wantsToMove && passable nx ny then (nx, ny) else (tankX s, tankY s) in
  let fire :=
    firePressed i && negb (bulletActive s)
    && (u32 (fireClock i - lastFireTime s) >? FIRE_DEBOUNCE) in
  {| tankX := tx; tankY := ty; tankDir := dir;
     prevTankX := prevTankX s; prevTankY := prevTankY s;
     bulletActive := if fire then true else bulletActive s;
     bulletX := if fire then tx else bulletX s;
     bulletY := if fire then ty else bulletY s;
     bulletDir := if fire then dir else bulletDir s;
     prevBulletActive := prevBulletActive s;
     prevBulletX := prevBulletX s; prevBulletY := prevBulletY s;
     lastTankMove := lastTankMove s;
     lastBulletMove := if fire then fireClock i else lastBulletMove s;
     lastFireTime := if fire then fireClock i else lastFireTime s;
     screen := screen s |}.

Definition moveBullet (s : State) : State :=
  if negb (bulletActive s) then s else
  let nbx := if bulletDir s =? 1 then bulletX s + 1
            else if bulletDir s =? 3 then bulletX s - 1 else bulletX s in
  let nby := if bulletDir s =? 0 then bulletY s - 1
            else if bulletDir s =? 2 then bulletY s + 1 else bulletY s in
  let gone := negb (in_map nbx nby) || bool_decide (cell nby nbx = Some 1) in
  {| tankX := tankX s; tankY := tankY s; tankDir := tankDir s;
     prevTankX := prevTankX s; prevTankY := prevTankY s;
     bulletActive := negb gone;
     bulletX := nbx; bulletY := nby; bulletDir := bulletDir s;
     prevBulletActive := prevBulletActive s;
     prevBulletX := prevBulletX s; prevBulletY := prevBulletY s;
     lastTankMove := lastTankMove s;
     lastBulletMove := lastBulletMove s;
     lastFireTime := lastFireTime s;
     screen := screen s |}.

Definition bulletRect (x y : Z) (c : Color) : Op :=
  FillRect (x * CELL_SIZE + CELL_SIZE / 4) (y * CELL_SIZE + CELL_SIZE / 4)
           (CELL_SIZE / 2) (CELL_SIZE / 2) c.

Definition tankRect (x y : Z) (c : Color) : Op :=
  FillRect (x * CELL_SIZE) (y * CELL_SIZE) CELL_SIZE CELL_SIZE c.

Definition drawGame (s : State) : State :=
  let ops :=
    (if negb (prevTankX s =? tankX s) || negb (prevTankY s =? tankY s)
     then [tankRect (prevTankX s) (prevTankY s) BLACK] else [])
    ++ (if prevBulletActive s
        then [bulletRect (prevBulletX s) (prevBulletY s) BLACK] else [])
    ++ [tankRect (tankX s) (tankY s) GREEN]
    ++ (if bulletActive s
        then [bulletRect (bulletX s) (bulletY s) RED] else []) in
  {| tankX := tankX s; tankY := tankY s; tankDir := tankDir s;
     prevTankX := tankX s; prevTankY := tankY s;
     bulletActive := bulletActive s;
     bulletX := bulletX s; bulletY := bulletY s; bulletDir := bulletDir s;
     prevBulletActive := bulletActive s;
     prevBulletX := if bulletActive s then bulletX s else prevBulletX s;
     prevBulletY := if bulletActive s then bulletY s else prevBulletY s;
     lastTankMove := lastTankMove s;
     lastBulletMove := lastBulletMove s;
     lastFireTime := lastFireTime s;
     screen := screen s ++ ops |}.

Definition set_lastTankMove (t : Z) (s : State) : State :=
  {| tankX := tankX s; tankY := tankY s; tankDir := tankDir s;
     prevTankX := prevTankX s; prevTankY := prevTankY s;
     bulletActive := bulletActive s;
     bulletX := bulletX s; bulletY := bulletY s; bulletDir := bulletDir s;
     prevBulletActive := prevBulletActive s;
     prevBulletX := prevBulletX s; prevBulletY := prevBulletY s;
     lastTankMove := t;
     lastBulletMove := lastBulletMove s;
     lastFireTime := lastFireTime s;
     screen := screen s |}.

Definition set_lastBulletMove (t : Z) (s : State) : State :=
  {| tankX := tankX s; tankY := tankY s; tankDir := tankDir s;
     prevTankX := prevTankX s; prevTankY := prevTankY s;
     bulletActive := bulletActive s;
     bulletX := bulletX s; bulletY := bulletY s; bulletDir := bulletDir s;
     prevBulletActive := prevBulletActive s;
     prevBulletX := prevBulletX s; prevBulletY := prevBulletY s;
     lastTankMove := lastTankMove s;
     lastBulletMove := t;
     lastFireTime := lastFireTime s;
     screen := screen s |}.

(** The wall cells drawn once by [game1] before its loop. *)
Definition wallOps : list Op :=
  flat_map (fun y =>
    flat_map (fun x =>
      if bool_decide (cell (Z.of_nat y) (Z.of_nat x) = Some 1)
      then [tankRect (Z.of_nat x) (Z.of_nat y) WHITE] else [])
      (seq 0 8)) (seq 0 8).

(** The state [game1] sets up before its loop; [t0] is [millis()]. *)
Definition init (t0 : Z) : State :=
  {| tankX := 1; tankY := 1; tankDir := 0;
     prevTankX := 1; prevTankY := 1;
     bulletActive := false;
     bulletX := 0; bulletY := 0; bulletDir := 0;
     prevBulletActive := false;
     prevBulletX := 0; prevBulletY := 0;
     lastTankMove := t0; lastBulletMove := t0; lastFireTime := t0;
     screen := wallOps |}.

(** One pass of the loop; [true] when the back button ends the game. *)
Definition pass (i : Input) (s : State) : State * bool :=
  let s := if u32 (now i - lastTankMove s) >? TANK_MOVE_DELAY
           then set_lastTankMove (now i) (readJoystickAndFire i s) else s in
  let s := if u32 (now i - lastBulletMove s) >? BULLET_MOVE_DELAY
           then set_lastBulletMove (now i) (moveBullet s) else s in
  (drawGame s, backPressed i).

Fixpoint run (ins : list Input) (s : State) : State :=
  match ins with
  | [] => s
  | i :: rest =>
      let '(s', stop) := pass i s in
      if stop then s' else run rest s'
  end.

Definition tank_ok (s : State) : Prop :=
  0 <= tankX s < MAP_SIZE /\ 0 <= tankY s < MAP_SIZE /\
  cell (tankY s) (tankX s) = Some 0.

(** A push of the stick toward the wall above the starting cell. *)
Definition wall_push : Input :=
  {| now := 200; joyY := 0; joyX := 2000; firePressed := false;
     fireClock := 200; backPressed := false |}.

End Game1.

(** ** The lane-dodge game ([game2]) *)

Module Bullet.
Record t := { x : float; y : float; vy : float; active : bool }.
Definition set_y (v : float) (b : t) : t :=
  {| x := x b; y := v; vy := vy b; active := active b |}.
Definition set_active (v : bool) (b : t) : t :=
  {| x := x b; y := y b; vy := vy b; active := v |}.
End Bullet.

Module Enemy.
Record t := {
  x : float; y : float; speed : float; active : bool;
  nextFireAt : Z; lane : Z
}.
Definition set_y (v : float) (e : t) : t :=
  {| x := x e; y := v; speed := speed e; active := active e;
     nextFireAt := nextFireAt e; lane := lane e |}.
Definition set_active (v : bool) (e : t) : t :=
  {| x := x e; y := y e; speed := speed e; active := v;
     nextFireAt := nextFireAt e; lane := lane e |}.
Definition set_nextFireAt (v : Z) (e : t) : t :=
  {| x := x e; y := y e; speed := speed e; active := active e;
     nextFireAt := v; lane := lane e |}.
End Enemy.

Module Game2.

Definition FRAME_MS : Z := 20.
Definition CAR_W : Z := 28.
Definition CAR_H : Z := 20.
Definition ROAD_MARGIN : Z := 6.
Definition LANE_COUNT : nat := 7.
Definition MAX_ENEMIES : nat := 4.
Definition MAX_PLAYER_BULLETS : nat := 6.
Definition MAX_ENEMY_BULLETS : nat := 10.
Definition PLAYER_MAX_SPEED : float := F32.of_int 5.
Definition PLAYER_ACCEL : float := F32.lit 6 10.
Definition BASE_ENEMY_SPEED : float := F32.lit 12 10.
Definition ENEMY_FIRE_INTERVAL_MIN : Z := 900.
Definition ENEMY_FIRE_INTERVAL_MAX : Z := 2200.
Definition PLAYER_FIRE_COOLDOWN : Z := 220.
Definition DIFF_GROW_PER_SEC : float := F32.lit 3 100.
Definition SPAWN_MIN_GAP_PIXELS : Z := CAR_H + 24.

(** The renderable slots: the player and the slots of the three pools. *)
Inductive Slot :=
| SPlayer
| SEnemy (e : nat)
| SPlayerBullet (b : nat)
| SEnemyBullet (b : nat).

Global Instance Slot_eq_dec : EqDecision Slot.
Proof. solve_decision. Defined.

(** What a frame does to the outside, in program order.  [Move] marks a
    position update of the physics step; [Erase] is a call of
    [eraseRect] and [Draw] a call of [drawTank], [drawEnemyRect] or
    [drawBullet], each for the slot whose code issues it; [Test] and
    [TestPlayer] mark the evaluation of a collision condition;
    [ExitCheck] is the read of the back button. *)
Inductive Event :=
| Background
| Move (s : Slot)
| Erase (s : Slot) (x y w h : Z)
| Draw (s : Slot) (x y : Z)
| Test (b e : nat) (hit : bool)
| TestPlayer (b : nat) (hit : bool)
| Flash (x y w h : Z)
| Unflash (x y w h : Z)
| Hud (score : Z)
| Spawned (idx : nat) (lane : Z)
| ExitCheck (pressed : bool)
| Banner (score : Z).

Record State := {
  playerX : float;
  playerVel : float;
  lastPlayerFire : Z;
  playerBullets : list Bullet.t;
  enemyBullets : list Bullet.t;
  enemies : list Enemy.t;
  prevPlayerX : Z;
  prevPlayerY : Z;
  prevEnemyX : list Z;
  prevEnemyY : list Z;
  prevPlayerBulletX : list Z;
  prevPlayerBulletY : list Z;
  prevEnemyBulletX : list Z;
  prevEnemyBulletY : list Z;
  isGameOver : bool;
  lastN : float;
  lastFrame : Z;
  startTime : Z;
  lastScoreTick : Z;
  score : Z;
  draws : nat;
  log : list Event
}.

Definition set_playerX (v : float) (g : State) : State :=
  {| playerX := v;
     playerVel := playerVel g;
     lastPlayerFire := lastPlayerFire g;
     playerBullets := playerBullets g;
     enemyBullets := enemyBullets g;
     enemies := enemies g;
     prevPlayerX := prevPlayerX g;
     prevPlayerY := prevPlayerY g;
     prevEnemyX := prevEnemyX g;
     prevEnemyY := prevEnemyY g;
     prevPlayerBulletX := prevPlayerBulletX g;
     prevPlayerBulletY := prevPlayerBulletY g;
     prevEnemyBulletX := prevEnemyBulletX g;
     prevEnemyBulletY := prevEnemyBulletY g;
     isGameOver := isGameOver g;
     lastN := lastN g;
     lastFrame := lastFrame g;
     startTime := startTime g;
     lastScoreTick := lastScoreTick g;
     score := score g;
     draws := draws g;
     log := log g |}.

Definition set_playerVel (v : float) (g : State) : State :=
  {| playerX := playerX g;
     playerVel := v;
     lastPlayerFire := lastPlayerFire g;
     playerBullets := playerBullets g;
     enemyBullets := enemyBullets g;
     enemies := enemies g;
     prevPlayerX := prevPlayerX g;
     prevPlayerY := prevPlayerY g;
     prevEnemyX := prevEnemyX g;
     prevEnemyY := prevEnemyY g;
     prevPlayerBulletX := prevPlayerBulletX g;
     prevPlayerBulletY := prevPlayerBulletY g;
     prevEnemyBulletX := prevEnemyBulletX g;
     prevEnemyBulletY := prevEnemyBulletY g;
     isGameOver := isGameOver g;
     lastN := lastN g;
     lastFrame := lastFrame g;
     startTime := startTime g;
     lastScoreTick := lastScoreTick g;
     score := score g;
     draws := draws g;
     log := log g |}.

Definition set_lastPlayerFire (v : Z) (g : State) : State :=
  {| playerX := playerX g;
     playerVel := playerVel g;
     lastPlayerFire := v;
     playerBullets := playerBullets g;
     enemyBullets := enemyBullets g;
     enemies := enemies g;
     prevPlayerX := prevPlayerX g;
     prevPlayerY := prevPlayerY g;
     prevEnemyX := prevEnemyX g;
     prevEnemyY := prevEnemyY g;
     prevPlayerBulletX := prevPlayerBulletX g;
     prevPlayerBulletY := prevPlayerBulletY g;
     prevEnemyBulletX := prevEnemyBulletX g;
     prevEnemyBulletY := prevEnemyBulletY g;
     isGameOver := isGameOver g;
     lastN := lastN g;
     lastFrame := lastFrame g;
     startTime := startTime g;
     lastScoreTick := lastScoreTick g;
     score := score g;
     draws := draws g;
     log := log g |}.

Definition set_playerBullets (v : list Bullet.t) (g : State) : State :=
  {| playerX := playerX g;
     playerVel := playerVel g;
     lastPlayerFire := lastPlayerFire g;
     playerBullets := v;
     enemyBullets := enemyBullets g;
     enemies := enemies g;
     prevPlayerX := prevPlayerX g;
     prevPlayerY := prevPlayerY g;
     prevEnemyX := prevEnemyX g;
     prevEnemyY := prevEnemyY g;
     prevPlayerBulletX := prevPlayerBulletX g;
     prevPlayerBulletY := prevPlayerBulletY g;
     prevEnemyBulletX := prevEnemyBulletX g;
     prevEnemyBulletY := prevEnemyBulletY g;
     isGameOver := isGameOver g;
     lastN := lastN g;
     lastFrame := lastFrame g;
     startTime := startTime g;
     lastScoreTick := lastScoreTick g;
     score := score g;
     draws := draws g;
     log := log g |}.

Definition set_enemyBullets (v : list Bullet.t) (g : State) : State :=
  {| playerX := playerX g;
     playerVel := playerVel g;
     lastPlayerFire := lastPlayerFire g;
     playerBullets := playerBullets g;
     enemyBullets := v;
     enemies := enemies g;
     prevPlayerX := prevPlayerX g;
     prevPlayerY := prevPlayerY g;
     prevEnemyX := prevEnemyX g;
     prevEnemyY := prevEnemyY g;
     prevPlayerBulletX := prevPlayerBulletX g;
     prevPlayerBulletY := prevPlayerBulletY g;
     prevEnemyBulletX := prevEnemyBulletX g;
     prevEnemyBulletY := prevEnemyBulletY g;
     isGameOver := isGameOver g;
     lastN := lastN g;
     lastFrame := lastFrame g;
     startTime := startTime g;
     lastScoreTick := lastScoreTick g;
     score := score g;
     draws := draws g;
     log := log g |}.

Definition set_enemies (v : list Enemy.t) (g : State) : State :=
  {| playerX := playerX g;
     playerVel := playerVel g;
     lastPlayerFire := lastPlayerFire g;
     playerBullets := playerBullets g;
     enemyBullets := enemyBullets g;
     enemies := v;
     prevPlayerX := prevPlayerX g;
     prevPlayerY := prevPlayerY g;
     prevEnemyX := prevEnemyX g;
     prevEnemyY := prevEnemyY g;
     prevPlayerBulletX := prevPlayerBulletX g;
     prevPlayerBulletY := prevPlayerBulletY g;
     prevEnemyBulletX := prevEnemyBulletX g;
     prevEnemyBulletY := prevEnemyBulletY g;
     isGameOver := isGameOver g;
     lastN := lastN g;
     lastFrame := lastFrame g;
     startTime := startTime g;
     lastScoreTick := lastScoreTick g;
     score := score g;
     draws := draws g;
     log := log g |}.

Definition set_prevPlayerX (v : Z) (g : State) : State :=
  {| playerX := playerX g;
     playerVel := playerVel g;
     lastPlayerFire := lastPlayerFire g;
     playerBullets := playerBullets g;
     enemyBullets := enemyBullets g;
     enemies := enemies g;
     prevPlayerX := v;
     prevPlayerY := prevPlayerY g;
     prevEnemyX := prevEnemyX g;
     prevEnemyY := prevEnemyY g;
     prevPlayerBulletX := prevPlayerBulletX g;
     prevPlayerBulletY := prevPlayerBulletY g;
     prevEnemyBulletX := prevEnemyBulletX g;
     prevEnemyBulletY := prevEnemyBulletY g;
     isGameOver := isGameOver g;
     lastN := lastN g;
     lastFrame := lastFrame g;
     startTime := startTime g;
     lastScoreTick := lastScoreTick g;
     score := score g;
     draws := draws g;
     log := log g |}.

Definition set_prevPlayerY (v : Z) (g : State) : State :=
  {| playerX := playerX g;
     playerVel := playerVel g;
     lastPlayerFire := lastPlayerFire g;
     playerBullets := playerBullets g;
     enemyBullets := enemyBullets g;
     enemies := enemies g;
     prevPlayerX := prevPlayerX g;
     prevPlayerY := v;
     prevEnemyX := prevEnemyX g;
     prevEnemyY := prevEnemyY g;
     prevPlayerBulletX := prevPlayerBulletX g;
     prevPlayerBulletY := prevPlayerBulletY g;
     prevEnemyBulletX := prevEnemyBulletX g;
     prevEnemyBulletY := prevEnemyBulletY g;
     isGameOver := isGameOver g;
     lastN := lastN g;
     lastFrame := lastFrame g;
     startTime := startTime g;
     lastScoreTick := lastScoreTick g;
     score := score g;
     draws := draws g;
     log := log g |}.

Definition set_prevEnemyX (v : list Z) (g : State) : State :=
  {| playerX := playerX g;
     playerVel := playerVel g;
     lastPlayerFire := lastPlayerFire g;
     playerBullets := playerBullets g;
     enemyBullets := enemyBullets g;
     enemies := enemies g;
     prevPlayerX := prevPlayerX g;
     prevPlayerY := prevPlayerY g;
     prevEnemyX := v;
     prevEnemyY := prevEnemyY g;
     prevPlayerBulletX := prevPlayerBulletX g;
     prevPlayerBulletY := prevPlayerBulletY g;
     prevEnemyBulletX := prevEnemyBulletX g;
     prevEnemyBulletY := prevEnemyBulletY g;
     isGameOver := isGameOver g;
     lastN := lastN g;
     lastFrame := lastFrame g;
     startTime := startTime g;
     lastScoreTick := lastScoreTick g;
     score := score g;
     draws := draws g;
     log := log g |}.

Definition set_prevEnemyY (v : list Z) (g : State) : State :=
  {| playerX := playerX g;
     playerVel := playerVel g;
     lastPlayerFire := lastPlayerFire g;
     playerBullets := playerBullets g;
     enemyBullets := enemyBullets g;
     enemies := enemies g;
     prevPlayerX := prevPlayerX g;
     prevPlayerY := prevPlayerY g;
     prevEnemyX := prevEnemyX g;
     prevEnemyY := v;
     prevPlayerBulletX := prevPlayerBulletX g;
     prevPlayerBulletY := prevPlayerBulletY g;
     prevEnemyBulletX := prevEnemyBulletX g;
     prevEnemyBulletY := prevEnemyBulletY g;
     isGameOver := isGameOver g;
     lastN := lastN g;
     lastFrame := lastFrame g;
     startTime := startTime g;
     lastScoreTick := lastScoreTick g;
     score := score g;
     draws := draws g;
     log := log g |}.

Definition set_prevPlayerBulletX (v : list Z) (g : State) : State :=
  {| playerX := playerX g;
     playerVel := playerVel g;
     lastPlayerFire := lastPlayerFire g;
     playerBullets := playerBullets g;
     enemyBullets := enemyBullets g;
     enemies := enemies g;
     prevPlayerX := prevPlayerX g;
     prevPlayerY := prevPlayerY g;
     prevEnemyX := prevEnemyX g;
     prevEnemyY := prevEnemyY g;
     prevPlayerBulletX := v;
     prevPlayerBulletY := prevPlayerBulletY g;
     prevEnemyBulletX := prevEnemyBulletX g;
     prevEnemyBulletY := prevEnemyBulletY g;
     isGameOver := isGameOver g;
     lastN := lastN g;
     lastFrame := lastFrame g;
     startTime := startTime g;
     lastScoreTick := lastScoreTick g;
     score := score g;
     draws := draws g;
     log := log g |}.

Definition set_prevPlayerBulletY (v : list Z) (g : State) : State :=
  {| playerX := playerX g;
     playerVel := playerVel g;
     lastPlayerFire := lastPlayerFire g;
     playerBullets := playerBullets g;
     enemyBullets := enemyBullets g;
     enemies := enemies g;
     prevPlayerX := prevPlayerX g;
     prevPlayerY := prevPlayerY g;
     prevEnemyX := prevEnemyX g;
     prevEnemyY := prevEnemyY g;
     prevPlayerBulletX := prevPlayerBulletX g;
     prevPlayerBulletY := v;
     prevEnemyBulletX := prevEnemyBulletX g;
     prevEnemyBulletY := prevEnemyBulletY g;
     isGameOver := isGameOver g;
     lastN := lastN g;
     lastFrame := lastFrame g;
     startTime := startTime g;
     lastScoreTick := lastScoreTick g;
     score := score g;
     draws := draws g;
     log := log g |}.

Definition set_prevEnemyBulletX (v : list Z) (g : State) : State :=
  {| playerX := playerX g;
     playerVel := playerVel g;
     lastPlayerFire := lastPlayerFire g;
     playerBullets := playerBullets g;
     enemyBullets := enemyBullets g;
     enemies := enemies g;
     prevPlayerX := prevPlayerX g;
     prevPlayerY := prevPlayerY g;
     prevEnemyX := prevEnemyX g;
     prevEnemyY := prevEnemyY g;
     prevPlayerBulletX := prevPlayerBulletX g;
     prevPlayerBulletY := prevPlayerBulletY g;
     prevEnemyBulletX := v;
     prevEnemyBulletY := prevEnemyBulletY g;
     isGameOver := isGameOver g;
     lastN := lastN g;
     lastFrame := lastFrame g;
     startTime := startTime g;
     lastScoreTick := lastScoreTick g;
     score := score g;
     draws := draws g;
     log := log g |}.

Definition set_prevEnemyBulletY (v : list Z) (g : State) : State :=
  {| playerX := playerX g;
     playerVel := playerVel g;
     lastPlayerFire := lastPlayerFire g;
     playerBullets := playerBullets g;
     enemyBullets := enemyBullets g;
     enemies := enemies g;
     prevPlayerX := prevPlayerX g;
     prevPlayerY := prevPlayerY g;
     prevEnemyX := prevEnemyX g;
     prevEnemyY := prevEnemyY g;
     prevPlayerBulletX := prevPlayerBulletX g;
     prevPlayerBulletY := prevPlayerBulletY g;
     prevEnemyBulletX := prevEnemyBulletX g;
     prevEnemyBulletY := v;
     isGameOver := isGameOver g;
     lastN := lastN g;
     lastFrame := lastFrame g;
     startTime := startTime g;
     lastScoreTick := lastScoreTick g;
     score := score g;
     draws := draws g;
     log := log g |}.

Definition set_isGameOver (v : bool) (g : State) : State :=
  {| playerX := playerX g;
     playerVel := playerVel g;
     lastPlayerFire := lastPlayerFire g;
     playerBullets := playerBullets g;
     enemyBullets := enemyBullets g;
     enemies := enemies g;
     prevPlayerX := prevPlayerX g;
     prevPlayerY := prevPlayerY g;
     prevEnemyX := prevEnemyX g;
     prevEnemyY := prevEnemyY g;
     prevPlayerBulletX := prevPlayerBulletX g;
     prevPlayerBulletY := prevPlayerBulletY g;
     prevEnemyBulletX := prevEnemyBulletX g;
     prevEnemyBulletY := prevEnemyBulletY g;
     isGameOver := v;
     lastN := lastN g;
     lastFrame := lastFrame g;
     startTime := startTime g;
     lastScoreTick := lastScoreTick g;
     score := score g;
     draws := draws g;
     log := log g |}.

Definition set_lastN (v : float) (g : State) : State :=
  {| playerX := playerX g;
     playerVel := playerVel g;
     lastPlayerFire := lastPlayerFire g;
     playerBullets := playerBullets g;
     enemyBullets := enemyBullets g;
     enemies := enemies g;
     prevPlayerX := prevPlayerX g;
     prevPlayerY := prevPlayerY g;
     prevEnemyX := prevEnemyX g;
     prevEnemyY := prevEnemyY g;
     prevPlayerBulletX := prevPlayerBulletX g;
     prevPlayerBulletY := prevPlayerBulletY g;
     prevEnemyBulletX := prevEnemyBulletX g;
     prevEnemyBulletY := prevEnemyBulletY g;
     isGameOver := isGameOver g;
     lastN := v;
     lastFrame := lastFrame g;
     startTime := startTime g;
     lastScoreTick := lastScoreTick g;
     score := score g;
     draws := draws g;
     log := log g |}.

Definition set_lastFrame (v : Z) (g : State) : State :=
  {| playerX := playerX g;
     playerVel := playerVel g;
     lastPlayerFire := lastPlayerFire g;
     playerBullets := playerBullets g;
     enemyBullets := enemyBullets g;
     enemies := enemies g;
     prevPlayerX := prevPlayerX g;
     prevPlayerY := prevPlayerY g;
     prevEnemyX := prevEnemyX g;
     prevEnemyY := prevEnemyY g;
     prevPlayerBulletX := prevPlayerBulletX g;
     prevPlayerBulletY := prevPlayerBulletY g;
     prevEnemyBulletX := prevEnemyBulletX g;
     prevEnemyBulletY := prevEnemyBulletY g;
     isGameOver := isGameOver g;
     lastN := lastN g;
     lastFrame := v;
     startTime := startTime g;
     lastScoreTick := lastScoreTick g;
     score := score g;
     draws := draws g;
     log := log g |}.

Definition set_lastScoreTick (v : Z) (g : State) : State :=
  {| playerX := playerX g;
     playerVel := playerVel g;
     lastPlayerFire := lastPlayerFire g;
     playerBullets := playerBullets g;
     enemyBullets := enemyBullets g;
     enemies := enemies g;
     prevPlayerX := prevPlayerX g;
     prevPlayerY := prevPlayerY g;
     prevEnemyX := prevEnemyX g;
     prevEnemyY := prevEnemyY g;
     prevPlayerBulletX := prevPlayerBulletX g;
     prevPlayerBulletY := prevPlayerBulletY g;
     prevEnemyBulletX := prevEnemyBulletX g;
     prevEnemyBulletY := prevEnemyBulletY g;
     isGameOver := isGameOver g;
     lastN := lastN g;
     lastFrame := lastFrame g;
     startTime := startTime g;
     lastScoreTick := v;
     score := score g;
     draws := draws g;
     log := log g |}.

Definition set_score (v : Z) (g : State) : State :=
  {| playerX := playerX g;
     playerVel := playerVel g;
     lastPlayerFire := lastPlayerFire g;
     playerBullets := playerBullets g;
     enemyBullets := enemyBullets g;
     enemies := enemies g;
     prevPlayerX := prevPlayerX g;
     prevPlayerY := prevPlayerY g;
     prevEnemyX := prevEnemyX g;
     prevEnemyY := prevEnemyY g;
     prevPlayerBulletX := prevPlayerBulletX g;
     prevPlayerBulletY := prevPlayerBulletY g;
     prevEnemyBulletX := prevEnemyBulletX g;
     prevEnemyBulletY := prevEnemyBulletY g;
     isGameOver := isGameOver g;
     lastN := lastN g;
     lastFrame := lastFrame g;
     startTime := startTime g;
     lastScoreTick := lastScoreTick g;
     score := v;
     draws := draws g;
     log := log g |}.

Definition set_draws (v : nat) (g : State) : State :=
  {| playerX := playerX g;
     playerVel := playerVel g;
     lastPlayerFire := lastPlayerFire g;
     playerBullets := playerBullets g;
     enemyBullets := enemyBullets g;
     enemies := enemies g;
     prevPlayerX := prevPlayerX g;
     prevPlayerY := prevPlayerY g;
     prevEnemyX := prevEnemyX g;
     prevEnemyY := prevEnemyY g;
     prevPlayerBulletX := prevPlayerBulletX g;
     prevPlayerBulletY := prevPlayerBulletY g;
     prevEnemyBulletX := prevEnemyBulletX g;
     prevEnemyBulletY := prevEnemyBulletY g;
     isGameOver := isGameOver g;
     lastN := lastN g;
     lastFrame := lastFrame g;
     startTime := startTime g;
     lastScoreTick := lastScoreTick g;
     score := score g;
     draws := v;
     log := log g |}.

Definition set_log (v : list Event) (g : State) : State :=
  {| playerX := playerX g;
     playerVel := playerVel g;
     lastPlayerFire := lastPlayerFire g;
     playerBullets := playerBullets g;
     enemyBullets := enemyBullets g;
     enemies := enemies g;
     prevPlayerX := prevPlayerX g;
     prevPlayerY := prevPlayerY g;
     prevEnemyX := prevEnemyX g;
     prevEnemyY := prevEnemyY g;
     prevPlayerBulletX := prevPlayerBulletX g;
     prevPlayerBulletY := prevPlayerBulletY g;
     prevEnemyBulletX := prevEnemyBulletX g;
     prevEnemyBulletY := prevEnemyBulletY g;
     isGameOver := isGameOver g;
     lastN := lastN g;
     lastFrame := lastFrame g;
     startTime := startTime g;
     lastScoreTick := lastScoreTick g;
     score := score g;
     draws := draws g;
     log := v |}.

Definition emit (e : Event) (g : State) : State := set_log (log g ++ [e]) g.

(** What one pass of the [while(true)] loop of [game2] reads. *)
Record Input := {
  now : Z;           (* millis() at the top of the pass *)
  raw : Z;           (* analogRead(JOY_AXIS) *)
  btn3 : bool;       (* digitalRead(BTN_3) == LOW *)
  btnBack : bool;    (* digitalRead(BTN_BACK) == LOW *)
  spawnClock : Z     (* millis() inside spawnEnemiesWave *)
}.

Inductive Outcome := Continue | Exit | GameOver.

(** What a session takes from its collaborators once and for all:
    [tft.width()], [tft.height()], the calibration measured before the
    loop, and the raw draws of the random source. *)
Class Console := {
  scrW : Z;
  scrH : Z;
  calib : JoystickCalib;
  entropy : nat -> Z
}.

Section Session.

Context `{Console}.

Definition roadX : Z := ROAD_MARGIN.
Definition roadW : Z := scrW - 2 * ROAD_MARGIN.
Definition laneW : float :=
  F32.div (F32.of_int roadW) (F32.of_int (Z.of_nat LANE_COUNT)).
Definition playerY : Z := scrH - CAR_H - 8.

(** Arduino's [random(howsmall, howbig)] on the [k]-th raw draw. *)
Definition random (k : nat) (lo hi : Z) : Z :=
  if hi <=? lo then lo else lo + entropy k mod (hi - lo).

Definition draw (lo hi : Z) (g : State) : Z * State :=
  (random (draws g) lo hi, set_draws (S (draws g)) g).

(** The first inactive slot of a pool, as the linear scans find it. *)
Definition free_bullet (l : list Bullet.t) : option nat :=
  fst <$> list_find (fun b => Bullet.active b = false) l.

Definition free_enemy (l : list Enemy.t) : option nat :=
  fst <$> list_find (fun e => Enemy.active e = false) l.

Definition at_ (l : list Z) (i : nat) : Z := default 0 (l !! i).

(** *** Spawn director *)

(** [tmp=a[i]; a[i]=a[j]; a[j]=tmp;] *)
Definition swap (i j : nat) (a : list Z) : list Z :=
  match a !! i, a !! j with
  | Some ai, Some aj => <[j := ai]> (<[i := aj]> a)
  | _, _ => a
  end.

(** [for(i=n;i>0;i--){ j=random(0,i+1); swap a[i], a[j] }] *)
Fixpoint shuffle (i : nat) (a : list Z) (g : State) : list Z * State :=
  match i with
  | O => (a, g)
  | S i' =>
      let '(j, g) := draw 0 (Z.of_nat i + 1) g in
      shuffle i' (swap i (Z.to_nat j) a) g
  end.

Definition lanes : list Z := Z.of_nat <$> seq 0 LANE_COUNT.

(** The enemy written into slot [idx] as the [spawned]-th of a wave. *)
Definition new_enemy (lane : Z) (spawned : nat) (difficulty : float)
    (speedDraw fireDraw clock : Z) : Enemy.t :=
  {| Enemy.x :=
       F32.add (F32.add (F32.of_int roadX) (F32.mul (F32.of_int lane) laneW))
               (F32.div (F32.sub laneW (F32.of_int CAR_W)) (F32.of_int 2));
     Enemy.y := F32.of_int (- (Z.of_nat spawned * (CAR_H + 8) + 8));
     Enemy.speed :=
       F32.add (F32.add BASE_ENEMY_SPEED
                        (F32.div (F32.of_int speedDraw) (F32.of_int 50)))
               (F32.mul difficulty (F32.lit 12 100));
     Enemy.active := true;
     Enemy.nextFireAt := u32 (clock + fireDraw);
     Enemy.lane := lane |}.

(** The loop [for(i=0;i<ac&&spawned<MAX_ENEMIES;i++)] over [avail];
    [spawned] grows with [i], and [idx<0] breaks out. *)
Fixpoint spawn_loop (avail : list Z) (spawned : nat) (difficulty : float)
    (clock : Z) (g : State) : State :=
  match avail with
  | [] => g
  | lane :: rest =>
      if (spawned <? MAX_ENEMIES)%nat then
        match free_enemy (enemies g) with
        | None => g
        | Some idx =>
            let '(sd, g) := draw 0 50 g in
            let '(fd, g) :=
              draw ENEMY_FIRE_INTERVAL_MIN ENEMY_FIRE_INTERVAL_MAX g in
            let en := new_enemy lane spawned difficulty sd fd clock in
            let g := set_enemies (<[idx := en]> (enemies g)) g in
            let g := emit (Spawned idx lane) g in
            spawn_loop rest (S spawned) difficulty clock g
        end
      else g
  end.

(** The lanes a wave may use, in the order the spawn loop visits them,
    with the gap lane it reserves; the clock is read once per call. *)
Definition wave_plan (g : State) : Z * list Z * State :=
  let '(_, g) := shuffle (LANE_COUNT - 1) lanes g in
  let '(gapLane, g) := draw 0 (Z.of_nat LANE_COUNT) g in
  let avail := filter (fun i => i <> gapLane) lanes in
  let '(avail, g) := shuffle (length avail - 1) avail g in
  (gapLane, avail, g).

Definition spawnEnemiesWave (difficulty : float) (clock : Z) (g : State)
    : State :=
  let '(_, avail, g) := wave_plan g in
  spawn_loop avail 0 difficulty clock g.

(** *** Physics and AI step *)

Definition read_joystick (rawSample : Z) (g : State) : State :=
  set_lastN (smooth (lastN g) (control calib rawSample)) g.

Definition approach (vel target : float) : float :=
  if F32.ltb vel target then
    let v := F32.add vel PLAYER_ACCEL in
    if F32.gtb v target then target else v
  else if F32.gtb vel target then
    let v := F32.sub vel PLAYER_ACCEL in
    if F32.ltb v target then target else v
  else vel.

Definition clamp_player (px : float) : float :=
  let px := if F32.ltb px (F32.of_int roadX) then F32.of_int roadX else px in
  if F32.gtb px (F32.of_int (roadX + roadW - CAR_W))
  then F32.of_int (roadX + roadW - CAR_W) else px.

Definition move_player (g : State) : State :=
  let targetVel := F32.mul (lastN g) PLAYER_MAX_SPEED in
  let g := set_playerVel (approach (playerVel g) targetVel) g in
  let oldPlayerXf := playerX g in
  let g := set_playerX (clamp_player (F32.add (playerX g) (playerVel g))) g in
  let g := emit (Move SPlayer) g in
  if negb (F32.to_int oldPlayerXf =? F32.to_int (playerX g))
  then emit (Erase SPlayer (prevPlayerX g) (prevPlayerY g - 6)
                   CAR_W (CAR_H + 6)) g
  else g.

Definition player_fire (i : Input) (g : State) : State :=
  if btn3 i && (u32 (now i - lastPlayerFire g) >=? PLAYER_FIRE_COOLDOWN)
     && negb (isGameOver g)
  then
    match free_bullet (playerBullets g) with
    | None => g
    | Some bIdx =>
        let b := {| Bullet.active := true;
                    Bullet.x := F32.add (playerX g) (F32.of_int (CAR_W / 2));
                    Bullet.y := F32.of_int (playerY - 6);
                    Bullet.vy := F32.lit (-65) 10 |} in
        let g := set_playerBullets (<[bIdx := b]> (playerBullets g)) g in
        let g := set_prevPlayerBulletX (<[bIdx := -100]> (prevPlayerBulletX g)) g in
        let g := set_prevPlayerBulletY (<[bIdx := -100]> (prevPlayerBulletY g)) g in
        set_lastPlayerFire (now i) g
    end
  else g.

(** [float speedMultiplier=1.0f;] *)
Definition speedMultiplier : float := F32.one.

(** The bullet an enemy fires: below its hull, speed growing with the
    difficulty. *)
Definition enemy_shot (en : Enemy.t) (difficulty : float) : Bullet.t :=
  {| Bullet.active := true;
     Bullet.x := F32.add (Enemy.x en) (F32.of_int (CAR_W / 2));
     Bullet.y := F32.add (F32.add (Enemy.y en) (F32.of_int CAR_H))
                         (F32.of_int 4);
     Bullet.vy := F32.add (F32.of_int 3)
                          (F32.mul difficulty (F32.lit 6 10)) |}.

(** The fire branch of the enemy loop: a free enemy-bullet slot is
    taken when there is one, and the enemy is rescheduled either way. *)
Definition enemy_fire (nowT : Z) (difficulty : float) (e : nat)
    (en : Enemy.t) (g : State) : State :=
  let g :=
    match free_bullet (enemyBullets g) with
    | None => g
    | Some eb =>
        let g := set_enemyBullets
                   (<[eb := enemy_shot en difficulty]> (enemyBullets g)) g in
        let g := set_prevEnemyBulletX (<[eb := -100]> (prevEnemyBulletX g)) g in
        set_prevEnemyBulletY (<[eb := -100]> (prevEnemyBulletY g)) g
    end in
  let '(d, g) := draw ENEMY_FIRE_INTERVAL_MIN ENEMY_FIRE_INTERVAL_MAX g in
  set_enemies (<[e := Enemy.set_nextFireAt (u32 (nowT + d)) en]> (enemies g)) g.

(** The body of the enemy loop for slot [e].  The local [maxEnemyY] of
    the source is written there and never read; it is left out. *)
Definition enemy_step (nowT : Z) (difficulty : float) (g : State) (e : nat)
    : State :=
  match enemies g !! e with
  | None => g
  | Some en =>
      if negb (Enemy.active en) then g else
      let g := if at_ (prevEnemyY g) e >=? -1000
               then emit (Erase (SEnemy e) (at_ (prevEnemyX g) e)
                                (at_ (prevEnemyY g) e) CAR_W (CAR_H + 4)) g
               else g in
      let en := Enemy.set_y
                  (F32.add (Enemy.y en) (F32.mul (Enemy.speed en) speedMultiplier))
                  en in
      let g := set_enemies (<[e := en]> (enemies g)) g in
      let g := emit (Move (SEnemy e)) g in
      let ex := F32.to_int (Enemy.x en) in
      let ey := F32.to_int (Enemy.y en) in
      let g := emit (Draw (SEnemy e) ex ey) g in
      let g := set_prevEnemyX (<[e := ex]> (prevEnemyX g)) g in
      let g := set_prevEnemyY (<[e := ey]> (prevEnemyY g)) g in
      if F32.gtb (Enemy.y en) (F32.of_int scrH) then
        let g := set_enemies (<[e := Enemy.set_active false en]> (enemies g)) g in
        emit (Erase (SEnemy e) ex ey CAR_W (CAR_H + 4)) g
      else if to_long nowT >=? to_long (Enemy.nextFireAt en) then
        enemy_fire nowT difficulty e en g
      else g
  end.

Definition enemies_step (nowT : Z) (difficulty : float) (g : State) : State :=
  fold_left (enemy_step nowT difficulty) (seq 0 MAX_ENEMIES) g.

(** The body of the player-bullet loop for slot [b]. *)
Definition player_bullet_step (g : State) (b : nat) : State :=
  match playerBullets g !! b with
  | None => g
  | Some bu =>
      if negb (Bullet.active bu) then g else
      let g := if at_ (prevPlayerBulletY g) b >=? 0
               then emit (Erase (SPlayerBullet b) (at_ (prevPlayerBulletX g) b - 3)
                                (at_ (prevPlayerBulletY g) b - 6) 6 12) g
               else g in
      let bu := Bullet.set_y (F32.add (Bullet.y bu) (Bullet.vy bu)) bu in
      let g := set_playerBullets (<[b := bu]> (playerBullets g)) g in
      let g := emit (Move (SPlayerBullet b)) g in
      let bx := F32.to_int (Bullet.x bu) in
      let by_ := F32.to_int (Bullet.y bu) in
      let g := emit (Draw (SPlayerBullet b) bx by_) g in
      let g := set_prevPlayerBulletX (<[b := bx]> (prevPlayerBulletX g)) g in
      let g := set_prevPlayerBulletY (<[b := by_]> (prevPlayerBulletY g)) g in
      if F32.ltb (Bullet.y bu) (F32.of_int (-12)) then
        let g := set_playerBullets
                   (<[b := Bullet.set_active false bu]> (playerBullets g)) g in
        emit (Erase (SPlayerBullet b) (bx - 3) (by_ - 6) 6 12) g
      else g
  end.

Definition player_bullets_step (g : State) : State :=
  fold_left player_bullet_step (seq 0 MAX_PLAYER_BULLETS) g.

(** The body of the enemy-bullet loop for slot [b]. *)
Definition enemy_bullet_step (g : State) (b : nat) : State :=
  match enemyBullets g !! b with
  | None => g
  | Some bu =>
      if negb (Bullet.active bu) then g else
      let g := if at_ (prevEnemyBulletY g) b >=? 0
               then emit (Erase (SEnemyBullet b) (at_ (prevEnemyBulletX g) b - 3)
                                (at_ (prevEnemyBulletY g) b - 6) 6 12) g
               else g in
      let bu := Bullet.set_y (F32.add (Bullet.y bu) (Bullet.vy bu)) bu in
      let g := set_enemyBullets (<[b := bu]> (enemyBullets g)) g in
      let g := emit (Move (SEnemyBullet b)) g in
      let bx := F32.to_int (Bullet.x bu) in
      let by_ := F32.to_int (Bullet.y bu) in
      let g := emit (Draw (SEnemyBullet b) bx by_) g in
      let g := set_prevEnemyBulletX (<[b := bx]> (prevEnemyBulletX g)) g in
      let g := set_prevEnemyBulletY (<[b := by_]> (prevEnemyBulletY g)) g in
      if F32.gtb (Bullet.y bu) (F32.of_int (scrH + 12)) then
        let g := set_enemyBullets
                   (<[b := Bullet.set_active false bu]> (enemyBullets g)) g in
        emit (Erase (SEnemyBullet b) (bx - 3) (by_ - 6) 6 12) g
      else g
  end.

Definition enemy_bullets_step (g : State) : State :=
  fold_left enemy_bullet_step (seq 0 MAX_ENEMY_BULLETS) g.

(** *** Collision engine *)

(** The condition of both collision loops, for a bullet at [(bx,by)]
    and a car-sized rectangle at [(rx,ry)]:
    [!(bx+2<rx||bx-2>rx+CAR_W||by+4<ry||by-4>ry+CAR_H)]. *)
Definition hits (bx by_ rx ry : Z) : bool :=
  negb ((bx + 2 <? rx) || (bx - 2 >? rx + CAR_W)
        || (by_ + 4 <? ry) || (by_ - 4 >? ry + CAR_H)).

(** The rectangles the condition compares: the bullet as the box of
    half-width 2 and half-height 4 around its position, the car as the
    box from its corner to corner plus [(CAR_W, CAR_H)], bounds
    included.  They overlap when they share a point. *)
Definition overlap (bx by_ rx ry : Z) : Prop :=
  exists px py,
    (bx - 2 <= px <= bx + 2 /\ by_ - 4 <= py <= by_ + 4) /\
    (rx <= px <= rx + CAR_W /\ ry <= py <= ry + CAR_H).

Definition bullet_hits_enemy (bu : Bullet.t) (en : Enemy.t) : bool :=
  hits (F32.to_int (Bullet.x bu)) (F32.to_int (Bullet.y bu))
       (F32.to_int (Enemy.x en)) (F32.to_int (Enemy.y en)).

(** The body of the inner loop: player bullet [b] against enemy [e]. *)
Definition collide_pair (b : nat) (g : State) (e : nat) : State :=
  match enemies g !! e, playerBullets g !! b with
  | Some en, Some bu =>
      if negb (Enemy.active en) then g else
      let bx := F32.to_int (Bullet.x bu) in
      let by_ := F32.to_int (Bullet.y bu) in
      let ex := F32.to_int (Enemy.x en) in
      let ey := F32.to_int (Enemy.y en) in
      if hits bx by_ ex ey then
        let g := emit (Test b e true) g in
        let g := set_enemies (<[e := Enemy.set_active false en]> (enemies g)) g in
        let g := set_playerBullets
                   (<[b := Bullet.set_active false bu]> (playerBullets g)) g in
        let g := emit (Erase (SEnemy e) ex ey CAR_W (CAR_H + 4)) g in
        let g := emit (Erase (SPlayerBullet b) (at_ (prevPlayerBulletX g) b - 3)
                             (at_ (prevPlayerBulletY g) b - 6) 6 12) g in
        let g := set_score (u32 (score g + 10)) g in
        let g := emit (Flash (ex + 4) (ey + 4) (CAR_W - 8) (CAR_H - 8)) g in
        emit (Unflash (ex + 4) (ey + 4) (CAR_W - 8) (CAR_H - 8)) g
      else emit (Test b e false) g
  | _, _ => g
  end.

(** The body of the outer loop: the activity of bullet [b] is read
    once, before its scan of the enemies. *)
Definition collide_bullet (g : State) (b : nat) : State :=
  match playerBullets g !! b with
  | Some bu =>
      if negb (Bullet.active bu) then g
      else fold_left (collide_pair b) (seq 0 MAX_ENEMIES) g
  | None => g
  end.

Definition collide_enemies (g : State) : State :=
  fold_left collide_bullet (seq 0 MAX_PLAYER_BULLETS) g.

(** Enemy bullets against the player; the first hit ends the scan
    ([break]). *)
Fixpoint collide_player_from (bs : list nat) (g : State) : State :=
  match bs with
  | [] => g
  | b :: rest =>
      match enemyBullets g !! b with
      | None => collide_player_from rest g
      | Some bu =>
          if negb (Bullet.active bu) then collide_player_from rest g else
          let bx := F32.to_int (Bullet.x bu) in
          let by_ := F32.to_int (Bullet.y bu) in
          if hits bx by_ (F32.to_int (playerX g)) playerY then
            let g := emit (TestPlayer b true) g in
            let g := set_enemyBullets
                       (<[b := Bullet.set_active false bu]> (enemyBullets g)) g in
            let g := emit (Erase (SEnemyBullet b) (at_ (prevEnemyBulletX g) b - 3)
                                 (at_ (prevEnemyBulletY g) b - 6) 6 12) g in
            set_isGameOver true g
          else collide_player_from rest (emit (TestPlayer b false) g)
      end
  end.

Definition collide_player (g : State) : State :=
  collide_player_from (seq 0 MAX_ENEMY_BULLETS) g.



(** *** Session controller *)

(** [if(now-lastScoreTick>=200){score++; lastScoreTick=now;}] and the
    redraw of the score line. *)
Definition score_tick (nowT : Z) (g : State) : State :=
  if u32 (nowT - lastScoreTick g) >=? 200
  then set_lastScoreTick nowT (set_score (u32 (score g + 1)) g)
  else g.

Definition hud (nowT : Z) (g : State) : State :=
  let g := score_tick nowT g in
  emit (Hud (score g)) g.

(** [!anyEnemyActive||maxY>SPAWN_MIN_GAP_PIXELS], with [maxY] the largest
    [(int)y] of an active enemy, starting from [-10000]. *)
Definition wave_due (g : State) : bool :=
  let act := filter (fun e => Enemy.active e = true) (enemies g) in
  let maxY := fold_left
                (fun m e => if F32.to_int (Enemy.y e) >? m
                            then F32.to_int (Enemy.y e) else m)
                act (-10000) in
  bool_decide (act = []) || (maxY >? SPAWN_MIN_GAP_PIXELS).

Definition new_wave (difficulty : float) (clock : Z) (g : State) : State :=
  if wave_due g then spawnEnemiesWave difficulty clock g else g.

Definition draw_player (g : State) : State :=
  let curPlayerX := F32.to_int (playerX g) in
  let g := emit (Draw SPlayer curPlayerX playerY) g in
  set_prevPlayerY playerY (set_prevPlayerX curPlayerX g).

(** [1.0f+((now-startTime)/1000.0f)*DIFF_GROW_PER_SEC] *)
Definition difficulty_at (nowT : Z) (g : State) : float :=
  F32.add F32.one
    (F32.mul (F32.div (F32.of_int (u32 (nowT - startTime g)))
                      (F32.of_int 1000))
             DIFF_GROW_PER_SEC).

(** The four stages of a frame, in program order. *)
Definition physics (i : Input) (difficulty : float) (g : State) : State :=
  let g := read_joystick (raw i) g in
  let g := move_player g in
  let g := player_fire i g in
  let g := enemies_step (now i) difficulty g in
  let g := player_bullets_step g in
  enemy_bullets_step g.

Definition collisions (g : State) : State :=
  collide_player (collide_enemies g).

Definition finish (i : Input) (difficulty : float) (g : State) : State :=
  let g := hud (now i) g in
  let g := new_wave difficulty (spawnClock i) g in
  draw_player g.

(** The state in which a frame tests the enemy bullets against the
    player: after the physics step and the bullet/enemy collisions. *)
Definition at_player_test (i : Input) (g : State) : State :=
  let g := set_lastFrame (now i) g in
  collide_enemies (physics i (difficulty_at (now i) g) g).

(** The state in which a frame tests the player bullets against the
    enemies: after the physics step. *)
Definition at_enemy_test (i : Input) (g : State) : State :=
  let g := set_lastFrame (now i) g in
  physics i (difficulty_at (now i) g) g.

(** The body of the loop up to the read of the back button. *)
Definition staged (i : Input) (g : State) : State :=
  let g := set_lastFrame (now i) g in
  let difficulty := difficulty_at (now i) g in
  let g := physics i difficulty g in
  let g := collisions g in
  finish i difficulty g.

(** One pass of the [while(true)] loop.  A pass that comes before the
    frame budget has elapsed only waits ([delay(1); continue;]). *)
Definition frame (i : Input) (g : State) : State * Outcome :=
  if u32 (now i - lastFrame g) <? FRAME_MS then (g, Continue) else
  let g := staged i g in
  let g := emit (ExitCheck (btnBack i)) g in
  if btnBack i then (g, Exit)
  else if isGameOver g then (emit (Banner (score g)) g, GameOver)
  else (g, Continue).

(** The events a pass adds to the log. *)
Definition frame_events (i : Input) (g : State) : list Event :=
  drop (length (log g)) (log (fst (frame i g))).

(** The passes of a session, until one of them ends it. *)
Fixpoint run (ins : list Input) (g : State) : State * Outcome :=
  match ins with
  | [] => (g, Continue)
  | i :: rest =>
      match frame i g with
      | (g', Continue) => run rest g'
      | r => r
      end
  end.

(** The locals of [game2] when its loop is entered.  The pools are
    declared without initial values for the positions; the model
    starts them at zero.  [t0] is the clock when the loop is entered
    and [clock] the clock during the first wave. *)
Definition blank_bullet : Bullet.t :=
  {| Bullet.x := F32.zero; Bullet.y := F32.zero; Bullet.vy := F32.zero;
     Bullet.active := false |}.

Definition blank_enemy : Enemy.t :=
  {| Enemy.x := F32.zero; Enemy.y := F32.zero; Enemy.speed := F32.zero;
     Enemy.active := false; Enemy.nextFireAt := 0; Enemy.lane := 0 |}.

Definition start (t0 : Z) : State :=
  let px := F32.add (F32.of_int roadX)
                    (F32.div (F32.of_int (roadW - CAR_W)) (F32.of_int 2)) in
  {| playerX := px; playerVel := F32.zero; lastPlayerFire := 0;
     playerBullets := replicate MAX_PLAYER_BULLETS blank_bullet;
     enemyBullets := replicate MAX_ENEMY_BULLETS blank_bullet;
     enemies := replicate MAX_ENEMIES blank_enemy;
     prevPlayerX := F32.to_int px; prevPlayerY := playerY;
     prevEnemyX := replicate MAX_ENEMIES (-100);
     prevEnemyY := replicate MAX_ENEMIES (-100);
     prevPlayerBulletX := replicate MAX_PLAYER_BULLETS (-100);
     prevPlayerBulletY := replicate MAX_PLAYER_BULLETS (-100);
     prevEnemyBulletX := replicate MAX_ENEMY_BULLETS (-100);
     prevEnemyBulletY := replicate MAX_ENEMY_BULLETS (-100);
     isGameOver := false; lastN := F32.zero;
     lastFrame := t0; startTime := t0; lastScoreTick := t0; score := 0;
     draws := 0; log := [Background] |}.

Definition init (t0 clock : Z) : State :=
  spawnEnemiesWave F32.one clock (start t0).

(** The wait after the banner: each poll reads the clock and the two
    buttons; the fire button restarts, the back button or 5000 ms
    leave. *)
Inductive Verdict := Restart | Leave.

Fixpoint gameOverWait (waitStart : Z) (polls : list (Z * bool * bool))
    : Verdict :=
  match polls with
  | [] => Leave
  | (t, fire, back) :: rest =>
      if u32 (t - waitStart) <? 5000 then
        if fire then Restart
        else if back then Leave
        else gameOverWait waitStart rest
      else Leave
  end.

(** *** The steps of a frame

    The elementary steps a frame is made of, by the stage of the loop
    body they belong to: the physics and AI step (input, player,
    fire, enemies, bullets), the collision engine, and the closing
    part of the frame (score line, next wave, player sprite); the read
    of the back button and the banner close the pass. *)
Inductive Stage := Physics | Collision | Finish | Closing.

Inductive micro : Stage -> State -> State -> Prop :=
| micro_lastFrame t g : micro Physics g (set_lastFrame t g)
| micro_joystick r g : micro Physics g (read_joystick r g)
| micro_move g : micro Physics g (move_player g)
| micro_fire i g : micro Physics g (player_fire i g)
| micro_enemy t d g e : micro Physics g (enemy_step t d g e)
| micro_player_bullet g b : micro Physics g (player_bullet_step g b)
| micro_enemy_bullet g b : micro Physics g (enemy_bullet_step g b)
| micro_pair b g e : micro Collision g (collide_pair b g e)
| micro_player bs g : micro Collision g (collide_player_from bs g)
| micro_hud t g : micro Finish g (hud t g)
| micro_wave d c g : micro Finish g (new_wave d c g)
| micro_draw g : micro Finish g (draw_player g)
| micro_exit b g : micro Closing g (emit (ExitCheck b) g)
| micro_banner g : micro Closing g (emit (Banner (score g)) g).

(** The states a session passes through, between any two steps. *)
Inductive reachable : State -> Prop :=
| reachable_init t0 clock : reachable (init t0 clock)
| reachable_step st g g' : reachable g -> micro st g g' -> reachable g'.

End Session.

(** *** Observations used by the properties *)

(** The lengths of the three pools. *)
Definition shape (g : State) : nat * nat * nat :=
  (length (playerBullets g), length (enemyBullets g), length (enemies g)).

Definition capacities : nat * nat * nat :=
  (MAX_PLAYER_BULLETS, MAX_ENEMY_BULLETS, MAX_ENEMIES).







(** The events the steps of a stage may add to the log. *)
Definition fits (st : Stage) (e : Event) : bool :=
  match st, e with
  | Physics, (Move _ | Erase _ _ _ _ _ | Draw _ _ _) => true
  | Collision, (Test _ _ _ | TestPlayer _ _ | Erase _ _ _ _ _
                | Flash _ _ _ _ | Unflash _ _ _ _) => true
  | Finish, (Hud _ | Spawned _ _ | Draw _ _ _) => true
  | Closing, (ExitCheck _ | Banner _) => true
  | _, _ => false
  end.

(** [g'] has the log of [g] followed by events that fit stage [st]. *)
Definition extends (st : Stage) (g g' : State) : Prop :=
  exists evs, log g' = log g ++ evs /\ Forall (fun e => fits st e = true) evs.


(** The number of [eraseRect] calls for slot [s] since its last draw,
    starting from [n]. *)
Fixpoint erases_since_draw (s : Slot) (evs : list Event) (n : nat) : nat :=
  match evs with
  | [] => n
  | Draw s' _ _ :: rest =>
      erases_since_draw s rest (if decide (s' = s) then 0%nat else n)
  | Erase s' _ _ _ _ :: rest =>
      erases_since_draw s rest (if decide (s' = s) then S n else n)
  | _ :: rest => erases_since_draw s rest n
  end.

(** The position of the last draw for slot [s], starting from [acc]. *)
Fixpoint last_draw (s : Slot) (evs : list Event) (acc : option (Z * Z))
    : option (Z * Z) :=
  match evs with
  | [] => acc
  | Draw s' x y :: rest =>
      last_draw s rest (if decide (s' = s) then Some (x, y) else acc)
  | _ :: rest => last_draw s rest acc
  end.

Definition drawn_at (s : Slot) (g : State) : option (Z * Z) :=
  last_draw s (log g) None.

(** The cached previous position of a slot. *)
Definition cache (g : State) (s : Slot) : Z * Z :=
  match s with
  | SPlayer => (prevPlayerX g, prevPlayerY g)
  | SEnemy e => (at_ (prevEnemyX g) e, at_ (prevEnemyY g) e)
  | SPlayerBullet b => (at_ (prevPlayerBulletX g) b, at_ (prevPlayerBulletY g) b)
  | SEnemyBullet b => (at_ (prevEnemyBulletX g) b, at_ (prevEnemyBulletY g) b)
  end.

(** The cache of slot [s] holds the position of its last draw, if it
    was ever drawn. *)
Definition cached (g : State) (s : Slot) : Prop :=
  forall p, drawn_at s g = Some p -> cache g s = p.

(** A bullet slot that was fired into and is still to be drawn. *)
Definition fresh (g : State) (s : Slot) : Prop :=
  match s with
  | SPlayerBullet b =>
      exists bu, playerBullets g !! b = Some bu /\ Bullet.active bu = true
  | SEnemyBullet b =>
      exists bu, enemyBullets g !! b = Some bu /\ Bullet.active bu = true
  | _ => False
  end.

Definition pending (g : State) (s : Slot) : Prop := cached g s \/ fresh g s.

(** The cache arrays have the sizes of their pools. *)
Definition sized (g : State) : Prop :=
  shape g = capacities /\
  length (prevEnemyX g) = MAX_ENEMIES /\
  length (prevEnemyY g) = MAX_ENEMIES /\
  length (prevPlayerBulletX g) = MAX_PLAYER_BULLETS /\
  length (prevPlayerBulletY g) = MAX_PLAYER_BULLETS /\
  length (prevEnemyBulletX g) = MAX_ENEMY_BULLETS /\
  length (prevEnemyBulletY g) = MAX_ENEMY_BULLETS.


(** The lanes of the enemies spawned by a run of events. *)
Definition spawned_lanes (evs : list Event) : list Z :=
  omap (fun e => match e with Spawned _ lane => Some lane | _ => None end) evs.

Definition free_slots (g : State) : nat :=
  length (filter (fun e => Enemy.active e = false) (enemies g)).

(** Scoring: a hit is a bullet/enemy test that succeeded. *)
Definition is_hit (e : Event) : bool :=
  match e with Test _ _ true => true | _ => false end.

Definition hits_in (evs : list Event) : nat :=
  length (filter (fun e => is_hit e = true) evs).

(** [score+=10], [n] times, on the 32-bit counter. *)
Definition add_hits (n : nat) (s : Z) : Z :=
  Nat.iter n (fun s => u32 (s + 10)) s.

(** [g'] has the log of [g] followed by events with at most [k] hits,
    each hit adding 10 to the score; the tick stamp is that of [g]. *)
Definition tallies (k : nat) (g g' : State) : Prop :=
  exists evs,
    log g' = log g ++ evs /\ (hits_in evs <= k)%nat /\
    score g' = add_hits (hits_in evs) (score g) /\
    lastScoreTick g' = lastScoreTick g.

(** The tick of the score line, on a counter value [s]. *)
Definition ticked (due : bool) (s : Z) : Z := if due then u32 (s + 1) else s.

(** The points of a session that come from the ticks: the score less
    10 for each hit of the log. *)
Definition ticks (g : State) : Z := score g - 10 * Z.of_nat (hits_in (log g)).

(** The clocks of the passes [ins] run from [t] to at most [T] and
    never go back. *)
Fixpoint in_time (t : Z) (ins : list Input) (T : Z) : Prop :=
  match ins with
  | [] => t <= T
  | i :: rest => t <= now i /\ in_time (now i) rest T
  end.

(** After passes up to clock [t] of a session entered at [t0]: the
    tick stamp is a clock of the session and every tick has its own
    200 ms before the stamp. *)
Definition tick_inv (t0 : Z) (g : State) (t : Z) : Prop :=
  0 <= lastScoreTick g <= t /\
  0 <= ticks g /\ 0 <= score g /\
  200 * ticks g <= lastScoreTick g - t0.

(** The score C9 describes for a session without a hit: one point for
    each 200 ms between the entry of the loop and the clock. *)
Definition claimed_score (t0 nowT : Z) : Z := u32 (nowT - t0) / 200.

(** What the bullet/enemy collision pass may have done to the pools of
    the state [g0] it started from: a slot is as it was, or it was
    active, has been deactivated, and met an active partner. *)
Definition enemy_settled (g0 g : State) (e : nat) : Prop :=
  enemies g !! e = enemies g0 !! e \/
  exists en, enemies g0 !! e = Some en /\ Enemy.active en = true /\
    enemies g !! e = Some (Enemy.set_active false en) /\
    exists b bu, playerBullets g0 !! b = Some bu /\ Bullet.active bu = true /\
                 bullet_hits_enemy bu en = true.

Definition bullet_settled (g0 g : State) (b : nat) : Prop :=
  playerBullets g !! b = playerBullets g0 !! b \/
  exists bu, playerBullets g0 !! b = Some bu /\ Bullet.active bu = true /\
    playerBullets g !! b = Some (Bullet.set_active false bu) /\
    exists e en, enemies g0 !! e = Some en /\ Enemy.active en = true /\
                 bullet_hits_enemy bu en = true.

Definition settled (g0 g : State) : Prop :=
  (forall e, enemy_settled g0 g e) /\ (forall b, bullet_settled g0 g b).

(** The pools as the collision pass reads them: which slots are
    active, and which pairs of slots the collision condition holds
    for. *)
Definition enemy_on (g : State) (e : nat) : bool :=
  match enemies g !! e with Some en => Enemy.active en | None => false end.

Definition bullet_on (g : State) (b : nat) : bool :=
  match playerBullets g !! b with Some bu => Bullet.active bu | None => false end.

Definition meets (g : State) (b e : nat) : bool :=
  match playerBullets g !! b, enemies g !! e with
  | Some bu, Some en => bullet_hits_enemy bu en
  | _, _ => false
  end.

(** The rectangles of a bullet and an enemy overlap. *)
Definition touches (bu : Bullet.t) (en : Enemy.t) : Prop :=
  overlap (F32.to_int (Bullet.x bu)) (F32.to_int (Bullet.y bu))
          (F32.to_int (Enemy.x en)) (F32.to_int (Enemy.y en)).

(** The slots of [g'] hold what those of [g] hold, activity apart. *)
Definition same_places (g g' : State) : Prop :=
  (forall b, Bullet.set_active false <$> playerBullets g' !! b
             = Bullet.set_active false <$> playerBullets g !! b) /\
  (forall e, Enemy.set_active false <$> enemies g' !! e
             = Enemy.set_active false <$> enemies g !! e).

(** C7 as it is stated, for the pass that starts in [g]: a bullet and
    an enemy that are active when the pass begins are both inactive
    after it exactly when their rectangles overlap. *)
Definition claimed_hits (g : State) : Prop :=
  forall b e bu en bu' en',
    playerBullets g !! b = Some bu -> Bullet.active bu = true ->
    enemies g !! e = Some en -> Enemy.active en = true ->
    playerBullets (collide_enemies g) !! b = Some bu' ->
    enemies (collide_enemies g) !! e = Some en' ->
    (Bullet.active bu' = false /\ Enemy.active en' = false) <-> touches bu en.

Definition active_enemies (g : State) : nat :=
  length (filter (fun e => Enemy.active e = true) (enemies g)).

Definition active_bullets (l : list Bullet.t) : nat :=
  length (filter (fun b => Bullet.active b = true) l).

(** *** A concrete console and session opening *)

Definition entropy0 (k : nat) : Z := Z.of_nat k * 7919 + 13.

Definition console0 : Console :=
  {| scrW := 128; scrH := 160; calib := scenario_calib; entropy := entropy0 |}.

Definition opening : State := @init console0 1000 1000.

Definition first_input : Input :=
  {| now := 1020; raw := 2000; btn3 := true; btnBack := false;
     spawnClock := 1020 |}.


(** The scenario of the specification: an enemy at (40, 50) and a
    bullet at (50, 55), in slot 0 of their pools. *)
Definition target : Enemy.t :=
  {| Enemy.x := F32.of_int 40; Enemy.y := F32.of_int 50;
     Enemy.speed := F32.one; Enemy.active := true;
     Enemy.nextFireAt := 5000; Enemy.lane := 2 |}.

Definition shot : Bullet.t :=
  {| Bullet.x := F32.of_int 50; Bullet.y := F32.of_int 55;
     Bullet.vy := F32.lit (-65) 10; Bullet.active := true |}.

Definition point_blank : State :=
  set_enemies (<[0%nat := target]> (enemies opening))
    (set_playerBullets (<[0%nat := shot]> (playerBullets opening)) opening).



(** A session in which one bullet meets two enemies in one frame.
    The draws put the first two enemies of the opening wave in the
    adjacent lanes 3 and 4, the first at the lowest speed and the
    second at the highest; the stick rests, the frames come every
    20 ms, and the fire button is down in the twelfth frame only. *)
Definition rigged_draws : list Z :=
  [0; 0; 0; 0; 0; 0;  6;  5; 1; 0; 2; 1;  0; 0;  49; 0;  0; 0;  0; 0].

Definition console1 : Console :=
  {| scrW := 128; scrH := 160; calib := scenario_calib;
     entropy := fun k => default 0 (rigged_draws !! k) |}.

Definition paced (k : nat) : Input :=
  {| now := 1000 + 20 * Z.of_nat k; raw := 2000;
     btn3 := bool_decide (k = 12%nat); btnBack := false;
     spawnClock := 1000 + 20 * Z.of_nat k |}.

Definition before_double_hit : State :=
  fst (@run console1 (paced <$> seq 1 23) (@init console1 1000 1000)).

Definition double_hit_input : Input := paced 24.

(** The same pass, read 120 ms later: 200 ms after the last tick. *)
Definition late_double_hit_input : Input :=
  {| now := 1600; raw := 2000; btn3 := false; btnBack := false;
     spawnClock := 1600 |}.

(** A session whose passes come every 30 ms, the stick at rest and no
    button down: 34 passes, the last at 1020 ms after the entry. *)
Definition every30 (k : nat) : Input :=
  {| now := 1000 + 30 * Z.of_nat k; raw := 2000; btn3 := false;
     btnBack := false; spawnClock := 1000 + 30 * Z.of_nat k |}.

Definition session30 : list Input := every30 <$> seq 1 34.

(** A session in which two bullets meet one enemy in one frame: the
    session [paced], but the fire button is down in the passes 13 and
    14, and the 14th pass comes 220 ms after the 13th, when the
    cooldown is over.  [two_on_one] is the state in which the 25th
    pass tests the bullets against the enemies. *)
Definition salvo (k : nat) : Input :=
  let t := 1000 + 20 * Z.of_nat k + (if (13 <? k)%nat then 200 else 0) in
  {| now := t; raw := 2000;
     btn3 := bool_decide (k = 13%nat) || bool_decide (k = 14%nat);
     btnBack := false; spawnClock := t |}.

Definition before_two_on_one : State :=
  fst (@run console1 (salvo <$> seq 1 24) (@init console1 1000 1000)).

Definition two_on_one : State :=
  @at_enemy_test console1 (salvo 25) before_two_on_one.

(** The opening with every player-bullet slot in flight. *)
Definition flying_bullet : Bullet.t :=
  {| Bullet.x := F32.of_int 64; Bullet.y := F32.of_int 100;
     Bullet.vy := F32.lit (-65) 10; Bullet.active := true |}.

Definition full_magazine : State :=
  set_playerBullets (replicate MAX_PLAYER_BULLETS flying_bullet) opening.

End Game2.

(** ** The display of [game1] *)

Module Game1Screen.
Import Game1.

(** The pixels [tft.fillRect(x,y,w,h,c)] paints. *)
Definition covers (o : Op) (px py : Z) : bool :=
  let 'FillRect x y w h _ := o in
  (x <=? px) && (px <? x + w) && (y <=? py) && (py <? y + h).

Definition colour (o : Op) : Color := let 'FillRect _ _ _ _ c := o in c.

(** The colour of a pixel after [tft.fillScreen(ST77XX_BLACK)] and the
    fills of [ops], in order. *)
Definition pixel (ops : list Op) (px py : Z) : Color :=
  fold_left (fun c o => if covers o px py then colour o else c) ops BLACK.

(** The maze as a picture: a wall cell is white, the rest black. *)
Definition maze (px py : Z) : Color :=
  if bool_decide (cell (py / CELL_SIZE) (px / CELL_SIZE) = Some 1)
  then WHITE else BLACK.

(** The picture of a state: the bullet over the tank over the maze. *)
Definition scene (s : State) (px py : Z) : Color :=
  if bulletActive s && covers (bulletRect (bulletX s) (bulletY s) RED) px py
  then RED
  else if covers (tankRect (tankX s) (tankY s) GREEN) px py then GREEN
  else maze px py.

(** An active bullet is inside the map, on a free cell, and flies in
    one of the four directions. *)
Definition bullet_ok (s : State) : Prop :=
  bulletActive s = true ->
  in_map (bulletX s) (bulletY s) = true /\
  cell (bulletY s) (bulletX s) = Some 0.

Definition dir_ok (d : Z) : Prop := 0 <= d <= 3.

Definition flight_ok (s : State) : Prop :=
  tank_ok s /\ bullet_ok s /\ dir_ok (tankDir s) /\ dir_ok (bulletDir s).

(** The walls drawn before the loop are the picture of the maze. *)
Definition wall_cells : list (Z * Z) :=
  filter (fun c => cell c.2 c.1 = Some 1)
         (y ← Z.of_nat <$> seq 0 8; x ← Z.of_nat <$> seq 0 8; [(x, y)]).

(** What the loop keeps between two draws: outside the cell of the
    last tank drawn and the rectangle of the last bullet drawn, the
    screen shows the maze; those two lie on free cells. *)
Definition kept (s : State) : Prop :=
  forall px py,
    covers (tankRect (prevTankX s) (prevTankY s) BLACK) px py = false ->
    prevBulletActive s
      && covers (bulletRect (prevBulletX s) (prevBulletY s) BLACK) px py = false ->
    pixel (screen s) px py = maze px py.

Definition prev_ok (s : State) : Prop :=
  cell (prevTankY s) (prevTankX s) = Some 0 /\
  (prevBulletActive s = true -> cell (prevBulletY s) (prevBulletX s) = Some 0).

Definition shown (s : State) : Prop :=
  forall px py, pixel (screen s) px py = scene s px py.

Definition synced (s : State) : Prop :=
  prevTankX s = tankX s /\ prevTankY s = tankY s /\
  prevBulletActive s = bulletActive s /\
  (bulletActive s = true -> prevBulletX s = bulletX s /\ prevBulletY s = bulletY s).

(** The joystick and bullet steps leave the screen and the cache of
    the renderer alone. *)
Definition same_view (s s' : State) : Prop :=
  screen s' = screen s /\ prevTankX s' = prevTankX s /\ prevTankY s' = prevTankY s /\
  prevBulletActive s' = prevBulletActive s /\
  prevBulletX s' = prevBulletX s /\ prevBulletY s' = prevBulletY s.

End Game1Screen.

(** ** The drawing helpers of [game2] *)

Module Render.
Import Game2.

Inductive Colour :=
| BLACK | DARKGREY | WHITE | RED | GREEN | YELLOW | CYAN | ORANGE.

(** [#define ST77XX_ROAD ST77XX_BLACK] *)
Definition ST77XX_ROAD : Colour := BLACK.

(** A call [tft.fillRect(x,y,w,h,c)]. *)
Record Fill := { fx : Z; fy : Z; fw : Z; fh : Z; fc : Colour }.

(** The pixels a fill paints. *)
Definition covers (f : Fill) (px py : Z) : Prop :=
  fx f <= px < fx f + fw f /\ fy f <= py < fy f + fh f.

(** The value an [int] of the target holds after a sum or a difference:
    32 bits, two's complement. *)
Definition int (z : Z) : Z := to_long z.

Definition is_int (z : Z) : Prop := - 2 ^ 31 <= z < 2 ^ 31.

Section Helpers.

Context `{Console}.

Definition on_screen (px py : Z) : Prop := 0 <= px < scrW /\ 0 <= py < scrH.

Definition drawBackground : list Fill :=
  let centerXdash := roadX + Z.quot roadW 2 in
  [ {| fx := 0; fy := 0; fw := ROAD_MARGIN; fh := scrH; fc := DARKGREY |};
    {| fx := scrW - ROAD_MARGIN; fy := 0; fw := ROAD_MARGIN; fh := scrH;
       fc := DARKGREY |};
    {| fx := roadX; fy := 0; fw := roadW; fh := scrH; fc := ST77XX_ROAD |} ]
  ++ ((fun k => {| fx := centerXdash - 2; fy := 20 * Z.of_nat k; fw := 4;
                   fh := 10; fc := WHITE |})
      <$> seq 0 (Z.to_nat ((scrH + 19) / 20))).

(** The three sprites; their arguments are [int]s, and so are the
    corners they compute. *)
Definition drawTank (x y : Z) (color : Colour) : list Fill :=
  [ {| fx := x; fy := y; fw := CAR_W; fh := CAR_H; fc := color |};
    {| fx := int (x + CAR_W / 2 - 2); fy := int (y - 6); fw := 4; fh := 6;
       fc := color |};
    {| fx := int (x + 3); fy := int (y + 4); fw := 6; fh := 5; fc := BLACK |};
    {| fx := int (x + CAR_W - 9); fy := int (y + 4); fw := 6; fh := 5;
       fc := BLACK |} ].

Definition drawEnemyRect (x y : Z) : list Fill :=
  [ {| fx := x; fy := y; fw := CAR_W; fh := CAR_H; fc := RED |};
    {| fx := int (x + 3); fy := int (y + 6); fw := CAR_W - 6; fh := 6; fc := BLACK |} ].

Definition drawBullet (x y : Z) (color : Colour) : list Fill :=
  [ {| fx := int (x - 2); fy := int (y - 4); fw := 4; fh := 8; fc := color |} ].

(** [eraseRect]: the rectangle is cut to the screen and filled with
    the colour of what lies under it; nothing is filled when nothing of
    it is on the screen.  The arguments and the locals are [int]s. *)
Definition eraseRect (x y w h : Z) : option Fill :=
  if (w <=? 0) || (h <=? 0) then None else
  let '(rx, rw) := if x <? 0 then (0, int (w + x)) else (x, w) in
  let '(ry, rh) := if y <? 0 then (0, int (h + y)) else (y, h) in
  if (rx >=? scrW) || (ry >=? scrH) then None else
  let rw := if int (rx + rw) >? scrW then int (scrW - rx) else rw in
  let rh := if int (ry + rh) >? scrH then int (scrH - ry) else rh in
  if (rw <=? 0) || (rh <=? 0) then None else
  if (int (rx + rw) <? roadX) || (rx >? int (roadX + roadW))
  then Some {| fx := rx; fy := ry; fw := rw; fh := rh; fc := BLACK |}
  else Some {| fx := rx; fy := ry; fw := rw; fh := rh; fc := ST77XX_ROAD |}.

(** The sprite the loop paints for a slot at [(x, y)]. *)
Definition sprite (s : Slot) (x y : Z) : list Fill :=
  match s with
  | SPlayer => drawTank x y GREEN
  | SEnemy _ => drawEnemyRect x y
  | SPlayerBullet _ => drawBullet x y YELLOW
  | SEnemyBullet _ => drawBullet x y CYAN
  end.

(** The condition under which the loop of a slot erases the slot's
    last drawing before it draws the slot again: the player when its
    column has changed in this pass ([moved]), an enemy when
    [prevEnemyY[e]>=-1000], a bullet when its cached [y] is not
    negative. *)
Definition wiped (s : Slot) (moved : bool) (y : Z) : bool :=
  match s with
  | SPlayer => moved
  | SEnemy _ => y >=? -1000
  | SPlayerBullet _ | SEnemyBullet _ => y >=? 0
  end.

(** The call of [eraseRect] that loop issues for the cached position
    [(x, y)], if it issues one. *)
Definition wipe (s : Slot) (moved : bool) (x y : Z) : option Fill :=
  if wiped s moved y then
    match s with
    | SPlayer => eraseRect x (int (y - 6)) CAR_W (CAR_H + 6)
    | SEnemy _ => eraseRect x y CAR_W (CAR_H + 4)
    | SPlayerBullet _ | SEnemyBullet _ => eraseRect (int (x - 3)) (int (y - 6)) 6 12
    end
  else None.

(** The screen sizes are [int]s. *)
Definition screen_ok : Prop := is_int scrW /\ is_int scrH.

End Helpers.

(** The rectangle is given by [int]s and its right and bottom edges
    are [int]s too. *)
Definition in_int (x y w h : Z) : Prop :=
  is_int x /\ is_int y /\ is_int w /\ is_int h /\
  x + w < 2 ^ 31 /\ y + h < 2 ^ 31.

(** A position whose neighbourhood of sprite size is made of [int]s. *)
Definition near (x y : Z) : Prop :=
  - 2 ^ 30 <= x <= 2 ^ 30 /\ - 2 ^ 30 <= y <= 2 ^ 30.

End Render.

(** ** Calibration, shuffle and game-over wait of [game2] *)

Module Game2Play.
Import Game2.

Section Session.
Context `{Console}.

(** The index pairs [(i, j)] the shuffle loop swaps, in order. *)
Fixpoint shuffle_swaps (i : nat) (g : State) : list (nat * nat) :=
  match i with
  | O => []
  | S i' =>
      let '(j, g) := draw 0 (Z.of_nat i + 1) g in
      (i, Z.to_nat j) :: shuffle_swaps i' g
  end.

End Session.

(** The polls of the game-over wait that come before its 5000 ms are
    over and find no button down. *)
Definition waiting (waitStart : Z) (poll : Z * bool * bool) : Prop :=
  let '(t, fire, back) := poll in
  u32 (t - waitStart) < 5000 /\ fire = false /\ back = false.

End Game2Play.

(** ** The player on the road *)

Module Game2Road.
Import Game2.

Section Session.
Context `{Console}.

(** The bounds the player's position is clamped to. *)
Definition road_lo : float := F32.of_int roadX.
Definition road_hi : float := F32.of_int (roadX + roadW - CAR_W).

(** [roadX <= x && x <= roadX+roadW-CAR_W], as float comparisons. *)
Definition on_road (x : float) : bool := F32.leb road_lo x && F32.leb x road_hi.

Definition steady (g : State) : Prop :=
  on_road (playerX g) = true /\ F32.is_nan (playerVel g) = false.

Definition parked (g : State) : Prop :=
  playerX g = playerX (start 0) /\ playerVel g = F32.zero /\
  (lastN g = F32.zero \/ lastN g = S754_nan).

End Session.

(** What the bounds and the starting position are for a screen of
    width [w]. *)
Definition road_check (w : Z) : bool :=
  let lo := F32.of_int ROAD_MARGIN in
  let hi := F32.of_int (ROAD_MARGIN + (w - 2 * ROAD_MARGIN) - CAR_W) in
  let px := F32.add (F32.of_int ROAD_MARGIN)
              (F32.div (F32.of_int (w - 2 * ROAD_MARGIN - CAR_W)) (F32.of_int 2)) in
  F32.leb lo hi && F32.finite hi && F32.leb lo px && F32.leb px hi && F32.finite px.

(** A console calibrated with the stick at rest, and a frame in which
    the stick is pushed to the right. *)
Definition console_rest : Console :=
  {| scrW := 128; scrH := 160; calib := flat_calib; entropy := entropy0 |}.

Definition pushed_right : Input :=
  {| now := 1020; raw := 3800; btn3 := false; btnBack := false;
     spawnClock := 1020 |}.

End Game2Road.

(** ** Enemies and bullets on the field *)

Module Game2Field.
Import Game2.

Section Session.
Context `{Console}.

(** The left edge of a car in lane [lane]:
    [roadX+lane*laneW+(laneW-CAR_W)/2.0f]. *)
Definition lane_x (lane : Z) : float :=
  F32.add (F32.add (F32.of_int roadX) (F32.mul (F32.of_int lane) laneW))
          (F32.div (F32.sub laneW (F32.of_int CAR_W)) (F32.of_int 2)).

(** An active enemy stands in the column of its lane and has not
    passed the bottom of the screen. *)
Definition in_lane (en : Enemy.t) : Prop :=
  Enemy.active en = true ->
  (0 <= Enemy.lane en < Z.of_nat LANE_COUNT) /\
  Enemy.x en = lane_x (Enemy.lane en) /\
  F32.gtb (Enemy.y en) (F32.of_int scrH) = false.

(** An active player bullet has not passed the top margin. *)
Definition in_range (bu : Bullet.t) : Prop :=
  Bullet.active bu = true ->
  F32.ltb (Bullet.y bu) (F32.of_int (-12)) = false.

(** An active enemy bullet has not passed the bottom margin. *)
Definition in_reach (bu : Bullet.t) : Prop :=
  Bullet.active bu = true ->
  F32.gtb (Bullet.y bu) (F32.of_int (scrH + 12)) = false.

Definition on_field (g : State) : Prop :=
  Forall in_lane (enemies g) /\ Forall in_range (playerBullets g).

End Session.

(** What the bounds need of a screen of height [h]: an enemy is
    spawned above the bottom and a bullet is fired below the top
    margin. *)
Definition field_check (h : Z) : bool :=
  forallb (fun k => negb (F32.gtb (F32.of_int (- (Z.of_nat k * (CAR_H + 8) + 8)))
                                  (F32.of_int h)))
          (seq 0 MAX_ENEMIES)
  && negb (F32.ltb (F32.of_int (h - CAR_H - 8 - 6)) (F32.of_int (-12))).

(** The opening after enemy 0 has fired, at clock 3200. *)
Definition after_shot : State := @enemy_step console0 3200 F32.one opening 0.

End Game2Field.

(** ** The loading screen *)

Module Loading.

(** The calls of [showLoading] that paint the bar. *)
Inductive Op :=
| DrawRect (x y w h : Z)
| FillRect (x y w h : Z).

(** [int barW = min(120, tft.width() - 20);] *)
Definition barW (width : Z) : Z := Z.min 120 (width - 20).

(** [int barX = (tft.width() - barW) / 2;], with the division of C. *)
Definition barX (width : Z) : Z := Z.quot (width - barW width) 2.

Definition barY : Z := 100.
Definition barH : Z := 10.

(** [int fill = (barW * i) / 100;] *)
Definition fill (width i : Z) : Z := Z.quot (barW width * i) 100.

(** The width of the green rectangle of step [i]: [max(0, fill - 2)]. *)
Definition green (width i : Z) : Z := Z.max 0 (fill width i - 2).

Definition showLoading (width : Z) : list Op :=
  DrawRect (barX width) barY (barW width) barH
  :: ((fun i => FillRect (barX width + 1) (barY + 1)
                         (green width (Z.of_nat i)) (barH - 2))
      <$> seq 0 101).

End Loading.

(** ** The WiFi attempt of [setup] *)

Module Wifi.

(** What one turn of the wait loop reads: the clock in the loop test,
    whether [WiFi.status()] is [WL_CONNECTED], and the clock in the
    blink of the error LED. *)
Record Poll := { testClock : Z; connected : bool; blinkClock : Z }.

(** The wait loop of [attemptWiFiAndNTP]: the value of [ok] when it
    ends and the levels written to the error LED on the way. *)
Fixpoint wait (start : Z) (polls : list Poll) : bool * list Z :=
  match polls with
  | [] => (false, [])
  | p :: rest =>
      if u32 (testClock p - start) <? 5000 then
        if connected p then (true, [])
        else
          let '(ok, leds) := wait start rest in
          (ok, Z.rem (Z.quot (blinkClock p) 250) 2 :: leds)
      else (false, [])
  end.

(** A turn that finds no connection before the 5000 ms are over. *)
Definition pending (start : Z) (p : Poll) : Prop :=
  u32 (testClock p - start) < 5000 /\ connected p = false.

End Wifi.

(** ** The console shell: clock, menus and buttons *)

Module Menu.

(** The fields of [struct tm] the sketch uses. *)
Record tm := {
  tm_sec : Z; tm_min : Z; tm_hour : Z;
  tm_mday : Z; tm_mon : Z; tm_year : Z
}.

Inductive TopMode := MODE_MAIN | MODE_GAME | MODE_CONFIG.

(** [topMode == MODE_GAME] *)
Definition is_game (m : TopMode) : bool :=
  match m with MODE_GAME => true | _ => false end.

(** [enum ConfigSub { CFG_DEVICE_STATUS = 1 }]; the sketch also stores
    [(ConfigSub)0] to force a redraw, so the type is modelled by its
    integer values. *)
Definition CFG_DEVICE_STATUS : Z := 1.

Definition NUM_GAMES : Z := 3.

(** [DEBOUNCE_DELAY] is 220 where [readInputs] is compiled and is
    redefined to 200 before [readJoystickMenu]. *)
Definition DEBOUNCE_DELAY : Z := 220.
Definition DEBOUNCE_DELAY' : Z := 200.
Definition BTN3_DEBOUNCE : Z := 250.

(** What [runGame] starts. *)
Inductive Game := Game1 | Game2.

(** What the shell does to the outside: the screens it paints, each
    with what it shows, and the games it runs. *)
Inductive Event :=
| TopBar (t : tm)
| MainMenu (idx : Z)
| DeviceStatus
| GameMenu (sel : Z)
| Played (g : Game).

Record State := {
  topMode : TopMode;
  inSubMenu : bool;
  cfgState : Z;
  lastCfgState : Z;
  mainIdx : Z;
  lastMainIdx : Z;
  lastMoveTime : Z;
  lastBtn3State : bool;
  lastBtn3Time : Z;
  selectedGame : Z;
  lastOkState : bool;
  lastBackState : bool;
  lastJoystickMoveTime : Z;
  lastSec : Z;
  lastMillis : Z;
  currentTime : tm;
  log : list Event
}.

Definition set_topMode (v : TopMode) (s : State) : State :=
  {| topMode := v;
     inSubMenu := inSubMenu s;
     cfgState := cfgState s;
     lastCfgState := lastCfgState s;
     mainIdx := mainIdx s;
     lastMainIdx := lastMainIdx s;
     lastMoveTime := lastMoveTime s;
     lastBtn3State := lastBtn3State s;
     lastBtn3Time := lastBtn3Time s;
     selectedGame := selectedGame s;
     lastOkState := lastOkState s;
     lastBackState := lastBackState s;
     lastJoystickMoveTime := lastJoystickMoveTime s;
     lastSec := lastSec s;
     lastMillis := lastMillis s;
     currentTime := currentTime s;
     log := log s |}.

Definition set_inSubMenu (v : bool) (s : State) : State :=
  {| topMode := topMode s;
     inSubMenu := v;
     cfgState := cfgState s;
     lastCfgState := lastCfgState s;
     mainIdx := mainIdx s;
     lastMainIdx := lastMainIdx s;
     lastMoveTime := lastMoveTime s;
     lastBtn3State := lastBtn3State s;
     lastBtn3Time := lastBtn3Time s;
     selectedGame := selectedGame s;
     lastOkState := lastOkState s;
     lastBackState := lastBackState s;
     lastJoystickMoveTime := lastJoystickMoveTime s;
     lastSec := lastSec s;
     lastMillis := lastMillis s;
     currentTime := currentTime s;
     log := log s |}.

Definition set_cfgState (v : Z) (s : State) : State :=
  {| topMode := topMode s;
     inSubMenu := inSubMenu s;
     cfgState := v;
     lastCfgState := lastCfgState s;
     mainIdx := mainIdx s;
     lastMainIdx := lastMainIdx s;
     lastMoveTime := lastMoveTime s;
     lastBtn3State := lastBtn3State s;
     lastBtn3Time := lastBtn3Time s;
     selectedGame := selectedGame s;
     lastOkState := lastOkState s;
     lastBackState := lastBackState s;
     lastJoystickMoveTime := lastJoystickMoveTime s;
     lastSec := lastSec s;
     lastMillis := lastMillis s;
     currentTime := currentTime s;
     log := log s |}.

Definition set_lastCfgState (v : Z) (s : State) : State :=
  {| topMode := topMode s;
     inSubMenu := inSubMenu s;
     cfgState := cfgState s;
     lastCfgState := v;
     mainIdx := mainIdx s;
     lastMainIdx := lastMainIdx s;
     lastMoveTime := lastMoveTime s;
     lastBtn3State := lastBtn3State s;
     lastBtn3Time := lastBtn3Time s;
     selectedGame := selectedGame s;
     lastOkState := lastOkState s;
     lastBackState := lastBackState s;
     lastJoystickMoveTime := lastJoystickMoveTime s;
     lastSec := lastSec s;
     lastMillis := lastMillis s;
     currentTime := currentTime s;
     log := log s |}.

Definition set_mainIdx (v : Z) (s : State) : State :=
  {| topMode := topMode s;
     inSubMenu := inSubMenu s;
     cfgState := cfgState s;
     lastCfgState := lastCfgState s;
     mainIdx := v;
     lastMainIdx := lastMainIdx s;
     lastMoveTime := lastMoveTime s;
     lastBtn3State := lastBtn3State s;
     lastBtn3Time := lastBtn3Time s;
     selectedGame := selectedGame s;
     lastOkState := lastOkState s;
     lastBackState := lastBackState s;
     lastJoystickMoveTime := lastJoystickMoveTime s;
     lastSec := lastSec s;
     lastMillis := lastMillis s;
     currentTime := currentTime s;
     log := log s |}.

Definition set_lastMainIdx (v : Z) (s : State) : State :=
  {| topMode := topMode s;
     inSubMenu := inSubMenu s;
     cfgState := cfgState s;
     lastCfgState := lastCfgState s;
     mainIdx := mainIdx s;
     lastMainIdx := v;
     lastMoveTime := lastMoveTime s;
     lastBtn3State := lastBtn3State s;
     lastBtn3Time := lastBtn3Time s;
     selectedGame := selectedGame s;
     lastOkState := lastOkState s;
     lastBackState := lastBackState s;
     lastJoystickMoveTime := lastJoystickMoveTime s;
     lastSec := lastSec s;
     lastMillis := lastMillis s;
     currentTime := currentTime s;
     log := log s |}.

Definition set_lastMoveTime (v : Z) (s : State) : State :=
  {| topMode := topMode s;
     inSubMenu := inSubMenu s;
     cfgState := cfgState s;
     lastCfgState := lastCfgState s;
     mainIdx := mainIdx s;
     lastMainIdx := lastMainIdx s;
     lastMoveTime := v;
     lastBtn3State := lastBtn3State s;
     lastBtn3Time := lastBtn3Time s;
     selectedGame := selectedGame s;
     lastOkState := lastOkState s;
     lastBackState := lastBackState s;
     lastJoystickMoveTime := lastJoystickMoveTime s;
     lastSec := lastSec s;
     lastMillis := lastMillis s;
     currentTime := currentTime s;
     log := log s |}.

Definition set_lastBtn3State (v : bool) (s : State) : State :=
  {| topMode := topMode s;
     inSubMenu := inSubMenu s;
     cfgState := cfgState s;
     lastCfgState := lastCfgState s;
     mainIdx := mainIdx s;
     lastMainIdx := lastMainIdx s;
     lastMoveTime := lastMoveTime s;
     lastBtn3State := v;
     lastBtn3Time := lastBtn3Time s;
     selectedGame := selectedGame s;
     lastOkState := lastOkState s;
     lastBackState := lastBackState s;
     lastJoystickMoveTime := lastJoystickMoveTime s;
     lastSec := lastSec s;
     lastMillis := lastMillis s;
     currentTime := currentTime s;
     log := log s |}.

Definition set_lastBtn3Time (v : Z) (s : State) : State :=
  {| topMode := topMode s;
     inSubMenu := inSubMenu s;
     cfgState := cfgState s;
     lastCfgState := lastCfgState s;
     mainIdx := mainIdx s;
     lastMainIdx := lastMainIdx s;
     lastMoveTime := lastMoveTime s;
     lastBtn3State := lastBtn3State s;
     lastBtn3Time := v;
     selectedGame := selectedGame s;
     lastOkState := lastOkState s;
     lastBackState := lastBackState s;
     lastJoystickMoveTime := lastJoystickMoveTime s;
     lastSec := lastSec s;
     lastMillis := lastMillis s;
     currentTime := currentTime s;
     log := log s |}.

Definition set_selectedGame (v : Z) (s : State) : State :=
  {| topMode := topMode s;
     inSubMenu := inSubMenu s;
     cfgState := cfgState s;
     lastCfgState := lastCfgState s;
     mainIdx := mainIdx s;
     lastMainIdx := lastMainIdx s;
     lastMoveTime := lastMoveTime s;
     lastBtn3State := lastBtn3State s;
     lastBtn3Time := lastBtn3Time s;
     selectedGame := v;
     lastOkState := lastOkState s;
     lastBackState := lastBackState s;
     lastJoystickMoveTime := lastJoystickMoveTime s;
     lastSec := lastSec s;
     lastMillis := lastMillis s;
     currentTime := currentTime s;
     log := log s |}.

Definition set_lastOkState (v : bool) (s : State) : State :=
  {| topMode := topMode s;
     inSubMenu := inSubMenu s;
     cfgState := cfgState s;
     lastCfgState := lastCfgState s;
     mainIdx := mainIdx s;
     lastMainIdx := lastMainIdx s;
     lastMoveTime := lastMoveTime s;
     lastBtn3State := lastBtn3State s;
     lastBtn3Time := lastBtn3Time s;
     selectedGame := selectedGame s;
     lastOkState := v;
     lastBackState := lastBackState s;
     lastJoystickMoveTime := lastJoystickMoveTime s;
     lastSec := lastSec s;
     lastMillis := lastMillis s;
     currentTime := currentTime s;
     log := log s |}.

Definition set_lastBackState (v : bool) (s : State) : State :=
  {| topMode := topMode s;
     inSubMenu := inSubMenu s;
     cfgState := cfgState s;
     lastCfgState := lastCfgState s;
     mainIdx := mainIdx s;
     lastMainIdx := lastMainIdx s;
     lastMoveTime := lastMoveTime s;
     lastBtn3State := lastBtn3State s;
     lastBtn3Time := lastBtn3Time s;
     selectedGame := selectedGame s;
     lastOkState := lastOkState s;
     lastBackState := v;
     lastJoystickMoveTime := lastJoystickMoveTime s;
     lastSec := lastSec s;
     lastMillis := lastMillis s;
     currentTime := currentTime s;
     log := log s |}.

Definition set_lastJoystickMoveTime (v : Z) (s : State) : State :=
  {| topMode := topMode s;
     inSubMenu := inSubMenu s;
     cfgState := cfgState s;
     lastCfgState := lastCfgState s;
     mainIdx := mainIdx s;
     lastMainIdx := lastMainIdx s;
     lastMoveTime := lastMoveTime s;
     lastBtn3State := lastBtn3State s;
     lastBtn3Time := lastBtn3Time s;
     selectedGame := selectedGame s;
     lastOkState := lastOkState s;
     lastBackState := lastBackState s;
     lastJoystickMoveTime := v;
     lastSec := lastSec s;
     lastMillis := lastMillis s;
     currentTime := currentTime s;
     log := log s |}.

Definition set_lastSec (v : Z) (s : State) : State :=
  {| topMode := topMode s;
     inSubMenu := inSubMenu s;
     cfgState := cfgState s;
     lastCfgState := lastCfgState s;
     mainIdx := mainIdx s;
     lastMainIdx := lastMainIdx s;
     lastMoveTime := lastMoveTime s;
     lastBtn3State := lastBtn3State s;
     lastBtn3Time := lastBtn3Time s;
     selectedGame := selectedGame s;
     lastOkState := lastOkState s;
     lastBackState := lastBackState s;
     lastJoystickMoveTime := lastJoystickMoveTime s;
     lastSec := v;
     lastMillis := lastMillis s;
     currentTime := currentTime s;
     log := log s |}.

Definition set_lastMillis (v : Z) (s : State) : State :=
  {| topMode := topMode s;
     inSubMenu := inSubMenu s;
     cfgState := cfgState s;
     lastCfgState := lastCfgState s;
     mainIdx := mainIdx s;
     lastMainIdx := lastMainIdx s;
     lastMoveTime := lastMoveTime s;
     lastBtn3State := lastBtn3State s;
     lastBtn3Time := lastBtn3Time s;
     selectedGame := selectedGame s;
     lastOkState := lastOkState s;
     lastBackState := lastBackState s;
     lastJoystickMoveTime := lastJoystickMoveTime s;
     lastSec := lastSec s;
     lastMillis := v;
     currentTime := currentTime s;
     log := log s |}.

Definition set_currentTime (v : tm) (s : State) : State :=
  {| topMode := topMode s;
     inSubMenu := inSubMenu s;
     cfgState := cfgState s;
     lastCfgState := lastCfgState s;
     mainIdx := mainIdx s;
     lastMainIdx := lastMainIdx s;
     lastMoveTime := lastMoveTime s;
     lastBtn3State := lastBtn3State s;
     lastBtn3Time := lastBtn3Time s;
     selectedGame := selectedGame s;
     lastOkState := lastOkState s;
     lastBackState := lastBackState s;
     lastJoystickMoveTime := lastJoystickMoveTime s;
     lastSec := lastSec s;
     lastMillis := lastMillis s;
     currentTime := v;
     log := log s |}.

Definition set_log (v : list Event) (s : State) : State :=
  {| topMode := topMode s;
     inSubMenu := inSubMenu s;
     cfgState := cfgState s;
     lastCfgState := lastCfgState s;
     mainIdx := mainIdx s;
     lastMainIdx := lastMainIdx s;
     lastMoveTime := lastMoveTime s;
     lastBtn3State := lastBtn3State s;
     lastBtn3Time := lastBtn3Time s;
     selectedGame := selectedGame s;
     lastOkState := lastOkState s;
     lastBackState := lastBackState s;
     lastJoystickMoveTime := lastJoystickMoveTime s;
     lastSec := lastSec s;
     lastMillis := lastMillis s;
     currentTime := currentTime s;
     log := v |}.

Definition emit (e : Event) (s : State) : State := set_log (log s ++ [e]) s.

(** What one pass of [loop] reads: the clock in [updateInternalClock],
    the axis, the clock and BTN_3 in [readInputs], the two buttons in
    [handleButtons], the axis and the clock in [readJoystickMenu].
    A pin level is [true] for HIGH; the buttons are active low. *)
Record Input := {
  clockNow : Z;
  joyY : Z;
  inputsNow : Z;
  btn3 : bool;
  btnOk : bool;
  btnBack : bool;
  menuJoyY : Z;
  menuNow : Z
}.

(** *** Clock *)

Definition tick (t : tm) : tm :=
  let sec := tm_sec t + 1 in
  if sec >=? 60 then
    let mn := tm_min t + 1 in
    if mn >=? 60 then
      let hr := tm_hour t + 1 in
      {| tm_sec := 0; tm_min := 0; tm_hour := if hr >=? 24 then 0 else hr;
         tm_mday := tm_mday t; tm_mon := tm_mon t; tm_year := tm_year t |}
    else
      {| tm_sec := 0; tm_min := mn; tm_hour := tm_hour t;
         tm_mday := tm_mday t; tm_mon := tm_mon t; tm_year := tm_year t |}
  else
    {| tm_sec := sec; tm_min := tm_min t; tm_hour := tm_hour t;
       tm_mday := tm_mday t; tm_mon := tm_mon t; tm_year := tm_year t |}.

Definition updateInternalClock (now : Z) (s : State) : State :=
  if u32 (now - lastMillis s) >=? 1000
  then set_currentTime (tick (currentTime s))
         (set_lastMillis (u32 (lastMillis s + 1000)) s)
  else s.

Definition drawClockAndDate (s : State) : State := emit (TopBar (currentTime s)) s.

(** *** Screens *)

Definition drawMainIfChanged (s : State) : State :=
  if (mainIdx s =? lastMainIdx s) && negb (inSubMenu s) then s else
  let s := drawClockAndDate s in
  let s := emit (MainMenu (mainIdx s)) s in
  set_lastMainIdx (mainIdx s) s.

Definition drawConfigIfChanged (s : State) : State :=
  if negb (inSubMenu s) then s else
  if (cfgState s =? CFG_DEVICE_STATUS) && (lastCfgState s =? CFG_DEVICE_STATUS)
  then s else
  let s := drawClockAndDate s in
  let s := emit DeviceStatus s in
  set_lastCfgState (cfgState s) s.

Definition showGameMenu (s : State) : State :=
  let s := drawClockAndDate s in
  emit (GameMenu (selectedGame s)) s.

(** *** Inputs *)

(** The joystick part of [readInputs]: the main-menu selection. *)
Definition scrollMain (i : Input) (s : State) : State :=
  let y := joyY i in
  let now := inputsNow i in
  if u32 (now - lastMoveTime s) >? DEBOUNCE_DELAY then
    if y <? 1000 then
      let s :=
        if negb (inSubMenu s) then
          let m := mainIdx s - 1 in
          drawMainIfChanged (set_mainIdx (if m <? 0 then 1 else m) s)
        else s in
      set_lastMoveTime now s
    else if y >? 3000 then
      let s :=
        if negb (inSubMenu s) then
          let m := mainIdx s + 1 in
          drawMainIfChanged (set_mainIdx (if m >? 1 then 0 else m) s)
        else s in
      set_lastMoveTime now s
    else s
  else s.

(** [if (btn3 != lastBtn3State) lastBtn3Time = now;] *)
Definition stampBtn3 (i : Input) (s : State) : State :=
  if negb (eqb (btn3 i) (lastBtn3State s))
  then set_lastBtn3Time (inputsNow i) s else s.

(** The BTN_3 part of [readInputs]: the refresh of the device status. *)
Definition refreshOnBtn3 (i : Input) (s : State) : State :=
  if u32 (inputsNow i - lastBtn3Time s) >? BTN3_DEBOUNCE then
    if negb (btn3 i) && lastBtn3State s then
      if inSubMenu s && (cfgState s =? CFG_DEVICE_STATUS)
      then drawConfigIfChanged (set_lastCfgState 0 s)
      else s
    else s
  else s.

Definition readInputs (i : Input) (s : State) : State :=
  let s := scrollMain i s in
  let s := stampBtn3 i s in
  let s := refreshOnBtn3 i s in
  set_lastBtn3State (btn3 i) s.

(** [runGame]: ids 0 and 1 start a game, any other id does nothing. *)
Definition runGame (gameId : Z) : option Game :=
  if gameId =? 0 then Some Game1
  else if gameId =? 1 then Some Game2
  else None.

Definition play (gameId : Z) (s : State) : State :=
  match runGame gameId with
  | Some g => emit (Played g) s
  | None => s
  end.

Definition readJoystickMenu (i : Input) (s : State) : State :=
  let y := menuJoyY i in
  let now := menuNow i in
  if u32 (now - lastJoystickMoveTime s) >? DEBOUNCE_DELAY' then
    let s :=
      if y <? 1000 then
        if is_game (topMode s) && inSubMenu s then
          let g := selectedGame s + 1 in
          showGameMenu (set_selectedGame (if g <? 0 then NUM_GAMES - 1 else g) s)
        else s
      else if y >? 3000 then
        if is_game (topMode s) && inSubMenu s then
          let g := selectedGame s - 1 in
          showGameMenu (set_selectedGame (if g >=? NUM_GAMES then 0 else g) s)
        else s
      else s in
    set_lastJoystickMoveTime now s
  else s.

(** The OK branch of [handleButtons]. *)
Definition onOk (s : State) : State :=
  if negb (inSubMenu s) then
    if mainIdx s =? 0 then
      let s := set_topMode MODE_GAME s in
      let s := set_inSubMenu true s in
      let s := set_selectedGame 0 s in
      showGameMenu s
    else
      let s := set_inSubMenu true s in
      let s := set_cfgState CFG_DEVICE_STATUS s in
      let s := set_lastCfgState 0 s in
      drawConfigIfChanged s
  else
    if is_game (topMode s) then play (selectedGame s) s
    else if cfgState s =? CFG_DEVICE_STATUS then
      drawConfigIfChanged (set_lastCfgState 0 s)
    else s.

(** The BACK branch of [handleButtons]. *)
Definition onBack (s : State) : State :=
  if inSubMenu s then
    if is_game (topMode s) then
      drawMainIfChanged (set_inSubMenu false s)
    else if cfgState s =? CFG_DEVICE_STATUS then
      let s := set_inSubMenu false s in
      let s := set_lastMainIdx (-1) s in
      drawMainIfChanged s
    else s
  else s.

Definition handleButtons (i : Input) (s : State) : State :=
  let okPressed := negb (btnOk i) in
  let backPressed := negb (btnBack i) in
  let s := if okPressed && lastOkState s then onOk s else s in
  let s := if backPressed && lastBackState s then onBack s else s in
  let s := set_lastOkState (negb okPressed) s in
  set_lastBackState (negb backPressed) s.

(** One pass of [loop]. *)
Definition loop (i : Input) (s : State) : State :=
  let s := updateInternalClock (clockNow i) s in
  let s := if negb (tm_sec (currentTime s) =? lastSec s)
           then drawClockAndDate (set_lastSec (tm_sec (currentTime s)) s)
           else s in
  let s := readInputs i s in
  let s := handleButtons i s in
  readJoystickMenu i s.

(** The globals when [setup] returns: [t] is the time the NTP attempt
    left in [currentTime] (all zero when it failed) and [t0] the clock
    read at the end of [setup]. *)
Definition boot (t : tm) (t0 : Z) : State :=
  let s :=
    {| topMode := MODE_MAIN; inSubMenu := false;
       cfgState := CFG_DEVICE_STATUS; lastCfgState := CFG_DEVICE_STATUS;
       mainIdx := 0; lastMainIdx := -1; lastMoveTime := 0;
       lastBtn3State := true; lastBtn3Time := 0;
       selectedGame := 0; lastOkState := true; lastBackState := true;
       lastJoystickMoveTime := 0; lastSec := -1; lastMillis := 0;
       currentTime := t; log := [] |} in
  set_lastMillis t0 (drawMainIfChanged s).

Definition run (ins : list Input) (s : State) : State :=
  fold_left (fun s i => loop i s) ins s.

Definition valid_time (t : tm) : Prop :=
  0 <= tm_sec t < 60 /\ 0 <= tm_min t < 60 /\ 0 <= tm_hour t < 24.

Definition second_of_day (t : tm) : Z :=
  tm_hour t * 3600 + tm_min t * 60 + tm_sec t.

Definition same_date (t t' : tm) : Prop :=
  tm_mday t' = tm_mday t /\ tm_mon t' = tm_mon t /\ tm_year t' = tm_year t.

Definition menu_ok (s : State) : Prop :=
  (mainIdx s = 0 \/ mainIdx s = 1) /\ lastMainIdx s = mainIdx s /\
  cfgState s = CFG_DEVICE_STATUS /\ lastCfgState s = CFG_DEVICE_STATUS /\
  topMode s <> MODE_CONFIG.

(** [s'] has the log of [s] followed by events that satisfy [P]. *)
Definition adds (P : Event -> Prop) (s s' : State) : Prop :=
  exists evs, log s' = log s ++ evs /\ Forall P evs.

Definition not_status (e : Event) : Prop := e <> DeviceStatus.

(** Pushes of the stick below 1000, each more than 200 ms after the
    last menu move. *)
Fixpoint pushes_up (last : Z) (ins : list Input) : Prop :=
  match ins with
  | [] => True
  | i :: rest =>
      menuJoyY i < 1000 /\ u32 (menuNow i - last) > DEBOUNCE_DELAY' /\
      pushes_up (menuNow i) rest
  end.

(** The selection after [n] such pushes, from [sel]: the first push of
    a selection below -1 lands on the last entry, because the test
    that follows the increment finds a negative index; every other
    push adds one. *)
Definition pushed_up (sel : Z) (n : nat) : Z :=
  match n with
  | O => sel
  | S k => (if sel + 1 <? 0 then NUM_GAMES - 1 else sel + 1) + Z.of_nat k
  end.

(** The state of [handleButtons] between its OK part and its BACK
    part. *)
Definition after_ok (i : Input) (s : State) : State :=
  if negb (btnOk i) && lastOkState s then onOk s else s.

(** *** The texts of the top bar *)

Definition digit (d : Z) : ascii := ascii_of_nat (48 + Z.to_nat d).

(** The decimal digits of [n >= 0], most significant first; the fuel
    covers the ten digits a 32-bit [int] can have. *)
Fixpoint digits (fuel : nat) (n : Z) : list ascii :=
  match fuel with
  | O => []
  | S fuel => if n <? 10 then [digit n]
              else digits fuel (n / 10) ++ [digit (n mod 10)]
  end.

Definition zero_pad (w : nat) (l : list ascii) : list ascii :=
  replicate (w - length l) "0"%char ++ l.

(** What [sprintf] writes for the conversion [%0<w>d]. *)
Definition fmt0 (w : nat) (n : Z) : list ascii :=
  if n <? 0 then "-"%char :: zero_pad (w - 1) (digits 10 (- n))
  else zero_pad w (digits 10 n).

(** [char buf1[9], buf2[12];] *)
Definition BUF1_SIZE : nat := 9.
Definition BUF2_SIZE : nat := 12.

(** [sprintf(buf1, "%02d:%02d", tm_hour, tm_min)] *)
Definition buf1 (t : tm) : list ascii :=
  fmt0 2 (tm_hour t) ++ [":"%char] ++ fmt0 2 (tm_min t).

(** [sprintf(buf2, "%02d/%02d/%04d", tm_mday, tm_mon + 1, tm_year + 1900)] *)
Definition buf2 (t : tm) : list ascii :=
  fmt0 2 (tm_mday t) ++ ["/"%char] ++ fmt0 2 (tm_mon t + 1) ++ ["/"%char]
  ++ fmt0 4 (tm_year t + 1900).

(** A date whose fields print in two, two and four digits. *)
Definition short_date (t : tm) : Prop :=
  0 <= tm_mday t <= 99 /\ 0 <= tm_mon t + 1 <= 99 /\
  0 <= tm_year t + 1900 <= 9999.

(** *** Sample sessions *)

Definition midnight : tm :=
  {| tm_sec := 0; tm_min := 0; tm_hour := 0;
     tm_mday := 0; tm_mon := 0; tm_year := 0 |}.

(** A pass at clock [t] with the stick at [y] and the levels of OK and
    BACK; BTN_3 is up. *)
Definition pass_at (t y : Z) (ok back : bool) : Input :=
  {| clockNow := t; joyY := y; inputsNow := t; btn3 := true;
     btnOk := ok; btnBack := back; menuJoyY := y; menuNow := t |}.

Definition idle (t : Z) : Input := pass_at t 2000 true true.
Definition press_ok (t : Z) : Input := pass_at t 2000 false true.
Definition press_back (t : Z) : Input := pass_at t 2000 true false.
Definition stick_up (t : Z) : Input := pass_at t 0 true true.
Definition stick_down (t : Z) : Input := pass_at t 4095 true true.

(** The game list, just opened from the main menu. *)
Definition in_game_list : State :=
  run [press_ok 300; idle 310] (boot midnight 0).

(** The device status, opened after a visit to the game list. *)
Definition status_after_games : State :=
  run [press_back 320; idle 330; stick_down 340; press_ok 350; idle 360]
      in_game_list.

(** The game list after two pushes of the stick above 3000. *)
Definition off_the_top : State :=
  run [stick_down 600; stick_down 900] in_game_list.

End Menu.

(** * Properties *)

(** ** binary32 facts *)

Lemma SFcompare_swap (a b : spec_float) :
  SFcompare a b = CompOpp <$> SFcompare b a.
Proof.
  destruct a as [sa|sa| |sa ma ea], b as [sb|sb| |sb mb eb]; simpl;
    try reflexivity; try (destruct sa; reflexivity); try (destruct sb; reflexivity);
    try (destruct sa, sb; reflexivity).
  rewrite (Z.compare_antisym ea eb).
  change (Pos.compare_cont Eq mb ma) with (Pos.compare mb ma).
  change (Pos.compare_cont Eq ma mb) with (Pos.compare ma mb).
  rewrite (Pos.compare_antisym ma mb).
  destruct sa, sb; simpl; try reflexivity;
    destruct (ea ?= eb); simpl; try reflexivity;
    destruct (ma ?= mb)%positive; reflexivity.
Qed.

Lemma shr_1_nonneg mrs : 0 <= shr_m mrs -> 0 <= shr_m (shr_1 mrs).
Proof.
  destruct mrs as [m r s]; simpl.
  destruct m as [|p|p]; simpl; try lia.
  - destruct p; simpl; lia.
Qed.

Lemma iter_shr_1_nonneg p : forall mrs,
  0 <= shr_m mrs -> 0 <= shr_m (SpecFloat.iter_pos shr_1 p mrs).
Proof.
  induction p; intros mrs H; simpl; auto using shr_1_nonneg.
Qed.

Lemma shr_fexp_nonneg m e l :
  0 <= m -> 0 <= shr_m (fst (shr_fexp F32.prec F32.emax m e l)).
Proof.
  intros H. unfold shr_fexp, shr.
  assert (H0 : 0 <= shr_m (shr_record_of_loc m l))
    by (destruct l as [|[]]; exact H).
  destruct (_ - e); simpl; auto using iter_shr_1_nonneg.
Qed.

Lemma round_nearest_even_nonneg m l : 0 <= m -> 0 <= round_nearest_even m l.
Proof.
  intros H. destruct l as [|[]]; simpl; try lia.
  destruct (Z.even m); lia.
Qed.

Lemma binary_round_aux_not_nan s m e l :
  0 <= m -> binary_round_aux F32.prec F32.emax s m e l <> S754_nan.
Proof.
  intros H. unfold binary_round_aux.
  pose proof (shr_fexp_nonneg m e l H) as H1.
  destruct (shr_fexp F32.prec F32.emax m e l) as [mrs' e'] eqn:E1.
  simpl in H1.
  pose proof (shr_fexp_nonneg _ e' loc_Exact
                (round_nearest_even_nonneg _ (loc_of_shr_record mrs') H1)) as H2.
  destruct (shr_fexp F32.prec F32.emax _ e' loc_Exact) as [mrs'' e''].
  simpl in H2.
  destruct (shr_m mrs''); try lia; try discriminate.
  destruct (e'' <=? _); discriminate.
Qed.

Lemma div_not_nan (a b : float) :
  F32.finite_or_zero a = true -> F32.finite b = true -> F32.is_nan (F32.div a b) = false.
Proof.
  destruct a as [sa|sa| |sa ma ea], b as [sb|sb| |sb mb eb]; try discriminate;
    intros _ _; try reflexivity.
  unfold F32.div, SFdiv.
  destruct (SFdiv_core_binary _ _ _ _ _ _) as [[mz ez] lz] eqn:E.
  assert (0 <= mz).
  { unfold SFdiv_core_binary in E.
    set (m' := match _ - _ - _ with 0 => _ | Z.pos _ => _ | Z.neg _ => _ end) in E.
    assert (0 <= m').
    { subst m'. destruct (_ - _ - _); try lia. apply Z.shiftl_nonneg. lia. }
    pose proof (Z_div_mod m' (Z.pos mb) ltac:(lia)) as D.
    destruct (Z.div_eucl m' (Z.pos mb)) as [q r]. inversion E; subst.
    destruct D as [D1 D2]. nia. }
  pose proof (binary_round_aux_not_nan (xorb sa sb) mz ez lz H).
  destruct (binary_round_aux _ _ _ _ _ _); try reflexivity. congruence.
Qed.

Lemma of_int_small_check :
  forallb (fun k => F32.finite (F32.of_int (Z.of_nat k))
                    && F32.finite (F32.of_int (- Z.of_nat k))) (seq 1 4095) = true.
Proof. vm_compute. reflexivity. Qed.

Lemma of_int_finite d : -4095 <= d <= 4095 -> d <> 0 -> F32.finite (F32.of_int d) = true.
Proof.
  intros Hr Hd.
  pose proof of_int_small_check as H.
  rewrite forallb_forall in H.
  specialize (H (Z.abs_nat d)).
  rewrite <- list_elem_of_In, elem_of_seq in H.
  assert (Hin : (1 <= Z.abs_nat d < 1 + 4095)%nat) by lia.
  apply H in Hin. apply andb_prop in Hin as [H1 H2].
  destruct (Z_lt_le_dec d 0).
  - replace d with (- Z.of_nat (Z.abs_nat d)) by lia. exact H2.
  - replace d with (Z.of_nat (Z.abs_nat d)) by lia. exact H1.
Qed.

Lemma of_int_finite_or_zero d :
  -4095 <= d <= 4095 -> F32.finite_or_zero (F32.of_int d) = true.
Proof.
  intros Hr. destruct (Z.eq_dec d 0) as [->|Hd]; [reflexivity|].
  pose proof (of_int_finite d Hr Hd). destruct (F32.of_int d); done.
Qed.

Lemma not_ltb_leb (a b : float) :
  F32.is_nan a = false -> F32.is_nan b = false ->
  F32.ltb a b = false -> F32.leb b a = true.
Proof.
  unfold F32.ltb, F32.leb, SFltb, SFleb. intros Ha Hb.
  rewrite (SFcompare_swap b a).
  destruct (SFcompare a b) as [[]|] eqn:E; simpl; try done.
  destruct a, b; try discriminate; simpl in E; try discriminate;
    repeat case_match; discriminate.
Qed.

Lemma constrain_unit q :
  F32.is_nan q = false -> F32.in_unit (constrain q F32.mone F32.one) = true.
Proof.
  intros Hq. unfold constrain, F32.in_unit, F32.gtb.
  destruct (F32.ltb q F32.mone) eqn:E1; [reflexivity|].
  fold (F32.ltb F32.one q).
  destruct (F32.ltb F32.one q) eqn:E2; [reflexivity|].
  rewrite (not_ltb_leb q F32.mone), (not_ltb_leb F32.one q); done.
Qed.

Lemma deadzone_unit n : F32.in_unit n = true -> F32.in_unit (deadzone n) = true.
Proof. unfold deadzone. destruct (F32.ltb _ _); [reflexivity|auto]. Qed.

Lemma clamp_raw_cases c r :
  clamp_raw c r = r \/ clamp_raw c r = minVal c \/ clamp_raw c r = maxVal c.
Proof. unfold clamp_raw. repeat case_match; auto. Qed.

Lemma clamp_raw_range c r :
  minVal c <= maxVal c -> minVal c <= clamp_raw c r <= maxVal c.
Proof. unfold clamp_raw. intros. repeat case_match; lia. Qed.

Lemma norm_quotient_not_nan c r :
  adc (minVal c) -> adc (maxVal c) -> adc (center c) -> adc r ->
  norm_divisor c r <> 0 -> F32.is_nan (norm_quotient c r) = false.
Proof.
  unfold adc, norm_divisor, norm_quotient. intros Hmin Hmax Hc Hr Hd.
  pose proof (clamp_raw_cases c r) as Hcl.
  destruct (clamp_raw c r >=? center c);
    apply div_not_nan; try apply of_int_finite_or_zero; try apply of_int_finite; lia.
Qed.

(** ** Input conditioner *)

Lemma norm_divisor_zero c r :
  minVal c <= maxVal c ->
  norm_divisor c r = 0 <-> maxVal c = center c /\ clamp_raw c r = center c.
Proof.
  intros Hle. pose proof (clamp_raw_range c r Hle) as Hcl.
  unfold norm_divisor. destruct (Z.geb_spec (clamp_raw c r) (center c)); lia.
Qed.

Lemma control_nan_of_zero_divisor c r :
  minVal c <= maxVal c -> norm_divisor c r = 0 -> control c r = S754_nan.
Proof.
  intros Hle Hz. apply norm_divisor_zero in Hz as [Hmax Hcl]; [|exact Hle].
  unfold control, normalize, norm_quotient.
  rewrite Hcl, Hmax, Z.sub_diag.
  replace (center c >=? center c) with true by (symmetry; apply Z.geb_le; lia).
  reflexivity.
Qed.

Lemma smooth_nan_r lastN : smooth lastN S754_nan = S754_nan.
Proof.
  unfold smooth. change (F32.mul S754_nan (F32.lit 4 10)) with S754_nan.
  unfold F32.add. destruct (F32.mul lastN _); reflexivity.
Qed.

Lemma smooth_nan_l n : smooth S754_nan n = S754_nan.
Proof. reflexivity. Qed.

(** C3, as the code has it.  The per-frame computation has no test for
    a zero-width range.  With [min <= max], its divisor is zero exactly
    when [max = center] and the clamped sample equals the centre; the
    quotient is then 0/0, the control value is a NaN and not zero, and
    the smoothed signal is a NaN from then on.  A calibration whose
    centre lies strictly between its minimum and maximum never divides
    by zero. *)
Theorem degenerate_range_divides_by_zero (c : JoystickCalib) (r : Z) :
  minVal c <= maxVal c ->
  (norm_divisor c r = 0 <-> maxVal c = center c /\ clamp_raw c r = center c) /\
  (norm_divisor c r = 0 ->
     control c r = S754_nan /\
     forall lastN, smooth lastN (control c r) = S754_nan) /\
  (forall lastN n, smooth (smooth lastN S754_nan) n = S754_nan) /\
  (minVal c < center c < maxVal c -> norm_divisor c r <> 0).
Proof.
  intros Hle. split; [exact (norm_divisor_zero c r Hle)|].
  split; [|split].
  - intros Hz. rewrite (control_nan_of_zero_divisor c r Hle Hz).
    split; [reflexivity|]. exact smooth_nan_r.
  - intros lastN n. rewrite smooth_nan_r. apply smooth_nan_l.
  - intros Hc Hz. apply norm_divisor_zero in Hz; lia.
Qed.

Lemma degenerate_range_divides_by_zero_witness :
  minVal scenario_calib <= maxVal scenario_calib /\
  norm_divisor scenario_calib 2000 <> 0.
Proof.
  split; [vm_compute; discriminate|].
  apply (degenerate_range_divides_by_zero scenario_calib 2000).
  - vm_compute; discriminate.
  - vm_compute. split; reflexivity.
Defined.

(** C3 fails as stated: leaving the stick at rest during the sweep makes
    the calibration routine return a zero-width range, and the frame
    computation then divides 0 by 0 and yields a NaN, not zero. *)
Lemma degenerate_range_counterexample :
  calibrate 2000 [2000; 2000; 2000] = flat_calib /\
  maxVal flat_calib = center flat_calib /\
  norm_divisor flat_calib 2000 = 0 /\
  control flat_calib 2000 = S754_nan /\
  control flat_calib 2000 <> F32.zero.
Proof. vm_compute. repeat split; discriminate. Qed.

(** C6, as the code has it.  For samples and calibration values in the
    range of the converter and a nonzero divisor on the sample's side
    of the centre, the sample is first clamped into [min, max] and the
    normalised value, before and after the dead zone, lies in [-1, 1];
    under the scenario calibration the centre maps to 0 and the maximum
    to 1. *)
Theorem control_in_unit (c : JoystickCalib) (r : Z) :
  adc (minVal c) -> adc (maxVal c) -> adc (center c) -> adc r ->
  norm_divisor c r <> 0 ->
  (minVal c <= maxVal c -> minVal c <= clamp_raw c r <= maxVal c) /\
  F32.in_unit (normalize c r) = true /\
  F32.in_unit (control c r) = true /\
  normalize scenario_calib 2000 = F32.zero /\
  control scenario_calib 2000 = F32.zero /\
  normalize scenario_calib 3800 = F32.one /\
  control scenario_calib 3800 = F32.one.
Proof.
  intros Hmin Hmax Hc Hr Hd.
  assert (Hn : F32.in_unit (normalize c r) = true).
  { apply constrain_unit, norm_quotient_not_nan; assumption. }
  split; [apply clamp_raw_range|].
  split; [exact Hn|].
  split; [apply deadzone_unit, Hn|].
  vm_compute. repeat split.
Qed.

Lemma control_in_unit_witness :
  norm_divisor scenario_calib 4095 <> 0 /\
  F32.in_unit (control scenario_calib 4095) = true.
Proof.
  split; [vm_compute; discriminate|].
  apply (control_in_unit scenario_calib 4095);
    unfold adc; simpl; try lia.
  vm_compute; discriminate.
Defined.

(** C6 fails as stated: on the zero-width calibration the routine
    returns for a stick at rest, the value computed for the centre
    sample is a NaN, which is not in [-1, 1]. *)
Lemma control_in_unit_counterexample :
  calibrate 2000 [2000; 2000; 2000] = flat_calib /\
  adc 2000 /\
  clamp_raw flat_calib 2000 = 2000 /\
  F32.in_unit (normalize flat_calib 2000) = false /\
  F32.in_unit (control flat_calib 2000) = false.
Proof. unfold adc. vm_compute. repeat split; discriminate. Qed.

(** ** Grid-maze game *)

Module Game1Facts.
Import Game1.

Lemma passable_spec nx ny :
  passable nx ny = true <->
  (0 <= nx < MAP_SIZE /\ 0 <= ny < MAP_SIZE) /\ cell ny nx = Some 0.
Proof.
  unfold passable, in_map.
  rewrite andb_true_iff, bool_decide_eq_true, !andb_true_iff.
  rewrite !Z.leb_le, !Z.ltb_lt. intuition lia.
Qed.

Lemma tank_of_read i s :
  (tankX (readJoystickAndFire i s), tankY (readJoystickAndFire i s)) =
  match request s (joyY i) (joyX i) with
  | Some (nx, ny, _) => if passable nx ny then (nx, ny) else (tankX s, tankY s)
  | None => (tankX s, tankY s)
  end.
Proof.
  unfold readJoystickAndFire.
  destruct (request s (joyY i) (joyX i)) as [[[nx ny] d]|]; simpl;
    [destruct (passable nx ny)|]; reflexivity.
Qed.

Lemma read_keeps_tank_ok i s : tank_ok s -> tank_ok (readJoystickAndFire i s).
Proof.
  intros Hs. pose proof (tank_of_read i s) as E.
  unfold tank_ok.
  destruct (request s (joyY i) (joyX i)) as [[[nx ny] d]|];
    [destruct (passable nx ny) eqn:P|]; inversion E as [[Ex Ey]];
    rewrite ?Ex, ?Ey; try exact Hs.
  apply passable_spec in P. tauto.
Qed.

Lemma moveBullet_tank s :
  tankX (moveBullet s) = tankX s /\ tankY (moveBullet s) = tankY s.
Proof. unfold moveBullet. destruct (negb (bulletActive s)); split; reflexivity. Qed.

Lemma pass_keeps_tank_ok i s : tank_ok s -> tank_ok (fst (pass i s)).
Proof.
  intros Hs. unfold pass. simpl.
  set (s1 := if _ >? TANK_MOVE_DELAY then _ else s).
  assert (H1 : tank_ok s1).
  { subst s1. destruct (_ >? _); [|exact Hs].
    exact (read_keeps_tank_ok i s Hs). }
  clearbody s1.
  set (s2 := if _ >? BULLET_MOVE_DELAY then _ else s1).
  assert (H2 : tank_ok s2).
  { subst s2. destruct (_ >? _); [|exact H1].
    unfold tank_ok in *. simpl.
    destruct (moveBullet_tank s1) as [-> ->]. exact H1. }
  exact H2.
Qed.

Lemma run_keeps_tank_ok ins : forall s, tank_ok s -> tank_ok (run ins s).
Proof.
  induction ins as [|i ins IH]; intros s Hs; [exact Hs|].
  pose proof (pass_keeps_tank_ok i s Hs) as H.
  change (run (i :: ins) s)
    with (let '(s', stop) := pass i s in if stop then s' else run ins s').
  destruct (pass i s) as [s' stop]. simpl in H.
  destruct stop; [exact H|exact (IH s' H)].
Qed.

Lemma init_tank_ok t0 : tank_ok (init t0).
Proof. unfold tank_ok. simpl. vm_compute. repeat split; discriminate. Qed.

(** C10.  In every session of the grid-maze game the tank is, after each
    pass of the loop, inside the 8x8 map and on a cell of value 0; the
    joystick step keeps that, and a request for a cell that is out of
    bounds or holds a wall leaves the tank where it is. *)
Theorem tank_stays_on_free_cell :
  (forall t0 ins, tank_ok (run ins (init t0))) /\
  (forall i s, tank_ok s -> tank_ok (readJoystickAndFire i s)) /\
  (forall i s nx ny d,
     request s (joyY i) (joyX i) = Some (nx, ny, d) ->
     in_map nx ny = false \/ cell ny nx = Some 1 ->
     tankX (readJoystickAndFire i s) = tankX s /\
     tankY (readJoystickAndFire i s) = tankY s).
Proof.
  split; [|split].
  - intros t0 ins. apply run_keeps_tank_ok, init_tank_ok.
  - exact read_keeps_tank_ok.
  - intros i s nx ny d Hreq Hbad.
    pose proof (tank_of_read i s) as E. rewrite Hreq in E.
    assert (P : passable nx ny = false).
    { unfold passable. destruct Hbad as [-> | Hc]; [reflexivity|].
      rewrite Hc. apply andb_false_r. }
    rewrite P in E. inversion E. split; reflexivity.
Qed.

Lemma tank_stays_on_free_cell_witness :
  tank_ok (init 0) /\
  request (init 0) (joyY wall_push) (joyX wall_push) = Some (1, 0, 0) /\
  cell 0 1 = Some 1 /\
  tank_ok (readJoystickAndFire wall_push (init 0)) /\
  tankX (readJoystickAndFire wall_push (init 0)) = 1 /\
  tankY (readJoystickAndFire wall_push (init 0)) = 1.
Proof.
  split; [apply init_tank_ok|].
  split; [reflexivity|]. split; [reflexivity|].
  split.
  - apply (proj1 (proj2 tank_stays_on_free_cell) wall_push (init 0)), init_tank_ok.
  - apply (proj2 (proj2 tank_stays_on_free_cell) wall_push (init 0) 1 0 0).
    + reflexivity.
    + right. reflexivity.
Defined.

End Game1Facts.

(** ** Lane-dodge game *)

Module Game2Facts.
Import Game2.

Arguments F32.add : simpl never.
Arguments F32.sub : simpl never.
Arguments F32.mul : simpl never.
Arguments F32.div : simpl never.
Arguments F32.ltb : simpl never.
Arguments F32.gtb : simpl never.
Arguments F32.of_int : simpl never.
Arguments F32.to_int : simpl never.
Arguments F32.lit : simpl never.
Arguments u32 : simpl never.
Arguments to_long : simpl never.
Arguments hits : simpl never.
Arguments at_ : simpl never.
Arguments control : simpl never.
Arguments smooth : simpl never.

Section Facts.

Context `{Console}.

(** *** A frame is a sequence of steps, stage by stage *)

Lemma fold_micro st (f : State -> nat -> State) (l : list nat) :
  (forall g x, micro st g (f g x)) ->
  forall g, rtc (micro st) g (fold_left f l g).
Proof.
  intros Hf. induction l as [|x l IH]; intros g; simpl; [reflexivity|].
  eapply rtc_l; [apply Hf|apply IH].
Qed.

Lemma enemies_step_micro t d g :
  rtc (micro Physics) g (enemies_step t d g).
Proof. apply fold_micro. intros. apply micro_enemy. Qed.

Lemma player_bullets_step_micro g :
  rtc (micro Physics) g (player_bullets_step g).
Proof. apply fold_micro. intros. apply micro_player_bullet. Qed.

Lemma enemy_bullets_step_micro g :
  rtc (micro Physics) g (enemy_bullets_step g).
Proof. apply fold_micro. intros. apply micro_enemy_bullet. Qed.

Lemma physics_micro i d g :
  rtc (micro Physics) g (physics i d g).
Proof.
  unfold physics.
  cbv zeta.
  eapply rtc_trans; [|exact (enemy_bullets_step_micro _)].
  eapply rtc_trans; [|exact (player_bullets_step_micro _)].
  eapply rtc_trans; [|exact (enemies_step_micro _ _ _)].
  eapply rtc_l; [exact (micro_joystick (raw i) g)|].
  eapply rtc_l; [exact (micro_move _)|].
  apply rtc_once, micro_fire.
Qed.

Lemma collide_bullet_micro g b :
  rtc (micro Collision) g (collide_bullet g b).
Proof.
  unfold collide_bullet. repeat case_match; try reflexivity.
  apply fold_micro. intros. apply micro_pair.
Qed.

Lemma collide_enemies_micro g :
  rtc (micro Collision) g (collide_enemies g).
Proof.
  unfold collide_enemies. generalize (seq 0 MAX_PLAYER_BULLETS).
  intros l. revert g. induction l as [|b l IH]; intros g; simpl; [reflexivity|].
  eapply rtc_trans; [exact (collide_bullet_micro g b)|apply IH].
Qed.

Lemma collisions_micro g :
  rtc (micro Collision) g (collisions g).
Proof.
  unfold collisions, collide_player.
  eapply rtc_trans; [exact (collide_enemies_micro g)|].
  apply rtc_once, micro_player.
Qed.

Lemma finish_micro i d g :
  rtc (micro Finish) g (finish i d g).
Proof.
  unfold finish.
  cbv zeta.
  eapply rtc_r; [|exact (micro_draw _)].
  eapply rtc_r; [|exact (micro_wave _ _ _)].
  apply rtc_once, micro_hud.
Qed.



Lemma shuffle_state i : forall a g,
  snd (shuffle i a g) = set_draws (i + draws g) g.
Proof.
  induction i as [|i IH]; intros a g; [destruct g; reflexivity|].
  change (shuffle (S i) a g)
    with (shuffle i (swap (S i) (Z.to_nat (random (draws g) 0 (Z.of_nat (S i) + 1))) a)
                  (set_draws (S (draws g)) g)).
  rewrite IH. destruct g; simpl. unfold set_draws; simpl. f_equal. lia.
Qed.

Lemma wave_plan_state g :
  exists n, snd (wave_plan g) = set_draws n g.
Proof.
  unfold wave_plan.
  pose proof (shuffle_state (LANE_COUNT - 1) lanes g) as E1.
  destruct (shuffle (LANE_COUNT - 1) lanes g) as [a1 g1]. simpl in E1. subst g1.
  unfold draw. cbv zeta.
  set (av := filter _ lanes).
  match goal with |- context [shuffle ?n ?a ?g0] =>
    pose proof (shuffle_state n a g0) as E2;
    destruct (shuffle n a g0) as [a2 g2] end.
  simpl in E2. subst g2. eexists. destruct g; reflexivity.
Qed.

Lemma spawn_loop_shape avail : forall k d c g,
  shape (spawn_loop avail k d c g) = shape g.
Proof.
  induction avail as [|lane rest IH]; intros k d c g; simpl; [reflexivity|].
  repeat case_match; try reflexivity.
  unfold draw; simpl. rewrite IH. unfold shape; simpl.
  rewrite length_insert. reflexivity.
Qed.

Lemma spawnEnemiesWave_shape d c g :
  shape (spawnEnemiesWave d c g) = shape g.
Proof.
  unfold spawnEnemiesWave.
  destruct (wave_plan_state g) as [n E].
  destruct (wave_plan g) as [[gap avail] g1]. simpl in E. subst g1.
  rewrite spawn_loop_shape. reflexivity.
Qed.

Lemma collide_player_from_shape bs : forall g,
  shape (collide_player_from bs g) = shape g.
Proof.
  induction bs as [|b bs IH]; intros g; simpl; [reflexivity|].
  repeat case_match; rewrite ?IH; try reflexivity.
  unfold shape; simpl. rewrite length_insert. reflexivity.
Qed.

Lemma micro_shape st g g' : micro st g g' -> shape g' = shape g.
Proof.
  destruct 1; try reflexivity.
  - unfold move_player. repeat case_match; reflexivity.
  - unfold player_fire. repeat case_match; try reflexivity.
    unfold shape; simpl. rewrite length_insert. reflexivity.
  - unfold enemy_step, enemy_fire, draw. repeat case_match; try reflexivity;
      unfold shape; simpl; rewrite ?length_insert; reflexivity.
  - unfold player_bullet_step. repeat case_match; try reflexivity;
      unfold shape; simpl; rewrite ?length_insert; reflexivity.
  - unfold enemy_bullet_step. repeat case_match; try reflexivity;
      unfold shape; simpl; rewrite ?length_insert; reflexivity.
  - unfold collide_pair. repeat case_match; try reflexivity;
      unfold shape; simpl; rewrite ?length_insert; reflexivity.
  - apply collide_player_from_shape.
  - unfold hud, score_tick. repeat case_match; reflexivity.
  - unfold new_wave. case_match; [apply spawnEnemiesWave_shape|reflexivity].
Qed.


Lemma extends_refl st g : extends st g g.
Proof. exists []. rewrite app_nil_r. split; [reflexivity|constructor]. Qed.

Lemma extends_trans st g1 g2 g3 :
  extends st g1 g2 -> extends st g2 g3 -> extends st g1 g3.
Proof.
  intros (e1 & E1 & F1) (e2 & E2 & F2). exists (e1 ++ e2).
  rewrite E2, E1, app_assoc. split; [reflexivity|]. apply Forall_app; auto.
Qed.

Lemma log_emit e g : log (emit e g) = log g ++ [e].
Proof. reflexivity. Qed.

Lemma extends_emit st e g : fits st e = true -> extends st g (emit e g).
Proof. intros F. exists [e]. split; [reflexivity|]. repeat constructor. exact F. Qed.

Lemma extends_same st g g' : log g' = log g -> extends st g g'.
Proof. intros E. exists []. rewrite app_nil_r. split; [exact E|constructor]. Qed.

Ltac log_tac :=
  simpl; rewrite <- ?app_assoc;
  first [ apply extends_refl
        | apply extends_same; reflexivity
        | eexists; split; [simpl; rewrite <- ?app_assoc; reflexivity
                          | repeat constructor ] ].

Lemma spawn_loop_extends avail : forall k d c g,
  extends Finish g (spawn_loop avail k d c g).
Proof.
  induction avail as [|lane rest IH]; intros k d c g; simpl; [apply extends_refl|].
  repeat case_match; try apply extends_refl.
  unfold draw; simpl.
  eapply extends_trans; [|apply IH]. log_tac.
Qed.

Lemma spawnEnemiesWave_extends d c g :
  extends Finish g (spawnEnemiesWave d c g).
Proof.
  unfold spawnEnemiesWave.
  destruct (wave_plan_state g) as [n E].
  destruct (wave_plan g) as [[gap avail] g1]. simpl in E. subst g1.
  eapply extends_trans; [|apply spawn_loop_extends]. log_tac.
Qed.

Lemma collide_player_from_extends bs : forall g,
  extends Collision g (collide_player_from bs g).
Proof.
  induction bs as [|b bs IH]; intros g; simpl; [apply extends_refl|].
  repeat case_match; try apply IH.
  - log_tac.
  - eapply extends_trans; [|apply IH]. log_tac.
Qed.

Lemma micro_extends st g g' : micro st g g' -> extends st g g'.
Proof.
  destruct 1.
  - log_tac.
  - log_tac.
  - unfold move_player. repeat case_match; log_tac.
  - unfold player_fire. repeat case_match; log_tac.
  - unfold enemy_step, enemy_fire, draw. repeat case_match; log_tac.
  - unfold player_bullet_step. repeat case_match; log_tac.
  - unfold enemy_bullet_step. repeat case_match; log_tac.
  - unfold collide_pair. repeat case_match; log_tac.
  - apply collide_player_from_extends.
  - unfold hud, score_tick. repeat case_match; log_tac.
  - unfold new_wave. case_match; [apply spawnEnemiesWave_extends|apply extends_refl].
  - log_tac.
  - log_tac.
  - log_tac.
Qed.



(** *** Order of the events of a frame *)







(** *** Pools *)

Lemma rtc_reachable st g g' :
  rtc (micro st) g g' -> reachable g -> reachable g'.
Proof.
  induction 1 as [|g1 g2 g3 Hm _ IH]; intros Hr; [exact Hr|].
  apply IH. exact (reachable_step st g1 g2 Hr Hm).
Qed.

Lemma staged_reachable i g : reachable g -> reachable (staged i g).
Proof.
  intros Hr. unfold staged. cbv zeta.
  eapply rtc_reachable; [apply finish_micro|].
  eapply rtc_reachable; [apply collisions_micro|].
  eapply rtc_reachable; [apply physics_micro|].
  exact (reachable_step Physics _ _ Hr (micro_lastFrame (now i) g)).
Qed.

Lemma frame_reachable i g : reachable g -> reachable (fst (frame i g)).
Proof.
  intros Hr. unfold frame.
  destruct (u32 (now i - lastFrame g) <? FRAME_MS); [exact Hr|].
  cbv zeta.
  pose proof (reachable_step Closing _ _ (staged_reachable i g Hr)
                (micro_exit (btnBack i) (staged i g))) as H1.
  destruct (btnBack i); [exact H1|].
  destruct (isGameOver _); [|exact H1].
  exact (reachable_step Closing _ _ H1 (micro_banner _)).
Qed.

Lemma run_reachable ins : forall g, reachable g -> reachable (fst (run ins g)).
Proof.
  induction ins as [|i ins IH]; intros g Hr; [exact Hr|].
  pose proof (frame_reachable i g Hr) as H1.
  change (run (i :: ins) g)
    with (match frame i g with (g', Continue) => run ins g' | r => r end).
  destruct (frame i g) as [g' []]; simpl in *; auto.
Qed.

Lemma reachable_shape g : reachable g -> shape g = capacities.
Proof.
  induction 1 as [t0 clock|st g g' _ IH Hm].
  - unfold init. rewrite spawnEnemiesWave_shape. reflexivity.
  - rewrite (micro_shape st g g' Hm). exact IH.
Qed.

Lemma free_bullet_None (l : list Bullet.t) :
  Forall (fun b => Bullet.active b = true) l -> free_bullet l = None.
Proof.
  intros Hl. unfold free_bullet.
  replace (list_find (fun b => Bullet.active b = false) l) with (@None (nat * Bullet.t));
    [reflexivity|].
  symmetry. apply list_find_None.
  eapply Forall_impl; [exact Hl|]. intros b Hb. congruence.
Qed.

Lemma free_bullet_Some (l : list Bullet.t) k :
  free_bullet l = Some k ->
  exists b, l !! k = Some b /\ Bullet.active b = false.
Proof.
  unfold free_bullet. intros E.
  destruct (list_find _ l) as [[k' b]|] eqn:F; [|discriminate].
  simpl in E. inversion E; subst k'.
  apply list_find_Some in F as (F1 & F2 & _). eauto.
Qed.

Lemma free_enemy_None (l : list Enemy.t) :
  Forall (fun e => Enemy.active e = true) l -> free_enemy l = None.
Proof.
  intros Hl. unfold free_enemy.
  replace (list_find (fun e => Enemy.active e = false) l) with (@None (nat * Enemy.t));
    [reflexivity|].
  symmetry. apply list_find_None.
  eapply Forall_impl; [exact Hl|]. intros e He. congruence.
Qed.

Lemma free_enemy_Some (l : list Enemy.t) k :
  free_enemy l = Some k ->
  exists e, l !! k = Some e /\ Enemy.active e = false.
Proof.
  unfold free_enemy. intros E.
  destruct (list_find _ l) as [[k' e]|] eqn:F; [|discriminate].
  simpl in E. inversion E; subst k'.
  apply list_find_Some in F as (F1 & F2 & _). eauto.
Qed.

(** A write into a free slot leaves every active slot as it was. *)
Lemma insert_free_bullet (l : list Bullet.t) k nb j b :
  free_bullet l = Some k -> l !! j = Some b -> Bullet.active b = true ->
  <[k := nb]> l !! j = Some b.
Proof.
  intros Hk Hj Hb. apply free_bullet_Some in Hk as (b0 & H0 & A0).
  rewrite list_lookup_insert_ne; [exact Hj|].
  intros ->. congruence.
Qed.

Lemma insert_free_enemy (l : list Enemy.t) k ne j e :
  free_enemy l = Some k -> l !! j = Some e -> Enemy.active e = true ->
  <[k := ne]> l !! j = Some e.
Proof.
  intros Hk Hj He. apply free_enemy_Some in Hk as (e0 & H0 & A0).
  rewrite list_lookup_insert_ne; [exact Hj|].
  intros ->. congruence.
Qed.

Lemma player_fire_full i g :
  Forall (fun b => Bullet.active b = true) (playerBullets g) ->
  player_fire i g = g.
Proof.
  intros Hf. unfold player_fire. rewrite (free_bullet_None _ Hf).
  destruct (_ && _); reflexivity.
Qed.

Lemma player_fire_keeps i g j b :
  playerBullets g !! j = Some b -> Bullet.active b = true ->
  playerBullets (player_fire i g) !! j = Some b.
Proof.
  intros Hj Hb. unfold player_fire.
  destruct (_ && _); [|exact Hj].
  destruct (free_bullet (playerBullets g)) as [k|] eqn:Hk; [|exact Hj].
  simpl. eapply insert_free_bullet; eauto.
Qed.

Lemma enemy_fire_bullets t d e en g :
  enemyBullets (enemy_fire t d e en g) =
  match free_bullet (enemyBullets g) with
  | Some eb => <[eb := enemy_shot en d]> (enemyBullets g)
  | None => enemyBullets g
  end.
Proof.
  unfold enemy_fire, draw.
  destruct (free_bullet (enemyBullets g)); reflexivity.
Qed.

Lemma enemy_step_bullets t d g e :
  enemyBullets (enemy_step t d g e) = enemyBullets g \/
  exists en eb, free_bullet (enemyBullets g) = Some eb /\
    enemyBullets (enemy_step t d g e) = <[eb := enemy_shot en d]> (enemyBullets g).
Proof.
  unfold enemy_step.
  destruct (enemies g !! e) as [en|]; [|left; reflexivity].
  destruct (negb (Enemy.active en)); [left; reflexivity|].
  cbv zeta.
  destruct (F32.gtb _ _); [left; destruct (_ >=? -1000); reflexivity|].
  destruct (to_long t >=? _); [|left; destruct (_ >=? -1000); reflexivity].
  rewrite enemy_fire_bullets.
  assert (E : forall g0 : State, enemyBullets
            (set_prevEnemyY (<[e := F32.to_int (Enemy.y (Enemy.set_y
               (F32.add (Enemy.y en) (F32.mul (Enemy.speed en) speedMultiplier)) en))]>
               (prevEnemyY g0)) g0) = enemyBullets g0) by reflexivity.
  destruct (_ >=? -1000); simpl;
    (destruct (free_bullet (enemyBullets g)) as [eb|] eqn:Hk;
     [right; eexists _, eb; split; [reflexivity|reflexivity]|left; reflexivity]).
Qed.

Lemma enemy_step_full t d g e :
  Forall (fun b => Bullet.active b = true) (enemyBullets g) ->
  enemyBullets (enemy_step t d g e) = enemyBullets g.
Proof.
  intros Hf. destruct (enemy_step_bullets t d g e) as [E|(en & eb & Hk & _)];
    [exact E|].
  rewrite (free_bullet_None _ Hf) in Hk. discriminate.
Qed.

Lemma enemy_step_keeps t d g e j b :
  enemyBullets g !! j = Some b -> Bullet.active b = true ->
  enemyBullets (enemy_step t d g e) !! j = Some b.
Proof.
  intros Hj Hb. destruct (enemy_step_bullets t d g e) as [E|(en & eb & Hk & E)];
    rewrite E; [exact Hj|].
  eapply insert_free_bullet; eauto.
Qed.

Lemma enemies_step_full t d g :
  Forall (fun b => Bullet.active b = true) (enemyBullets g) ->
  enemyBullets (enemies_step t d g) = enemyBullets g.
Proof.
  unfold enemies_step. generalize (seq 0 MAX_ENEMIES). intros l. revert g.
  induction l as [|e l IH]; intros g Hf; simpl; [reflexivity|].
  rewrite IH; rewrite enemy_step_full; auto.
Qed.

Lemma enemies_step_keeps t d j b : forall g,
  enemyBullets g !! j = Some b -> Bullet.active b = true ->
  enemyBullets (enemies_step t d g) !! j = Some b.
Proof.
  unfold enemies_step. generalize (seq 0 MAX_ENEMIES). intros l.
  induction l as [|e l IH]; intros g Hj Hb; simpl; [exact Hj|].
  apply IH; [|exact Hb]. apply enemy_step_keeps; assumption.
Qed.


(** *** Spawn director *)

Lemma insert_head_perm (t : list Z) : forall j y h,
  t !! j = Some y -> y :: <[j := h]> t ≡ₚ h :: t.
Proof.
  induction t as [|z t IH]; intros [|j] y h Hj; try discriminate.
  - simpl in Hj. inversion Hj; subst. simpl. apply perm_swap.
  - simpl in *. rewrite (perm_swap z y). rewrite (IH j y h Hj). apply perm_swap.
Qed.

Lemma swap_perm (a : list Z) : forall i j, swap i j a ≡ₚ a.
Proof.
  unfold swap. induction a as [|h t IH]; intros i j; [destruct i; reflexivity|].
  destruct i as [|i], j as [|j]; simpl.
  - reflexivity.
  - destruct (t !! j) as [y|] eqn:Hj; [|reflexivity].
    simpl. apply insert_head_perm, Hj.
  - destruct (t !! i) as [x|] eqn:Hi; [|reflexivity].
    simpl. apply insert_head_perm, Hi.
  - specialize (IH i j).
    destruct (t !! i) as [x|]; [|reflexivity].
    destruct (t !! j) as [y|]; [|reflexivity].
    simpl. rewrite IH. reflexivity.
Qed.

Lemma shuffle_perm i : forall a g, fst (shuffle i a g) ≡ₚ a.
Proof.
  induction i as [|i IH]; intros a g; [reflexivity|].
  change (shuffle (S i) a g)
    with (shuffle i (swap (S i) (Z.to_nat (random (draws g) 0 (Z.of_nat (S i) + 1))) a)
                  (set_draws (S (draws g)) g)).
  rewrite IH. apply swap_perm.
Qed.

Lemma random_range k lo hi : lo < hi -> lo <= random k lo hi < hi.
Proof.
  intros Hlt. unfold random.
  destruct (Z.leb_spec hi lo); [lia|].
  pose proof (Z.mod_pos_bound (entropy k) (hi - lo) ltac:(lia)). lia.
Qed.

Lemma elem_of_lanes lane : lane ∈ lanes <-> 0 <= lane < Z.of_nat LANE_COUNT.
Proof.
  unfold lanes. rewrite list_elem_of_fmap. split.
  - intros (n & -> & Hn). apply elem_of_seq in Hn. lia.
  - intros Hl. exists (Z.to_nat lane). split; [lia|].
    apply elem_of_seq. lia.
Qed.

Lemma NoDup_lanes : NoDup lanes.
Proof. unfold lanes. apply NoDup_fmap; [apply _|apply NoDup_seq]. Qed.

Lemma wave_plan_spec g :
  exists gap avail n,
    wave_plan g = (gap, avail, set_draws n g) /\
    0 <= gap < Z.of_nat LANE_COUNT /\
    avail ≡ₚ filter (fun i => i <> gap) lanes.
Proof.
  unfold wave_plan.
  pose proof (shuffle_state (LANE_COUNT - 1) lanes g) as E1.
  destruct (shuffle (LANE_COUNT - 1) lanes g) as [a1 g1]. simpl in E1. subst g1.
  unfold draw. cbv zeta.
  set (gap := random _ 0 (Z.of_nat LANE_COUNT)).
  set (av := filter _ lanes).
  match goal with |- context [shuffle ?n ?a ?g0] =>
    pose proof (shuffle_state n a g0) as E2;
    pose proof (shuffle_perm n a g0) as E3;
    destruct (shuffle n a g0) as [a2 g2] end.
  simpl in E2, E3. subst g2.
  exists gap, a2. eexists. split; [|split].
  - reflexivity.
  - apply random_range. reflexivity.
  - exact E3.
Qed.

Lemma free_slots_insert (l : list Enemy.t) : forall k e0 en,
  l !! k = Some e0 -> Enemy.active e0 = false -> Enemy.active en = true ->
  (S (length (filter (fun e => Enemy.active e = false) (<[k := en]> l)))
   = length (filter (fun e => Enemy.active e = false) l))%nat.
Proof.
  induction l as [|h t IH]; intros [|k] e0 en Hk H0 Hn; try discriminate; simpl in *.
  - inversion Hk; subst h. rewrite !filter_cons.
    destruct (decide (Enemy.active en = false)); [congruence|].
    destruct (decide (Enemy.active e0 = false)); [reflexivity|congruence].
  - rewrite !filter_cons. destruct (decide (Enemy.active h = false)); simpl;
      rewrite <- (IH k e0 en Hk H0 Hn); reflexivity.
Qed.

Lemma active_insert (l : list Enemy.t) : forall k e0 en,
  l !! k = Some e0 -> Enemy.active e0 = false -> Enemy.active en = true ->
  (length (filter (fun e => Enemy.active e = true) (<[k := en]> l))
   = S (length (filter (fun e => Enemy.active e = true) l)))%nat.
Proof.
  induction l as [|h t IH]; intros [|k] e0 en Hk H0 Hn; try discriminate; simpl in *.
  - inversion Hk; subst h. rewrite !filter_cons.
    destruct (decide (Enemy.active en = true)); [|congruence].
    destruct (decide (Enemy.active e0 = true)); [congruence|reflexivity].
  - rewrite !filter_cons. destruct (decide (Enemy.active h = true)); simpl;
      rewrite (IH k e0 en Hk H0 Hn); reflexivity.
Qed.


Lemma spawn_loop_spec avail : forall k d c g,
  exists n evs,
    (n <= MAX_ENEMIES - k)%nat /\
    log (spawn_loop avail k d c g) = log g ++ evs /\
    spawned_lanes evs = take n avail /\
    free_slots g = (n + free_slots (spawn_loop avail k d c g))%nat /\
    active_enemies (spawn_loop avail k d c g) = (n + active_enemies g)%nat /\
    (forall j e, enemies g !! j = Some e -> Enemy.active e = true ->
                 enemies (spawn_loop avail k d c g) !! j = Some e) /\
    (forall j e', enemies (spawn_loop avail k d c g) !! j = Some e' ->
       enemies g !! j = Some e' \/
       exists e0, enemies g !! j = Some e0 /\ Enemy.active e0 = false /\
                  Enemy.active e' = true /\ Enemy.lane e' ∈ take n avail).
Proof.
  induction avail as [|lane rest IH]; intros k d c g.
  { exists 0%nat, []. simpl. rewrite app_nil_r.
    repeat split; auto; lia. }
  assert (Hstop : exists n evs,
    (n <= MAX_ENEMIES - k)%nat /\ log g = log g ++ evs /\
    spawned_lanes evs = take n (lane :: rest) /\
    free_slots g = (n + free_slots g)%nat /\
    active_enemies g = (n + active_enemies g)%nat /\
    (forall j e, enemies g !! j = Some e -> Enemy.active e = true ->
                 enemies g !! j = Some e) /\
    (forall j e', enemies g !! j = Some e' ->
       enemies g !! j = Some e' \/
       exists e0, enemies g !! j = Some e0 /\ Enemy.active e0 = false /\
                  Enemy.active e' = true /\ Enemy.lane e' ∈ take n (lane :: rest))).
  { exists 0%nat, []. rewrite app_nil_r. repeat split; auto; lia. }
  simpl spawn_loop.
  destruct (k <? MAX_ENEMIES)%nat eqn:Hk; [|exact Hstop].
  destruct (free_enemy (enemies g)) as [idx|] eqn:Hfree; [|exact Hstop].
  clear Hstop. apply Nat.ltb_lt in Hk.
  unfold draw. cbv zeta.
  set (en := new_enemy lane k d _ _ c).
  set (g1 := emit (Spawned idx lane) _).
  destruct (IH (S k) d c g1) as (n & evs & Hn & Hlog & Hl & Hfs & Hact & Hkeep & Hchar).
  destruct (free_enemy_Some _ _ Hfree) as (e0 & Hidx & Hinact).
  assert (E1 : enemies g1 = <[idx := en]> (enemies g)) by reflexivity.
  exists (S n), (Spawned idx lane :: evs).
  split; [lia|]. split.
  { rewrite Hlog. subst g1. rewrite log_emit. simpl. rewrite <- app_assoc. reflexivity. }
  split; [simpl; rewrite Hl; reflexivity|].
  split.
  { rewrite Nat.add_succ_l, <- Hfs. unfold free_slots. rewrite E1.
    symmetry. eapply free_slots_insert; eauto. }
  split.
  { rewrite Hact. unfold active_enemies. rewrite E1.
    erewrite active_insert; eauto. lia. }
  split.
  { intros j e Hj He. apply Hkeep; [|exact He]. rewrite E1.
    eapply insert_free_enemy; eauto. }
  intros j e' Hj. destruct (Hchar j e' Hj) as [Hsame|(e1 & H1 & A1 & A' & L')].
  - rewrite E1 in Hsame. destruct (decide (idx = j)) as [->|Hne].
    + rewrite list_lookup_insert_eq in Hsame
        by (apply lookup_lt_Some in Hidx; exact Hidx).
      inversion Hsame; subst e'. right. exists e0.
      repeat split; auto. simpl. left.
    + rewrite list_lookup_insert_ne in Hsame by exact Hne. left. exact Hsame.
  - rewrite E1 in H1. destruct (decide (idx = j)) as [->|Hne].
    + rewrite list_lookup_insert_eq in H1
        by (apply lookup_lt_Some in Hidx; exact Hidx).
      inversion H1; subst e1. discriminate.
    + rewrite list_lookup_insert_ne in H1 by exact Hne. right. exists e1.
      repeat split; auto. simpl. right. exact L'.
Qed.

Lemma spawn_loop_full avail k d c g :
  Forall (fun e => Enemy.active e = true) (enemies g) ->
  spawn_loop avail k d c g = g.
Proof.
  intros Hf. destruct avail as [|lane rest]; [reflexivity|]. simpl.
  rewrite (free_enemy_None _ Hf). destruct (k <? MAX_ENEMIES)%nat; reflexivity.
Qed.


Lemma spawnEnemiesWave_unfold d c g :
  exists gap avail n,
    wave_plan g = (gap, avail, set_draws n g) /\
    0 <= gap < Z.of_nat LANE_COUNT /\
    avail ≡ₚ filter (fun i => i <> gap) lanes /\
    spawnEnemiesWave d c g = spawn_loop avail 0 d c (set_draws n g).
Proof.
  destruct (wave_plan_spec g) as (gap & avail & n & E & Hg & Hp).
  exists gap, avail, n. unfold spawnEnemiesWave. rewrite E. auto.
Qed.

Lemma spawnEnemiesWave_keeps d c g j e :
  enemies g !! j = Some e -> Enemy.active e = true ->
  enemies (spawnEnemiesWave d c g) !! j = Some e.
Proof.
  intros Hj He.
  destruct (spawnEnemiesWave_unfold d c g) as (gap & avail & m & _ & _ & _ & ->).
  destruct (spawn_loop_spec avail 0 d c (set_draws m g))
    as (n & evs & _ & _ & _ & _ & _ & Hkeep & _).
  exact (Hkeep j e Hj He).
Qed.

(** C5.  A call of the wave spawner draws one gap lane among the seven
    and takes its candidate lanes from a shuffle of exactly the six
    others; it spawns into the first [n] candidates, which are
    pairwise distinct and differ from the gap lane, with [n] at most 4
    and at most the number of inactive slots before the call; it
    activates exactly [n] enemies, leaves every active slot as it was
    and writes only slots that were inactive. *)
Theorem wave_reserves_gap (d : float) (c : Z) (g : State) :
  exists gap avail n evs,
    fst (wave_plan g) = (gap, avail) /\
    0 <= gap < Z.of_nat LANE_COUNT /\
    NoDup avail /\
    (forall lane, lane ∈ avail <->
                  (0 <= lane < Z.of_nat LANE_COUNT /\ lane <> gap)) /\
    log (spawnEnemiesWave d c g) = log g ++ evs /\
    spawned_lanes evs = take n avail /\
    (n <= MAX_ENEMIES)%nat /\
    (n <= free_slots g)%nat /\
    active_enemies (spawnEnemiesWave d c g) = (n + active_enemies g)%nat /\
    (forall j e, enemies g !! j = Some e -> Enemy.active e = true ->
                 enemies (spawnEnemiesWave d c g) !! j = Some e) /\
    (forall j e', enemies (spawnEnemiesWave d c g) !! j = Some e' ->
       enemies g !! j = Some e' \/
       exists e0, enemies g !! j = Some e0 /\ Enemy.active e0 = false /\
                  Enemy.active e' = true /\ Enemy.lane e' ∈ take n avail /\
                  Enemy.lane e' <> gap).
Proof.
  destruct (spawnEnemiesWave_unfold d c g) as (gap & avail & m & E & Hg & Hp & ->).
  destruct (spawn_loop_spec avail 0 d c (set_draws m g))
    as (n & evs & Hn & Hlog & Hl & Hfs & Hact & Hkeep & Hchar).
  assert (Hin : forall lane, lane ∈ avail <->
                  (0 <= lane < Z.of_nat LANE_COUNT /\ lane <> gap)).
  { intros lane. rewrite Hp, list_elem_of_filter, elem_of_lanes. tauto. }
  exists gap, avail, n, evs. rewrite E.
  split; [reflexivity|]. split; [exact Hg|].
  split; [rewrite Hp; apply NoDup_filter, NoDup_lanes|].
  split; [exact Hin|]. split; [exact Hlog|]. split; [exact Hl|].
  split; [lia|].
  split; [change (free_slots g) with (free_slots (set_draws m g)); lia|].
  split; [exact Hact|]. split; [exact Hkeep|].
  intros j e' Hj. destruct (Hchar j e' Hj) as [Hs|(e0 & H0 & A0 & A' & L)];
    [left; exact Hs|].
  right. exists e0. repeat split; auto.
  apply elem_of_take in L as (k & Hk & _).
  apply list_elem_of_lookup_2, Hin in Hk. tauto.
Qed.

(** C2.  In every state a session passes through, no pool holds more
    active entities than its capacity (6 player bullets, 10 enemy
    bullets, 4 enemies).  A player fire request with all six slots
    active changes nothing; the enemy loop with all ten enemy-bullet
    slots active leaves the enemy-bullet pool as it was; a wave with
    all four enemy slots active leaves the enemy pool and the log as
    they were.  In any state, fire and spawn leave each active slot
    of their pool untouched. *)
Theorem pools_within_capacity :
  (forall g, reachable g ->
     (active_bullets (playerBullets g) <= MAX_PLAYER_BULLETS)%nat /\
     (active_bullets (enemyBullets g) <= MAX_ENEMY_BULLETS)%nat /\
     (active_enemies g <= MAX_ENEMIES)%nat) /\
  (forall t0 clock ins, reachable (fst (run ins (init t0 clock)))) /\
  (forall i g,
     Forall (fun b => Bullet.active b = true) (playerBullets g) ->
     player_fire i g = g) /\
  (forall t d g,
     Forall (fun b => Bullet.active b = true) (enemyBullets g) ->
     enemyBullets (enemies_step t d g) = enemyBullets g) /\
  (forall d c g,
     Forall (fun e => Enemy.active e = true) (enemies g) ->
     enemies (spawnEnemiesWave d c g) = enemies g /\
     log (spawnEnemiesWave d c g) = log g) /\
  (forall i g j b,
     playerBullets g !! j = Some b -> Bullet.active b = true ->
     playerBullets (player_fire i g) !! j = Some b) /\
  (forall t d g j b,
     enemyBullets g !! j = Some b -> Bullet.active b = true ->
     enemyBullets (enemies_step t d g) !! j = Some b) /\
  (forall d c g j e,
     enemies g !! j = Some e -> Enemy.active e = true ->
     enemies (spawnEnemiesWave d c g) !! j = Some e).
Proof.
  split; [|split; [|split; [|split; [|split; [|split; [|split]]]]]].
  - intros g Hr. pose proof (reachable_shape g Hr) as Hs.
    unfold shape, capacities in Hs. injection Hs as H1 H2 H3.
    unfold active_bullets, active_enemies.
    rewrite <- H1, <- H2, <- H3.
    repeat split; apply length_filter.
  - intros t0 clock ins. apply run_reachable, reachable_init.
  - exact player_fire_full.
  - exact enemies_step_full.
  - intros d c g Hf.
    destruct (spawnEnemiesWave_unfold d c g) as (gap & avail & m & _ & _ & _ & ->).
    rewrite spawn_loop_full by exact Hf. split; reflexivity.
  - exact player_fire_keeps.
  - intros t d g j b. apply enemies_step_keeps.
  - exact spawnEnemiesWave_keeps.
Qed.

End Facts.

Section Scoring.

Context `{Console}.

Lemma hits_in_app l1 l2 : hits_in (l1 ++ l2) = (hits_in l1 + hits_in l2)%nat.
Proof. unfold hits_in. rewrite filter_app, length_app. reflexivity. Qed.

Lemma add_hits_add n m s : add_hits (n + m) s = add_hits m (add_hits n s).
Proof. unfold add_hits. rewrite Nat.add_comm. apply Nat.iter_add. Qed.

Lemma tallies_refl g : tallies 0 g g.
Proof. exists []. rewrite app_nil_r. repeat split; reflexivity. Qed.

Lemma tallies_trans k1 k2 g1 g2 g3 :
  tallies k1 g1 g2 -> tallies k2 g2 g3 -> tallies (k1 + k2) g1 g3.
Proof.
  intros (e1 & L1 & B1 & S1 & T1) (e2 & L2 & B2 & S2 & T2).
  exists (e1 ++ e2). rewrite hits_in_app, add_hits_add, <- S1, <- S2.
  rewrite L2, L1, app_assoc, T2, T1. repeat split; lia.
Qed.

Lemma tallies_quiet g g' evs :
  log g' = log g ++ evs -> hits_in evs = 0%nat ->
  score g' = score g -> lastScoreTick g' = lastScoreTick g ->
  tallies 0 g g'.
Proof.
  intros L Hh S T. exists evs. rewrite Hh. repeat split; auto.
Qed.

Ltac quiet_tac :=
  simpl; rewrite <- ?app_assoc;
  first [ apply tallies_refl
        | eapply (tallies_quiet _ _ []); [rewrite app_nil_r| | |]; reflexivity
        | eapply tallies_quiet; [simpl; rewrite <- ?app_assoc; reflexivity| | |];
          reflexivity ].

Lemma micro_physics_tally g g' : micro Physics g g' -> tallies 0 g g'.
Proof.
  inversion 1; subst.
  - quiet_tac.
  - quiet_tac.
  - unfold move_player. repeat case_match; quiet_tac.
  - unfold player_fire. repeat case_match; quiet_tac.
  - unfold enemy_step, enemy_fire, draw. repeat case_match; quiet_tac.
  - unfold player_bullet_step. repeat case_match; quiet_tac.
  - unfold enemy_bullet_step. repeat case_match; quiet_tac.
Qed.

Lemma rtc_physics_tally g g' : rtc (micro Physics) g g' -> tallies 0 g g'.
Proof.
  induction 1 as [|g1 g2 g3 Hm _ IH]; [apply tallies_refl|].
  exact (tallies_trans 0 0 _ _ _ (micro_physics_tally _ _ Hm) IH).
Qed.

Lemma tallies_weaken k k' g g' : (k <= k')%nat -> tallies k g g' -> tallies k' g g'.
Proof. intros Hk (evs & L & B & S & T). exists evs. repeat split; auto; lia. Qed.

Lemma collide_pair_tally b g e : tallies 1 g (collide_pair b g e).
Proof.
  unfold collide_pair.
  repeat case_match;
    try (apply (tallies_weaken 0 1); [lia|]; quiet_tac).
  exists [Test b e true;
          Erase (SEnemy e) (F32.to_int (Enemy.x t)) (F32.to_int (Enemy.y t))
                CAR_W (CAR_H + 4);
          Erase (SPlayerBullet b) (at_ (prevPlayerBulletX g) b - 3)
                (at_ (prevPlayerBulletY g) b - 6) 6 12;
          Flash (F32.to_int (Enemy.x t) + 4) (F32.to_int (Enemy.y t) + 4)
                (CAR_W - 8) (CAR_H - 8);
          Unflash (F32.to_int (Enemy.x t) + 4) (F32.to_int (Enemy.y t) + 4)
                  (CAR_W - 8) (CAR_H - 8)].
  simpl. rewrite <- ?app_assoc. repeat split; reflexivity || (simpl; lia).
Qed.

Lemma fold_tally (f : State -> nat -> State) k (l : list nat) :
  (forall g x, tallies k g (f g x)) ->
  forall g, tallies (length l * k) g (fold_left f l g).
Proof.
  intros Hf. induction l as [|x l IH]; intros g; simpl; [apply tallies_refl|].
  exact (tallies_trans _ _ _ _ _ (Hf g x) (IH _)).
Qed.

Lemma collide_bullet_tally g b : tallies 4 g (collide_bullet g b).
Proof.
  unfold collide_bullet.
  repeat case_match; try (apply (tallies_weaken 0 4); [lia|apply tallies_refl]).
  exact (fold_tally (collide_pair b) 1 (seq 0 MAX_ENEMIES) (collide_pair_tally b) g).
Qed.

Lemma collide_enemies_tally g : tallies 24 g (collide_enemies g).
Proof.
  exact (fold_tally collide_bullet 4 (seq 0 MAX_PLAYER_BULLETS) collide_bullet_tally g).
Qed.

Lemma collide_player_from_tally bs : forall g,
  tallies 0 g (collide_player_from bs g).
Proof.
  induction bs as [|b bs IH]; intros g; simpl; [apply tallies_refl|].
  repeat case_match; try apply IH.
  - quiet_tac.
  - apply (tallies_trans 0 0 g (emit (TestPlayer b false) g)); [quiet_tac|apply IH].
Qed.

Lemma spawn_loop_tally avail : forall k d c g,
  tallies 0 g (spawn_loop avail k d c g).
Proof.
  induction avail as [|lane rest IH]; intros k d c g; simpl; [apply tallies_refl|].
  repeat case_match; try apply tallies_refl.
  unfold draw. cbv zeta.
  eapply (tallies_trans 0 0); [|apply IH]. quiet_tac.
Qed.

Lemma new_wave_tally d c g : tallies 0 g (new_wave d c g).
Proof.
  unfold new_wave. destruct (wave_due g); [|apply tallies_refl].
  destruct (spawnEnemiesWave_unfold d c g) as (gap & avail & m & _ & _ & _ & ->).
  apply (tallies_trans 0 0 g (set_draws m g)); [quiet_tac|apply spawn_loop_tally].
Qed.

Lemma finish_tally i d g :
  tallies 0 (score_tick (now i) g) (finish i d g).
Proof.
  unfold finish, hud. cbv zeta.
  apply (tallies_trans 0 0 _ (emit (Hud (score (score_tick (now i) g)))
                                    (score_tick (now i) g))); [quiet_tac|].
  eapply (tallies_trans 0 0); [apply new_wave_tally|].
  unfold draw_player. quiet_tac.
Qed.

Lemma score_tick_log t g : log (score_tick t g) = log g.
Proof. unfold score_tick. destruct (_ >=? 200); reflexivity. Qed.

Lemma collisions_tally g : tallies 24 g (collisions g).
Proof.
  unfold collisions, collide_player.
  apply (tallies_weaken (24 + 0) 24); [lia|].
  eapply tallies_trans; [apply collide_enemies_tally|apply collide_player_from_tally].
Qed.

Lemma staged_tally i g :
  exists evs,
    log (staged i g) = log g ++ evs /\ (hits_in evs <= 24)%nat /\
    score (staged i g)
    = ticked (u32 (now i - lastScoreTick g) >=? 200)
             (add_hits (hits_in evs) (score g)) /\
    lastScoreTick (staged i g)
    = if u32 (now i - lastScoreTick g) >=? 200 then now i else lastScoreTick g.
Proof.
  unfold staged. cbv zeta.
  set (g0 := set_lastFrame (now i) g).
  set (d := difficulty_at (now i) g0).
  destruct (rtc_physics_tally _ _ (physics_micro i d g0)) as (e1 & L1 & B1 & S1 & K1).
  set (g1 := physics i d g0) in *.
  destruct (collisions_tally g1) as (e2 & L2 & B2 & S2 & K2).
  set (g2 := collisions g1) in *.
  destruct (finish_tally i d g2) as (e3 & L3 & B3 & S3 & K3).
  set (g3 := finish i d g2) in *.
  assert (Z1 : hits_in e1 = 0%nat) by lia.
  assert (Z3 : hits_in e3 = 0%nat) by lia.
  rewrite Z1 in S1. rewrite Z3 in S3.
  change (add_hits 0 ?x) with x in S1, S3.
  exists (e1 ++ e2 ++ e3).
  rewrite !hits_in_app, Z1, Z3, Nat.add_0_r, Nat.add_0_l.
  rewrite L3, score_tick_log, L2, L1. rewrite <- !app_assoc.
  split; [reflexivity|]. split; [exact B2|].
  rewrite S3, K3. unfold score_tick, ticked.
  rewrite K2, K1.
  change (lastScoreTick g0) with (lastScoreTick g).
  destruct (u32 (now i - lastScoreTick g) >=? 200);
    cbn [score lastScoreTick set_lastScoreTick set_score];
    rewrite ?K2, ?K1, S2, S1; split; reflexivity.
Qed.

Lemma add_hits_small k : forall s,
  0 <= s -> s + 10 * Z.of_nat k < 2 ^ 32 ->
  add_hits k s = s + 10 * Z.of_nat k.
Proof.
  induction k as [|k IH]; intros s H0 Hk; [simpl; lia|].
  change (add_hits (S k) s) with (u32 (add_hits k s + 10)).
  rewrite IH by lia. unfold u32. rewrite Z.mod_small; lia.
Qed.

Lemma score_emit e g : score (emit e g) = score g.
Proof. reflexivity. Qed.

Lemma lastScoreTick_emit e g : lastScoreTick (emit e g) = lastScoreTick g.
Proof. reflexivity. Qed.

Lemma frame_tally i g :
  (u32 (now i - lastFrame g) <? FRAME_MS) = false ->
  (hits_in (frame_events i g) <= 24)%nat /\
  score (fst (frame i g))
  = ticked (u32 (now i - lastScoreTick g) >=? 200)
           (add_hits (hits_in (frame_events i g)) (score g)) /\
  lastScoreTick (fst (frame i g))
  = if u32 (now i - lastScoreTick g) >=? 200 then now i else lastScoreTick g.
Proof.
  intros Hw. destruct (staged_tally i g) as (evs & L & B & S & K).
  unfold frame_events, frame. rewrite Hw. cbv zeta.
  set (g3 := staged i g) in *.
  assert (Hd : forall T, drop (length (log g)) ((log g ++ evs) ++ T) = evs ++ T).
  { intros T. rewrite <- app_assoc, drop_app_length. reflexivity. }
  assert (Hh : forall T, hits_in T = 0%nat -> hits_in (evs ++ T) = hits_in evs).
  { intros T HT. rewrite hits_in_app, HT. lia. }
  destruct (btnBack i); [|destruct (isGameOver _)]; cbn [fst];
    rewrite ?log_emit, ?score_emit, ?lastScoreTick_emit, L, <- ?app_assoc;
    rewrite (app_assoc (log g)), Hd, Hh by reflexivity;
    rewrite S, K; repeat split; auto.
Qed.

Lemma frame_score_small i g :
  0 <= score g -> score g + 241 < 2 ^ 32 ->
  score g <= score (fst (frame i g)) <= score g + 241.
Proof.
  intros H0 Hs.
  destruct (u32 (now i - lastFrame g) <? FRAME_MS) eqn:Hw.
  - unfold frame. rewrite Hw. simpl. lia.
  - destruct (frame_tally i g Hw) as (B & S & _). rewrite S.
    rewrite add_hits_small by lia. unfold ticked, u32.
    destruct (_ >=? 200); [rewrite Z.mod_small|]; lia.
Qed.

Lemma run_cons i ins g :
  run (i :: ins) g
  = match frame i g with (g', Continue) => run ins g' | r => r end.
Proof. reflexivity. Qed.

Lemma run_app ins1 : forall ins2 g,
  run (ins1 ++ ins2) g
  = match run ins1 g with (g', Continue) => run ins2 g' | r => r end.
Proof.
  induction ins1 as [|i ins1 IH]; intros ins2 g; [reflexivity|].
  rewrite <- app_comm_cons, !run_cons.
  destruct (frame i g) as [g' []]; auto.
Qed.

Lemma run_score ins : forall g,
  0 <= score g -> score g + 241 * Z.of_nat (length ins) < 2 ^ 32 ->
  score g <= score (fst (run ins g)) <= score g + 241 * Z.of_nat (length ins).
Proof.
  induction ins as [|i ins IH]; intros g H0 Hs; [simpl; lia|].
  rewrite run_cons. change (length (i :: ins)) with (S (length ins)) in *.
  pose proof (frame_score_small i g H0 ltac:(lia)) as Hf.
  destruct (frame i g) as [g' []]; simpl in Hf; [|simpl; lia..].
  pose proof (IH g' ltac:(lia) ltac:(lia)). lia.
Qed.

Lemma init_score t0 clock : score (init t0 clock) = 0.
Proof.
  unfold init.
  destruct (spawnEnemiesWave_unfold F32.one clock (start t0))
    as (gap & avail & m & _ & _ & _ & ->).
  destruct (spawn_loop_tally avail 0 F32.one clock (set_draws m (start t0)))
    as (evs & _ & B & S & _).
  rewrite S. replace (hits_in evs) with 0%nat by lia. reflexivity.
Qed.

Lemma in_time_le ins : forall t T, in_time t ins T -> t <= T.
Proof.
  induction ins as [|i ins IH]; intros t T; cbn [in_time]; [auto|].
  intros [H1 H2]. apply IH in H2. lia.
Qed.

Lemma frame_log i g : log (fst (frame i g)) = log g ++ frame_events i g.
Proof.
  unfold frame_events, frame.
  destruct (u32 (now i - lastFrame g) <? FRAME_MS).
  - cbn [fst]. rewrite drop_all, app_nil_r. reflexivity.
  - cbv zeta. destruct (staged_tally i g) as (evs & L & _).
    destruct (btnBack i); [|destruct (isGameOver _)]; cbn [fst];
      rewrite ?log_emit, L, <- ?app_assoc, drop_app_length; reflexivity.
Qed.

Lemma frame_ticks t0 i g t T :
  tick_inv t0 g t -> t <= now i -> now i <= T -> T < 2 ^ 32 ->
  score g + 241 < 2 ^ 32 ->
  tick_inv t0 (fst (frame i g)) (now i).
Proof.
  intros (HL & Hk & Hs & Hb) Ht HT HT2 Hw.
  destruct (u32 (now i - lastFrame g) <? FRAME_MS) eqn:W.
  - unfold frame. rewrite W. cbn [fst]. unfold tick_inv. repeat split; lia.
  - destruct (frame_tally i g W) as (B & S & K).
    pose proof (frame_log i g) as L.
    unfold tick_inv, ticks in *. rewrite L, hits_in_app, S, K.
    rewrite add_hits_small by lia.
    assert (U : u32 (now i - lastScoreTick g) = now i - lastScoreTick g)
      by (apply Z.mod_small; lia).
    rewrite U. unfold ticked, u32.
    destruct (Z.geb_spec (now i - lastScoreTick g) 200);
      [rewrite Z.mod_small by lia|]; repeat split; lia.
Qed.

Lemma run_ticks t0 T ins : forall g t,
  tick_inv t0 g t -> in_time t ins T -> T < 2 ^ 32 ->
  score g + 241 * Z.of_nat (length ins) < 2 ^ 32 ->
  200 * ticks (fst (run ins g)) <= T - t0.
Proof.
  induction ins as [|i ins IH]; intros g t Hi Ht HT Hs.
  - cbn in *. destruct Hi as (HL & _ & _ & Hb). lia.
  - destruct Ht as [Ht1 Ht2].
    pose proof (in_time_le _ _ _ Ht2) as Hle.
    change (length (i :: ins)) with (S (length ins)) in Hs.
    assert (Hi0 := Hi). destruct Hi0 as (_ & _ & H0 & _).
    pose proof (frame_ticks t0 i g t T Hi Ht1 Hle HT ltac:(lia)) as Hi'.
    pose proof (frame_score_small i g H0 ltac:(lia)) as Hf.
    rewrite run_cons.
    destruct (frame i g) as [g' []]; cbn [fst] in *.
    + apply (IH g' (now i)); auto. lia.
    + destruct Hi' as (HL & _ & _ & Hb). lia.
    + destruct Hi' as (HL & _ & _ & Hb). lia.
Qed.

Lemma init_ticks t0 clock : 0 <= t0 -> tick_inv t0 (init t0 clock) t0.
Proof.
  intros H0. unfold init.
  destruct (spawnEnemiesWave_unfold F32.one clock (start t0))
    as (gap & avail & m & _ & _ & _ & ->).
  destruct (spawn_loop_tally avail 0 F32.one clock (set_draws m (start t0)))
    as (evs & L & B & S & K).
  unfold tick_inv, ticks. rewrite L, S, K, hits_in_app.
  replace (hits_in evs) with 0%nat by lia.
  change (hits_in (log (set_draws m (start t0)))) with 0%nat.
  cbn. lia.
Qed.

(** C9, as the code has it.  A pass that is not a wait adds 10 to the
    score for each hit among its collision tests (at most 24 tests) and
    1 when at least 200 ms (as a 32-bit unsigned difference) have passed
    since the last tick, in which case the tick stamp becomes the clock
    of the pass; the tick does not depend on the hits, so a pass without
    a hit still scores its tick.  The stamp is the clock of the pass,
    not the stamp plus 200: what a pass comes late is lost, and over a
    session whose clocks run from [t0] to [T] without wrapping the
    ticks number at most [(T - t0) / 200].  The counter has 32 bits: as
    long as it is more than 241 below 2^32 a pass never lowers it, and
    in a session the score never decreases over fewer than 2^32/241
    (about 17.8 million) passes. *)
Theorem score_ticks (i : Input) (g : State) :
  (u32 (now i - lastFrame g) <? FRAME_MS) = false ->
  (hits_in (frame_events i g) <= 24)%nat /\
  score (fst (frame i g))
  = ticked (u32 (now i - lastScoreTick g) >=? 200)
           (add_hits (hits_in (frame_events i g)) (score g)) /\
  lastScoreTick (fst (frame i g))
  = (if u32 (now i - lastScoreTick g) >=? 200 then now i else lastScoreTick g) /\
  (0 <= score g -> score g + 241 < 2 ^ 32 ->
   score (fst (frame i g))
   = score g + 10 * Z.of_nat (hits_in (frame_events i g))
     + (if u32 (now i - lastScoreTick g) >=? 200 then 1 else 0) /\
   score g <= score (fst (frame i g))) /\
  (forall t0 clock ins1 ins2,
     241 * Z.of_nat (length (ins1 ++ ins2)) < 2 ^ 32 ->
     score (fst (run ins1 (init t0 clock)))
     <= score (fst (run (ins1 ++ ins2) (init t0 clock)))) /\
  (forall t0 clock ins T,
     0 <= t0 -> in_time t0 ins T -> T < 2 ^ 32 ->
     241 * Z.of_nat (length ins) < 2 ^ 32 ->
     200 * ticks (fst (run ins (init t0 clock))) <= T - t0).
Proof.
  intros Hw. destruct (frame_tally i g Hw) as (B & S & K).
  split; [exact B|]. split; [exact S|]. split; [exact K|]. split; [|split].
  - intros H0 Hs. rewrite S, add_hits_small by lia. unfold ticked, u32.
    destruct (_ >=? 200); [rewrite Z.mod_small|]; lia.
  - intros t0 clock ins1 ins2 Hl. rewrite length_app in Hl.
    pose proof (run_score ins1 (init t0 clock)) as H1.
    rewrite init_score in H1. specialize (H1 ltac:(lia) ltac:(lia)).
    rewrite run_app.
    destruct (run ins1 (init t0 clock)) as [g1 []]; simpl in *; try lia.
    pose proof (run_score ins2 g1 ltac:(lia) ltac:(lia)). lia.
  - intros t0 clock ins T H0 Ht HT Hl.
    apply (run_ticks t0 T ins (init t0 clock) t0); auto.
    + apply init_ticks, H0.
    + rewrite init_score. lia.
Qed.

End Scoring.

Section GameOver.

Context `{Console}.






Lemma spawn_loop_frame avail : forall k d c g,
  exists en dr lg,
    spawn_loop avail k d c g = set_log lg (set_draws dr (set_enemies en g)).
Proof.
  induction avail as [|lane rest IH]; intros k d c g.
  { exists (enemies g), (draws g), (log g). destruct g; reflexivity. }
  simpl. destruct (k <? MAX_ENEMIES)%nat;
    [|exists (enemies g), (draws g), (log g); destruct g; reflexivity].
  destruct (free_enemy (enemies g)) as [idx|];
    [|exists (enemies g), (draws g), (log g); destruct g; reflexivity].
  unfold draw. cbv zeta.
  match goal with |- context [spawn_loop rest (S k) d c ?g1] =>
    destruct (IH (S k) d c g1) as (en & dr & lg & ->) end.
  exists en, dr, lg. reflexivity.
Qed.

Lemma spawnEnemiesWave_frame d c g :
  exists en dr lg,
    spawnEnemiesWave d c g = set_log lg (set_draws dr (set_enemies en g)).
Proof.
  destruct (spawnEnemiesWave_unfold d c g) as (gap & avail & m & _ & _ & _ & ->).
  destruct (spawn_loop_frame avail 0 d c (set_draws m g)) as (en & dr & lg & ->).
  exists en, dr, lg. reflexivity.
Qed.










Lemma at_player_test_reachable i g :
  reachable g -> reachable (at_player_test i g).
Proof.
  intros Hr. unfold at_player_test. cbv zeta.
  eapply rtc_reachable; [apply collide_enemies_micro|].
  eapply rtc_reachable; [apply physics_micro|].
  exact (reachable_step Physics _ _ Hr (micro_lastFrame (now i) g)).
Qed.

Lemma rtc_shape st g g' : rtc (micro st) g g' -> shape g' = shape g.
Proof.
  induction 1 as [|g1 g2 g3 Hm _ IH]; [reflexivity|].
  rewrite IH. exact (micro_shape st g1 g2 Hm).
Qed.









End GameOver.

Section Collisions.

Context `{Console}.

Lemma hits_overlap bx by_ rx ry :
  hits bx by_ rx ry = true <-> overlap bx by_ rx ry.
Proof.
  unfold hits, overlap, CAR_W, CAR_H.
  rewrite negb_true_iff, !orb_false_iff.
  rewrite !Z.ltb_ge, !Z.gtb_ltb, !Z.ltb_ge.
  split.
  - intros [[[H1 H2] H3] H4].
    exists (Z.max (bx - 2) rx), (Z.max (by_ - 4) ry). lia.
  - intros (px & py & HB & HR). lia.
Qed.

Lemma settled_refl g : settled g g.
Proof. split; intros; left; reflexivity. Qed.

Lemma collide_pair_settled g0 b bu0 g e :
  playerBullets g0 !! b = Some bu0 -> Bullet.active bu0 = true ->
  settled g0 g -> settled g0 (collide_pair b g e).
Proof.
  intros Hb0 Ha0 [HE HB]. unfold collide_pair.
  destruct (enemies g !! e) as [en|] eqn:He; [|split; assumption].
  destruct (playerBullets g !! b) as [bu|] eqn:Hb; [|split; assumption].
  destruct (Enemy.active en) eqn:Hact; simpl; [|split; assumption].
  destruct (hits _ _ _ _) eqn:Hh; [|split; assumption].
  assert (Hen : enemies g0 !! e = Some en).
  { destruct (HE e) as [E|(en0 & _ & _ & E & _)].
    - rewrite <- E. exact He.
    - rewrite He in E. inversion E; subst en. discriminate. }
  assert (Hbu : bu = bu0 \/ bu = Bullet.set_active false bu0).
  { destruct (HB b) as [E|(bu1 & E0 & _ & E & _)].
    - rewrite Hb, Hb0 in E. inversion E. left; reflexivity.
    - rewrite Hb0 in E0. inversion E0; subst bu1.
      rewrite Hb in E. inversion E. right; reflexivity. }
  assert (Hhit : bullet_hits_enemy bu0 en = true).
  { unfold bullet_hits_enemy. destruct Hbu as [->| ->]; exact Hh. }
  split.
  - intros e'. destruct (decide (e = e')) as [<-|Hne].
    + right. exists en. split; [exact Hen|]. split; [exact Hact|]. split.
      * simpl. apply list_lookup_insert_eq. eapply lookup_lt_Some, He.
      * exists b, bu0. auto.
    + destruct (HE e') as [E|(en' & E0 & A0 & E & W)].
      * left. simpl. rewrite list_lookup_insert_ne by exact Hne. exact E.
      * right. exists en'. simpl. rewrite list_lookup_insert_ne by exact Hne. auto.
  - intros b'. destruct (decide (b = b')) as [<-|Hne].
    + right. exists bu0. split; [exact Hb0|]. split; [exact Ha0|]. split.
      * simpl. rewrite list_lookup_insert_eq by (eapply lookup_lt_Some, Hb).
        destruct Hbu as [->| ->]; reflexivity.
      * exists e, en. auto.
    + destruct (HB b') as [E|(bu' & E0 & A0 & E & W)].
      * left. simpl. rewrite list_lookup_insert_ne by exact Hne. exact E.
      * right. exists bu'. simpl. rewrite list_lookup_insert_ne by exact Hne. auto.
Qed.

Lemma fold_pair_settled g0 b bu0 (l : list nat) :
  playerBullets g0 !! b = Some bu0 -> Bullet.active bu0 = true ->
  forall g, settled g0 g -> settled g0 (fold_left (collide_pair b) l g).
Proof.
  intros Hb0 Ha0. induction l as [|e l IH]; intros g Hs; [exact Hs|].
  apply IH. eapply collide_pair_settled; eauto.
Qed.

Lemma collide_bullet_settled g0 g b :
  settled g0 g -> settled g0 (collide_bullet g b).
Proof.
  intros Hs. unfold collide_bullet.
  destruct (playerBullets g !! b) as [bu|] eqn:Hb; [|exact Hs].
  destruct (Bullet.active bu) eqn:Ha; [|exact Hs].
  assert (Hb0 : playerBullets g0 !! b = Some bu).
  { destruct (proj2 Hs b) as [E|(bu1 & _ & _ & E & _)].
    - rewrite <- E. exact Hb.
    - rewrite Hb in E. inversion E; subst bu. discriminate. }
  exact (fold_pair_settled g0 b bu _ Hb0 Ha g Hs).
Qed.

Lemma collide_enemies_settled g : settled g (collide_enemies g).
Proof.
  unfold collide_enemies. generalize (seq 0 MAX_PLAYER_BULLETS). intros l.
  assert (G : forall g', settled g g' -> settled g (fold_left collide_bullet l g')).
  { induction l as [|b l IH]; intros g' Hs; [exact Hs|].
    apply IH, collide_bullet_settled, Hs. }
  apply G, settled_refl.
Qed.

(** What the test of one pair does to the two slots. *)
Lemma collide_pair_slots b g e en bu :
  enemies g !! e = Some en -> playerBullets g !! b = Some bu ->
  Enemy.active en = true ->
  if bullet_hits_enemy bu en
  then enemies (collide_pair b g e) !! e = Some (Enemy.set_active false en) /\
       playerBullets (collide_pair b g e) !! b = Some (Bullet.set_active false bu)
  else enemies (collide_pair b g e) = enemies g /\
       playerBullets (collide_pair b g e) = playerBullets g.
Proof.
  intros He Hb Ha. unfold collide_pair, bullet_hits_enemy. rewrite He, Hb, Ha.
  destruct (hits _ _ _ _); simpl; [|auto].
  split; apply list_lookup_insert_eq; eapply lookup_lt_Some; eauto.
Qed.

Lemma same_places_refl g : same_places g g.
Proof. split; reflexivity. Qed.

Lemma same_places_trans g1 g2 g3 :
  same_places g1 g2 -> same_places g2 g3 -> same_places g1 g3.
Proof.
  intros [B1 E1] [B2 E2]. split; intros k; [rewrite B2, B1|rewrite E2, E1]; reflexivity.
Qed.

Lemma same_places_meets g g' b e : same_places g g' -> meets g' b e = meets g b e.
Proof.
  intros [HB HE]. specialize (HB b). specialize (HE e). unfold meets.
  destruct (playerBullets g' !! b) as [bu'|], (playerBullets g !! b) as [bu|];
    try discriminate; [|reflexivity].
  destruct (enemies g' !! e) as [en'|], (enemies g !! e) as [en|];
    try discriminate; [|reflexivity].
  cbn in HB, HE. injection HB as Bx By _. injection HE as Ex Ey _.
  unfold bullet_hits_enemy. rewrite Bx, By, Ex, Ey. reflexivity.
Qed.

Lemma same_places_shape g g' : same_places g g' ->
  length (playerBullets g') = length (playerBullets g) /\
  length (enemies g') = length (enemies g).
Proof.
  intros [HB HE]. split.
  - apply Nat.le_antisymm; apply Nat.nlt_ge; intros Hlt.
    + destruct (lookup_lt_is_Some_2 (playerBullets g') (length (playerBullets g)) Hlt)
        as [x Hx].
      specialize (HB (length (playerBullets g))). rewrite Hx in HB.
      rewrite (lookup_ge_None_2 (playerBullets g)) in HB by lia. discriminate.
    + destruct (lookup_lt_is_Some_2 (playerBullets g) (length (playerBullets g')) Hlt)
        as [x Hx].
      specialize (HB (length (playerBullets g'))). rewrite Hx in HB.
      rewrite (lookup_ge_None_2 (playerBullets g')) in HB by lia. discriminate.
  - apply Nat.le_antisymm; apply Nat.nlt_ge; intros Hlt.
    + destruct (lookup_lt_is_Some_2 (enemies g') (length (enemies g)) Hlt) as [x Hx].
      specialize (HE (length (enemies g))). rewrite Hx in HE.
      rewrite (lookup_ge_None_2 (enemies g)) in HE by lia. discriminate.
    + destruct (lookup_lt_is_Some_2 (enemies g) (length (enemies g')) Hlt) as [x Hx].
      specialize (HE (length (enemies g'))). rewrite Hx in HE.
      rewrite (lookup_ge_None_2 (enemies g')) in HE by lia. discriminate.
Qed.

(** What the test of one pair does, as the three observations see it. *)
Lemma collide_pair_obs b g e :
  same_places g (collide_pair b g e) /\
  (forall e', enemy_on (collide_pair b g e) e'
              = if decide (e' = e) then enemy_on g e && negb (meets g b e)
                else enemy_on g e') /\
  (forall b', bullet_on (collide_pair b g e) b'
              = if decide (b' = b)
                then bullet_on g b && negb (enemy_on g e && meets g b e)
                else bullet_on g b').
Proof.
  unfold collide_pair, enemy_on, bullet_on, meets, same_places.
  destruct (enemies g !! e) as [en|] eqn:He.
  2:{ split; [split; reflexivity|]. split.
      - intros e'. destruct (decide (e' = e)) as [->|]; [rewrite He|]; reflexivity.
      - intros b'. destruct (decide (b' = b)) as [->|]; [|reflexivity].
        destruct (playerBullets g !! b) as [bu|]; [|reflexivity].
        cbn. rewrite andb_true_r. reflexivity. }
  destruct (playerBullets g !! b) as [bu|] eqn:Hb.
  2:{ split; [split; reflexivity|]. split.
      - intros e'. destruct (decide (e' = e)) as [->|]; [rewrite He|]; [|reflexivity].
        cbn. rewrite andb_true_r. reflexivity.
      - intros b'. destruct (decide (b' = b)) as [->|]; [rewrite Hb|]; reflexivity. }
  destruct (Enemy.active en) eqn:Ha; cbn [negb].
  2:{ split; [split; reflexivity|]. split.
      - intros e'. destruct (decide (e' = e)) as [->|]; [rewrite He, Ha|]; reflexivity.
      - intros b'. destruct (decide (b' = b)) as [->|]; [rewrite Hb|]; [|reflexivity].
        cbn. rewrite andb_true_r. reflexivity. }
  fold (bullet_hits_enemy bu en).
  assert (Le : (e < length (enemies g))%nat) by (eapply lookup_lt_Some; eauto).
  assert (Lb : (b < length (playerBullets g))%nat) by (eapply lookup_lt_Some; eauto).
  destruct (bullet_hits_enemy bu en) eqn:Hh; cbn -[decide].
  - split; [split|split].
    + intros b'. destruct (decide (b' = b)) as [->|Hne].
      * rewrite list_lookup_insert_eq, Hb by exact Lb. reflexivity.
      * rewrite list_lookup_insert_ne by congruence. reflexivity.
    + intros e'. destruct (decide (e' = e)) as [->|Hne].
      * rewrite list_lookup_insert_eq, He by exact Le. reflexivity.
      * rewrite list_lookup_insert_ne by congruence. reflexivity.
    + intros e'. destruct (decide (e' = e)) as [->|Hne].
      * rewrite list_lookup_insert_eq by exact Le. reflexivity.
      * rewrite list_lookup_insert_ne by congruence. reflexivity.
    + intros b'. destruct (decide (b' = b)) as [->|Hne].
      * rewrite list_lookup_insert_eq by exact Lb. cbn. rewrite andb_false_r. reflexivity.
      * rewrite list_lookup_insert_ne by congruence. reflexivity.
  - split; [split; reflexivity|]. split.
    + intros e'. destruct (decide (e' = e)) as [->|]; [rewrite He, Ha|]; reflexivity.
    + intros b'. destruct (decide (b' = b)) as [->|]; [rewrite Hb|]; [|reflexivity].
      rewrite andb_true_r. reflexivity.
Qed.

Lemma existsb_eq {A} (f f' : A -> bool) l :
  (forall a, a ∈ l -> f a = f' a) -> existsb f l = existsb f' l.
Proof.
  induction l as [|a l IH]; intros Hf; [reflexivity|].
  cbn. rewrite (Hf a) by left. rewrite IH; [reflexivity|].
  intros a' Ha'. apply Hf. right. exact Ha'.
Qed.

(** The scan of the enemies [l] for bullet [b]. *)
Lemma fold_pair_obs b l : NoDup l -> forall g,
  let g' := fold_left (collide_pair b) l g in
  same_places g g' /\
  (forall e, enemy_on g' e
             = enemy_on g e && negb (bool_decide (e ∈ l) && meets g b e)) /\
  (forall b', bullet_on g' b'
              = if decide (b' = b)
                then bullet_on g b
                     && negb (existsb (fun e => enemy_on g e && meets g b e) l)
                else bullet_on g b').
Proof.
  induction 1 as [|e l Hni Hnd IH]; intros g; cbn [fold_left]; cbv zeta.
  - split; [apply same_places_refl|]. split.
    + intros e. rewrite bool_decide_eq_false_2 by apply not_elem_of_nil.
      cbn. rewrite andb_true_r. reflexivity.
    + intros b'. destruct (decide (b' = b)) as [->|]; [|reflexivity].
      cbn. rewrite andb_true_r. reflexivity.
  - destruct (collide_pair_obs b g e) as (P1 & E1 & B1).
    destruct (IH (collide_pair b g e)) as (P2 & E2 & B2).
    split; [eapply same_places_trans; eauto|]. split.
    + intros e'. rewrite E2, E1, (same_places_meets _ _ _ _ P1).
      destruct (decide (e' = e)) as [->|Hne].
      * destruct (bool_decide_reflect (e ∈ l)); [contradiction|].
        destruct (bool_decide_reflect (e ∈ e :: l)) as [_|N];
          [|exfalso; apply N; left].
        cbn. rewrite andb_true_r. reflexivity.
      * assert (D : bool_decide (e' ∈ e :: l) = bool_decide (e' ∈ l)).
        { apply bool_decide_ext. rewrite elem_of_cons. tauto. }
        rewrite D. reflexivity.
    + intros b'. rewrite B2, !B1.
      destruct (decide (b' = b)) as [->|Hne]; [|reflexivity].
      destruct (decide (b = b)) as [_|]; [|congruence].
      cbn [existsb]. rewrite negb_orb, andb_assoc. f_equal. f_equal.
      apply existsb_eq. intros e' He'.
      rewrite E1, (same_places_meets _ _ _ _ P1).
      destruct (decide (e' = e)) as [->|]; [contradiction|reflexivity].
Qed.

(** The turn of bullet [b]. *)
Lemma collide_bullet_obs g b :
  same_places g (collide_bullet g b) /\
  (forall e, enemy_on (collide_bullet g b) e
             = enemy_on g e
               && negb (bullet_on g b && bool_decide (e ∈ seq 0 MAX_ENEMIES)
                        && meets g b e)) /\
  (forall b', bullet_on (collide_bullet g b) b'
              = if decide (b' = b)
                then bullet_on g b
                     && negb (existsb (fun e => enemy_on g e && meets g b e)
                                      (seq 0 MAX_ENEMIES))
                else bullet_on g b').
Proof.
  unfold collide_bullet.
  destruct (fold_pair_obs b (seq 0 MAX_ENEMIES) (NoDup_seq _ _) g) as (P & E & B).
  unfold bullet_on at 1 3. unfold bullet_on in B at 2.
  destruct (playerBullets g !! b) as [bu|] eqn:Hb.
  - destruct (Bullet.active bu) eqn:Ha; cbn [negb].
    + split; [exact P|]. split; [exact E|].
      intros b'. rewrite B. destruct (decide (b' = b)); reflexivity.
    + split; [apply same_places_refl|]. split.
      * intros e. cbn. rewrite andb_true_r. reflexivity.
      * intros b'. destruct (decide (b' = b)) as [->|]; [|reflexivity].
        unfold bullet_on. rewrite Hb, Ha. reflexivity.
  - split; [apply same_places_refl|]. split.
    + intros e. cbn. rewrite andb_true_r. reflexivity.
    + intros b'. destruct (decide (b' = b)) as [->|]; [|reflexivity].
      unfold bullet_on. rewrite Hb. reflexivity.
Qed.

(** The turns of the bullets [0 .. n-1]. *)
Lemma fold_bullet_obs g n :
  length (enemies g) = MAX_ENEMIES ->
  let g' := fold_left collide_bullet (seq 0 n) g in
  same_places g g' /\
  (forall e, enemy_on g' e
             = enemy_on g e
               && negb (existsb (fun b => bullet_on g b && meets g b e) (seq 0 n))) /\
  (forall b, bullet_on g' b
             = if decide (b < n)%nat
               then bullet_on g b
                    && negb (existsb
                               (fun e => enemy_on g e
                                         && negb (existsb (fun b' => bullet_on g b'
                                                                     && meets g b' e)
                                                          (seq 0 b))
                                         && meets g b e)
                               (seq 0 MAX_ENEMIES))
               else bullet_on g b).
Proof.
  intros Hlen. induction n as [|n IH]; cbv zeta.
  - cbn [seq fold_left]. split; [apply same_places_refl|]. split.
    + intros e. cbn. rewrite andb_true_r. reflexivity.
    + intros b. destruct (decide (b < 0)%nat); [lia|reflexivity].
  - rewrite seq_S, fold_left_app. cbn [fold_left Nat.add].
    cbv zeta in IH. destruct IH as (P1 & E1 & B1).
    set (g1 := fold_left collide_bullet (seq 0 n) g) in *.
    destruct (collide_bullet_obs g1 n) as (P2 & E2 & B2).
    assert (Bn : bullet_on g1 n = bullet_on g n).
    { rewrite B1. destruct (decide (n < n)%nat); [lia|reflexivity]. }
    split; [eapply same_places_trans; eauto|]. split.
    + intros e. rewrite E2, E1, Bn, (same_places_meets _ _ _ _ P1).
      rewrite existsb_app. cbn [existsb]. rewrite orb_false_r, negb_orb.
      rewrite <- andb_assoc. f_equal. f_equal.
      destruct (decide (e < MAX_ENEMIES)%nat) as [Hlt|Hge].
      * rewrite bool_decide_eq_true_2 by (apply elem_of_seq; lia).
        rewrite andb_true_r. reflexivity.
      * unfold meets. rewrite (lookup_ge_None_2 (enemies g) e) by lia.
        destruct (playerBullets g !! n); rewrite !andb_false_r; reflexivity.
    + intros b. rewrite B2.
      destruct (decide (b = n)) as [->|Hne].
      * rewrite Bn. destruct (decide (n < S n)%nat); [|lia].
        f_equal. f_equal. apply existsb_eq. intros e He.
        rewrite E1, (same_places_meets _ _ _ _ P1). reflexivity.
      * rewrite B1.
        destruct (decide (b < n)%nat), (decide (b < S n)%nat); try lia; reflexivity.
Qed.

Lemma collide_enemies_obs g :
  shape g = capacities ->
  same_places g (collide_enemies g) /\
  (forall e, enemy_on (collide_enemies g) e
             = enemy_on g e
               && negb (existsb (fun b => bullet_on g b && meets g b e)
                                (seq 0 MAX_PLAYER_BULLETS))) /\
  (forall b, bullet_on (collide_enemies g) b
             = bullet_on g b
               && negb (existsb
                          (fun e => enemy_on g e
                                    && negb (existsb (fun b' => bullet_on g b'
                                                                && meets g b' e)
                                                     (seq 0 b))
                                    && meets g b e)
                          (seq 0 MAX_ENEMIES))).
Proof.
  intros Hs. unfold shape, capacities in Hs. injection Hs as Lb _ Le.
  destruct (fold_bullet_obs g MAX_PLAYER_BULLETS Le) as (P & E & B).
  split; [exact P|]. split; [exact E|].
  intros b. unfold collide_enemies. rewrite B.
  destruct (decide (b < MAX_PLAYER_BULLETS)%nat) as [|Hge]; [reflexivity|].
  unfold bullet_on. rewrite (lookup_ge_None_2 (playerBullets g) b) by lia.
  reflexivity.
Qed.

Lemma bullet_on_true g b :
  bullet_on g b = true <->
  exists bu, playerBullets g !! b = Some bu /\ Bullet.active bu = true.
Proof.
  unfold bullet_on. destruct (playerBullets g !! b) as [bu|].
  - split; [intros Ha; exists bu; auto|intros (bu' & [= <-] & Ha); exact Ha].
  - split; [discriminate|intros (bu' & E & _); discriminate].
Qed.

Lemma meets_touches g b e bu en :
  playerBullets g !! b = Some bu -> enemies g !! e = Some en ->
  meets g b e = true <-> touches bu en.
Proof.
  intros Hb He. unfold meets, touches, bullet_hits_enemy. rewrite Hb, He.
  apply hits_overlap.
Qed.

(** An enemy that is active when the pass begins is destroyed by it
    exactly when an active bullet overlaps it. *)
Lemma enemy_destroyed_iff g e en en' :
  shape g = capacities ->
  enemies g !! e = Some en -> Enemy.active en = true ->
  enemies (collide_enemies g) !! e = Some en' ->
  Enemy.active en' = false <->
  exists b bu, playerBullets g !! b = Some bu /\ Bullet.active bu = true /\
               touches bu en.
Proof.
  intros Hs He Ha He'.
  destruct (collide_enemies_obs g Hs) as (_ & E & _).
  specialize (E e). unfold enemy_on at 1 2 in E. rewrite He, He', Ha in E.
  cbn [andb] in E. rewrite E, negb_false_iff, existsb_exists.
  unfold shape, capacities in Hs. injection Hs as Lb _ _.
  split.
  - intros (b & _ & Hb). apply andb_true_iff in Hb as [Hb Hm].
    apply bullet_on_true in Hb as (bu & Hb & Hba).
    exists b, bu. split; [exact Hb|]. split; [exact Hba|].
    apply (meets_touches g b e bu en Hb He). exact Hm.
  - intros (b & bu & Hb & Hba & Ht). exists b. split.
    + apply in_seq. apply lookup_lt_Some in Hb. lia.
    + apply andb_true_iff. split.
      * apply bullet_on_true. exists bu. auto.
      * apply (meets_touches g b e bu en Hb He). exact Ht.
Qed.

(** A bullet that is active when the pass begins is spent by it
    exactly when it overlaps an active enemy that no active bullet of
    a lower slot overlaps. *)
Lemma bullet_spent_iff g b bu bu' :
  shape g = capacities ->
  playerBullets g !! b = Some bu -> Bullet.active bu = true ->
  playerBullets (collide_enemies g) !! b = Some bu' ->
  Bullet.active bu' = false <->
  exists e en, enemies g !! e = Some en /\ Enemy.active en = true /\
    touches bu en /\
    forall b' bu2, (b' < b)%nat -> playerBullets g !! b' = Some bu2 ->
                   Bullet.active bu2 = true -> ~ touches bu2 en.
Proof.
  intros Hs Hb Ha Hb'.
  destruct (collide_enemies_obs g Hs) as (_ & _ & B).
  specialize (B b). unfold bullet_on at 1 2 in B. rewrite Hb, Hb', Ha in B.
  cbn [andb] in B. rewrite B, negb_false_iff, existsb_exists.
  unfold shape, capacities in Hs. injection Hs as _ _ Le.
  split.
  - intros (e & _ & He). apply andb_true_iff in He as [He Hm].
    apply andb_true_iff in He as [He Hn].
    unfold enemy_on in He.
    destruct (enemies g !! e) as [en|] eqn:Hen; [|discriminate].
    exists e, en. split; [exact Hen|]. split; [exact He|].
    split; [apply (meets_touches g b e bu en Hb Hen); exact Hm|].
    intros b' bu2 Hlt Hb2 Ha2 Ht.
    apply negb_true_iff in Hn.
    assert (Hx : existsb (fun b' => bullet_on g b' && meets g b' e) (seq 0 b) = true).
    { apply existsb_exists. exists b'. split; [apply in_seq; lia|].
      apply andb_true_iff. split.
      - apply bullet_on_true. exists bu2. auto.
      - apply (meets_touches g b' e bu2 en Hb2 Hen). exact Ht. }
    congruence.
  - intros (e & en & Hen & Hea & Ht & Hfree). exists e. split.
    + apply in_seq. apply lookup_lt_Some in Hen. lia.
    + apply andb_true_iff. split; [apply andb_true_iff; split|].
      * unfold enemy_on. rewrite Hen. exact Hea.
      * apply negb_true_iff. apply not_true_is_false. intros Hx.
        apply existsb_exists in Hx as (b' & Hin & Hx).
        apply andb_true_iff in Hx as [Hx Hm].
        apply bullet_on_true in Hx as (bu2 & Hb2 & Ha2).
        apply in_seq in Hin.
        apply (Hfree b' bu2 ltac:(lia) Hb2 Ha2).
        apply (meets_touches g b' e bu2 en Hb2 Hen). exact Hm.
      * apply (meets_touches g b e bu en Hb Hen). exact Ht.
Qed.

(** C7, as the code has it.  The collision condition is exactly the
    overlap of the bullet's box (2 pixels to each side, 4 up and down)
    with the enemy's rectangle, bounds included.  When the pair of an
    active bullet and an active enemy is tested, both are deactivated
    if the rectangles overlap, and neither pool changes if they do not.
    In the whole pass, a slot that was active before and is inactive
    after has an overlapping partner that was active when the pass
    began; no slot changes its position; an enemy that is active when
    the pass begins is destroyed exactly when an active bullet overlaps
    it; a bullet that is active when the pass begins is spent exactly
    when it overlaps an enemy that was active when the pass began and
    that no active bullet of a lower slot overlaps (such an enemy is
    destroyed before the bullet is tested against it, and the test
    skips it).  The enemy at (40, 50) is hit by the bullet at (50, 55)
    and not by the one at (80, 55). *)
Theorem hit_iff_overlap :
  (forall bx by_ ex ey, hits bx by_ ex ey = true <-> overlap bx by_ ex ey) /\
  (forall b g e en bu,
     enemies g !! e = Some en -> playerBullets g !! b = Some bu ->
     Enemy.active en = true -> Bullet.active bu = true ->
     exists en' bu',
       enemies (collide_pair b g e) !! e = Some en' /\
       playerBullets (collide_pair b g e) !! b = Some bu' /\
       ((Enemy.active en' = false /\ Bullet.active bu' = false) <->
        overlap (F32.to_int (Bullet.x bu)) (F32.to_int (Bullet.y bu))
                (F32.to_int (Enemy.x en)) (F32.to_int (Enemy.y en))) /\
       (bullet_hits_enemy bu en = false ->
        enemies (collide_pair b g e) = enemies g /\
        playerBullets (collide_pair b g e) = playerBullets g)) /\
  (forall g e en en',
     enemies g !! e = Some en -> Enemy.active en = true ->
     enemies (collide_enemies g) !! e = Some en' -> Enemy.active en' = false ->
     exists b bu, playerBullets g !! b = Some bu /\ Bullet.active bu = true /\
       overlap (F32.to_int (Bullet.x bu)) (F32.to_int (Bullet.y bu))
               (F32.to_int (Enemy.x en)) (F32.to_int (Enemy.y en))) /\
  (forall g b bu bu',
     playerBullets g !! b = Some bu -> Bullet.active bu = true ->
     playerBullets (collide_enemies g) !! b = Some bu' ->
     Bullet.active bu' = false ->
     exists e en, enemies g !! e = Some en /\ Enemy.active en = true /\
       overlap (F32.to_int (Bullet.x bu)) (F32.to_int (Bullet.y bu))
               (F32.to_int (Enemy.x en)) (F32.to_int (Enemy.y en))) /\
  (forall g, shape g = capacities -> same_places g (collide_enemies g)) /\
  (forall g e en en',
     shape g = capacities ->
     enemies g !! e = Some en -> Enemy.active en = true ->
     enemies (collide_enemies g) !! e = Some en' ->
     Enemy.active en' = false <->
     exists b bu, playerBullets g !! b = Some bu /\ Bullet.active bu = true /\
                  touches bu en) /\
  (forall g b bu bu',
     shape g = capacities ->
     playerBullets g !! b = Some bu -> Bullet.active bu = true ->
     playerBullets (collide_enemies g) !! b = Some bu' ->
     Bullet.active bu' = false <->
     exists e en, enemies g !! e = Some en /\ Enemy.active en = true /\
       touches bu en /\
       forall b' bu2, (b' < b)%nat -> playerBullets g !! b' = Some bu2 ->
                      Bullet.active bu2 = true -> ~ touches bu2 en) /\
  hits 50 55 40 50 = true /\ hits 80 55 40 50 = false.
Proof.
  split; [exact hits_overlap|]. split; [|split; [|split; [|split; [|split; [|split]]]]].
  - intros b g e en bu He Hb Ha Hba.
    pose proof (collide_pair_slots b g e en bu He Hb Ha) as Hp.
    pose proof (hits_overlap (F32.to_int (Bullet.x bu)) (F32.to_int (Bullet.y bu))
                  (F32.to_int (Enemy.x en)) (F32.to_int (Enemy.y en))) as Ho.
    fold (bullet_hits_enemy bu en) in Ho.
    destruct (bullet_hits_enemy bu en) eqn:Hh.
    + destruct Hp as [E1 E2].
      exists (Enemy.set_active false en), (Bullet.set_active false bu).
      split; [exact E1|]. split; [exact E2|]. split; [|discriminate].
      split; [intros _; apply Ho; reflexivity|split; reflexivity].
    + destruct Hp as [E1 E2]. exists en, bu. rewrite E1, E2.
      split; [exact He|]. split; [exact Hb|]. split; [|auto].
      split; [intros [Hx _]; congruence|].
      intros Hov. apply Ho in Hov. discriminate.
  - intros g e en en' He Ha He' Ha'.
    destruct (proj1 (collide_enemies_settled g) e) as [E|(en0 & E0 & _ & _ & b & bu & W)].
    + rewrite He, He' in E. inversion E; subst en'. congruence.
    + rewrite He in E0. inversion E0; subst en0.
      exists b, bu. destruct W as (W1 & W2 & W3).
      split; [exact W1|]. split; [exact W2|]. apply hits_overlap. exact W3.
  - intros g b bu bu' Hb Ha Hb' Ha'.
    destruct (proj2 (collide_enemies_settled g) b) as [E|(bu0 & E0 & _ & _ & e & en & W)].
    + rewrite Hb, Hb' in E. inversion E; subst bu'. congruence.
    + rewrite Hb in E0. inversion E0; subst bu0.
      exists e, en. destruct W as (W1 & W2 & W3).
      split; [exact W1|]. split; [exact W2|]. apply hits_overlap. exact W3.
  - intros g Hs. exact (proj1 (collide_enemies_obs g Hs)).
  - exact enemy_destroyed_iff.
  - exact bullet_spent_iff.
  - split; reflexivity.
Qed.

End Collisions.

(** ** The render cache *)

Section Cache.

Context `{Console}.

Lemma last_draw_app s l1 : forall l2 a,
  last_draw s (l1 ++ l2) a = last_draw s l2 (last_draw s l1 a).
Proof.
  induction l1 as [|e l1 IH]; intros l2 a; [reflexivity|].
  destruct e; simpl; apply IH.
Qed.

Lemma at_insert_eq (l : list Z) i v : (i < length l)%nat -> at_ (<[i := v]> l) i = v.
Proof. intros Hi. unfold at_. rewrite list_lookup_insert_eq by exact Hi. reflexivity. Qed.

Lemma at_insert_ne (l : list Z) i j v : i <> j -> at_ (<[i := v]> l) j = at_ l j.
Proof. intros Hi. unfold at_. rewrite list_lookup_insert_ne by exact Hi. reflexivity. Qed.

(** A step that draws nothing for [s] and leaves its cache alone. *)
Lemma cached_quiet g g' s evs :
  log g' = log g ++ evs ->
  (forall a, last_draw s evs a = a) ->
  cache g' s = cache g s ->
  cached g s -> cached g' s.
Proof.
  intros L D C Hc p. unfold drawn_at. rewrite L, last_draw_app, D, C. apply Hc.
Qed.

(** A step whose last draw for [s] is what it caches. *)
Lemma cached_drawn g g' s evs p :
  log g' = log g ++ evs ->
  (forall a, last_draw s evs a = Some p) ->
  cache g' s = p ->
  cached g' s.
Proof.
  intros L D C q. unfold drawn_at. rewrite L, last_draw_app, D, C. congruence.
Qed.

Ltac quiet :=
  eapply cached_quiet;
  [ simpl; rewrite <- ?app_assoc; try reflexivity; symmetry; apply app_nil_r
  | intros; simpl; repeat case_decide; try reflexivity; try congruence
  | simpl; rewrite ?at_insert_ne by congruence; reflexivity
  | assumption ].

Lemma move_player_cached g s : cached g s -> cached (move_player g) s.
Proof.
  intros Hc. unfold move_player. repeat case_match; quiet.
Qed.

Lemma player_fire_pending i g s :
  sized g -> pending g s -> pending (player_fire i g) s.
Proof.
  intros Hz Hp. unfold player_fire.
  destruct (_ && _); [|exact Hp].
  destruct (free_bullet (playerBullets g)) as [k|] eqn:Hk; [|exact Hp].
  destruct (free_bullet_Some _ _ Hk) as (b0 & Hb0 & _).
  destruct (decide (s = SPlayerBullet k)) as [->|Hne].
  - right. simpl. eexists.
    split; [apply list_lookup_insert_eq; eapply lookup_lt_Some, Hb0|reflexivity].
  - destruct Hp as [Hc|Hf].
    + left. destruct s; quiet.
    + right. destruct s as [| |b|b]; simpl in *; try contradiction; [|exact Hf].
      rewrite list_lookup_insert_ne by congruence. exact Hf.
Qed.

(** What the enemy loop body does to the log, the caches and the
    bullet pools when it runs for an active enemy. *)
Lemma enemy_step_effect t d g e en :
  enemies g !! e = Some en -> Enemy.active en = true ->
  exists evs1 evs2 ex ey,
    log (enemy_step t d g e) = log g ++ evs1 ++ [Draw (SEnemy e) ex ey] ++ evs2 /\
    (forall s a, last_draw s evs1 a = a) /\
    (forall s a, last_draw s evs2 a = a) /\
    prevEnemyX (enemy_step t d g e) = <[e := ex]> (prevEnemyX g) /\
    prevEnemyY (enemy_step t d g e) = <[e := ey]> (prevEnemyY g) /\
    prevPlayerX (enemy_step t d g e) = prevPlayerX g /\
    prevPlayerY (enemy_step t d g e) = prevPlayerY g /\
    prevPlayerBulletX (enemy_step t d g e) = prevPlayerBulletX g /\
    prevPlayerBulletY (enemy_step t d g e) = prevPlayerBulletY g /\
    playerBullets (enemy_step t d g e) = playerBullets g /\
    ((enemyBullets (enemy_step t d g e) = enemyBullets g /\
      prevEnemyBulletX (enemy_step t d g e) = prevEnemyBulletX g /\
      prevEnemyBulletY (enemy_step t d g e) = prevEnemyBulletY g) \/
     (exists eb bu,
        free_bullet (enemyBullets g) = Some eb /\ Bullet.active bu = true /\
        enemyBullets (enemy_step t d g e) = <[eb := bu]> (enemyBullets g) /\
        prevEnemyBulletX (enemy_step t d g e) = <[eb := -100]> (prevEnemyBulletX g) /\
        prevEnemyBulletY (enemy_step t d g e) = <[eb := -100]> (prevEnemyBulletY g))).
Proof.
  intros He Ha. unfold enemy_step. rewrite He, Ha. cbv zeta.
  set (en' := Enemy.set_y _ en).
  exists ((if at_ (prevEnemyY g) e >=? -1000
           then [Erase (SEnemy e) (at_ (prevEnemyX g) e) (at_ (prevEnemyY g) e)
                       CAR_W (CAR_H + 4)] else [])
          ++ [Move (SEnemy e)]).
  destruct (F32.gtb (Enemy.y en') (F32.of_int scrH)) eqn:Hgone.
  - exists [Erase (SEnemy e) (F32.to_int (Enemy.x en')) (F32.to_int (Enemy.y en'))
                  CAR_W (CAR_H + 4)], (F32.to_int (Enemy.x en')), (F32.to_int (Enemy.y en')).
    destruct (_ >=? -1000); simpl; rewrite <- ?app_assoc; simpl;
      repeat split; try reflexivity; left; repeat split; reflexivity.
  - destruct (to_long t >=? to_long (Enemy.nextFireAt en')).
    + exists [], (F32.to_int (Enemy.x en')), (F32.to_int (Enemy.y en')).
      unfold enemy_fire, draw.
      destruct (_ >=? -1000); simpl;
        (destruct (free_bullet (enemyBullets g)) as [eb|] eqn:Hk; simpl;
         rewrite <- ?app_assoc; simpl;
         repeat split; try reflexivity;
         [right; exists eb, (enemy_shot en' d); repeat split; reflexivity
         |left; repeat split; reflexivity]).
    + exists [], (F32.to_int (Enemy.x en')), (F32.to_int (Enemy.y en')).
      destruct (_ >=? -1000); simpl; rewrite <- ?app_assoc; simpl;
        repeat split; try reflexivity; left; repeat split; reflexivity.
Qed.

Lemma enemy_step_idle t d g e :
  (forall en, enemies g !! e = Some en -> Enemy.active en = false) ->
  enemy_step t d g e = g.
Proof.
  intros Hi. unfold enemy_step.
  destruct (enemies g !! e) as [en|]; [|reflexivity].
  rewrite (Hi en eq_refl). reflexivity.
Qed.

Lemma sized_enemy g e en :
  sized g -> enemies g !! e = Some en ->
  (e < length (prevEnemyX g))%nat /\ (e < length (prevEnemyY g))%nat.
Proof.
  intros (Hs & H1 & H2 & _) He. apply lookup_lt_Some in He.
  unfold shape, capacities in Hs. injection Hs as _ _ H3. lia.
Qed.

Lemma enemy_step_pending t d g e s :
  sized g -> pending g s -> pending (enemy_step t d g e) s.
Proof.
  intros Hz Hp.
  destruct (enemies g !! e) as [en|] eqn:He;
    [|rewrite enemy_step_idle; [exact Hp|intros en' E; congruence]].
  destruct (Enemy.active en) eqn:Ha;
    [|rewrite enemy_step_idle; [exact Hp|intros en' E; congruence]].
  destruct (enemy_step_effect t d g e en He Ha)
    as (evs1 & evs2 & ex & ey & L & D1 & D2 & PX & PY & QX & QY & BX & BY & PB & EB).
  destruct (sized_enemy g e en Hz He) as [Lx Ly].
  assert (Dne : forall a, s <> SEnemy e ->
            last_draw s (evs1 ++ [Draw (SEnemy e) ex ey] ++ evs2) a = a).
  { intros a Hne. rewrite !last_draw_app, D1. simpl.
    destruct (decide (SEnemy e = s)); [congruence|]. apply D2. }
  destruct s as [|e0|b|b].
  - left. destruct Hp as [Hc|[]].
    eapply cached_quiet; [exact L|intros; apply Dne; discriminate| |exact Hc].
    unfold cache. rewrite QX, QY. reflexivity.
  - left. destruct (decide (e0 = e)) as [->|Hne].
    + eapply (cached_drawn _ _ _ _ (ex, ey)); [exact L| |].
      * intros a. rewrite !last_draw_app, D1. simpl.
        destruct (decide (SEnemy e = SEnemy e)); [|congruence]. apply D2.
      * unfold cache. rewrite PX, PY, !at_insert_eq by assumption. reflexivity.
    + destruct Hp as [Hc|[]].
      eapply cached_quiet; [exact L|intros; apply Dne; congruence| |exact Hc].
      unfold cache. rewrite PX, PY, !at_insert_ne by congruence. reflexivity.
  - destruct Hp as [Hc|Hf].
    + left. eapply cached_quiet; [exact L|intros; apply Dne; discriminate| |exact Hc].
      unfold cache. rewrite BX, BY. reflexivity.
    + right. simpl in *. rewrite PB. exact Hf.
  - destruct EB as [(E1 & E2 & E3)|(eb & bu & Hk & Hb & E1 & E2 & E3)].
    + destruct Hp as [Hc|Hf].
      * left. eapply cached_quiet; [exact L|intros; apply Dne; discriminate| |exact Hc].
        unfold cache. rewrite E2, E3. reflexivity.
      * right. simpl in *. rewrite E1. exact Hf.
    + destruct (free_bullet_Some _ _ Hk) as (b0 & Hb0 & _).
      destruct (decide (b = eb)) as [->|Hne].
      * right. simpl. rewrite E1. exists bu.
        split; [apply list_lookup_insert_eq; eapply lookup_lt_Some, Hb0|exact Hb].
      * destruct Hp as [Hc|Hf].
        -- left. eapply cached_quiet; [exact L|intros; apply Dne; discriminate| |exact Hc].
           unfold cache. rewrite E2, E3, !at_insert_ne by congruence. reflexivity.
        -- right. simpl in *. rewrite E1, list_lookup_insert_ne by congruence. exact Hf.
Qed.

(** What a bullet loop body does when it runs for an active bullet. *)
Lemma player_bullet_step_effect g b bu :
  playerBullets g !! b = Some bu -> Bullet.active bu = true ->
  exists evs1 evs2 bx by_ bu',
    log (player_bullet_step g b)
    = log g ++ evs1 ++ [Draw (SPlayerBullet b) bx by_] ++ evs2 /\
    (forall s a, last_draw s evs1 a = a) /\
    (forall s a, last_draw s evs2 a = a) /\
    prevPlayerBulletX (player_bullet_step g b) = <[b := bx]> (prevPlayerBulletX g) /\
    prevPlayerBulletY (player_bullet_step g b) = <[b := by_]> (prevPlayerBulletY g) /\
    prevPlayerX (player_bullet_step g b) = prevPlayerX g /\
    prevPlayerY (player_bullet_step g b) = prevPlayerY g /\
    prevEnemyX (player_bullet_step g b) = prevEnemyX g /\
    prevEnemyY (player_bullet_step g b) = prevEnemyY g /\
    prevEnemyBulletX (player_bullet_step g b) = prevEnemyBulletX g /\
    prevEnemyBulletY (player_bullet_step g b) = prevEnemyBulletY g /\
    enemyBullets (player_bullet_step g b) = enemyBullets g /\
    playerBullets (player_bullet_step g b) = <[b := bu']> (playerBullets g).
Proof.
  intros Hb Ha. unfold player_bullet_step. rewrite Hb, Ha. cbv zeta.
  set (bu' := Bullet.set_y _ bu).
  exists ((if at_ (prevPlayerBulletY g) b >=? 0
           then [Erase (SPlayerBullet b) (at_ (prevPlayerBulletX g) b - 3)
                       (at_ (prevPlayerBulletY g) b - 6) 6 12] else [])
          ++ [Move (SPlayerBullet b)]).
  destruct (F32.ltb (Bullet.y bu') (F32.of_int (-12))).
  - exists [Erase (SPlayerBullet b) (F32.to_int (Bullet.x bu') - 3)
                  (F32.to_int (Bullet.y bu') - 6) 6 12],
           (F32.to_int (Bullet.x bu')), (F32.to_int (Bullet.y bu')),
           (Bullet.set_active false bu').
    destruct (_ >=? 0); simpl; rewrite <- ?app_assoc, ?list_insert_insert_eq; simpl;
      repeat split; reflexivity.
  - exists [], (F32.to_int (Bullet.x bu')), (F32.to_int (Bullet.y bu')), bu'.
    destruct (_ >=? 0); simpl; rewrite <- ?app_assoc; simpl;
      repeat split; reflexivity.
Qed.

Lemma enemy_bullet_step_effect g b bu :
  enemyBullets g !! b = Some bu -> Bullet.active bu = true ->
  exists evs1 evs2 bx by_ bu',
    log (enemy_bullet_step g b)
    = log g ++ evs1 ++ [Draw (SEnemyBullet b) bx by_] ++ evs2 /\
    (forall s a, last_draw s evs1 a = a) /\
    (forall s a, last_draw s evs2 a = a) /\
    prevEnemyBulletX (enemy_bullet_step g b) = <[b := bx]> (prevEnemyBulletX g) /\
    prevEnemyBulletY (enemy_bullet_step g b) = <[b := by_]> (prevEnemyBulletY g) /\
    prevPlayerX (enemy_bullet_step g b) = prevPlayerX g /\
    prevPlayerY (enemy_bullet_step g b) = prevPlayerY g /\
    prevEnemyX (enemy_bullet_step g b) = prevEnemyX g /\
    prevEnemyY (enemy_bullet_step g b) = prevEnemyY g /\
    prevPlayerBulletX (enemy_bullet_step g b) = prevPlayerBulletX g /\
    prevPlayerBulletY (enemy_bullet_step g b) = prevPlayerBulletY g /\
    playerBullets (enemy_bullet_step g b) = playerBullets g /\
    enemyBullets (enemy_bullet_step g b) = <[b := bu']> (enemyBullets g).
Proof.
  intros Hb Ha. unfold enemy_bullet_step. rewrite Hb, Ha. cbv zeta.
  set (bu' := Bullet.set_y _ bu).
  exists ((if at_ (prevEnemyBulletY g) b >=? 0
           then [Erase (SEnemyBullet b) (at_ (prevEnemyBulletX g) b - 3)
                       (at_ (prevEnemyBulletY g) b - 6) 6 12] else [])
          ++ [Move (SEnemyBullet b)]).
  destruct (F32.gtb (Bullet.y bu') (F32.of_int (scrH + 12))).
  - exists [Erase (SEnemyBullet b) (F32.to_int (Bullet.x bu') - 3)
                  (F32.to_int (Bullet.y bu') - 6) 6 12],
           (F32.to_int (Bullet.x bu')), (F32.to_int (Bullet.y bu')),
           (Bullet.set_active false bu').
    destruct (_ >=? 0); simpl; rewrite <- ?app_assoc, ?list_insert_insert_eq; simpl;
      repeat split; reflexivity.
  - exists [], (F32.to_int (Bullet.x bu')), (F32.to_int (Bullet.y bu')), bu'.
    destruct (_ >=? 0); simpl; rewrite <- ?app_assoc; simpl;
      repeat split; reflexivity.
Qed.


Lemma player_bullet_step_idle g b :
  (forall bu, playerBullets g !! b = Some bu -> Bullet.active bu = false) ->
  player_bullet_step g b = g.
Proof.
  intros Hi. unfold player_bullet_step.
  destruct (playerBullets g !! b) as [bu|]; [|reflexivity].
  rewrite (Hi bu eq_refl). reflexivity.
Qed.

Lemma sized_player_bullet g b bu :
  sized g -> playerBullets g !! b = Some bu ->
  (b < length (prevPlayerBulletX g))%nat /\ (b < length (prevPlayerBulletY g))%nat.
Proof.
  intros (Hs & H1 & H2 & H3 & H4 & H5 & H6) Hb. apply lookup_lt_Some in Hb.
  unfold shape, capacities in Hs. injection Hs as S1 S2 S3. lia.
Qed.

Lemma player_bullet_step_drawn g b bu :
  sized g -> playerBullets g !! b = Some bu -> Bullet.active bu = true ->
  cached (player_bullet_step g b) (SPlayerBullet b).
Proof.
  intros Hz Hb Ha.
  destruct (player_bullet_step_effect g b bu Hb Ha)
    as (evs1 & evs2 & bx & by_ & bu' & L & D1 & D2 & PX & PY & _).
  destruct (sized_player_bullet g b bu Hz Hb) as [Lx Ly].
  eapply (cached_drawn _ _ _ _ (bx, by_)); [exact L| |].
  - intros a. rewrite !last_draw_app, D1. simpl.
    destruct (decide (SPlayerBullet b = SPlayerBullet b)); [|congruence]. apply D2.
  - unfold cache. rewrite PX, PY, !at_insert_eq by assumption. reflexivity.
Qed.

Lemma player_bullet_step_cached g b s :
  sized g -> cached g s -> cached (player_bullet_step g b) s.
Proof.
  intros Hz Hc.
  destruct (playerBullets g !! b) as [bu|] eqn:Hb;
    [|rewrite player_bullet_step_idle; [exact Hc|intros bu' E; congruence]].
  destruct (Bullet.active bu) eqn:Ha;
    [|rewrite player_bullet_step_idle; [exact Hc|intros bu' E; congruence]].
  destruct (decide (s = SPlayerBullet b)) as [->|Hne];
    [exact (player_bullet_step_drawn g b bu Hz Hb Ha)|].
  destruct (player_bullet_step_effect g b bu Hb Ha)
    as (evs1 & evs2 & bx & by_ & bu' & L & D1 & D2 & PX & PY
        & QX & QY & EX & EY & OX & OY & _).
  eapply cached_quiet; [exact L| | |exact Hc].
  - intros a. rewrite !last_draw_app, D1. simpl.
    destruct (decide (SPlayerBullet b = s)); [congruence|]. apply D2.
  - destruct s; unfold cache;
      rewrite ?PX, ?PY, ?QX, ?QY, ?EX, ?EY, ?OX, ?OY, ?at_insert_ne by congruence;
      reflexivity.
Qed.

Lemma player_bullet_step_settles g b :
  sized g -> pending g (SPlayerBullet b) -> cached (player_bullet_step g b) (SPlayerBullet b).
Proof.
  intros Hz [Hc|(bu & Hb & Ha)];
    [exact (player_bullet_step_cached g b _ Hz Hc)
    |exact (player_bullet_step_drawn g b bu Hz Hb Ha)].
Qed.

Lemma player_bullet_step_pending g b s :
  sized g -> pending g s -> pending (player_bullet_step g b) s.
Proof.
  intros Hz Hp.
  destruct (decide (s = SPlayerBullet b)) as [->|Hne];
    [left; exact (player_bullet_step_settles g b Hz Hp)|].
  destruct Hp as [Hc|Hf]; [left; exact (player_bullet_step_cached g b s Hz Hc)|].
  right.
  destruct (playerBullets g !! b) as [bu|] eqn:Hb;
    [|rewrite player_bullet_step_idle; [exact Hf|intros bu' E; congruence]].
  destruct (Bullet.active bu) eqn:Ha;
    [|rewrite player_bullet_step_idle; [exact Hf|intros bu' E; congruence]].
  destruct (player_bullet_step_effect g b bu Hb Ha)
    as (evs1 & evs2 & bx & by_ & bu' & _ & _ & _ & _ & _
        & _ & _ & _ & _ & _ & _ & OP & MP).
  destruct s as [| |b'|b']; simpl in *; try contradiction;
    rewrite ?OP, ?MP, ?list_lookup_insert_ne by congruence; exact Hf.
Qed.

Lemma enemy_bullet_step_idle g b :
  (forall bu, enemyBullets g !! b = Some bu -> Bullet.active bu = false) ->
  enemy_bullet_step g b = g.
Proof.
  intros Hi. unfold enemy_bullet_step.
  destruct (enemyBullets g !! b) as [bu|]; [|reflexivity].
  rewrite (Hi bu eq_refl). reflexivity.
Qed.

Lemma sized_enemy_bullet g b bu :
  sized g -> enemyBullets g !! b = Some bu ->
  (b < length (prevEnemyBulletX g))%nat /\ (b < length (prevEnemyBulletY g))%nat.
Proof.
  intros (Hs & H1 & H2 & H3 & H4 & H5 & H6) Hb. apply lookup_lt_Some in Hb.
  unfold shape, capacities in Hs. injection Hs as S1 S2 S3. lia.
Qed.

Lemma enemy_bullet_step_drawn g b bu :
  sized g -> enemyBullets g !! b = Some bu -> Bullet.active bu = true ->
  cached (enemy_bullet_step g b) (SEnemyBullet b).
Proof.
  intros Hz Hb Ha.
  destruct (enemy_bullet_step_effect g b bu Hb Ha)
    as (evs1 & evs2 & bx & by_ & bu' & L & D1 & D2 & PX & PY & _).
  destruct (sized_enemy_bullet g b bu Hz Hb) as [Lx Ly].
  eapply (cached_drawn _ _ _ _ (bx, by_)); [exact L| |].
  - intros a. rewrite !last_draw_app, D1. simpl.
    destruct (decide (SEnemyBullet b = SEnemyBullet b)); [|congruence]. apply D2.
  - unfold cache. rewrite PX, PY, !at_insert_eq by assumption. reflexivity.
Qed.

Lemma enemy_bullet_step_cached g b s :
  sized g -> cached g s -> cached (enemy_bullet_step g b) s.
Proof.
  intros Hz Hc.
  destruct (enemyBullets g !! b) as [bu|] eqn:Hb;
    [|rewrite enemy_bullet_step_idle; [exact Hc|intros bu' E; congruence]].
  destruct (Bullet.active bu) eqn:Ha;
    [|rewrite enemy_bullet_step_idle; [exact Hc|intros bu' E; congruence]].
  destruct (decide (s = SEnemyBullet b)) as [->|Hne];
    [exact (enemy_bullet_step_drawn g b bu Hz Hb Ha)|].
  destruct (enemy_bullet_step_effect g b bu Hb Ha)
    as (evs1 & evs2 & bx & by_ & bu' & L & D1 & D2 & PX & PY
        & QX & QY & EX & EY & OX & OY & _).
  eapply cached_quiet; [exact L| | |exact Hc].
  - intros a. rewrite !last_draw_app, D1. simpl.
    destruct (decide (SEnemyBullet b = s)); [congruence|]. apply D2.
  - destruct s; unfold cache;
      rewrite ?PX, ?PY, ?QX, ?QY, ?EX, ?EY, ?OX, ?OY, ?at_insert_ne by congruence;
      reflexivity.
Qed.

Lemma enemy_bullet_step_settles g b :
  sized g -> pending g (SEnemyBullet b) -> cached (enemy_bullet_step g b) (SEnemyBullet b).
Proof.
  intros Hz [Hc|(bu & Hb & Ha)];
    [exact (enemy_bullet_step_cached g b _ Hz Hc)
    |exact (enemy_bullet_step_drawn g b bu Hz Hb Ha)].
Qed.

Lemma enemy_bullet_step_pending g b s :
  sized g -> pending g s -> pending (enemy_bullet_step g b) s.
Proof.
  intros Hz Hp.
  destruct (decide (s = SEnemyBullet b)) as [->|Hne];
    [left; exact (enemy_bullet_step_settles g b Hz Hp)|].
  destruct Hp as [Hc|Hf]; [left; exact (enemy_bullet_step_cached g b s Hz Hc)|].
  right.
  destruct (enemyBullets g !! b) as [bu|] eqn:Hb;
    [|rewrite enemy_bullet_step_idle; [exact Hf|intros bu' E; congruence]].
  destruct (Bullet.active bu) eqn:Ha;
    [|rewrite enemy_bullet_step_idle; [exact Hf|intros bu' E; congruence]].
  destruct (enemy_bullet_step_effect g b bu Hb Ha)
    as (evs1 & evs2 & bx & by_ & bu' & _ & _ & _ & _ & _
        & _ & _ & _ & _ & _ & _ & OP & MP).
  destruct s as [| |b'|b']; simpl in *; try contradiction;
    rewrite ?OP, ?MP, ?list_lookup_insert_ne by congruence; exact Hf.
Qed.

Lemma collide_player_from_frame bs : forall g,
  exists eb lg ov,
    collide_player_from bs g
    = set_isGameOver ov (set_log lg (set_enemyBullets eb g)).
Proof.
  induction bs as [|b bs IH]; intros g.
  { exists (enemyBullets g), (log g), (isGameOver g). destruct g; reflexivity. }
  simpl. destruct (enemyBullets g !! b) as [bu|]; [|apply IH].
  destruct (negb (Bullet.active bu)); [apply IH|].
  destruct (hits _ _ _ _).
  - eexists _, _, _. reflexivity.
  - destruct (IH (emit (TestPlayer b false) g)) as (eb & lg & ov & ->).
    exists eb, lg, ov. reflexivity.
Qed.

Lemma micro_sized st g g' : micro st g g' -> sized g -> sized g'.
Proof.
  intros Hm (Hs & H1 & H2 & H3 & H4 & H5 & H6).
  split; [rewrite (micro_shape st g g' Hm); exact Hs|].
  destruct Hm.
  - auto 10.
  - auto 10.
  - unfold move_player. repeat case_match; auto 10.
  - unfold player_fire. repeat case_match; simpl; rewrite ?length_insert; auto 10.
  - unfold enemy_step, enemy_fire, draw.
    repeat case_match; simpl; rewrite ?length_insert; auto 10.
  - unfold player_bullet_step.
    repeat case_match; simpl; rewrite ?length_insert; auto 10.
  - unfold enemy_bullet_step.
    repeat case_match; simpl; rewrite ?length_insert; auto 10.
  - unfold collide_pair. repeat case_match; simpl; auto 10.
  - destruct (collide_player_from_frame bs g) as (eb & lg & ov & ->). auto 10.
  - unfold hud, score_tick. repeat case_match; simpl; auto 10.
  - unfold new_wave. destruct (wave_due g); [|auto 10].
    destruct (spawnEnemiesWave_frame d c g) as (en & dr & lg & ->). auto 10.
  - unfold draw_player. auto 10.
  - auto 10.
  - auto 10.
Qed.

Lemma rtc_sized st g g' : rtc (micro st) g g' -> sized g -> sized g'.
Proof.
  induction 1 as [|g1 g2 g3 Hm _ IH]; intros Hz; [exact Hz|].
  apply IH. exact (micro_sized st g1 g2 Hm Hz).
Qed.

(** Events without a draw leave [last_draw] alone. *)
Lemma no_draw_last_draw (evs : list Event) :
  Forall (fun e => match e with Draw _ _ _ => False | _ => True end) evs ->
  forall s a, last_draw s evs a = a.
Proof.
  induction 1 as [|e evs He _ IH]; intros s a; [reflexivity|].
  destruct e; simpl; try apply IH. contradiction.
Qed.

Lemma collision_cached g g' s :
  micro Collision g g' -> cached g s -> cached g' s.
Proof.
  intros Hm Hc. destruct (micro_extends _ _ _ Hm) as (evs & L & F).
  eapply cached_quiet; [exact L| | |exact Hc].
  - intros a. apply no_draw_last_draw.
    eapply Forall_impl; [exact F|]. intros e He. destruct e; try exact I.
    discriminate.
  - inversion Hm; subst.
    + unfold collide_pair. repeat case_match; destruct s; reflexivity.
    + destruct (collide_player_from_frame bs g) as (eb & lg & ov & ->).
      destruct s; reflexivity.
Qed.

Lemma rtc_collision_cached g g' s :
  rtc (micro Collision) g g' -> cached g s -> cached g' s.
Proof.
  induction 1 as [|g1 g2 g3 Hm _ IH]; intros Hc; [exact Hc|].
  apply IH. exact (collision_cached g1 g2 s Hm Hc).
Qed.

(** *** The loops of the physics step *)

Lemma enemies_step_pending t d : forall g,
  sized g -> (forall s, pending g s) ->
  sized (enemies_step t d g) /\ forall s, pending (enemies_step t d g) s.
Proof.
  unfold enemies_step. generalize (seq 0 MAX_ENEMIES). intros l.
  induction l as [|e l IH]; intros g Hz Hp; [split; assumption|].
  apply IH.
  - exact (micro_sized _ _ _ (micro_enemy t d g e) Hz).
  - intros s. apply enemy_step_pending; auto.
Qed.

Lemma fold_player_bullet_cached (l : list nat) s : forall g,
  sized g -> cached g s -> cached (fold_left player_bullet_step l g) s.
Proof.
  induction l as [|b l IH]; intros g Hz Hc; [exact Hc|].
  apply IH.
  - exact (micro_sized _ _ _ (micro_player_bullet g b) Hz).
  - apply player_bullet_step_cached; assumption.
Qed.

Lemma fold_enemy_bullet_cached (l : list nat) s : forall g,
  sized g -> cached g s -> cached (fold_left enemy_bullet_step l g) s.
Proof.
  induction l as [|b l IH]; intros g Hz Hc; [exact Hc|].
  apply IH.
  - exact (micro_sized _ _ _ (micro_enemy_bullet g b) Hz).
  - apply enemy_bullet_step_cached; assumption.
Qed.

Lemma fold_player_bullet_settles (l : list nat) : forall g,
  sized g -> (forall s, pending g s) ->
  sized (fold_left player_bullet_step l g) /\
  (forall s, pending (fold_left player_bullet_step l g) s) /\
  (forall b, b ∈ l -> cached (fold_left player_bullet_step l g) (SPlayerBullet b)).
Proof.
  induction l as [|x l IH]; intros g Hz Hp.
  { split; [exact Hz|]. split; [exact Hp|]. intros b Hb. inversion Hb. }
  pose proof (micro_sized _ _ _ (micro_player_bullet g x) Hz) as Hz1.
  destruct (IH (player_bullet_step g x) Hz1) as (Hz' & Hp' & Hc').
  { intros s. apply player_bullet_step_pending; auto. }
  split; [exact Hz'|]. split; [exact Hp'|].
  intros b Hb. apply elem_of_cons in Hb as [->|Hb]; [|exact (Hc' b Hb)].
  apply (fold_player_bullet_cached l _ (player_bullet_step g x)); [exact Hz1|].
  apply player_bullet_step_settles; auto.
Qed.

Lemma fold_enemy_bullet_settles (l : list nat) : forall g,
  sized g -> (forall s, pending g s) ->
  sized (fold_left enemy_bullet_step l g) /\
  (forall s, pending (fold_left enemy_bullet_step l g) s) /\
  (forall b, b ∈ l -> cached (fold_left enemy_bullet_step l g) (SEnemyBullet b)).
Proof.
  induction l as [|x l IH]; intros g Hz Hp.
  { split; [exact Hz|]. split; [exact Hp|]. intros b Hb. inversion Hb. }
  pose proof (micro_sized _ _ _ (micro_enemy_bullet g x) Hz) as Hz1.
  destruct (IH (enemy_bullet_step g x) Hz1) as (Hz' & Hp' & Hc').
  { intros s. apply enemy_bullet_step_pending; auto. }
  split; [exact Hz'|]. split; [exact Hp'|].
  intros b Hb. apply elem_of_cons in Hb as [->|Hb]; [|exact (Hc' b Hb)].
  apply (fold_enemy_bullet_cached l _ (enemy_bullet_step g x)); [exact Hz1|].
  apply enemy_bullet_step_settles; auto.
Qed.

(** With pools of the declared sizes, a pending slot that is not fresh
    is cached; slots beyond the pools are never fresh. *)
Lemma pending_cached g s :
  pending g s -> (fresh g s -> cached g s) -> cached g s.
Proof. intros [Hc|Hf] Hi; auto. Qed.

Lemma sized_pools g :
  sized g ->
  length (playerBullets g) = MAX_PLAYER_BULLETS /\
  length (enemyBullets g) = MAX_ENEMY_BULLETS.
Proof.
  intros (Hs & _). unfold shape, capacities in Hs. injection Hs as S1 S2 S3. auto.
Qed.

Lemma player_bullets_step_settles g :
  sized g -> (forall s, pending g s) ->
  sized (player_bullets_step g) /\
  (forall s, pending (player_bullets_step g) s) /\
  (forall b, cached (player_bullets_step g) (SPlayerBullet b)).
Proof.
  intros Hz Hp. unfold player_bullets_step.
  destruct (fold_player_bullet_settles (seq 0 MAX_PLAYER_BULLETS) g Hz Hp)
    as (Z & P & C).
  split; [exact Z|]. split; [exact P|].
  intros b. apply pending_cached; [apply P|]. intros (bu & Hb & _).
  apply C, elem_of_seq. apply lookup_lt_Some in Hb.
  destruct (sized_pools _ Z) as [L _]. lia.
Qed.

Lemma enemy_bullets_step_settles g :
  sized g -> (forall s, pending g s) ->
  sized (enemy_bullets_step g) /\
  (forall s, pending (enemy_bullets_step g) s) /\
  (forall b, cached (enemy_bullets_step g) (SEnemyBullet b)).
Proof.
  intros Hz Hp. unfold enemy_bullets_step.
  destruct (fold_enemy_bullet_settles (seq 0 MAX_ENEMY_BULLETS) g Hz Hp)
    as (Z & P & C).
  split; [exact Z|]. split; [exact P|].
  intros b. apply pending_cached; [apply P|]. intros (bu & Hb & _).
  apply C, elem_of_seq. apply lookup_lt_Some in Hb.
  destruct (sized_pools _ Z) as [_ L]. lia.
Qed.

Lemma enemy_bullets_step_cached g s :
  sized g -> cached g s -> cached (enemy_bullets_step g) s.
Proof. intros Hz. apply fold_enemy_bullet_cached. exact Hz. Qed.

Lemma read_joystick_cached r g s : cached g s -> cached (read_joystick r g) s.
Proof.
  intros Hc. eapply (cached_quiet g _ s []); [symmetry; apply app_nil_r| | |exact Hc].
  - reflexivity.
  - destruct s; reflexivity.
Qed.

(** After the two bullet loops every slot is cached again. *)
Lemma bullet_loops_cached g :
  sized g -> (forall s, pending g s) ->
  sized (enemy_bullets_step (player_bullets_step g)) /\
  forall s, cached (enemy_bullets_step (player_bullets_step g)) s.
Proof.
  intros Hz Hp.
  destruct (player_bullets_step_settles g Hz Hp) as (Z5 & P5 & C5).
  destruct (enemy_bullets_step_settles _ Z5 P5) as (Z6 & P6 & C6).
  split; [exact Z6|].
  intros s. destruct s as [| |b|b].
  - destruct (P6 SPlayer) as [Hc|[]]. exact Hc.
  - destruct (P6 (SEnemy e)) as [Hc|[]]. exact Hc.
  - apply enemy_bullets_step_cached; [exact Z5|apply C5].
  - apply C6.
Qed.

Lemma physics_cached i d g :
  sized g -> (forall s, cached g s) ->
  sized (physics i d g) /\ forall s, cached (physics i d g) s.
Proof.
  intros Hz Hc. unfold physics. cbv zeta.
  pose proof (micro_sized _ _ _ (micro_joystick (raw i) g) Hz) as Z1.
  pose proof (micro_sized _ _ _ (micro_move _) Z1) as Z2.
  pose proof (micro_sized _ _ _ (micro_fire i _) Z2) as Z3.
  apply bullet_loops_cached.
  - apply enemies_step_pending; [exact Z3|].
    intros s. apply player_fire_pending; [exact Z2|].
    left. apply move_player_cached, read_joystick_cached, Hc.
  - apply enemies_step_pending; [exact Z3|].
    intros s. apply player_fire_pending; [exact Z2|].
    left. apply move_player_cached, read_joystick_cached, Hc.
Qed.

(** *** The rest of the frame *)

Lemma emit_cached e g s :
  match e with Draw _ _ _ => False | _ => True end ->
  cached g s -> cached (emit e g) s.
Proof.
  intros He Hc. eapply (cached_quiet g _ s [e]); [reflexivity| | |exact Hc].
  - intros a. destruct e; try reflexivity. contradiction.
  - destruct s; reflexivity.
Qed.

Lemma spawn_loop_cached avail s : forall k d c g,
  cached g s -> cached (spawn_loop avail k d c g) s.
Proof.
  induction avail as [|lane rest IH]; intros k d c g Hc; [exact Hc|].
  simpl. destruct (k <? MAX_ENEMIES)%nat; [|exact Hc].
  destruct (free_enemy (enemies g)) as [idx|]; [|exact Hc].
  unfold draw. cbv zeta. apply IH.
  eapply (cached_quiet g _ s [Spawned idx lane]); [reflexivity| | |exact Hc].
  - reflexivity.
  - destruct s; reflexivity.
Qed.

Lemma set_draws_cached m g s : cached g s -> cached (set_draws m g) s.
Proof.
  intros Hc. eapply (cached_quiet g _ s []); [symmetry; apply app_nil_r| | |exact Hc].
  - reflexivity.
  - destruct s; reflexivity.
Qed.

Lemma spawnEnemiesWave_cached d c g s :
  cached g s -> cached (spawnEnemiesWave d c g) s.
Proof.
  intros Hc.
  destruct (spawnEnemiesWave_unfold d c g) as (gap & avail & m & _ & _ & _ & ->).
  apply spawn_loop_cached, set_draws_cached, Hc.
Qed.

Lemma new_wave_cached d c g s : cached g s -> cached (new_wave d c g) s.
Proof.
  intros Hc. unfold new_wave. destruct (wave_due g); [|exact Hc].
  apply spawnEnemiesWave_cached, Hc.
Qed.

Lemma hud_cached t g s : cached g s -> cached (hud t g) s.
Proof.
  intros Hc. unfold hud, score_tick.
  destruct (_ >=? 200);
    (eapply cached_quiet; [reflexivity| | |exact Hc];
     [reflexivity|destruct s; reflexivity]).
Qed.

Lemma draw_player_cached g s : cached g s -> cached (draw_player g) s.
Proof.
  intros Hc. unfold draw_player. cbv zeta.
  destruct (decide (s = SPlayer)) as [->|Hne].
  - eapply (cached_drawn g _ SPlayer [Draw SPlayer _ _]); [reflexivity| |reflexivity].
    reflexivity.
  - eapply cached_quiet; [reflexivity| | |exact Hc].
    + intros a. simpl. destruct (decide (SPlayer = s)); [congruence|reflexivity].
    + destruct s; [congruence|reflexivity..].
Qed.

Lemma finish_cached i d g :
  sized g -> (forall s, cached g s) ->
  sized (finish i d g) /\ forall s, cached (finish i d g) s.
Proof.
  intros Hz Hc. split.
  - exact (rtc_sized _ _ _ (finish_micro i d g) Hz).
  - intros s. unfold finish. cbv zeta.
    apply draw_player_cached, new_wave_cached, hud_cached, Hc.
Qed.

Lemma collisions_cached g :
  sized g -> (forall s, cached g s) ->
  sized (collisions g) /\ forall s, cached (collisions g) s.
Proof.
  intros Hz Hc. split.
  - exact (rtc_sized _ _ _ (collisions_micro g) Hz).
  - intros s. exact (rtc_collision_cached _ _ s (collisions_micro g) (Hc s)).
Qed.

Lemma set_lastFrame_cached t g s : cached g s -> cached (set_lastFrame t g) s.
Proof.
  intros Hc. eapply (cached_quiet g _ s []); [symmetry; apply app_nil_r| | |exact Hc].
  - reflexivity.
  - destruct s; reflexivity.
Qed.

Lemma staged_cached i g :
  sized g -> (forall s, cached g s) ->
  sized (staged i g) /\ forall s, cached (staged i g) s.
Proof.
  intros Hz Hc. unfold staged. cbv zeta.
  apply finish_cached; apply collisions_cached; apply physics_cached;
    try exact (micro_sized _ _ _ (micro_lastFrame (now i) g) Hz);
    intros s; apply set_lastFrame_cached, Hc.
Qed.

Lemma frame_cached i g :
  sized g -> (forall s, cached g s) ->
  sized (fst (frame i g)) /\ forall s, cached (fst (frame i g)) s.
Proof.
  intros Hz Hc. unfold frame.
  destruct (u32 (now i - lastFrame g) <? FRAME_MS); [split; assumption|].
  cbv zeta.
  destruct (staged_cached i g Hz Hc) as [Z3 C3].
  generalize dependent (staged i g). intros g3 Z3 C3.
  pose proof (micro_sized _ _ _ (micro_exit (btnBack i) g3) Z3) as Z4.
  assert (C4 : forall s, cached (emit (ExitCheck (btnBack i)) g3) s)
    by (intros s; apply emit_cached; [exact I|apply C3]).
  destruct (btnBack i); [split; assumption|].
  destruct (isGameOver _); [|split; assumption].
  split.
  - exact (micro_sized _ _ _ (micro_banner _) Z4).
  - intros s. apply emit_cached; [exact I|apply C4].
Qed.

Lemma run_cached ins : forall g,
  sized g -> (forall s, cached g s) ->
  forall s, cached (fst (run ins g)) s.
Proof.
  induction ins as [|i ins IH]; intros g Hz Hc; [exact Hc|].
  rewrite run_cons.
  destruct (frame_cached i g Hz Hc) as [Z1 C1].
  destruct (frame i g) as [g' []]; simpl in *; auto.
Qed.

Lemma start_sized t0 : sized (start t0).
Proof. repeat split. Qed.

Lemma init_cached t0 clock :
  sized (init t0 clock) /\ forall s, cached (init t0 clock) s.
Proof.
  unfold init. split.
  - destruct (spawnEnemiesWave_frame F32.one clock (start t0)) as (en & dr & lg & E).
    pose proof (spawnEnemiesWave_shape F32.one clock (start t0)) as Hs.
    rewrite E in *. destruct (start_sized t0) as (S0 & S1).
    split; [rewrite Hs; exact S0|exact S1].
  - intros s. apply spawnEnemiesWave_cached. intros p Hp. discriminate.
Qed.

(** The render cache of a session: after every pass of the loop, the
    cached previous position of each slot (the player, each enemy,
    player-bullet and enemy-bullet slot) is the position at which the
    slot was last drawn, if it was ever drawn. *)
Lemma render_cache_consistent t0 clock ins s p :
  drawn_at s (fst (run ins (init t0 clock))) = Some p ->
  cache (fst (run ins (init t0 clock))) s = p.
Proof.
  destruct (init_cached t0 clock) as [Hz Hc].
  exact (run_cached ins _ Hz Hc s p).
Qed.

End Cache.

Lemma pools_within_capacity_witness :
  Forall (fun b => Bullet.active b = true) (playerBullets full_magazine) /\
  @player_fire console0 first_input full_magazine = full_magazine.
Proof.
  assert (Hf : Forall (fun b => Bullet.active b = true) (playerBullets full_magazine)).
  { unfold full_magazine. simpl. repeat constructor. }
  split; [exact Hf|].
  apply (proj1 (proj2 (proj2 (@pools_within_capacity console0)))). exact Hf.
Defined.




Lemma score_ticks_witness :
  ((u32 (now late_double_hit_input - lastFrame before_double_hit) <? FRAME_MS) = false /\
   0 <= score before_double_hit /\ score before_double_hit + 241 < 2 ^ 32 /\
   hits_in (@frame_events console1 late_double_hit_input before_double_hit) = 2%nat /\
   (u32 (now late_double_hit_input - lastScoreTick before_double_hit) >=? 200) = true /\
   score (fst (@frame console1 late_double_hit_input before_double_hit))
   = score before_double_hit + 21) /\
  (in_time 1000 session30 2020 /\
   200 * ticks (fst (@run console0 session30 opening)) <= 2020 - 1000 /\
   score (fst (@run console0 (take 20 session30) opening))
   <= score (fst (@run console0 (take 20 session30 ++ drop 20 session30) opening))).
Proof.
  assert (Hw : (u32 (now late_double_hit_input - lastFrame before_double_hit)
                <? FRAME_MS) = false) by (vm_compute; reflexivity).
  assert (H0 : 0 <= score before_double_hit) by (vm_compute; discriminate).
  assert (Hs : score before_double_hit + 241 < 2 ^ 32) by (vm_compute; reflexivity).
  assert (Hh : hits_in (@frame_events console1 late_double_hit_input before_double_hit)
               = 2%nat) by (vm_compute; reflexivity).
  assert (Hd : (u32 (now late_double_hit_input - lastScoreTick before_double_hit)
                >=? 200) = true) by (vm_compute; reflexivity).
  assert (Ht : in_time 1000 session30 2020) by (vm_compute; repeat split; discriminate).
  pose proof (@score_ticks console1 late_double_hit_input before_double_hit Hw)
    as (_ & _ & _ & T4 & T5 & T6).
  split.
  - split; [exact Hw|]. split; [exact H0|]. split; [exact Hs|].
    split; [exact Hh|]. split; [exact Hd|].
    destruct (T4 H0 Hs) as [E _]. rewrite E, Hh, Hd. reflexivity.
  - split; [exact Ht|]. split.
    + apply (T6 1000 1000 session30 2020); [discriminate|exact Ht|reflexivity|reflexivity].
    + apply (T5 1000 1000 (take 20 session30) (drop 20 session30)). reflexivity.
Defined.

(** C9 fails as stated: in the session [session30], whose passes come
    every 30 ms, a tick falls on every seventh pass, 210 ms after the
    one before.  When the 34th pass is over, 1020 ms after the loop was
    entered, 200 ms have elapsed five times and no bullet has hit, yet
    the score is 4. *)
Lemma score_ticks_counterexample :
  snd (@run console0 session30 opening) = Continue /\
  hits_in (log (fst (@run console0 session30 opening))) = 0%nat /\
  lastFrame (fst (@run console0 session30 opening)) = 2020 /\
  startTime (fst (@run console0 session30 opening)) = 1000 /\
  claimed_score 1000 2020 = 5 /\
  score (fst (@run console0 session30 opening)) = 4.
Proof. vm_compute. repeat split. Qed.

Lemma wave_reserves_gap_witness :
  exists gap avail n evs,
    fst (@wave_plan console0 (@start console0 1000)) = (gap, avail) /\
    0 <= gap < Z.of_nat LANE_COUNT /\
    spawned_lanes evs = take n avail /\
    (n <= MAX_ENEMIES)%nat.
Proof.
  destruct (@wave_reserves_gap console0 F32.one 1000 (@start console0 1000))
    as (gap & avail & n & evs & H1 & H2 & _ & _ & _ & H6 & H7 & _).
  exists gap, avail, n, evs.
  split; [exact H1|]. split; [exact H2|]. split; [exact H6|exact H7].
Defined.


Lemma hit_iff_overlap_witness :
  (enemies point_blank !! 0%nat = Some target /\
   playerBullets point_blank !! 0%nat = Some shot /\
   Enemy.active target = true /\ Bullet.active shot = true /\
   exists en' bu',
     enemies (collide_pair 0 point_blank 0) !! 0%nat = Some en' /\
     playerBullets (collide_pair 0 point_blank 0) !! 0%nat = Some bu' /\
     ((Enemy.active en' = false /\ Bullet.active bu' = false) <->
      overlap 50 55 40 50)) /\
  (shape two_on_one = capacities /\
   (Enemy.active <$> enemies two_on_one !! 0%nat) = Some true /\
   (Enemy.active <$> enemies (collide_enemies two_on_one) !! 0%nat) = Some false /\
   (Bullet.active <$> playerBullets two_on_one !! 0%nat) = Some true /\
   (Bullet.active <$> playerBullets (collide_enemies two_on_one) !! 0%nat)
   = Some false /\
   (exists en b bu,
      enemies two_on_one !! 0%nat = Some en /\
      playerBullets two_on_one !! b = Some bu /\ Bullet.active bu = true /\
      touches bu en) /\
   (exists bu e en,
      playerBullets two_on_one !! 0%nat = Some bu /\
      enemies two_on_one !! e = Some en /\ Enemy.active en = true /\
      touches bu en)).
Proof.
  pose proof hit_iff_overlap as (_ & T2 & _ & _ & _ & T6 & T7 & _).
  split.
  - assert (He : enemies point_blank !! 0%nat = Some target) by (vm_compute; reflexivity).
    assert (Hb : playerBullets point_blank !! 0%nat = Some shot)
      by (vm_compute; reflexivity).
    split; [exact He|]. split; [exact Hb|]. split; [reflexivity|]. split; [reflexivity|].
    destruct (T2 0%nat point_blank 0%nat target shot He Hb eq_refl eq_refl)
      as (en' & bu' & E1 & E2 & E3 & _).
    exists en', bu'. split; [exact E1|]. split; [exact E2|]. exact E3.
  - assert (Hs : shape two_on_one = capacities) by (vm_compute; reflexivity).
    assert (E0 : (Enemy.active <$> enemies two_on_one !! 0%nat) = Some true)
      by (vm_compute; reflexivity).
    assert (E1 : (Enemy.active <$> enemies (collide_enemies two_on_one) !! 0%nat)
                 = Some false) by (vm_compute; reflexivity).
    assert (B0 : (Bullet.active <$> playerBullets two_on_one !! 0%nat) = Some true)
      by (vm_compute; reflexivity).
    assert (B1 : (Bullet.active <$> playerBullets (collide_enemies two_on_one) !! 0%nat)
                 = Some false) by (vm_compute; reflexivity).
    split; [exact Hs|]. split; [exact E0|]. split; [exact E1|].
    split; [exact B0|]. split; [exact B1|]. split.
    + destruct (enemies two_on_one !! 0%nat) as [en|] eqn:He; [|discriminate E0].
      destruct (enemies (collide_enemies two_on_one) !! 0%nat) as [en'|] eqn:He';
        [|discriminate E1].
      injection E0 as E0. injection E1 as E1.
      destruct (proj1 (T6 two_on_one 0%nat en en' Hs He E0 He') E1)
        as (b & bu & Hb & Ha & Ht).
      exists en, b, bu. auto.
    + destruct (playerBullets two_on_one !! 0%nat) as [bu|] eqn:Hb; [|discriminate B0].
      destruct (playerBullets (collide_enemies two_on_one) !! 0%nat) as [bu'|] eqn:Hb';
        [|discriminate B1].
      injection B0 as B0. injection B1 as B1.
      destruct (proj1 (T7 two_on_one 0%nat bu bu' Hs Hb B0 Hb') B1)
        as (e & en & He & Ha & Ht & _).
      exists bu, e, en. auto.
Defined.

(** C7 fails as stated: in the 25th pass of the session [salvo] the
    bullets of the slots 0 and 1, at (64, 41) and (64, 48), both
    overlap the enemy of slot 0 at (50, 24), and all three are active
    when the collision pass begins.  The bullet of slot 0 destroys the
    enemy; when the bullet of slot 1 is tested the enemy is no longer
    active and is skipped, so this bullet stays active although its
    rectangle overlaps the enemy's at that frame. *)
Lemma hit_iff_overlap_counterexample :
  @reachable console1 two_on_one /\
  ((fun bu => (Bullet.active bu, F32.to_int (Bullet.x bu), F32.to_int (Bullet.y bu)))
     <$> take 2 (playerBullets two_on_one)) = [(true, 64, 41); (true, 64, 48)] /\
  ((fun en => (Enemy.active en, F32.to_int (Enemy.x en), F32.to_int (Enemy.y en)))
     <$> enemies two_on_one !! 0%nat) = Some (true, 50, 24) /\
  (Bullet.active <$> playerBullets (collide_enemies two_on_one) !! 1%nat) = Some true /\
  ~ claimed_hits two_on_one.
Proof.
  split; [|split; [|split; [|split]]].
  - unfold two_on_one, at_enemy_test. cbv zeta.
    eapply rtc_reachable; [apply physics_micro|].
    eapply reachable_step; [|apply micro_lastFrame].
    apply run_reachable, reachable_init.
  - vm_compute. reflexivity.
  - vm_compute. reflexivity.
  - vm_compute. reflexivity.
  - intros C.
    assert (B0 : (Bullet.active <$> playerBullets two_on_one !! 1%nat) = Some true)
      by (vm_compute; reflexivity).
    assert (B1 : (Bullet.active <$> playerBullets (collide_enemies two_on_one) !! 1%nat)
                 = Some true) by (vm_compute; reflexivity).
    assert (E0 : (Enemy.active <$> enemies two_on_one !! 0%nat) = Some true)
      by (vm_compute; reflexivity).
    assert (E1 : (Enemy.active <$> enemies (collide_enemies two_on_one) !! 0%nat)
                 = Some false) by (vm_compute; reflexivity).
    assert (M : meets two_on_one 1 0 = true) by (vm_compute; reflexivity).
    destruct (playerBullets two_on_one !! 1%nat) as [bu|] eqn:Hb; [|discriminate B0].
    destruct (playerBullets (collide_enemies two_on_one) !! 1%nat) as [bu'|] eqn:Hb';
      [|discriminate B1].
    destruct (enemies two_on_one !! 0%nat) as [en|] eqn:He; [|discriminate E0].
    destruct (enemies (collide_enemies two_on_one) !! 0%nat) as [en'|] eqn:He';
      [|discriminate E1].
    injection B0 as B0. injection B1 as B1. injection E0 as E0. injection E1 as E1.
    assert (Ht : touches bu en).
    { apply (meets_touches two_on_one 1%nat 0%nat bu en Hb He). exact M. }
    destruct (proj2 (C 1%nat 0%nat bu en bu' en' Hb B0 He E0 Hb' He') Ht) as [F _].
    congruence.
Qed.

(** C1 fails on the code in the 24th frame of the session [paced]: the
    bullet in player-bullet slot 0 meets the enemies of slots 0 and 1,
    which stand in adjacent lanes; after the first hit the inner loop
    goes on with the dead bullet, so the second enemy is destroyed too
    and the bullet's last rectangle is erased a second time.  The other
    half of the property holds in every session: each slot's cached
    previous position is the position of its last draw
    ([render_cache_consistent]). *)
Lemma double_hit_erases_twice :
  @reachable console1 before_double_hit /\
  (Bullet.active <$> playerBullets before_double_hit !! 0%nat) = Some true /\
  (Bullet.active <$>
     playerBullets (fst (@frame console1 double_hit_input before_double_hit)) !! 0%nat)
  = Some false /\
  filter (fun e => is_hit e = true)
         (@frame_events console1 double_hit_input before_double_hit)
  = [Test 0 0 true; Test 0 1 true] /\
  erases_since_draw (SPlayerBullet 0)
    (@frame_events console1 double_hit_input before_double_hit) 0 = 2%nat /\
  score (fst (@frame console1 double_hit_input before_double_hit))
  = score before_double_hit + 20.
Proof.
  split; [apply run_reachable, reachable_init|].
  vm_compute. repeat split.
Qed.

End Game2Facts.

(** ** The rest of the sketch *)

(** ** The display of [game1] *)

Module Game1ScreenFacts.
Import Game1 Game1Facts Game1Screen.

Lemma in_map_spec x y :
  in_map x y = true <-> 0 <= x < MAP_SIZE /\ 0 <= y < MAP_SIZE.
Proof. unfold in_map. rewrite !andb_true_iff, !Z.leb_le, !Z.ltb_lt. lia. Qed.

(** *** The bullet *)

Lemma request_dir s jy jx nx ny d :
  request s jy jx = Some (nx, ny, d) -> dir_ok d.
Proof.
  unfold request, dir_ok. repeat case_match; intros [= <- <- <-]; lia.
Qed.

Lemma read_tankDir i s :
  tankDir (readJoystickAndFire i s) =
  match request s (joyY i) (joyX i) with
  | Some (_, _, d) => d
  | None => tankDir s
  end.
Proof.
  unfold readJoystickAndFire.
  destruct (request s (joyY i) (joyX i)) as [[[nx ny] d]|]; simpl;
    [destruct (passable nx ny)|]; reflexivity.
Qed.

(** The bullet after the joystick step: as it was, or just fired from
    the tank's cell in the tank's direction. *)
Lemma read_bullet i s :
  let s' := readJoystickAndFire i s in
  (bulletActive s' = bulletActive s /\ bulletX s' = bulletX s /\
   bulletY s' = bulletY s /\ bulletDir s' = bulletDir s) \/
  (bulletActive s = false /\ bulletActive s' = true /\ bulletX s' = tankX s' /\
   bulletY s' = tankY s' /\ bulletDir s' = tankDir s').
Proof.
  unfold readJoystickAndFire.
  destruct (request s (joyY i) (joyX i)) as [[[nx ny] d]|]; simpl;
    [destruct (passable nx ny)|]; simpl;
    destruct (firePressed i), (bulletActive s), (_ >? FIRE_DEBOUNCE); simpl; auto 10.
Qed.

Lemma read_keeps_flight_ok i s : flight_ok s -> flight_ok (readJoystickAndFire i s).
Proof.
  intros (Ht & Hb & Hd & Hbd).
  pose proof (read_keeps_tank_ok i s Ht) as Ht'.
  split; [exact Ht'|].
  assert (Hd' : dir_ok (tankDir (readJoystickAndFire i s))).
  { rewrite read_tankDir.
    destruct (request s (joyY i) (joyX i)) as [[[nx ny] d]|] eqn:R; [|exact Hd].
    exact (request_dir _ _ _ _ _ _ R). }
  destruct (read_bullet i s) as [(Ea & Ex & Ey & Ed)|(_ & Ea & Ex & Ey & Ed)].
  - split; [|split; [exact Hd'|rewrite Ed; exact Hbd]].
    unfold bullet_ok. rewrite Ea, Ex, Ey. exact Hb.
  - split; [|split; [exact Hd'|rewrite Ed; exact Hd']].
    unfold bullet_ok. rewrite Ex, Ey. intros _.
    destruct Ht' as (Hx & Hy & Hc).
    split; [apply in_map_spec; split; assumption|assumption].
Qed.

Lemma moveBullet_bullet_ok s : bullet_ok (moveBullet s).
Proof.
  unfold bullet_ok, moveBullet.
  destruct (bulletActive s) eqn:A; simpl; [|congruence].
  set (nbx := if bulletDir s =? 1 then _ else _).
  set (nby := if bulletDir s =? 0 then _ else _).
  intros G. apply negb_true_iff, orb_false_iff in G as [G1 G2].
  apply negb_false_iff in G1. apply bool_decide_eq_false in G2.
  split; [exact G1|].
  apply in_map_spec in G1. unfold MAP_SIZE in G1.
  assert (Hx : nbx = 0 \/ nbx = 1 \/ nbx = 2 \/ nbx = 3 \/ nbx = 4 \/
               nbx = 5 \/ nbx = 6 \/ nbx = 7) by lia.
  assert (Hy : nby = 0 \/ nby = 1 \/ nby = 2 \/ nby = 3 \/ nby = 4 \/
               nby = 5 \/ nby = 6 \/ nby = 7) by lia.
  clearbody nbx nby.
  destruct Hx as [->|[->|[->|[->|[->|[->|[->| ->]]]]]]];
    destruct Hy as [->|[->|[->|[->|[->|[->|[->| ->]]]]]]];
    first [reflexivity | exfalso; apply G2; reflexivity].
Qed.

Lemma moveBullet_keeps_flight_ok s : flight_ok s -> flight_ok (moveBullet s).
Proof.
  intros (Ht & Hb & Hd & Hbd).
  split; [|split; [apply moveBullet_bullet_ok|]].
  - unfold tank_ok. destruct (moveBullet_tank s) as [-> ->]. exact Ht.
  - unfold moveBullet. destruct (negb (bulletActive s)); simpl; auto.
Qed.

Lemma pass_keeps_flight_ok i s : flight_ok s -> flight_ok (fst (pass i s)).
Proof.
  intros Hs. unfold pass. simpl.
  set (s1 := if _ >? TANK_MOVE_DELAY then _ else s).
  assert (H1 : flight_ok s1).
  { subst s1. destruct (_ >? _); [|exact Hs].
    exact (read_keeps_flight_ok i s Hs). }
  clearbody s1.
  set (s2 := if _ >? BULLET_MOVE_DELAY then _ else s1).
  assert (H2 : flight_ok s2).
  { subst s2. destruct (_ >? _); [|exact H1].
    exact (moveBullet_keeps_flight_ok s1 H1). }
  exact H2.
Qed.

Lemma run_unfold i ins s :
  run (i :: ins) s = if snd (pass i s) then fst (pass i s) else run ins (fst (pass i s)).
Proof.
  change (run (i :: ins) s)
    with (let '(s', stop) := pass i s in if stop then s' else run ins s').
  destruct (pass i s) as [s' stop]. reflexivity.
Qed.

Lemma run_keeps_flight_ok ins : forall s, flight_ok s -> flight_ok (run ins s).
Proof.
  induction ins as [|i ins IH]; intros s Hs; [exact Hs|].
  rewrite run_unfold. pose proof (pass_keeps_flight_ok i s Hs) as H.
  destruct (snd (pass i s)); [exact H|exact (IH _ H)].
Qed.

Lemma init_flight_ok t0 : flight_ok (init t0).
Proof.
  split; [apply init_tank_ok|]. split; [intros A; discriminate|].
  split; unfold dir_ok; simpl; lia.
Qed.

(** X2.  In every state a session reaches, a bullet in flight is inside
    the map on a cell of value 0, and its direction is one of the
    four the joystick sets. *)
Theorem bullet_stays_on_free_cell t0 ins :
  bullet_ok (run ins (init t0)) /\ dir_ok (bulletDir (run ins (init t0))).
Proof.
  destruct (run_keeps_flight_ok ins _ (init_flight_ok t0)) as (_ & Hb & _ & Hd).
  split; assumption.
Qed.

(** *** The picture *)

Lemma pixel_app l ops px py :
  pixel (l ++ ops) px py =
  fold_left (fun c o => if covers o px py then colour o else c) ops (pixel l px py).
Proof. unfold pixel. apply fold_left_app. Qed.

Lemma cell_of_pixel x p : x * CELL_SIZE <= p < x * CELL_SIZE + CELL_SIZE -> p / CELL_SIZE = x.
Proof.
  unfold CELL_SIZE. intros Hp. symmetry.
  apply (Z.div_unique p 15 x (p - x * 15)); lia.
Qed.

Lemma pixel_of_cell x p : p / CELL_SIZE = x -> x * CELL_SIZE <= p < x * CELL_SIZE + CELL_SIZE.
Proof.
  unfold CELL_SIZE. intros <-.
  pose proof (Z.div_mod p 15 ltac:(lia)). pose proof (Z.mod_pos_bound p 15 ltac:(lia)).
  lia.
Qed.

Lemma covers_tankRect x y c px py :
  covers (tankRect x y c) px py =
  bool_decide (px / CELL_SIZE = x) && bool_decide (py / CELL_SIZE = y).
Proof.
  unfold covers, tankRect.
  destruct (bool_decide_reflect (px / CELL_SIZE = x)) as [Hx|Hx];
    destruct (bool_decide_reflect (py / CELL_SIZE = y)) as [Hy|Hy]; simpl.
  - apply pixel_of_cell in Hx, Hy. apply andb_true_iff; split;
      [apply andb_true_iff; split; [apply andb_true_iff; split|]|]; lia.
  - apply not_true_is_false. rewrite !andb_true_iff, !Z.leb_le, !Z.ltb_lt.
    intros [[_ H1] H2]. apply Hy, cell_of_pixel. lia.
  - apply not_true_is_false. rewrite !andb_true_iff, !Z.leb_le, !Z.ltb_lt.
    intros [[H1 _] _]. apply Hx, cell_of_pixel. lia.
  - apply not_true_is_false. rewrite !andb_true_iff, !Z.leb_le, !Z.ltb_lt.
    intros [[H1 _] _]. apply Hx, cell_of_pixel. lia.
Qed.

(** A bullet is painted inside its cell. *)
Lemma covers_bulletRect x y c px py :
  covers (bulletRect x y c) px py = true -> covers (tankRect x y c) px py = true.
Proof.
  unfold covers, bulletRect, tankRect.
  change (CELL_SIZE / 4) with 3. change (CELL_SIZE / 2) with 7. unfold CELL_SIZE.
  rewrite !andb_true_iff, !Z.leb_le, !Z.ltb_lt. lia.
Qed.

Lemma covers_colour x y c c' px py :
  covers (tankRect x y c) px py = covers (tankRect x y c') px py.
Proof. reflexivity. Qed.

Lemma maze_free x y px py c :
  cell y x = Some 0 -> covers (tankRect x y c) px py = true -> maze px py = BLACK.
Proof.
  intros Hc Hp. rewrite covers_tankRect in Hp.
  apply andb_true_iff in Hp as [Hx Hy].
  apply bool_decide_eq_true in Hx, Hy. unfold maze. rewrite Hx, Hy, Hc.
  reflexivity.
Qed.

Lemma wallOps_cells :
  wallOps = (fun c => tankRect c.1 c.2 WHITE) <$> wall_cells.
Proof. vm_compute. reflexivity. Qed.

Lemma pixel_white cells px py : forall c0,
  fold_left (fun c o => if covers o px py then colour o else c)
            ((fun c => tankRect c.1 c.2 WHITE) <$> cells) c0 =
  if existsb (fun c => bool_decide (px / CELL_SIZE = c.1) &&
                       bool_decide (py / CELL_SIZE = c.2)) cells
  then WHITE else c0.
Proof.
  induction cells as [|[x y] cells IH]; intros c0; [reflexivity|].
  rewrite fmap_cons. cbn [fold_left existsb fst snd].
  rewrite IH, covers_tankRect.
  destruct (_ && _); cbn [orb]; [|reflexivity].
  destruct (existsb _ _); reflexivity.
Qed.

Lemma wall_cells_spec qx qy :
  existsb (fun c => bool_decide (qx = c.1) && bool_decide (qy = c.2)) wall_cells
  = bool_decide (cell qy qx = Some 1).
Proof.
  destruct (decide (0 <= qx < 8 /\ 0 <= qy < 8)) as [[Hx Hy]|Hout].
  - assert (Ex : qx = 0 \/ qx = 1 \/ qx = 2 \/ qx = 3 \/ qx = 4 \/
                 qx = 5 \/ qx = 6 \/ qx = 7) by lia.
    assert (Ey : qy = 0 \/ qy = 1 \/ qy = 2 \/ qy = 3 \/ qy = 4 \/
                 qy = 5 \/ qy = 6 \/ qy = 7) by lia.
    destruct Ex as [->|[->|[->|[->|[->|[->|[->| ->]]]]]]];
      destruct Ey as [->|[->|[->|[->|[->|[->|[->| ->]]]]]]];
      vm_compute; reflexivity.
  - transitivity false.
    + apply not_true_is_false. rewrite existsb_exists.
      intros ([x y] & Hin & Hc). apply andb_true_iff in Hc as [H1 H2].
      apply bool_decide_eq_true in H1, H2. simpl in H1, H2. subst x y.
      apply Hout. clear Hout. revert Hin. unfold wall_cells.
      rewrite <- list_elem_of_In, list_elem_of_filter.
      intros [_ Hin]. apply list_elem_of_bind in Hin as (y & Hin & Hy).
      apply list_elem_of_bind in Hin as (x & Hin & Hx).
      apply list_elem_of_singleton in Hin. injection Hin as -> ->.
      apply list_elem_of_fmap in Hx as (nx & -> & Hx).
      apply list_elem_of_fmap in Hy as (ny & -> & Hy).
      apply elem_of_seq in Hx, Hy. lia.
    + symmetry. apply bool_decide_eq_false. unfold cell.
      destruct (Z.leb_spec 0 qy), (Z.leb_spec 0 qx); simpl; try discriminate.
      destruct (gameMap !! Z.to_nat qy) as [row|] eqn:Er; simpl; [|discriminate].
      destruct (row !! Z.to_nat qx) as [v|] eqn:Ev; [|discriminate].
      exfalso. apply Hout.
      apply lookup_lt_Some in Er as Lr.
      assert (Lv : (Z.to_nat qx < 8)%nat).
      { apply lookup_lt_Some in Ev.
        assert (Hlen : Forall (fun r : list Z => length r = 8%nat) gameMap)
          by (repeat constructor).
        rewrite Forall_forall in Hlen.
        rewrite <- (Hlen row); [exact Ev|].
        eapply list_elem_of_lookup_2. exact Er. }
      change (length gameMap) with 8%nat in Lr. lia.
Qed.

Lemma pixel_wallOps px py : pixel wallOps px py = maze px py.
Proof.
  unfold pixel. rewrite wallOps_cells, pixel_white, wall_cells_spec.
  reflexivity.
Qed.

Lemma drawGame_synced s : synced (drawGame s).
Proof.
  unfold synced, drawGame; cbn.
  do 3 (split; [reflexivity|]). intros ->. split; reflexivity.
Qed.

Lemma drawGame_shown s :
  tank_ok s -> bullet_ok s -> prev_ok s -> kept s -> shown (drawGame s).
Proof.
  intros Ht Hb [Hpt Hpb] Hk px py.
  unfold drawGame; cbn [screen]. rewrite pixel_app, !fold_left_app.
  unfold scene; cbn [bulletActive bulletX bulletY tankX tankY].
  specialize (Hk px py).
  set (moved := negb (prevTankX s =? tankX s) || negb (prevTankY s =? tankY s)).
  assert (Hm : moved = false -> prevTankX s = tankX s /\ prevTankY s = tankY s).
  { subst moved. intros E. apply orb_false_iff in E as [E1 E2].
    apply negb_false_iff in E1, E2. lia. }
  assert (Base :
    fold_left (fun c o => if covers o px py then colour o else c)
      (if prevBulletActive s
       then [bulletRect (prevBulletX s) (prevBulletY s) BLACK] else [])
      (fold_left (fun c o => if covers o px py then colour o else c)
         (if moved then [tankRect (prevTankX s) (prevTankY s) BLACK] else [])
         (pixel (screen s) px py)) = maze px py \/
    covers (tankRect (tankX s) (tankY s) GREEN) px py = true).
  { destruct (prevBulletActive s) eqn:PA; cbn [fold_left].
    - destruct (covers (bulletRect (prevBulletX s) (prevBulletY s) BLACK) px py) eqn:CE.
      + left. symmetry. eapply maze_free; [exact (Hpb eq_refl)|].
        apply covers_bulletRect, CE.
      + destruct moved eqn:M; cbn [fold_left].
        * destruct (covers (tankRect (prevTankX s) (prevTankY s) BLACK) px py) eqn:CP.
          -- left. symmetry. eapply maze_free; [exact Hpt|exact CP].
          -- left. apply Hk; reflexivity.
        * destruct (Hm eq_refl) as [Ex Ey].
          destruct (covers (tankRect (tankX s) (tankY s) GREEN) px py) eqn:CT;
            [right; reflexivity|].
          left. apply Hk; [rewrite Ex, Ey; exact CT|reflexivity].
    - destruct moved eqn:M; cbn [fold_left].
      + destruct (covers (tankRect (prevTankX s) (prevTankY s) BLACK) px py) eqn:CP.
        * left. symmetry. eapply maze_free; [exact Hpt|exact CP].
        * left. apply Hk; reflexivity.
      + destruct (Hm eq_refl) as [Ex Ey].
        destruct (covers (tankRect (tankX s) (tankY s) GREEN) px py) eqn:CT;
          [right; reflexivity|].
        left. apply Hk; [rewrite Ex, Ey; exact CT|reflexivity]. }
  cbn [fold_left].
  destruct (bulletActive s) eqn:A; cbn [fold_left andb].
  - destruct (covers (bulletRect (bulletX s) (bulletY s) RED) px py); [reflexivity|].
    destruct (covers (tankRect (tankX s) (tankY s) GREEN) px py) eqn:CT; [reflexivity|].
    destruct Base as [B|B]; [exact B|discriminate].
  - destruct (covers (tankRect (tankX s) (tankY s) GREEN) px py) eqn:CT; [reflexivity|].
    destruct Base as [B|B]; [exact B|discriminate].
Qed.

(** A state that shows its scene and caches what it drew keeps the
    maze around it. *)
Lemma shown_kept s :
  tank_ok s -> bullet_ok s -> synced s -> shown s -> kept s /\ prev_ok s.
Proof.
  intros (_ & _ & Ht) Hb (Ex & Ey & Ea & Eb) Hs. split.
  - intros px py CT CB. rewrite Hs. unfold scene.
    rewrite Ex, Ey in CT. rewrite Ea in CB.
    destruct (bulletActive s) eqn:A; cbn [andb] in CB |- *.
    + destruct (Eb eq_refl) as [Bx By_]. rewrite Bx, By_ in CB.
      change (covers (bulletRect (bulletX s) (bulletY s) RED) px py)
        with (covers (bulletRect (bulletX s) (bulletY s) BLACK) px py).
      rewrite CB.
      change (covers (tankRect (tankX s) (tankY s) GREEN) px py)
        with (covers (tankRect (tankX s) (tankY s) BLACK) px py).
      rewrite CT. reflexivity.
    + change (covers (tankRect (tankX s) (tankY s) GREEN) px py)
        with (covers (tankRect (tankX s) (tankY s) BLACK) px py).
      rewrite CT. reflexivity.
  - split; [rewrite Ex, Ey; exact Ht|].
    rewrite Ea. intros A. destruct (Eb A) as [-> ->]. exact (proj2 (Hb A)).
Qed.

Lemma same_view_kept s s' : same_view s s' -> kept s /\ prev_ok s -> kept s' /\ prev_ok s'.
Proof.
  unfold kept, prev_ok. intros (-> & -> & -> & -> & -> & ->). tauto.
Qed.

Lemma same_view_read i s : same_view s (readJoystickAndFire i s).
Proof.
  unfold readJoystickAndFire.
  destruct (request s (joyY i) (joyX i)) as [[[nx ny] d]|]; simpl;
    [destruct (passable nx ny)|]; repeat split.
Qed.

Lemma same_view_moveBullet s : same_view s (moveBullet s).
Proof. unfold moveBullet. destruct (negb (bulletActive s)); repeat split. Qed.

Lemma pass_shown i s :
  flight_ok s -> kept s /\ prev_ok s ->
  shown (fst (pass i s)) /\ synced (fst (pass i s)).
Proof.
  intros Hs Hk. unfold pass. cbn [fst].
  set (s1 := if _ >? TANK_MOVE_DELAY then _ else s).
  assert (H1 : flight_ok s1 /\ kept s1 /\ prev_ok s1).
  { subst s1. destruct (_ >? _); [|split; assumption].
    split; [exact (read_keeps_flight_ok i s Hs)|].
    exact (same_view_kept _ _ (same_view_read i s) Hk). }
  clearbody s1. destruct H1 as [F1 K1].
  set (s2 := if _ >? BULLET_MOVE_DELAY then _ else s1).
  assert (H2 : flight_ok s2 /\ kept s2 /\ prev_ok s2).
  { subst s2. destruct (_ >? _); [|split; assumption].
    split; [exact (moveBullet_keeps_flight_ok s1 F1)|].
    exact (same_view_kept _ _ (same_view_moveBullet s1) K1). }
  clearbody s2. destruct H2 as ((T2 & B2 & _) & K2 & P2).
  split; [apply drawGame_shown; assumption|apply drawGame_synced].
Qed.

Lemma init_kept t0 : kept (init t0) /\ prev_ok (init t0).
Proof.
  split; [|split; [reflexivity|discriminate]].
  intros px py _ _. apply pixel_wallOps.
Qed.

Lemma run_shown ins : forall s,
  flight_ok s -> shown s -> synced s -> shown (run ins s).
Proof.
  induction ins as [|i ins IH]; intros s Hf Hs Hy; [exact Hs|].
  rewrite run_unfold.
  destruct Hf as (Ht & Hb & Hd) .
  pose proof (shown_kept s Ht Hb Hy Hs) as Hk.
  assert (Hf : flight_ok s) by (split; [|split]; assumption).
  destruct (pass_shown i s Hf Hk) as [S1 Y1].
  pose proof (pass_keeps_flight_ok i s Hf) as F1.
  destruct (snd (pass i s)); [exact S1|exact (IH _ F1 S1 Y1)].
Qed.

(** X1.  After every pass of the loop of [game1] the screen shows the scene
    of the state, pixel for pixel: the maze, the tank on its cell, and
    the bullet when one is in flight. *)
Theorem screen_shows_scene t0 i ins px py :
  pixel (screen (run (i :: ins) (init t0))) px py
  = scene (run (i :: ins) (init t0)) px py.
Proof.
  rewrite run_unfold.
  destruct (pass_shown i (init t0) (init_flight_ok t0) (init_kept t0)) as [S1 Y1].
  pose proof (pass_keeps_flight_ok i _ (init_flight_ok t0)) as F1.
  destruct (snd (pass i (init t0))); [apply S1|].
  apply run_shown; assumption.
Qed.

Lemma moveBullet_idle s : bulletActive s = false -> moveBullet s = s.
Proof. intros A. unfold moveBullet. rewrite A. reflexivity. Qed.

(** X3.  A bullet does not fly forever: from any state a session reaches,
    six moves of the bullet take it into a wall. *)
Theorem bullet_flight_ends t0 ins :
  bulletActive (Nat.iter 6 moveBullet (run ins (init t0))) = false.
Proof.
  destruct (run_keeps_flight_ok ins _ (init_flight_ok t0)) as (_ & Hb & _ & Hd).
  generalize dependent (run ins (init t0)). intros s Hb Hd.
  destruct (bulletActive s) eqn:A.
  - destruct (Hb A) as [Hm Hc]. apply in_map_spec in Hm.
    unfold dir_ok, MAP_SIZE in *. clear Hb.
    destruct s as [tx ty td ptx pty ba bx by_ bd pba pbx pby l1 l2 l3 sc].
    cbn in A, Hm, Hc, Hd. subst ba.
    assert (Ex : bx = 0 \/ bx = 1 \/ bx = 2 \/ bx = 3 \/ bx = 4 \/
                 bx = 5 \/ bx = 6 \/ bx = 7) by lia.
    assert (Ey : by_ = 0 \/ by_ = 1 \/ by_ = 2 \/ by_ = 3 \/ by_ = 4 \/
                 by_ = 5 \/ by_ = 6 \/ by_ = 7) by lia.
    assert (Ed : bd = 0 \/ bd = 1 \/ bd = 2 \/ bd = 3) by lia.
    clear Hm Hd.
    destruct Ex as [->|[->|[->|[->|[->|[->|[->| ->]]]]]]];
      destruct Ey as [->|[->|[->|[->|[->|[->|[->| ->]]]]]]];
      first [discriminate Hc
            | destruct Ed as [->|[->|[->| ->]]]; vm_compute; reflexivity].
  - unfold Nat.iter. cbn [nat_rect]. rewrite !(moveBullet_idle s A). exact A.
Qed.

End Game1ScreenFacts.

(** ** The drawing helpers of [game2] *)

Module RenderFacts.
Import Game2 Render.

Lemma int_small z : is_int z -> int z = z.
Proof.
  unfold is_int, int, to_long, u32. intros Hz. cbv zeta.
  destruct (Z.ltb_spec z 0).
  - replace (z mod 2 ^ 32) with (z + 2 ^ 32)
      by (apply Z.mod_unique with (q := -1); lia).
    destruct (Z.ltb_spec (z + 2 ^ 32) (2 ^ 31)); lia.
  - rewrite Z.mod_small by lia.
    destruct (Z.ltb_spec z (2 ^ 31)); lia.
Qed.

Section Facts.

Context `{Console}.

Ltac int_tac :=
  repeat match goal with
         | |- context [int ?z] => rewrite (int_small z) by (unfold is_int; lia)
         | |- context [?a >=? ?b] => destruct (Z.geb_spec a b); cbn [orb]
         | |- context [?a >? ?b] => destruct (Z.gtb_spec a b); cbn [orb]
         | |- context [?a <=? ?b] => destruct (Z.leb_spec a b); cbn [orb]
         | |- context [?a <? ?b] => destruct (Z.ltb_spec a b); cbn [orb]
         end.

Lemma eraseRect_spec x y w h :
  screen_ok -> in_int x y w h ->
  match eraseRect x y w h with
  | Some f =>
      fx f = Z.max x 0 /\ fy f = Z.max y 0 /\
      fx f + fw f = Z.min (x + w) scrW /\ fy f + fh f = Z.min (y + h) scrH /\
      0 < fw f /\ 0 < fh f
  | None => ~ (Z.max x 0 < Z.min (x + w) scrW /\ Z.max y 0 < Z.min (y + h) scrH)
  end.
Proof.
  unfold screen_ok, in_int, is_int. intros [Sw Sh] (Ix & Iy & Iw & Ih & Ixw & Iyh).
  unfold eraseRect.
  destruct (Z.leb_spec w 0); cbn [orb]; [lia|].
  destruct (Z.leb_spec h 0); cbn [orb]; [lia|].
  destruct (Z.ltb_spec x 0), (Z.ltb_spec y 0); int_tac; cbn; lia.
Qed.

Lemma eraseRect_covers x y w h px py :
  screen_ok -> in_int x y w h ->
  (x <= px < x + w /\ y <= py < y + h) -> on_screen px py ->
  exists f, eraseRect x y w h = Some f /\ covers f px py.
Proof.
  intros So Hi. pose proof (eraseRect_spec x y w h So Hi) as S.
  unfold covers, on_screen.
  intros Hc Hs. destruct (eraseRect x y w h) as [f|].
  - exists f. split; [reflexivity|lia].
  - exfalso. apply S. lia.
Qed.

(** X5.  [eraseRect] paints exactly the pixels of the requested rectangle
    that are on the screen, for every rectangle whose corner, size,
    right edge and bottom edge are [int]s. *)
Theorem eraseRect_clips x y w h px py :
  screen_ok -> in_int x y w h ->
  (exists f, eraseRect x y w h = Some f /\ covers f px py) <->
  (x <= px < x + w /\ y <= py < y + h) /\ on_screen px py.
Proof.
  intros So Hi.
  split; [|intros [Hc Hs]; apply eraseRect_covers; assumption].
  pose proof (eraseRect_spec x y w h So Hi) as S. unfold covers, on_screen.
  destruct (eraseRect x y w h) as [f|]; intros (f' & [= <-] & Hc). lia.
Qed.

(** X6.  When the loop of a slot erases the slot's last drawing, the
    erase wipes every pixel of the screen that the sprite drawn at the
    cached position painted.  A bullet drawn with [y] in -3 .. -1 is
    not erased by its loop, though the sprite reaches the top rows of
    the screen. *)
Theorem wipe_covers_sprite s moved x y :
  screen_ok -> near x y ->
  (wiped s moved y = true ->
   forall f px py,
     f ∈ sprite s x y -> covers f px py -> on_screen px py ->
     exists r, wipe s moved x y = Some r /\ covers r px py) /\
  ((exists b, s = SPlayerBullet b \/ s = SEnemyBullet b) ->
   -3 <= y < 0 -> on_screen x 0 ->
   wipe s moved x y = None /\
   exists f, f ∈ sprite s x y /\ covers f x 0).
Proof.
  intros So [Hx Hy]. split.
  - intros Hg f px py Hf Hc Hs.
    assert (Hin : match s with
                  | SPlayer => (x <= px < x + CAR_W /\ y - 6 <= py < y - 6 + (CAR_H + 6))
                  | SEnemy _ => (x <= px < x + CAR_W /\ y <= py < y + (CAR_H + 4))
                  | _ => (x - 3 <= px < x - 3 + 6 /\ y - 6 <= py < y - 6 + 12)
                  end).
    { unfold covers in Hc.
      destruct s; cbn [sprite] in Hf;
        unfold drawTank, drawEnemyRect, drawBullet in Hf;
        change (CAR_W / 2) with 14 in Hf; unfold CAR_W, CAR_H in *;
        rewrite ?int_small in Hf by (unfold is_int; lia);
        set_unfold in Hf; destruct_or!; try contradiction; subst f; cbn in Hc; lia. }
    unfold wipe. rewrite Hg.
    destruct s; rewrite ?int_small by (unfold is_int; lia);
      (apply eraseRect_covers;
       [exact So|unfold in_int, is_int, CAR_W, CAR_H; lia|exact Hin|exact Hs]).
  - intros Hb Hy3 Hs.
    assert (Hg : wiped s moved y = false).
    { destruct Hb as (b & [-> | ->]); cbn; rewrite Z.geb_leb; apply Z.leb_gt; lia. }
    unfold wipe. rewrite Hg. split; [reflexivity|].
    destruct Hb as (b & [-> | ->]); cbn [sprite]; unfold drawBullet;
      rewrite !int_small by (unfold is_int; lia);
      (eexists; split; [left|]; unfold covers; cbn; lia).
Qed.

(** X7.  On a screen at least as wide as the two margins, the three
    fills that open [drawBackground] cover every pixel of the screen:
    the pixels of the road with the road colour, the others with the
    grey of the margins. *)
Theorem background_covers_screen px py :
  2 * ROAD_MARGIN <= scrW -> on_screen px py ->
  exists f, f ∈ take 3 drawBackground /\ covers f px py /\
    fc f = (if (roadX <=? px) && (px <? roadX + roadW)
            then ST77XX_ROAD else DARKGREY) /\
    forall f', f' ∈ take 3 drawBackground -> covers f' px py -> f' = f.
Proof.
  unfold on_screen, drawBackground, roadX, roadW, ROAD_MARGIN, covers.
  intros Hw [Hx Hy]. cbn [take app].
  destruct (Z.leb_spec 6 px); destruct (Z.ltb_spec px (6 + (scrW - 2 * 6)));
    cbn [andb].
  - eexists. split; [right; right; left|]. cbn. repeat split; try lia.
    intros f' Hf' Hc. set_unfold in Hf'. destruct_or!; try contradiction;
      subst f'; cbn in Hc; try reflexivity; lia.
  - eexists. split; [right; left|]. cbn. repeat split; try lia.
    intros f' Hf' Hc. set_unfold in Hf'. destruct_or!; try contradiction;
      subst f'; cbn in Hc; try reflexivity; lia.
  - eexists. split; [left|]. cbn. repeat split; try lia.
    intros f' Hf' Hc. set_unfold in Hf'. destruct_or!; try contradiction;
      subst f'; cbn in Hc; try reflexivity; lia.
  - lia.
Qed.

End Facts.

Lemma eraseRect_clips_witness :
  @screen_ok console0 /\ in_int (-3) 150 6 12 /\
  exists f, @eraseRect console0 (-3) 150 6 12 = Some f /\ covers f 2 159.
Proof.
  assert (So : @screen_ok console0) by (unfold screen_ok, is_int; cbn; lia).
  assert (Hi : in_int (-3) 150 6 12) by (unfold in_int, is_int; lia).
  split; [exact So|]. split; [exact Hi|].
  apply (proj2 (@eraseRect_clips console0 (-3) 150 6 12 2 159 So Hi)).
  unfold on_screen. cbn. lia.
Defined.

Lemma wipe_covers_sprite_witness :
  @screen_ok console0 /\ near 47 7 /\
  (exists r, @wipe console0 (SEnemyBullet 0) false 47 7 = Some r /\ covers r 46 3) /\
  @wipe console0 (SEnemyBullet 0) false 47 (-1) = None /\
  exists f, f ∈ sprite (SEnemyBullet 0) 47 (-1) /\ covers f 47 0.
Proof.
  assert (So : @screen_ok console0) by (unfold screen_ok, is_int; cbn; lia).
  assert (N1 : near 47 7) by (unfold near; lia).
  assert (N2 : near 47 (-1)) by (unfold near; lia).
  split; [exact So|]. split; [exact N1|]. split.
  - apply (proj1 (@wipe_covers_sprite console0 (SEnemyBullet 0) false 47 7 So N1)
             eq_refl {| fx := 45; fy := 3; fw := 4; fh := 8; fc := CYAN |}).
    + left.
    + unfold covers. cbn. lia.
    + unfold on_screen. cbn. lia.
  - apply (proj2 (@wipe_covers_sprite console0 (SEnemyBullet 0) false 47 (-1) So N2)).
    + exists 0%nat. right. reflexivity.
    + lia.
    + unfold on_screen. cbn. lia.
Defined.

Lemma background_covers_screen_witness :
  exists f, f ∈ take 3 (@drawBackground console0) /\ covers f 3 80 /\
            fc f = DARKGREY.
Proof.
  destruct (@background_covers_screen console0 3 80) as (f & H1 & H2 & H3 & _).
  - cbn. unfold ROAD_MARGIN. lia.
  - unfold on_screen. cbn. lia.
  - exists f. split; [exact H1|]. split; [exact H2|exact H3].
Defined.

End RenderFacts.

(** ** Calibration, shuffle, cache and flag of [game2] *)

Module Game2PlayFacts.
Import Game2 Game2Facts Game2Play.

(** *** Calibration *)

Lemma sweep_spec l : forall mn mx,
  let r := fold_left sweep_step l (mn, mx) in
  r.1 <= mn /\ mx <= r.2 /\
  Forall (fun v => r.1 <= v <= r.2) l /\
  (r.1 = mn \/ r.1 ∈ l) /\ (r.2 = mx \/ r.2 ∈ l).
Proof.
  induction l as [|v l IH]; intros mn mx; cbn [fold_left].
  - cbn. repeat split; auto; lia.
  - cbv zeta in *. unfold sweep_step at 2.
    specialize (IH (if v <? mn then v else mn) (if v >? mx then v else mx)).
    destruct (fold_left sweep_step l _) as [mn' mx']. cbn [fst snd] in *.
    destruct IH as (H1 & H2 & H3 & H4 & H5).
    destruct (Z.ltb_spec v mn), (Z.gtb_spec v mx);
      (split; [lia|]); (split; [lia|]);
      (split; [constructor; [lia|exact H3]|]);
      split;
      try (destruct H4 as [-> | H4]; [|right; right; exact H4]);
      try (destruct H5 as [-> | H5]; [|right; right; exact H5]);
      first [left; reflexivity | right; left; reflexivity].
Qed.

(** X13.  The calibration sweep returns the smallest and the largest of its
    samples, so every sample lies in the range; the centre is the
    sample read before the sweep, whether or not it lies in the
    range.  A sweep without samples leaves the inverted range
    4095..0. *)
Theorem calibrate_range c0 sweep :
  sweep <> [] -> Forall adc sweep ->
  let c := calibrate c0 sweep in
  minVal c ∈ sweep /\ maxVal c ∈ sweep /\
  Forall (fun v => minVal c <= v <= maxVal c) sweep /\
  center c = c0.
Proof.
  intros Hne Hadc. unfold calibrate.
  pose proof (sweep_spec sweep 4095 0) as S. cbv zeta in S.
  destruct (fold_left sweep_step sweep (4095, 0)) as [mn mx]. cbn [fst snd] in S.
  destruct S as (H1 & H2 & H3 & H4 & H5). cbn.
  destruct sweep as [|v sweep]; [congruence|].
  pose proof (Forall_inv Hadc) as Hv. pose proof (Forall_inv H3) as Hb.
  unfold adc in Hv. cbn in Hb.
  assert (E : forall z, z = v -> z ∈ v :: sweep) by (intros z ->; left).
  split; [|split; [|split; [exact H3|reflexivity]]].
  - destruct H4 as [-> | H4]; [apply E; lia|exact H4].
  - destruct H5 as [-> | H5]; [apply E; lia|exact H5].
Qed.

Lemma calibrate_range_witness :
  Forall adc [2000; 1200; 310; 2900; 3770] /\
  minVal (calibrate 2010 [2000; 1200; 310; 2900; 3770]) ∈ [2000; 1200; 310; 2900; 3770] /\
  center (calibrate 2010 [2000; 1200; 310; 2900; 3770]) = 2010.
Proof.
  assert (A : Forall adc [2000; 1200; 310; 2900; 3770])
    by (repeat constructor; unfold adc; lia).
  split; [exact A|].
  destruct (calibrate_range 2010 [2000; 1200; 310; 2900; 3770]
              ltac:(discriminate) A) as (H1 & _ & _ & H4).
  split; [exact H1|exact H4].
Defined.

(** *** The wait after the banner *)

(** X14.  The game restarts exactly when some poll inside the 5000 ms finds
    the fire button down and every earlier poll was inside the 5000 ms
    with both buttons up; in every other case the wait leaves: first
    on the back button, on a poll after 5000 ms, or when the polls
    end. *)
Theorem gameOverWait_restarts waitStart polls :
  gameOverWait waitStart polls = Restart <->
  exists k t back,
    polls !! k = Some (t, true, back) /\ u32 (t - waitStart) < 5000 /\
    Forall (waiting waitStart) (take k polls).
Proof.
  induction polls as [|[[t fire] back] polls IH]; cbn [gameOverWait].
  - split; [discriminate|]. intros (k & t & b & Hk & _). destruct k; discriminate.
  - destruct (Z.ltb_spec (u32 (t - waitStart)) 5000) as [Hlt|Hge].
    + destruct fire.
      * split; [intros _|reflexivity].
        exists 0%nat, t, back. repeat split; [exact Hlt|constructor].
      * destruct back.
        -- split; [discriminate|].
           intros ([|k] & t' & b' & Hk & Ht & Hw); [discriminate|].
           cbn in Hw. apply Forall_inv in Hw. cbn in Hw. destruct Hw as (_ & _ & [=]).
        -- rewrite IH. split.
           ++ intros (k & t' & b' & Hk & Ht & Hw).
              exists (S k), t', b'. repeat split; try assumption.
              cbn. constructor; [cbn; auto|exact Hw].
           ++ intros ([|k] & t' & b' & Hk & Ht & Hw); [discriminate|].
              exists k, t', b'. repeat split; try assumption.
              cbn in Hw. exact (Forall_inv_tail Hw).
    + split; [discriminate|].
      intros ([|k] & t' & b' & Hk & Ht & Hw).
      * injection Hk as -> _ _. lia.
      * cbn in Hw. apply Forall_inv in Hw. cbn in Hw. lia.
Qed.

Section Session.
Context `{Console}.

(** *** The lane shuffle *)

Lemma shuffle_swaps_range i : forall g,
  Forall (fun p => (p.2 <= p.1 <= i)%nat /\ (0 < p.1)%nat) (shuffle_swaps i g).
Proof.
  induction i as [|i IH]; intros g; [constructor|].
  change (shuffle_swaps (S i) g)
    with ((S i, Z.to_nat (random (draws g) 0 (Z.of_nat (S i) + 1)))
          :: shuffle_swaps i (set_draws (S (draws g)) g)).
  constructor.
  - cbn [fst snd].
    pose proof (random_range (draws g) 0 (Z.of_nat (S i) + 1) ltac:(lia)). lia.
  - eapply Forall_impl; [apply IH|]. cbn. intros [a b]. cbn. lia.
Qed.

Lemma shuffle_by_swaps i : forall a g,
  fst (shuffle i a g) = fold_left (fun a p => swap p.1 p.2 a) (shuffle_swaps i g) a.
Proof.
  induction i as [|i IH]; intros a g; [reflexivity|].
  change (shuffle (S i) a g)
    with (shuffle i (swap (S i) (Z.to_nat (random (draws g) 0 (Z.of_nat (S i) + 1))) a)
                  (set_draws (S (draws g)) g)).
  change (shuffle_swaps (S i) g)
    with ((S i, Z.to_nat (random (draws g) 0 (Z.of_nat (S i) + 1)))
          :: shuffle_swaps i (set_draws (S (draws g)) g)).
  rewrite IH. reflexivity.
Qed.

(** X12.  The shuffle loop over an array is a run of swaps of two elements
    of the array, whatever the random source returns (no index leaves
    the array), and it leaves a permutation of the array. *)
Theorem shuffle_permutes a g :
  fst (shuffle (length a - 1) a g)
  = fold_left (fun a p => swap p.1 p.2 a) (shuffle_swaps (length a - 1) g) a /\
  Forall (fun p => (p.1 < length a)%nat /\ (p.2 < length a)%nat)
         (shuffle_swaps (length a - 1) g) /\
  fst (shuffle (length a - 1) a g) ≡ₚ a.
Proof.
  split; [apply shuffle_by_swaps|]. split; [|apply shuffle_perm].
  eapply Forall_impl; [apply shuffle_swaps_range|].
  intros [i j]. cbn. lia.
Qed.

(** *** The render cache *)

(** X4.  After every pass of the loop of every session, the cached
    previous position of each slot (the player, each enemy, each
    player bullet and each enemy bullet) is the position at which the
    slot was last drawn, if it was drawn at all. *)
Theorem cache_holds_last_draw t0 clock ins s :
  cached (fst (run ins (init t0 clock))) s.
Proof.
  destruct (init_cached t0 clock) as [Hz Hc].
  exact (run_cached ins _ Hz Hc s).
Qed.

(** *** The game-over flag *)

Lemma frame_continue i g :
  isGameOver g = false -> snd (frame i g) = Continue ->
  isGameOver (fst (frame i g)) = false.
Proof.
  intros Hg. unfold frame.
  destruct (_ <? FRAME_MS); [intros _; exact Hg|].
  cbv zeta. generalize (staged i g). intros g3.
  destruct (btnBack i); [discriminate|].
  destruct (isGameOver (emit _ g3)) eqn:G; [discriminate|].
  intros _. exact G.
Qed.

Lemma run_continue ins : forall g0 g,
  isGameOver g0 = false -> run ins g0 = (g, Continue) -> isGameOver g = false.
Proof.
  induction ins as [|i ins IH]; intros g0 g Hg Hr.
  - injection Hr as <-. exact Hg.
  - rewrite run_cons in Hr.
    pose proof (frame_continue i g0 Hg) as Hf.
    destruct (frame i g0) as [g1 []]; try discriminate.
    exact (IH g1 g (Hf eq_refl) Hr).
Qed.

Lemma init_isGameOver t0 clock : isGameOver (init t0 clock) = false.
Proof.
  unfold init.
  destruct (spawnEnemiesWave_frame F32.one clock (start t0)) as (en & dr & lg & ->).
  reflexivity.
Qed.

(** X15.  The game-over flag is never set when a pass of the loop begins:
    the pass that sets it ends the session.  So the flag is clear
    wherever the fire condition of the player reads it, after the
    joystick and the move of the player, and its test there never
    fails. *)
Theorem flag_is_clear_while_running t0 clock ins g :
  run ins (init t0 clock) = (g, Continue) ->
  isGameOver g = false /\
  forall i,
    isGameOver (move_player (read_joystick (raw i) (set_lastFrame (now i) g)))
    = false.
Proof.
  intros Hr.
  pose proof (run_continue ins _ g (init_isGameOver t0 clock) Hr) as Hg.
  split; [exact Hg|].
  intros i. unfold move_player. cbv zeta. destruct (negb _); exact Hg.
Qed.

End Session.

Lemma flag_is_clear_while_running_witness :
  snd (@run console0 [first_input] (@init console0 1000 1000)) = Continue /\
  isGameOver (fst (@run console0 [first_input] (@init console0 1000 1000))) = false.
Proof.
  assert (C : snd (@run console0 [first_input] (@init console0 1000 1000)) = Continue)
    by (vm_compute; reflexivity).
  split; [exact C|].
  assert (E : @run console0 [first_input] (@init console0 1000 1000)
              = (fst (@run console0 [first_input] (@init console0 1000 1000)), Continue))
    by (rewrite <- C; apply surjective_pairing).
  exact (proj1 (@flag_is_clear_while_running console0 1000 1000 [first_input] _ E)).
Defined.

End Game2PlayFacts.

(** ** The player on the road *)

Module Game2RoadFacts.
Import Game2 Game2Facts Game2Road.

Lemma gtb_ltb (a b : float) : F32.gtb a b = F32.ltb b a.
Proof. reflexivity. Qed.

Lemma leb_ltb (a b : float) : F32.leb a b = true -> F32.ltb b a = false.
Proof.
  unfold F32.leb, F32.ltb, SFleb, SFltb. rewrite (SFcompare_swap b a).
  destruct (SFcompare a b) as [[]|]; simpl; congruence.
Qed.

Lemma leb_refl (a : float) : F32.is_nan a = false -> F32.leb a a = true.
Proof.
  unfold F32.leb, SFleb. destruct a as [s|s| |s m e]; try discriminate; intros _;
    simpl; try (destruct s; reflexivity).
  rewrite Z.compare_refl.
  change (Pos.compare_cont Eq m m) with (Pos.compare m m).
  rewrite Pos.compare_refl. destruct s; reflexivity.
Qed.

Lemma leb_not_nan_l (a b : float) : F32.leb a b = true -> F32.is_nan a = false.
Proof. destruct a; try reflexivity. discriminate. Qed.

Lemma leb_not_nan_r (a b : float) : F32.leb a b = true -> F32.is_nan b = false.
Proof. destruct a, b; try reflexivity; discriminate. Qed.

Lemma not_nan_is_nan (f : float) : f <> S754_nan -> F32.is_nan f = false.
Proof. destruct f; try reflexivity. congruence. Qed.

Lemma binary_normalize_not_nan m e s :
  binary_normalize F32.prec F32.emax m e s <> S754_nan.
Proof.
  unfold binary_normalize. destruct m as [|p|p]; try discriminate;
    unfold binary_round; destruct (shl_align _ _ _);
    apply binary_round_aux_not_nan; lia.
Qed.

(** A sum is a NaN only for a NaN operand or for opposite infinities. *)
Lemma add_not_nan (a b : float) :
  F32.is_nan a = false -> F32.finite_or_zero b = true ->
  F32.is_nan (F32.add a b) = false.
Proof.
  unfold F32.add, SFadd.
  destruct a as [sa|sa| |sa ma ea], b as [sb|sb| |sb mb eb]; try discriminate;
    intros _ _; try reflexivity; try (destruct sa, sb; reflexivity).
  lazy beta iota zeta. apply not_nan_is_nan, binary_normalize_not_nan.
Qed.

Lemma add_not_nan_l (a b : float) :
  F32.finite_or_zero a = true -> F32.is_nan b = false ->
  F32.is_nan (F32.add a b) = false.
Proof.
  unfold F32.add, SFadd.
  destruct a as [sa|sa| |sa ma ea], b as [sb|sb| |sb mb eb]; try discriminate;
    intros _ _; try reflexivity; try (destruct sa, sb; reflexivity).
  lazy beta iota zeta. apply not_nan_is_nan, binary_normalize_not_nan.
Qed.

Lemma sub_not_nan (a b : float) :
  F32.is_nan a = false -> F32.finite_or_zero b = true ->
  F32.is_nan (F32.sub a b) = false.
Proof.
  unfold F32.sub, SFsub.
  destruct a as [sa|sa| |sa ma ea], b as [sb|sb| |sb mb eb]; try discriminate;
    intros _ _; try reflexivity; try (destruct sa, sb; reflexivity).
  lazy beta iota zeta. apply not_nan_is_nan, binary_normalize_not_nan.
Qed.

Lemma ltb_not_nan_r (a b : float) : F32.ltb a b = true -> F32.is_nan b = false.
Proof. destruct a, b; try reflexivity; discriminate. Qed.

Lemma ltb_not_nan_l (a b : float) : F32.ltb a b = true -> F32.is_nan a = false.
Proof. destruct a; try reflexivity; discriminate. Qed.

(** The velocity after a frame is no NaN when it was none before,
    whatever the target is. *)
Lemma approach_not_nan vel target :
  F32.is_nan vel = false -> F32.is_nan (approach vel target) = false.
Proof.
  intros Hv. unfold approach.
  assert (Ha : F32.finite_or_zero PLAYER_ACCEL = true) by (vm_compute; reflexivity).
  destruct (F32.ltb vel target) eqn:E1.
  - destruct (F32.gtb (F32.add vel PLAYER_ACCEL) target) eqn:E2.
    + exact (ltb_not_nan_r _ _ E1).
    + apply add_not_nan; assumption.
  - destruct (F32.gtb vel target) eqn:E2; [|exact Hv].
    destruct (F32.ltb (F32.sub vel PLAYER_ACCEL) target) eqn:E3.
    + exact (ltb_not_nan_r _ _ E3).
    + apply sub_not_nan; assumption.
Qed.

Lemma on_road_finite_check (lo hi x : float) :
  F32.finite_or_zero lo = true -> F32.finite_or_zero hi = true ->
  F32.leb lo x = true -> F32.leb x hi = true -> F32.finite_or_zero x = true.
Proof.
  destruct lo as [sl|sl| |sl ml el], hi as [sh|sh| |sh mh eh]; try discriminate;
    destruct x as [sx|[]| |sx mx ex]; try reflexivity; try discriminate;
    destruct sl, sh; discriminate.
Qed.

Section Session.
Context `{Console}.

Lemma road_check_screen :
  40 <= scrW <= 4095 ->
  F32.leb road_lo road_hi = true /\ F32.finite road_hi = true /\
  on_road (playerX (start 0)) = true /\ F32.finite (playerX (start 0)) = true.
Proof.
  intros Hw.
  assert (C : forallb (fun k => road_check (Z.of_nat k)) (seq 40 4056) = true)
    by (vm_compute; reflexivity).
  rewrite forallb_forall in C. specialize (C (Z.to_nat scrW)).
  rewrite <- list_elem_of_In, elem_of_seq, Z2Nat.id in C by lia.
  specialize (C ltac:(lia)). unfold road_check in C.
  apply andb_prop in C as [C C5]. apply andb_prop in C as [C C4].
  apply andb_prop in C as [C C3]. apply andb_prop in C as [C1 C2].
  unfold on_road, road_lo, road_hi, start, roadX, roadW. cbn [playerX].
  replace (scrW - 2 * ROAD_MARGIN - CAR_W) with (scrW - 2 * ROAD_MARGIN - CAR_W) by lia.
  rewrite C1, C2, C3, C4, C5. repeat split.
Qed.

Lemma clamp_player_on_road x :
  F32.leb road_lo road_hi = true -> F32.is_nan x = false ->
  on_road (clamp_player x) = true.
Proof.
  intros Hb Hx. unfold clamp_player, on_road.
  fold road_lo. fold road_hi. rewrite !gtb_ltb.
  pose proof (leb_not_nan_l _ _ Hb) as Nl. pose proof (leb_not_nan_r _ _ Hb) as Nh.
  destruct (F32.ltb x road_lo) eqn:E1.
  - rewrite (leb_ltb _ _ Hb). rewrite (leb_refl _ Nl), Hb. reflexivity.
  - destruct (F32.ltb road_hi x) eqn:E2.
    + rewrite Hb, (leb_refl _ Nh). reflexivity.
    + rewrite (not_ltb_leb x road_lo Hx Nl E1), (not_ltb_leb road_hi x Nh Hx E2).
      reflexivity.
Qed.

Lemma move_player_fields g :
  playerVel (move_player g)
  = approach (playerVel g) (F32.mul (lastN g) PLAYER_MAX_SPEED) /\
  playerX (move_player g)
  = clamp_player (F32.add (playerX g)
                    (approach (playerVel g) (F32.mul (lastN g) PLAYER_MAX_SPEED))).
Proof. unfold move_player. cbv zeta. destruct (negb _); split; reflexivity. Qed.

Lemma micro_player st g g' :
  micro st g g' ->
  g' = move_player g \/ (playerX g' = playerX g /\ playerVel g' = playerVel g).
Proof.
  destruct 1; try (right; split; reflexivity).
  - left. reflexivity.
  - right. unfold player_fire. repeat case_match; split; reflexivity.
  - right. unfold enemy_step, enemy_fire, draw. repeat case_match; split; reflexivity.
  - right. unfold player_bullet_step. repeat case_match; split; reflexivity.
  - right. unfold enemy_bullet_step. repeat case_match; split; reflexivity.
  - right. unfold collide_pair. repeat case_match; split; reflexivity.
  - right. destruct (collide_player_from_frame bs g) as (eb & lg & ov & ->).
    split; reflexivity.
  - right. unfold hud, score_tick. repeat case_match; split; reflexivity.
  - right. unfold new_wave. destruct (wave_due g); [|split; reflexivity].
    destruct (spawnEnemiesWave_frame d c g) as (en & dr & lg & ->).
    split; reflexivity.
Qed.

Lemma init_player t0 clock :
  playerX (init t0 clock) = playerX (start 0) /\
  playerVel (init t0 clock) = F32.zero /\ lastN (init t0 clock) = F32.zero.
Proof.
  unfold init.
  destruct (spawnEnemiesWave_frame F32.one clock (start t0)) as (en & dr & lg & ->).
  repeat split.
Qed.

Lemma reachable_steady g : 40 <= scrW <= 4095 -> reachable g -> steady g.
Proof.
  intros Hw. destruct (road_check_screen Hw) as (Hb & Hf & H0 & _).
  induction 1 as [t0 clock|st g g' _ [IH1 IH2] Hm].
  - destruct (init_player t0 clock) as (E1 & E2 & _). unfold steady.
    rewrite E1, E2. split; [exact H0|reflexivity].
  - unfold steady.
    destruct (micro_player st g g' Hm) as [-> | [-> ->]]; [|split; assumption].
    destruct (move_player_fields g) as [-> ->].
    pose proof (approach_not_nan (playerVel g)
                  (F32.mul (lastN g) PLAYER_MAX_SPEED) IH2) as Nv.
    split; [|exact Nv].
    apply clamp_player_on_road; [exact Hb|].
    apply add_not_nan_l; [|exact Nv].
    apply andb_prop in IH1 as [I1 I2].
    apply (on_road_finite_check road_lo road_hi); try assumption.
    + vm_compute. reflexivity.
    + destruct road_hi; try discriminate; reflexivity.
Qed.

(** X8.  On a screen 40 to 4095 pixels wide, the player's position is, in
    every state a session passes through, inside the bounds the loop
    clamps it to: not below [roadX] and not above
    [roadX + roadW - CAR_W], as the float comparisons of the loop see
    it; in particular it is never a NaN or an infinity, whatever the
    calibration and the samples of the axis are. *)
Theorem player_stays_on_road g :
  40 <= scrW <= 4095 -> reachable g ->
  on_road (playerX g) = true /\ F32.finite_or_zero (playerX g) = true.
Proof.
  intros Hw Hr. destruct (reachable_steady g Hw Hr) as [S1 _].
  split; [exact S1|].
  destruct (road_check_screen Hw) as (Hb & Hf & _).
  apply andb_prop in S1 as [I1 I2].
  apply (on_road_finite_check road_lo road_hi); try assumption.
  - vm_compute. reflexivity.
  - destruct road_hi; try discriminate; reflexivity.
Qed.

(** *** A calibration taken with the stick at rest *)

Lemma control_flat r :
  minVal calib = center calib -> maxVal calib = center calib ->
  control calib r = S754_nan.
Proof.
  intros Hmin Hmax.
  assert (Hle : minVal calib <= maxVal calib) by lia.
  apply control_nan_of_zero_divisor; [exact Hle|].
  apply norm_divisor_zero; [exact Hle|]. split; [exact Hmax|].
  pose proof (clamp_raw_range calib r Hle). lia.
Qed.

Lemma micro_drive st g g' :
  micro st g g' ->
  g' = move_player g \/ (exists r, g' = read_joystick r g) \/
  (playerX g' = playerX g /\ playerVel g' = playerVel g /\ lastN g' = lastN g).
Proof.
  destruct 1; try (right; right; repeat split; reflexivity).
  - right. left. exists r. reflexivity.
  - left. reflexivity.
  - right; right. unfold player_fire. repeat case_match; repeat split; reflexivity.
  - right; right. unfold enemy_step, enemy_fire, draw.
    repeat case_match; repeat split; reflexivity.
  - right; right. unfold player_bullet_step. repeat case_match; repeat split; reflexivity.
  - right; right. unfold enemy_bullet_step. repeat case_match; repeat split; reflexivity.
  - right; right. unfold collide_pair. repeat case_match; repeat split; reflexivity.
  - right; right. destruct (collide_player_from_frame bs g) as (eb & lg & ov & ->).
    repeat split; reflexivity.
  - right; right. unfold hud, score_tick. repeat case_match; repeat split; reflexivity.
  - right; right. unfold new_wave. destruct (wave_due g); [|repeat split; reflexivity].
    destruct (spawnEnemiesWave_frame d c g) as (en & dr & lg & ->).
    repeat split; reflexivity.
Qed.

Lemma move_player_parked g :
  40 <= scrW <= 4095 -> parked g -> parked (move_player g).
Proof.
  intros Hw (Hx & Hv & Hn).
  destruct (road_check_screen Hw) as (Hb & _ & H0 & Hf).
  destruct (move_player_fields g) as [Ev Ex].
  assert (Ea : approach (playerVel g) (F32.mul (lastN g) PLAYER_MAX_SPEED) = F32.zero).
  { rewrite Hv. destruct Hn as [-> | ->]; vm_compute; reflexivity. }
  rewrite Ea in Ev, Ex.
  unfold parked. rewrite Ev, Ex, Hx.
  assert (Em : lastN (move_player g) = lastN g)
    by (unfold move_player; cbv zeta; destruct (negb _); reflexivity).
  rewrite Em. split; [|split; [reflexivity|exact Hn]].
  assert (E0 : F32.add (playerX (start 0)) F32.zero = playerX (start 0))
    by (destruct (playerX (start 0)); try discriminate; reflexivity).
  rewrite E0. apply andb_prop in H0 as [H1 H2].
  unfold clamp_player. fold road_lo. fold road_hi. rewrite !gtb_ltb.
  rewrite (leb_ltb _ _ H1), (leb_ltb _ _ H2). reflexivity.
Qed.

Lemma reachable_parked g :
  40 <= scrW <= 4095 ->
  minVal calib = center calib -> maxVal calib = center calib ->
  reachable g -> parked g.
Proof.
  intros Hw Hmin Hmax.
  induction 1 as [t0 clock|st g g' _ IH Hm].
  - destruct (init_player t0 clock) as (E1 & E2 & E3).
    unfold parked. rewrite E1, E2, E3. auto.
  - destruct (micro_drive st g g' Hm) as [-> | [[r ->] | (E1 & E2 & E3)]].
    + apply move_player_parked; assumption.
    + destruct IH as (Hx & Hv & _). unfold parked, read_joystick.
      cbn [playerX playerVel lastN set_lastN].
      rewrite (control_flat r Hmin Hmax), smooth_nan_r. auto.
    + unfold parked. rewrite E1, E2, E3. exact IH.
Qed.

(** X9.  With a calibration taken while the stick was at rest (minimum,
    maximum and centre equal), the control value of every frame is a
    NaN, no comparison with the target speed succeeds, and the player
    never moves: in every state of every session its speed is zero
    and its position the starting position, whatever the axis
    reads. *)
Theorem rest_calibration_parks_player g :
  40 <= scrW <= 4095 ->
  minVal calib = center calib -> maxVal calib = center calib ->
  reachable g ->
  playerX g = playerX (start 0) /\ playerVel g = F32.zero.
Proof.
  intros Hw Hmin Hmax Hr.
  destruct (reachable_parked g Hw Hmin Hmax Hr) as (Hx & Hv & _).
  split; assumption.
Qed.

End Session.

Lemma player_stays_on_road_witness :
  40 <= @scrW console0 <= 4095 /\
  @on_road console0 (playerX (fst (@frame console0 first_input opening))) = true.
Proof.
  assert (W : 40 <= @scrW console0 <= 4095) by (cbn; lia).
  split; [exact W|].
  exact (proj1 (@player_stays_on_road console0 _ W
                  (frame_reachable first_input opening (reachable_init 1000 1000)))).
Defined.

Lemma rest_calibration_parks_player_witness :
  40 <= @scrW console_rest <= 4095 /\
  playerX (fst (@frame console_rest pushed_right (@init console_rest 1000 1000)))
  = playerX (@start console_rest 0).
Proof.
  assert (W : 40 <= @scrW console_rest <= 4095) by (cbn; lia).
  split; [exact W|].
  exact (proj1 (@rest_calibration_parks_player console_rest _ W eq_refl eq_refl
                  (@frame_reachable console_rest pushed_right _
                     (@reachable_init console_rest 1000 1000)))).
Defined.

End Game2RoadFacts.

(** ** Enemies and bullets on the field *)

Module Game2FieldFacts.
Import Game2 Game2Facts Game2Field.

Section Session.
Context `{Console}.

Lemma field_check_screen :
  22 <= scrH <= 4095 ->
  (forall k, (k < MAX_ENEMIES)%nat ->
     F32.gtb (F32.of_int (- (Z.of_nat k * (CAR_H + 8) + 8))) (F32.of_int scrH)
     = false) /\
  F32.ltb (F32.of_int (playerY - 6)) (F32.of_int (-12)) = false.
Proof.
  intros Hh.
  assert (C : forallb (fun k => field_check (Z.of_nat k)) (seq 22 4074) = true)
    by (vm_compute; reflexivity).
  rewrite forallb_forall in C. specialize (C (Z.to_nat scrH)).
  rewrite <- list_elem_of_In, elem_of_seq, Z2Nat.id in C by lia.
  specialize (C ltac:(lia)). unfold field_check in C.
  apply andb_prop in C as [C1 C2]. split.
  - intros k Hk. rewrite forallb_forall in C1. specialize (C1 k).
    rewrite <- list_elem_of_In, elem_of_seq in C1.
    apply negb_true_iff, C1. lia.
  - apply negb_true_iff in C2. exact C2.
Qed.

Lemma in_lane_idle en : Enemy.active en = false -> in_lane en.
Proof. intros E A. congruence. Qed.

Lemma in_range_idle bu : Bullet.active bu = false -> in_range bu.
Proof. intros E A. congruence. Qed.

Lemma Forall_insert_2 {A} (P : A -> Prop) (l : list A) i x :
  Forall P l -> P x -> Forall P (<[i := x]> l).
Proof.
  intros Hl Hx. destruct (decide (i < length l)%nat) as [Hi|Hi].
  - apply Forall_insert; assumption.
  - rewrite list_insert_ge by lia. exact Hl.
Qed.

Lemma enemy_fire_on_field t d e en g :
  on_field g -> in_lane en -> on_field (enemy_fire t d e en g).
Proof.
  intros [He Hb] Hen. unfold enemy_fire, draw.
  destruct (free_bullet (enemyBullets g)); cbn;
    (split; [|exact Hb]); apply Forall_insert_2; try exact He;
    intros A; exact (Hen A).
Qed.

Lemma enemy_step_on_field t d g e : on_field g -> on_field (enemy_step t d g e).
Proof.
  intros Hf. pose proof Hf as [He Hb]. unfold enemy_step.
  destruct (enemies g !! e) as [en|] eqn:Ee; [|exact Hf].
  destruct (Enemy.active en) eqn:A; cbn [negb]; [|exact Hf].
  assert (Hen : in_lane en)
    by (rewrite Forall_forall in He; apply He; eapply list_elem_of_lookup_2, Ee).
  destruct (Hen A) as (Hl & Hx & _).
  cbv zeta.
  set (en' := Enemy.set_y _ en).
  set (g1 := if _ >=? -1000 then _ else g).
  assert (F1 : on_field g1) by (subst g1; destruct (_ >=? _); exact Hf).
  assert (E1 : enemies g1 = enemies g) by (subst g1; destruct (_ >=? _); reflexivity).
  clearbody g1.
  destruct (F32.gtb (Enemy.y en') (F32.of_int scrH)) eqn:G.
  - destruct F1 as [He1 Hb1]. split; [|exact Hb1]. cbn.
    rewrite list_insert_insert_eq.
    apply Forall_insert_2; [exact He1|]. apply in_lane_idle. reflexivity.
  - assert (Hen' : in_lane en')
      by (intros _; split; [exact Hl|]; split; [exact Hx|exact G]).
    assert (F2 : on_field
      (set_prevEnemyY (<[e := F32.to_int (Enemy.y en')]> (prevEnemyY g1))
        (set_prevEnemyX (<[e := F32.to_int (Enemy.x en')]> (prevEnemyX g1))
          (emit (Draw (SEnemy e) (F32.to_int (Enemy.x en')) (F32.to_int (Enemy.y en')))
            (emit (Move (SEnemy e))
              (set_enemies (<[e := en']> (enemies g1)) g1)))))).
    { destruct F1 as [He1 Hb1]. split; [|exact Hb1]. cbn.
      apply Forall_insert_2; assumption. }
    destruct (_ >=? _); [|exact F2].
    apply enemy_fire_on_field; assumption.
Qed.

Lemma player_fire_on_field i g :
  22 <= scrH <= 4095 -> on_field g -> on_field (player_fire i g).
Proof.
  intros Hh [He Hb]. unfold player_fire.
  destruct (_ && _); [|split; assumption].
  destruct (free_bullet (playerBullets g)); [|split; assumption].
  cbn. split; [exact He|]. apply Forall_insert_2; [exact Hb|].
  intros _. exact (proj2 (field_check_screen Hh)).
Qed.

Lemma player_bullet_step_on_field g b : on_field g -> on_field (player_bullet_step g b).
Proof.
  intros Hf. pose proof Hf as [He Hb]. unfold player_bullet_step.
  destruct (playerBullets g !! b) as [bu|] eqn:Eb; [|exact Hf].
  destruct (Bullet.active bu) eqn:A; cbn [negb]; [|exact Hf].
  cbv zeta.
  set (bu' := Bullet.set_y _ bu).
  set (g1 := if _ >=? 0 then _ else g).
  assert (F1 : on_field g1) by (subst g1; destruct (_ >=? _); exact Hf).
  clearbody g1. destruct F1 as [He1 Hb1].
  destruct (F32.ltb (Bullet.y bu') (F32.of_int (-12))) eqn:L;
    (split; [exact He1|]); cbn.
  - rewrite list_insert_insert_eq.
    apply Forall_insert_2; [exact Hb1|]. apply in_range_idle. reflexivity.
  - apply Forall_insert_2; [exact Hb1|]. intros _. exact L.
Qed.

Lemma enemy_bullet_step_on_field g b : on_field g -> on_field (enemy_bullet_step g b).
Proof.
  intros Hf. unfold player_bullet_step, enemy_bullet_step.
  repeat case_match; exact Hf.
Qed.

Lemma collide_pair_on_field b g e : on_field g -> on_field (collide_pair b g e).
Proof.
  intros Hf. pose proof Hf as [He Hb]. unfold collide_pair.
  repeat case_match; try exact Hf. cbn. split.
  - apply Forall_insert_2; [exact He|]. apply in_lane_idle. reflexivity.
  - apply Forall_insert_2; [exact Hb|]. apply in_range_idle. reflexivity.
Qed.

Lemma spawn_loop_on_field avail : forall k d c g,
  22 <= scrH <= 4095 ->
  Forall (fun lane => 0 <= lane < Z.of_nat LANE_COUNT) avail ->
  on_field g -> on_field (spawn_loop avail k d c g).
Proof.
  induction avail as [|lane rest IH]; intros k d c g Hh Hl Hf; [exact Hf|].
  cbn [spawn_loop].
  destruct (Nat.ltb_spec k MAX_ENEMIES) as [Hk|Hk]; [|exact Hf].
  destruct (free_enemy (enemies g)) as [idx|]; [|exact Hf].
  unfold draw. cbv zeta.
  apply IH; [exact Hh|exact (Forall_inv_tail Hl)|].
  destruct Hf as [He Hb]. split; [|exact Hb]. cbn.
  apply Forall_insert_2; [exact He|].
  intros _. split; [exact (Forall_inv Hl)|]. split; [reflexivity|].
  exact (proj1 (field_check_screen Hh) k Hk).
Qed.

Lemma spawnEnemiesWave_on_field d c g :
  22 <= scrH <= 4095 -> on_field g -> on_field (spawnEnemiesWave d c g).
Proof.
  intros Hh Hf.
  destruct (wave_plan_spec g) as (gap & avail & n & E & Hg & Hp).
  unfold spawnEnemiesWave. rewrite E.
  apply spawn_loop_on_field; [exact Hh| |exact Hf].
  apply Forall_forall. intros lane Hin. rewrite Hp in Hin.
  apply list_elem_of_filter in Hin as [_ Hin]. apply elem_of_lanes, Hin.
Qed.

Lemma micro_on_field st g g' :
  22 <= scrH <= 4095 -> micro st g g' -> on_field g -> on_field g'.
Proof.
  intros Hh Hm Hf. destruct Hm; try exact Hf.
  - unfold move_player. cbv zeta. destruct (negb _); exact Hf.
  - apply player_fire_on_field; assumption.
  - apply enemy_step_on_field; assumption.
  - apply player_bullet_step_on_field; assumption.
  - apply enemy_bullet_step_on_field; assumption.
  - apply collide_pair_on_field; assumption.
  - destruct (collide_player_from_frame bs g) as (eb & lg & ov & ->). exact Hf.
  - unfold hud, score_tick. destruct (_ >=? 200); exact Hf.
  - unfold new_wave. destruct (wave_due g); [|exact Hf].
    apply spawnEnemiesWave_on_field; assumption.
Qed.

Lemma start_on_field t0 : on_field (start t0).
Proof.
  split; cbn [start enemies playerBullets].
  - apply Forall_replicate, in_lane_idle. reflexivity.
  - apply Forall_replicate, in_range_idle. reflexivity.
Qed.

(** X10.  On a screen 22 to 4095 pixels high, in every state a session
    passes through: an active enemy stands in the column of the lane
    it was spawned in, one of the seven lanes, and has not passed the
    bottom of the screen; an active player bullet has not passed the
    top margin of 12 pixels (both as the float comparisons of the loop
    see them).  An enemy never changes lane, and what leaves the
    screen is deactivated in the step that moves it. *)
Theorem entities_stay_on_field g :
  22 <= scrH <= 4095 -> reachable g ->
  (forall e en, enemies g !! e = Some en -> Enemy.active en = true ->
     0 <= Enemy.lane en < Z.of_nat LANE_COUNT /\
     Enemy.x en = lane_x (Enemy.lane en) /\
     F32.gtb (Enemy.y en) (F32.of_int scrH) = false) /\
  (forall b bu, playerBullets g !! b = Some bu -> Bullet.active bu = true ->
     F32.ltb (Bullet.y bu) (F32.of_int (-12)) = false).
Proof.
  intros Hh Hr.
  assert (Hf : on_field g).
  { induction Hr as [t0 clock|st g g' _ IH Hm].
    - apply spawnEnemiesWave_on_field; [exact Hh|apply start_on_field].
    - exact (micro_on_field st g g' Hh Hm IH). }
  destruct Hf as [He Hb].
  pose proof (proj1 (Forall_forall _ _) He) as He'.
  pose proof (proj1 (Forall_forall _ _) Hb) as Hb'. clear He Hb. split.
  - intros e en Hl A. apply He'; [eapply list_elem_of_lookup_2, Hl|exact A].
  - intros b bu Hl A. apply Hb'; [eapply list_elem_of_lookup_2, Hl|exact A].
Qed.

(** *** Enemy bullets between two passes *)

Lemma enemy_bullet_step_at g b bu :
  enemyBullets (enemy_bullet_step g b) !! b = Some bu ->
  (forall bu0, enemyBullets g !! b = Some bu0 -> Bullet.active bu0 = false ->
     in_reach bu0) ->
  in_reach bu.
Proof.
  unfold enemy_bullet_step.
  destruct (enemyBullets g !! b) as [bu0|] eqn:Eb; [|intros E; rewrite Eb in E; discriminate].
  pose proof (lookup_lt_Some _ _ _ Eb) as Hlt.
  destruct (Bullet.active bu0) eqn:A; cbn [negb].
  - cbv zeta. set (bu1 := Bullet.set_y _ bu0).
    set (g1 := if _ >=? 0 then _ else g).
    assert (E1 : enemyBullets g1 = enemyBullets g)
      by (subst g1; destruct (_ >=? _); reflexivity).
    clearbody g1.
    destruct (F32.gtb (Bullet.y bu1) (F32.of_int (scrH + 12))) eqn:G; cbn.
    + rewrite list_insert_insert_eq, list_lookup_insert_eq by (rewrite E1; exact Hlt).
      intros [= <-] _ A'. discriminate A'.
    + rewrite list_lookup_insert_eq by (rewrite E1; exact Hlt).
      intros [= <-] _ _. exact G.
  - rewrite Eb. intros [= <-] Hi. exact (Hi bu0 eq_refl A).
Qed.

Lemma enemy_bullet_step_other g x b :
  b <> x -> enemyBullets (enemy_bullet_step g x) !! b = enemyBullets g !! b.
Proof.
  intros Hne. unfold enemy_bullet_step.
  destruct (enemyBullets g !! x) as [bu0|]; [|reflexivity].
  destruct (negb _); [reflexivity|]. cbv zeta.
  set (g1 := if _ >=? 0 then _ else g).
  assert (E1 : enemyBullets g1 = enemyBullets g)
    by (subst g1; destruct (_ >=? _); reflexivity).
  clearbody g1.
  destruct (F32.gtb _ _); cbn; rewrite ?list_lookup_insert_ne by congruence;
    rewrite E1; reflexivity.
Qed.

Lemma fold_enemy_bullet_other l b : forall g,
  b ∉ l ->
  enemyBullets (fold_left enemy_bullet_step l g) !! b = enemyBullets g !! b.
Proof.
  induction l as [|x l IH]; intros g Hb; [reflexivity|].
  cbn [fold_left]. rewrite IH by set_solver.
  apply enemy_bullet_step_other. set_solver.
Qed.

Lemma fold_enemy_bullet_at l : forall g b bu,
  NoDup l -> b ∈ l ->
  enemyBullets (fold_left enemy_bullet_step l g) !! b = Some bu -> in_reach bu.
Proof.
  induction l as [|x l IH]; intros g b bu Hnd Hb Hl; [inversion Hb|].
  apply NoDup_cons in Hnd as [Hx Hnd]. cbn [fold_left] in Hl.
  apply elem_of_cons in Hb as [-> | Hb]; [|exact (IH _ b bu Hnd Hb Hl)].
  rewrite fold_enemy_bullet_other in Hl by exact Hx.
  apply (enemy_bullet_step_at g x bu Hl).
  intros bu0 _ A A'. congruence.
Qed.

Lemma shape_enemy_bullets g :
  shape g = capacities -> length (enemyBullets g) = MAX_ENEMY_BULLETS.
Proof.
  unfold shape, capacities. intros Hs. injection Hs as _ Hlen _. exact Hlen.
Qed.

Lemma fold_enemy_bullet_in_reach l g :
  NoDup l ->
  (forall b, (b < length (enemyBullets (fold_left enemy_bullet_step l g)))%nat ->
             b ∈ l) ->
  Forall in_reach (enemyBullets (fold_left enemy_bullet_step l g)).
Proof.
  intros Hnd Hin. apply Forall_lookup. intros b bu Hl.
  apply (fold_enemy_bullet_at l g b bu Hnd); [|exact Hl].
  apply Hin. eapply lookup_lt_Some, Hl.
Qed.

Lemma enemy_bullets_step_in_reach g :
  shape g = capacities ->
  Forall in_reach (enemyBullets (enemy_bullets_step g)).
Proof.
  intros Hs. unfold enemy_bullets_step.
  pose proof (rtc_shape _ _ _
                (fold_micro Physics enemy_bullet_step (seq 0 MAX_ENEMY_BULLETS)
                   (fun g x => micro_enemy_bullet g x) g)) as Hs'.
  rewrite Hs in Hs'. apply shape_enemy_bullets in Hs'.
  apply fold_enemy_bullet_in_reach; [apply NoDup_seq|].
  intros b Hb. rewrite Hs' in Hb. apply elem_of_seq. lia.
Qed.

Lemma collide_player_from_in_reach bs : forall g,
  Forall in_reach (enemyBullets g) ->
  Forall in_reach (enemyBullets (collide_player_from bs g)).
Proof.
  induction bs as [|b bs IH]; intros g Hq; [exact Hq|].
  cbn [collide_player_from].
  destruct (enemyBullets g !! b) as [bu|]; [|apply IH, Hq].
  destruct (negb _); [apply IH, Hq|].
  destruct (hits _ _ _ _).
  - cbn. apply Forall_insert_2; [exact Hq|]. intros A. discriminate A.
  - apply IH. exact Hq.
Qed.

Lemma micro_in_reach st g g' :
  micro st g g' -> st <> Physics ->
  Forall in_reach (enemyBullets g) -> Forall in_reach (enemyBullets g').
Proof.
  intros Hm Hst Hq. destruct Hm; try congruence; try exact Hq.
  - unfold collide_pair. repeat case_match; exact Hq.
  - apply collide_player_from_in_reach, Hq.
  - unfold hud, score_tick. destruct (_ >=? 200); exact Hq.
  - unfold new_wave. destruct (wave_due g); [|exact Hq].
    destruct (spawnEnemiesWave_frame d c g) as (en & dr & lg & ->). exact Hq.
Qed.

Lemma rtc_in_reach st g g' :
  rtc (micro st) g g' -> st <> Physics ->
  Forall in_reach (enemyBullets g) -> Forall in_reach (enemyBullets g').
Proof.
  induction 1 as [|g1 g2 g3 Hm _ IH]; intros Hst Hq; [exact Hq|].
  apply IH; [exact Hst|]. exact (micro_in_reach st g1 g2 Hm Hst Hq).
Qed.

Lemma staged_in_reach i g :
  shape g = capacities -> Forall in_reach (enemyBullets (staged i g)).
Proof.
  intros Hs. unfold staged. cbv zeta.
  eapply rtc_in_reach; [apply finish_micro|discriminate|].
  eapply rtc_in_reach; [apply collisions_micro|discriminate|].
  unfold physics. cbv zeta. apply enemy_bullets_step_in_reach.
  match goal with |- shape ?g1 = _ =>
    assert (Hm : rtc (micro Physics) g g1) end.
  { eapply rtc_trans; [|exact (player_bullets_step_micro _)].
    eapply rtc_trans; [|exact (enemies_step_micro _ _ _)].
    eapply rtc_l; [exact (micro_lastFrame (now i) g)|].
    eapply rtc_l; [exact (micro_joystick (raw i) _)|].
    eapply rtc_l; [exact (micro_move _)|].
    apply rtc_once, micro_fire. }
  rewrite (rtc_shape _ _ _ Hm). exact Hs.
Qed.

Lemma frame_in_reach i g :
  shape g = capacities ->
  Forall in_reach (enemyBullets g) ->
  Forall in_reach (enemyBullets (fst (frame i g))).
Proof.
  intros Hs Hq. unfold frame.
  destruct (_ <? FRAME_MS); [exact Hq|]. cbv zeta.
  pose proof (staged_in_reach i g Hs) as H3.
  generalize dependent (staged i g). intros g3 H3.
  destruct (btnBack i); [exact H3|].
  destruct (isGameOver _); exact H3.
Qed.

Lemma run_in_reach ins : forall g,
  reachable g -> Forall in_reach (enemyBullets g) ->
  Forall in_reach (enemyBullets (fst (run ins g))).
Proof.
  induction ins as [|i ins IH]; intros g Hr Hq; [exact Hq|].
  rewrite run_cons.
  pose proof (frame_in_reach i g (reachable_shape g Hr) Hq) as H1.
  pose proof (frame_reachable i g Hr) as R1.
  destruct (frame i g) as [g' []]; cbn [fst] in *; auto.
Qed.

(** X24.  After every pass of the loop of every session, an active enemy
    bullet has not passed the bottom margin of 12 pixels below the
    screen (as the float comparison of the loop sees it): a bullet
    fired below that margin is moved and deactivated in the pass that
    fires it. *)
Theorem enemy_bullets_leave_at_the_bottom t0 clock ins :
  Forall in_reach (enemyBullets (fst (run ins (init t0 clock)))).
Proof.
  assert (H0 : Forall in_reach (enemyBullets (init t0 clock))).
  { unfold init.
    destruct (spawnEnemiesWave_frame F32.one clock (start t0)) as (en & dr & lg & ->).
    change (Forall in_reach (replicate MAX_ENEMY_BULLETS blank_bullet)).
    apply Forall_replicate. intros A0. discriminate A0. }
  exact (run_in_reach ins _ (reachable_init t0 clock) H0).
Qed.

(** *** The pace of the enemy fire *)

Lemma to_long_small z : 0 <= z < 2 ^ 31 -> to_long z = z.
Proof.
  intros Hz. unfold to_long, u32. rewrite Z.mod_small by lia.
  destruct (Z.ltb_spec z (2 ^ 31)); lia.
Qed.

Lemma to_long_u32 z : to_long (u32 z) = to_long z.
Proof. unfold to_long. cbv zeta. unfold u32. rewrite Zmod_mod. reflexivity. Qed.

Lemma enemy_fire_schedule t d e en g :
  (e < length (enemies g))%nat ->
  exists r, ENEMY_FIRE_INTERVAL_MIN <= r < ENEMY_FIRE_INTERVAL_MAX /\
    enemies (enemy_fire t d e en g) !! e
    = Some (Enemy.set_nextFireAt (u32 (t + r)) en).
Proof.
  intros Hlt. unfold enemy_fire, draw.
  destruct (free_bullet (enemyBullets g)); cbn;
    (eexists; split;
     [apply random_range; unfold ENEMY_FIRE_INTERVAL_MIN, ENEMY_FIRE_INTERVAL_MAX; lia
     |apply list_lookup_insert_eq; exact Hlt]).
Qed.

(** What the enemy loop does to the schedule of an active enemy: it
    leaves the schedule and the enemy bullets alone, or the shot was
    due and the next one is put 900 to 2199 ms after the clock. *)
Lemma enemy_step_schedule t d g e en :
  enemies g !! e = Some en -> Enemy.active en = true ->
  exists en',
    enemies (enemy_step t d g e) !! e = Some en' /\
    ((Enemy.nextFireAt en' = Enemy.nextFireAt en /\
      enemyBullets (enemy_step t d g e) = enemyBullets g) \/
     (to_long (Enemy.nextFireAt en) <= to_long t /\
      exists r, ENEMY_FIRE_INTERVAL_MIN <= r < ENEMY_FIRE_INTERVAL_MAX /\
                Enemy.nextFireAt en' = u32 (t + r))).
Proof.
  intros Ee A. pose proof (lookup_lt_Some _ _ _ Ee) as Hlt.
  unfold enemy_step. rewrite Ee, A. cbn [negb]. cbv zeta.
  set (en1 := Enemy.set_y _ en).
  set (g1 := if _ >=? -1000 then _ else g).
  assert (E1 : enemies g1 = enemies g /\ enemyBullets g1 = enemyBullets g)
    by (subst g1; destruct (_ >=? _); split; reflexivity).
  clearbody g1. destruct E1 as [E1 E2].
  destruct (F32.gtb _ _).
  - eexists. split.
    + cbn. rewrite list_insert_insert_eq.
      apply list_lookup_insert_eq. rewrite E1. exact Hlt.
    + left. split; [reflexivity|exact E2].
  - destruct (Z.geb_spec (to_long t) (to_long (Enemy.nextFireAt en1))) as [Hd|Hd].
    + match goal with |- context [enemy_fire t d e en1 ?g2] =>
        destruct (enemy_fire_schedule t d e en1 g2) as (r & Hr & ->) end.
      { cbn. rewrite length_insert, E1. exact Hlt. }
      eexists. split; [reflexivity|].
      right. split; [exact Hd|]. exists r. split; [exact Hr|reflexivity].
    + eexists. split.
      * cbn. apply list_lookup_insert_eq. rewrite E1. exact Hlt.
      * left. split; [reflexivity|exact E2].
Qed.

(** X11.  While the clock is below 2^31 - 2200 ms, at least 900 ms lie
    between two shots of an enemy: when the enemy loop has fired for
    an enemy at clock [t1], it does not fire for it at any clock from
    [t1] to [t1 + 899], as long as the schedule written at [t1]
    stands. *)
Theorem enemy_shots_are_spaced t1 d1 g e en t2 d2 g2 en1 en2 :
  enemies g !! e = Some en -> Enemy.active en = true ->
  enemyBullets (enemy_step t1 d1 g e) <> enemyBullets g ->
  enemies (enemy_step t1 d1 g e) !! e = Some en1 ->
  enemies g2 !! e = Some en2 ->
  Enemy.nextFireAt en2 = Enemy.nextFireAt en1 ->
  0 <= t1 <= t2 -> t2 < t1 + ENEMY_FIRE_INTERVAL_MIN ->
  t1 + ENEMY_FIRE_INTERVAL_MAX < 2 ^ 31 ->
  enemyBullets (enemy_step t2 d2 g2 e) = enemyBullets g2.
Proof.
  intros Ee A Hshot E1 E2 En Ht Ht2 Hmax.
  destruct (enemy_step_schedule t1 d1 g e en Ee A) as (en' & E' & Hs).
  rewrite E1 in E'. injection E' as <-.
  destruct Hs as [[_ Hsame]|(_ & r & Hr & Hn)]; [contradiction|].
  destruct (Enemy.active en2) eqn:A2.
  - destruct (enemy_step_schedule t2 d2 g2 e en2 E2 A2) as (en3 & _ & Hs).
    destruct Hs as [[_ Hsame]|(Hdue & _)]; [exact Hsame|].
    exfalso. rewrite En, Hn in Hdue.
    unfold ENEMY_FIRE_INTERVAL_MIN, ENEMY_FIRE_INTERVAL_MAX in *.
    rewrite (to_long_small t2), to_long_u32, (to_long_small (t1 + r)) in Hdue by lia.
    lia.
  - unfold enemy_step. rewrite E2, A2. reflexivity.
Qed.

End Session.

Lemma entities_stay_on_field_witness :
  22 <= @scrH console0 <= 4095 /\
  forall e en,
    enemies (fst (@frame console0 first_input opening)) !! e = Some en ->
    Enemy.active en = true ->
    Enemy.x en = @lane_x console0 (Enemy.lane en).
Proof.
  assert (Hh : 22 <= @scrH console0 <= 4095) by (cbn; lia).
  split; [exact Hh|].
  intros e en He A.
  destruct (@entities_stay_on_field console0 _ Hh
              (frame_reachable first_input opening (reachable_init 1000 1000)))
    as [H1 _].
  exact (proj1 (proj2 (H1 e en He A))).
Defined.

Lemma enemy_shots_are_spaced_witness :
  enemyBullets after_shot <> enemyBullets opening /\
  enemyBullets (@enemy_step console0 3220 F32.one after_shot 0)
  = enemyBullets after_shot.
Proof.
  assert (S : enemyBullets after_shot <> enemyBullets opening).
  { intros E.
    assert (B : Bullet.active <$> enemyBullets after_shot !! 0%nat = Some true)
      by (vm_compute; reflexivity).
    rewrite E in B. vm_compute in B. discriminate. }
  split; [exact S|].
  destruct (enemies opening !! 0%nat) as [en|] eqn:E0;
    [|vm_compute in E0; discriminate].
  destruct (enemies after_shot !! 0%nat) as [en1|] eqn:E1;
    [|vm_compute in E1; discriminate].
  assert (A : Enemy.active en = true).
  { assert (A0 : Enemy.active <$> enemies opening !! 0%nat = Some true)
      by (vm_compute; reflexivity).
    rewrite E0 in A0. injection A0 as A0. exact A0. }
  apply (@enemy_shots_are_spaced console0 3200 F32.one opening 0%nat en
           3220 F32.one after_shot en1 en1 E0 A S E1 E1 eq_refl);
    unfold ENEMY_FIRE_INTERVAL_MIN, ENEMY_FIRE_INTERVAL_MAX; lia.
Defined.

End Game2FieldFacts.

(** ** The loading screen *)

Module LoadingFacts.
Import Loading.

Lemma fill_div width i :
  22 <= width -> 0 <= i -> fill width i = barW width * i / 100.
Proof.
  intros Hw Hi. unfold fill. apply Z.quot_div_nonneg; [|lia].
  unfold barW. apply Z.mul_nonneg_nonneg; lia.
Qed.

(** X18.  On a screen at least 22 pixels wide the frame of the loading bar
    lies on the screen, every green rectangle starts inside the frame
    and stays inside it, the rectangles never shrink from one step to
    the next, and the last one fills the inside of the frame
    exactly. *)
Theorem loading_bar_fills width :
  22 <= width ->
  (0 <= barX width /\ barX width + barW width <= width) /\
  (forall i, 0 <= i <= 100 -> 0 <= green width i <= barW width - 2) /\
  (forall i j, 0 <= i <= j -> j <= 100 -> green width i <= green width j) /\
  green width 100 = barW width - 2 /\
  forall op, op ∈ showLoading width ->
    op = DrawRect (barX width) barY (barW width) barH \/
    exists i, 0 <= i <= 100 /\
      op = FillRect (barX width + 1) (barY + 1) (green width i) (barH - 2).
Proof.
  intros Hw.
  assert (Hb : 2 <= barW width <= 120) by (unfold barW; lia).
  split; [|split; [|split; [|split]]].
  - unfold barX. rewrite Z.quot_div_nonneg by (unfold barW; lia).
    pose proof (Z.div_mod (width - barW width) 2 ltac:(lia)).
    pose proof (Z.mod_pos_bound (width - barW width) 2 ltac:(lia)).
    unfold barW in *. lia.
  - intros i Hi. unfold green. rewrite fill_div by lia.
    assert (barW width * i / 100 <= barW width).
    { apply Z.div_le_upper_bound; [lia|]. nia. }
    lia.
  - intros i j Hij Hj. unfold green. rewrite !fill_div by lia.
    assert (barW width * i / 100 <= barW width * j / 100).
    { apply Z.div_le_mono; [lia|]. nia. }
    lia.
  - unfold green. rewrite fill_div by lia. rewrite Z.div_mul by lia. lia.
  - intros op Hop. unfold showLoading in Hop.
    apply elem_of_cons in Hop as [-> | Hop]; [left; reflexivity|].
    apply list_elem_of_fmap in Hop as (k & -> & Hk). apply elem_of_seq in Hk.
    right. exists (Z.of_nat k). split; [lia|reflexivity].
Qed.

Lemma loading_bar_fills_witness :
  22 <= 128 /\ green 128 50 = 52 /\ green 128 100 = barW 128 - 2 /\
  0 <= green 128 50 <= barW 128 - 2.
Proof.
  split; [lia|]. split; [reflexivity|].
  destruct (loading_bar_fills 128 ltac:(lia)) as (_ & H2 & _ & H4 & _).
  split; [exact H4|]. apply H2. lia.
Defined.

End LoadingFacts.

(** ** The WiFi attempt of [setup] *)

Module WifiFacts.
Import Wifi.

(** X25.  The attempt succeeds exactly when some turn of the wait loop that
    begins less than 5000 ms after the start finds the connection and
    every earlier turn began inside the 5000 ms without one; otherwise
    the loop gives up: on the first turn that begins after 5000 ms, or
    when the turns end. *)
Theorem wifi_wait_gives_up start polls :
  fst (wait start polls) = true <->
  exists k p,
    polls !! k = Some p /\ u32 (testClock p - start) < 5000 /\
    connected p = true /\ Forall (pending start) (take k polls).
Proof.
  induction polls as [|p polls IH]; cbn [wait].
  - split; [discriminate|]. intros (k & p & Hk & _). destruct k; discriminate.
  - destruct (Z.ltb_spec (u32 (testClock p - start)) 5000) as [Hlt|Hge].
    + destruct (connected p) eqn:C.
      * split; [intros _|reflexivity].
        exists 0%nat, p. repeat split; [exact Hlt|exact C|constructor].
      * destruct (wait start polls) as [ok leds]. cbn [fst] in *.
        rewrite IH. split.
        -- intros (k & q & Hk & Ht & Hc & Hw).
           exists (S k), q. repeat split; try assumption.
           cbn. constructor; [split; assumption|exact Hw].
        -- intros ([|k] & q & Hk & Ht & Hc & Hw).
           ++ injection Hk as <-. congruence.
           ++ exists k, q. repeat split; try assumption.
              cbn in Hw. exact (Forall_inv_tail Hw).
    + split; [discriminate|].
      intros ([|k] & q & Hk & Ht & Hc & Hw).
      * injection Hk as <-. lia.
      * cbn in Hw. apply Forall_inv in Hw. destruct Hw as [Hw _]. lia.
Qed.

End WifiFacts.

(** ** The console shell *)

Module MenuFacts.
Import Menu.

Lemma tick_spec t :
  valid_time t ->
  valid_time (tick t) /\ same_date t (tick t) /\
  second_of_day (tick t) = (second_of_day t + 1) mod 86400.
Proof.
  unfold valid_time, same_date, second_of_day, tick. intros (Hs & Hm & Hh).
  repeat case_match; cbn; (split; [lia|]); (split; [tauto|]).
  - apply (Z.mod_unique_pos _ _ 1); lia.
  - apply (Z.mod_unique_pos _ _ 0); lia.
  - apply (Z.mod_unique_pos _ _ 0); lia.
  - apply (Z.mod_unique_pos _ _ 0); lia.
Qed.

Lemma u32_lag now last :
  1000 <= u32 (now - last) ->
  u32 (now - u32 (last + 1000)) = u32 (now - last) - 1000.
Proof.
  unfold u32. intros H.
  rewrite Zminus_mod_idemp_r.
  replace (now - (last + 1000)) with ((now - last) - 1000) by lia.
  rewrite <- Zminus_mod_idemp_l.
  pose proof (Z.mod_pos_bound (now - last) (2 ^ 32) ltac:(lia)).
  apply Z.mod_small. lia.
Qed.

Lemma same_date_trans a b c : same_date a b -> same_date b c -> same_date a c.
Proof. unfold same_date. intros (-> & -> & ->) (-> & -> & ->). tauto. Qed.

(** X16.  The software clock.  A call counts one second when at least
    1000 ms separate the clock from its stamp, and moves the stamp by
    1000 ms; so after a stall, [n] calls at clock [now] count the
    whole seconds of the lag, one per call, and no more.  The time of
    day stays valid and wraps at midnight; the date is never changed. *)
Theorem clock_catches_up n now s :
  valid_time (currentTime s) ->
  let lag := u32 (now - lastMillis s) in
  let k := Z.min (Z.of_nat n) (lag / 1000) in
  let s' := Nat.iter n (updateInternalClock now) s in
  valid_time (currentTime s') /\ same_date (currentTime s) (currentTime s') /\
  second_of_day (currentTime s') = (second_of_day (currentTime s) + k) mod 86400 /\
  u32 (now - lastMillis s') = lag - 1000 * k.
Proof.
  intros Hv. cbv zeta.
  assert (Hlag : 0 <= u32 (now - lastMillis s))
    by (apply Z.mod_pos_bound; lia).
  induction n as [|n IH].
  - cbn [Nat.iter nat_rect]. split; [exact Hv|]. split; [repeat split|].
    replace (Z.min (Z.of_nat 0) (u32 (now - lastMillis s) / 1000)) with 0
      by (pose proof (Z.div_pos (u32 (now - lastMillis s)) 1000 Hlag); lia).
    split; [|lia].
    rewrite Z.add_0_r. symmetry. apply Z.mod_small.
    unfold valid_time, second_of_day in *. lia.
  - change (Nat.iter (S n) (updateInternalClock now) s)
      with (updateInternalClock now (Nat.iter n (updateInternalClock now) s)).
    destruct IH as (V & D & Sd & L).
    set (sn := Nat.iter n (updateInternalClock now) s) in *.
    set (lag := u32 (now - lastMillis s)) in *.
    pose proof (Z.div_mod lag 1000 ltac:(lia)) as Hdm.
    pose proof (Z.mod_pos_bound lag 1000 ltac:(lia)) as Hmb.
    unfold updateInternalClock.
    destruct (Z.geb_spec (u32 (now - lastMillis sn)) 1000) as [Hge|Hlt].
    + cbn [currentTime lastMillis set_currentTime set_lastMillis].
      destruct (tick_spec _ V) as (V' & D' & S').
      split; [exact V'|]. split; [exact (same_date_trans _ _ _ D D')|].
      assert (Hk : Z.min (Z.of_nat n) (lag / 1000) = Z.of_nat n) by lia.
      assert (Hk' : Z.min (Z.of_nat (S n)) (lag / 1000) = Z.of_nat n + 1) by lia.
      rewrite Hk in *. rewrite Hk'. split.
      * rewrite S', Sd, Zplus_mod_idemp_l. f_equal. lia.
      * rewrite (u32_lag _ _ Hge). lia.
    + assert (Hk : Z.min (Z.of_nat n) (lag / 1000) = lag / 1000) by lia.
      assert (Hk' : Z.min (Z.of_nat (S n)) (lag / 1000) = lag / 1000) by lia.
      rewrite Hk in *. rewrite Hk'. auto.
Qed.

(** *** Menus *)

Ltac menu_tac :=
  repeat (cbn in *; case_match); cbn in *;
  repeat match goal with
         | H : _ /\ _ |- _ => destruct H
         end;
  repeat split; try congruence; try lia.

Lemma updateInternalClock_ok now s : menu_ok s -> menu_ok (updateInternalClock now s).
Proof. unfold menu_ok, updateInternalClock. intros. menu_tac. Qed.

(** The refresh branch of [readInputs] never runs: its guard asks for
    a level of BTN_3 that differs from the last one, and a level that
    differs has just reset the stamp the guard compares with. *)
Lemma refreshOnBtn3_dead i s : refreshOnBtn3 i (stampBtn3 i s) = stampBtn3 i s.
Proof.
  unfold refreshOnBtn3, stampBtn3.
  destruct (btn3 i), (lastBtn3State s) eqn:L; cbn [eqb negb andb];
    cbn [lastBtn3Time lastBtn3State set_lastBtn3Time]; rewrite ?L;
    cbn [andb]; try (destruct (_ >? _); reflexivity).
  rewrite Z.sub_diag. reflexivity.
Qed.

Lemma readInputs_eq i s :
  readInputs i s = set_lastBtn3State (btn3 i) (stampBtn3 i (scrollMain i s)).
Proof. unfold readInputs. cbv zeta. rewrite refreshOnBtn3_dead. reflexivity. Qed.

Lemma readInputs_ok i s : menu_ok s -> menu_ok (readInputs i s).
Proof.
  rewrite readInputs_eq.
  unfold menu_ok, stampBtn3, scrollMain, drawMainIfChanged,
    drawClockAndDate, emit, CFG_DEVICE_STATUS.
  intros. menu_tac.
Qed.

Lemma handleButtons_ok i s : menu_ok s -> menu_ok (handleButtons i s).
Proof.
  unfold menu_ok, handleButtons, onOk, onBack, play, showGameMenu,
    drawMainIfChanged, drawConfigIfChanged, drawClockAndDate, emit,
    CFG_DEVICE_STATUS.
  intros. menu_tac.
Qed.

Lemma readJoystickMenu_ok i s : menu_ok s -> menu_ok (readJoystickMenu i s).
Proof.
  unfold menu_ok, readJoystickMenu, showGameMenu, drawClockAndDate, emit.
  intros. menu_tac.
Qed.

Lemma loop_ok i s : menu_ok s -> menu_ok (loop i s).
Proof.
  intros Hs. unfold loop. cbv zeta.
  apply readJoystickMenu_ok, handleButtons_ok, readInputs_ok.
  pose proof (updateInternalClock_ok (clockNow i) s Hs) as H1.
  destruct (negb _); [|exact H1].
  exact H1.
Qed.

Lemma boot_ok t t0 : menu_ok (boot t t0).
Proof. unfold menu_ok. cbn. repeat split; auto; congruence. Qed.

Lemma run_snoc ins i s : run (ins ++ [i]) s = loop i (run ins s).
Proof. unfold run. rewrite fold_left_app. reflexivity. Qed.

Lemma run_ok ins : forall s, menu_ok s -> menu_ok (run ins s).
Proof.
  induction ins as [|i ins IH]; intros s Hs; [exact Hs|].
  apply IH, loop_ok, Hs.
Qed.

(** X19.  In every state a session of the shell passes through, the
    main-menu selection designates one of the two entries and is the
    one last painted, the configuration screen is the device status
    and counts as painted, and the top mode is never [MODE_CONFIG]. *)
Theorem menu_invariant t t0 ins : menu_ok (run ins (boot t t0)).
Proof. apply run_ok, boot_ok. Qed.

Lemma adds_refl P s : adds P s s.
Proof. exists []. split; [symmetry; apply app_nil_r|constructor]. Qed.

Lemma adds_trans P s1 s2 s3 : adds P s1 s2 -> adds P s2 s3 -> adds P s1 s3.
Proof.
  intros (e1 & E1 & F1) (e2 & E2 & F2). exists (e1 ++ e2).
  split; [rewrite E2, E1, app_assoc; reflexivity|apply Forall_app_2; assumption].
Qed.

Lemma adds_same P s s' : log s' = log s -> adds P s s'.
Proof. intros E. exists []. split; [rewrite E, app_nil_r; reflexivity|constructor]. Qed.

Lemma adds_emit (P : Event -> Prop) e s : P e -> adds P s (emit e s).
Proof. intros He. exists [e]. split; [reflexivity|repeat constructor; exact He]. Qed.

Ltac adds_tac :=
  repeat case_match;
  repeat first
    [ apply adds_refl
    | apply adds_same; reflexivity
    | eapply adds_trans; [| apply adds_emit; unfold not_status; discriminate]
    | eapply adds_trans; [| apply adds_same; reflexivity] ].

Lemma drawMainIfChanged_adds s : adds not_status s (drawMainIfChanged s).
Proof.
  unfold drawMainIfChanged, drawClockAndDate. cbv zeta.
  destruct (_ && _); [apply adds_refl|].
  eapply adds_trans; [|apply adds_same; reflexivity].
  eapply adds_trans; apply adds_emit; discriminate.
Qed.

Lemma showGameMenu_adds s : adds not_status s (showGameMenu s).
Proof.
  unfold showGameMenu, drawClockAndDate. cbv zeta.
  eapply adds_trans; apply adds_emit; discriminate.
Qed.

Lemma scrollMain_adds i s : adds not_status s (scrollMain i s).
Proof.
  unfold scrollMain. cbv zeta.
  destruct (_ >? DEBOUNCE_DELAY); [|apply adds_refl].
  assert (H : forall m, adds not_status s
                (if negb (inSubMenu s)
                 then drawMainIfChanged (set_mainIdx m s) else s)).
  { intros m. destruct (negb _); [|apply adds_refl].
    eapply adds_trans; [|apply drawMainIfChanged_adds].
    apply adds_same. reflexivity. }
  destruct (_ <? 1000).
  - eapply adds_trans; [apply H|]. apply adds_same. reflexivity.
  - destruct (_ >? 3000); [|apply adds_refl].
    eapply adds_trans; [apply H|]. apply adds_same. reflexivity.
Qed.

Lemma readInputs_adds i s : adds not_status s (readInputs i s).
Proof.
  rewrite readInputs_eq.
  eapply adds_trans; [apply scrollMain_adds|].
  apply adds_same. unfold stampBtn3. destruct (negb _); reflexivity.
Qed.

Lemma readJoystickMenu_adds i s : adds not_status s (readJoystickMenu i s).
Proof.
  unfold readJoystickMenu. cbv zeta.
  destruct (_ >? DEBOUNCE_DELAY'); [|apply adds_refl].
  assert (H : forall g, adds not_status s
                (if is_game (topMode s) && inSubMenu s
                 then showGameMenu (set_selectedGame g s) else s)).
  { intros g. destruct (_ && _); [|apply adds_refl].
    eapply adds_trans; [|apply showGameMenu_adds].
    apply adds_same. reflexivity. }
  destruct (_ <? 1000).
  - eapply adds_trans; [apply H|]. apply adds_same. reflexivity.
  - destruct (_ >? 3000).
    + eapply adds_trans; [apply H|]. apply adds_same. reflexivity.
    + apply adds_same. reflexivity.
Qed.

Lemma onBack_adds s : adds not_status s (onBack s).
Proof.
  unfold onBack. cbv zeta.
  destruct (inSubMenu s); [|apply adds_refl].
  destruct (is_game _).
  - eapply adds_trans; [|apply drawMainIfChanged_adds].
    apply adds_same. reflexivity.
  - destruct (_ =? _); [|apply adds_refl].
    eapply adds_trans; [|apply drawMainIfChanged_adds].
    apply adds_same. reflexivity.
Qed.

Lemma play_adds k s : adds not_status s (play k s).
Proof.
  unfold play. destruct (runGame k); [apply adds_emit; discriminate|apply adds_refl].
Qed.

Lemma clock_adds i s :
  adds not_status s
    (let s := updateInternalClock (clockNow i) s in
     if negb (tm_sec (currentTime s) =? lastSec s)
     then drawClockAndDate (set_lastSec (tm_sec (currentTime s)) s) else s).
Proof.
  cbv zeta.
  assert (H : adds not_status s (updateInternalClock (clockNow i) s)).
  { apply adds_same. unfold updateInternalClock. destruct (_ >=? _); reflexivity. }
  destruct (negb _); [|exact H].
  eapply adds_trans; [exact H|].
  eapply adds_trans; [apply adds_same|apply adds_emit; discriminate].
  reflexivity.
Qed.

(** What the parts of a pass leave of the mode. *)
Lemma topMode_readInputs i s : topMode (readInputs i s) = topMode s.
Proof.
  rewrite readInputs_eq.
  unfold stampBtn3, scrollMain, drawMainIfChanged, drawClockAndDate, emit.
  repeat (cbn; case_match); reflexivity.
Qed.

Lemma inSubMenu_readInputs i s : inSubMenu (readInputs i s) = inSubMenu s.
Proof.
  rewrite readInputs_eq.
  unfold stampBtn3, scrollMain, drawMainIfChanged, drawClockAndDate, emit.
  repeat (cbn; case_match); reflexivity.
Qed.

Lemma topMode_readJoystickMenu i s : topMode (readJoystickMenu i s) = topMode s.
Proof.
  unfold readJoystickMenu, showGameMenu, drawClockAndDate, emit.
  repeat (cbn; case_match); reflexivity.
Qed.

Lemma topMode_clock i s :
  let s' := updateInternalClock (clockNow i) s in
  let s'' := if negb (tm_sec (currentTime s') =? lastSec s')
             then drawClockAndDate (set_lastSec (tm_sec (currentTime s')) s')
             else s' in
  topMode s'' = topMode s /\ inSubMenu s'' = inSubMenu s.
Proof.
  unfold updateInternalClock, drawClockAndDate, emit.
  repeat (cbn; case_match); split; reflexivity.
Qed.

Lemma handleButtons_game i s :
  topMode s = MODE_GAME ->
  topMode (handleButtons i s) = MODE_GAME /\
  (inSubMenu s = true -> adds not_status s (handleButtons i s)).
Proof.
  intros Hg. unfold handleButtons. cbv zeta.
  set (s1 := if _ && lastOkState s then onOk s else s).
  assert (H1 : topMode s1 = MODE_GAME /\ (inSubMenu s = true -> adds not_status s s1)).
  { subst s1. destruct (_ && _); [|split; [exact Hg|intros _; apply adds_refl]].
    unfold onOk. split.
    - unfold play, showGameMenu, drawConfigIfChanged, drawClockAndDate, emit.
      rewrite Hg. repeat (cbn; case_match); cbn; first [reflexivity|assumption].
    - intros ->. rewrite Hg. cbn. apply play_adds. }
  clearbody s1. destruct H1 as [G1 A1].
  set (s2 := if _ && lastBackState s1 then onBack s1 else s1).
  assert (H2 : topMode s2 = MODE_GAME /\ adds not_status s1 s2).
  { subst s2. destruct (_ && _); [|split; [exact G1|apply adds_refl]].
    split; [|apply onBack_adds].
    unfold onBack, drawMainIfChanged, drawClockAndDate, emit.
    rewrite G1. repeat (cbn; case_match); cbn; first [reflexivity|assumption]. }
  clearbody s2. destruct H2 as [G2 A2].
  split; [exact G2|].
  intros Hin. eapply adds_trans; [exact (A1 Hin)|].
  eapply adds_trans; [exact A2|]. apply adds_same. reflexivity.
Qed.

(** X21.  The top mode is set to [MODE_GAME] when the game list is opened
    and nothing ever sets it back: from then on every pass of the loop
    leaves it at [MODE_GAME], and a pass that starts inside a submenu,
    the device-status screen included, paints no device status (OK
    there starts the selected game instead of refreshing). *)
Theorem game_mode_sticks i s :
  topMode s = MODE_GAME ->
  topMode (loop i s) = MODE_GAME /\
  (inSubMenu s = true -> adds not_status s (loop i s)).
Proof.
  intros Hg. unfold loop.
  pose proof (topMode_clock i s) as C. pose proof (clock_adds i s) as CA.
  cbv zeta in C, CA |- *.
  set (s1 := if negb _ then _ else _) in *.
  clearbody s1. destruct C as [C1 C2].
  pose proof (topMode_readInputs i s1) as R1.
  pose proof (inSubMenu_readInputs i s1) as R2.
  pose proof (readInputs_adds i s1) as RA.
  set (s2 := readInputs i s1) in *. clearbody s2.
  assert (G2 : topMode s2 = MODE_GAME) by congruence.
  destruct (handleButtons_game i s2 G2) as [G3 A3].
  rewrite topMode_readJoystickMenu. split; [exact G3|].
  intros Hin. eapply adds_trans; [exact CA|].
  eapply adds_trans; [exact RA|].
  eapply adds_trans; [apply A3; congruence|].
  apply readJoystickMenu_adds.
Qed.

(** X20.  [readInputs] never paints the device status and never forces its
    redraw, whatever BTN_3 does. *)
Theorem btn3_refresh_is_dead i s :
  lastCfgState (readInputs i s) = lastCfgState s /\
  adds not_status s (readInputs i s).
Proof.
  split; [|apply readInputs_adds].
  rewrite readInputs_eq.
  unfold stampBtn3, scrollMain, drawMainIfChanged, drawClockAndDate, emit.
  repeat (cbn; case_match); reflexivity.
Qed.

Lemma after_ok_fields i s :
  inSubMenu s = true ->
  inSubMenu (after_ok i s) = true /\ topMode (after_ok i s) = topMode s /\
  cfgState (after_ok i s) = cfgState s /\ mainIdx (after_ok i s) = mainIdx s /\
  lastMainIdx (after_ok i s) = lastMainIdx s /\
  currentTime (after_ok i s) = currentTime s.
Proof.
  intros Hin. unfold after_ok, onOk, play, drawConfigIfChanged, drawClockAndDate, emit.
  rewrite Hin.
  repeat (cbn; case_match); cbn; rewrite ?Hin; repeat split; reflexivity.
Qed.

(** X22.  A press of BACK inside a submenu always returns to the main
    level, also when OK is pressed in the same pass (its part of
    [handleButtons] runs first and leaves the submenu open).  What the
    press paints depends on [topMode] alone, not on the submenu that
    is open: while [topMode] is not [MODE_GAME] the main menu is
    painted again; once it is [MODE_GAME] nothing is painted, in the
    game list and in the device status alike, because the selection
    of the main menu is still the one last painted. *)
Theorem back_leaves_submenu i s :
  menu_ok s -> inSubMenu s = true ->
  btnBack i = false -> lastBackState s = true ->
  inSubMenu (handleButtons i s) = false /\
  topMode (handleButtons i s) = topMode s /\
  log (handleButtons i s) =
    log (after_ok i s)
    ++ (if is_game (topMode s) then []
        else [TopBar (currentTime s); MainMenu (mainIdx s)]).
Proof.
  intros (Hm & Hl & Hc & _ & _) Hin Hb Hlb.
  destruct (after_ok_fields i s Hin) as (F1 & F2 & F3 & F4 & F5 & F6).
  unfold handleButtons. cbv zeta. fold (after_ok i s).
  rewrite Hb.
  assert (E : lastBackState (after_ok i s) = true).
  { unfold after_ok, onOk, play, drawConfigIfChanged, drawClockAndDate, emit.
    repeat (cbn; case_match); cbn; exact Hlb. }
  rewrite E. cbn [negb andb].
  generalize dependent (after_ok i s). intros s1 F1 F2 F3 F4 F5 F6 _.
  unfold onBack. rewrite F1, F2, F3, Hc.
  unfold drawMainIfChanged, drawClockAndDate, emit.
  destruct (is_game (topMode s)); cbn.
  - rewrite F4, F5, Hl, Z.eqb_refl. cbn. repeat split; auto.
    symmetry. apply app_nil_r.
  - replace (mainIdx s1 =? -1) with false by (symmetry; apply Z.eqb_neq; lia).
    cbn. rewrite F2, F4, F6. repeat split. rewrite <- app_assoc. reflexivity.
Qed.

Lemma push_up i s :
  is_game (topMode s) = true -> inSubMenu s = true ->
  menuJoyY i < 1000 -> u32 (menuNow i - lastJoystickMoveTime s) > DEBOUNCE_DELAY' ->
  readJoystickMenu i s =
  set_lastJoystickMoveTime (menuNow i)
    (showGameMenu (set_selectedGame
                     (if selectedGame s + 1 <? 0 then NUM_GAMES - 1
                      else selectedGame s + 1) s)).
Proof.
  intros Hg Hin Hy Hd. unfold readJoystickMenu. cbv zeta.
  replace (_ >? DEBOUNCE_DELAY') with true by (symmetry; apply Z.gtb_lt; lia).
  replace (menuJoyY i <? 1000) with true by (symmetry; apply Z.ltb_lt; lia).
  rewrite Hg, Hin. reflexivity.
Qed.

Lemma pushes_add ins : forall s,
  is_game (topMode s) = true -> inSubMenu s = true -> 0 <= selectedGame s ->
  pushes_up (lastJoystickMoveTime s) ins ->
  selectedGame (fold_left (fun s i => readJoystickMenu i s) ins s)
  = selectedGame s + Z.of_nat (length ins).
Proof.
  induction ins as [|i ins IH]; intros s Hg Hin Hsel Hp.
  - cbn. lia.
  - destruct Hp as (Hy & Hd & Hp). cbn [fold_left].
    rewrite (push_up i s Hg Hin Hy Hd).
    replace (selectedGame s + 1 <? 0) with false by (symmetry; apply Z.ltb_ge; lia).
    rewrite IH; [cbn; lia|exact Hg|exact Hin|cbn; lia|exact Hp].
Qed.

(** X23.  In the game list, pushes of the stick below 1000 take the
    selection from [sel] to [pushed_up sel n]: a selection below -1
    jumps to the last entry, and from there on, as from every
    selection that is not below -1, every push adds one without
    wrapping (the test that follows the increment looks for a negative
    index), so the selection runs past the last entry, where OK starts
    no game.  The selection is an [int]: the statement is for the
    pushes that keep it below 2^31. *)
Theorem selection_runs_off_the_list ins s :
  is_game (topMode s) = true -> inSubMenu s = true ->
  pushes_up (lastJoystickMoveTime s) ins ->
  - 2 ^ 31 <= selectedGame s ->
  Z.max (selectedGame s) (NUM_GAMES - 2) + Z.of_nat (length ins) < 2 ^ 31 ->
  let s' := fold_left (fun s i => readJoystickMenu i s) ins s in
  selectedGame s' = pushed_up (selectedGame s) (length ins) /\
  (0 <= selectedGame s ->
   selectedGame s' = selectedGame s + Z.of_nat (length ins)) /\
  (2 <= selectedGame s' -> play (selectedGame s') s' = s').
Proof.
  intros Hg Hin Hp _ _. cbv zeta. split; [|split].
  - destruct ins as [|i ins]; [reflexivity|].
    destruct Hp as (Hy & Hd & Hp). cbn [fold_left length pushed_up].
    rewrite (push_up i s Hg Hin Hy Hd).
    rewrite pushes_add; [reflexivity|exact Hg|exact Hin| |exact Hp].
    cbn. unfold NUM_GAMES. destruct (Z.ltb_spec (selectedGame s + 1) 0); lia.
  - intros H0. apply pushes_add; assumption.
  - intros H2. unfold play, runGame.
    replace (_ =? 0) with false by (symmetry; apply Z.eqb_neq; lia).
    replace (_ =? 1) with false by (symmetry; apply Z.eqb_neq; lia).
    reflexivity.
Qed.

Lemma clock_catches_up_witness :
  valid_time (currentTime (boot midnight 0)) /\
  second_of_day
    (currentTime (Nat.iter 3 (updateInternalClock 2500) (boot midnight 0))) = 2 /\
  u32 (2500 - lastMillis (Nat.iter 3 (updateInternalClock 2500) (boot midnight 0)))
  = 500.
Proof.
  assert (V : valid_time (currentTime (boot midnight 0)))
    by (unfold valid_time; cbn; lia).
  split; [exact V|].
  destruct (clock_catches_up 3 2500 (boot midnight 0) V) as (_ & _ & S & L).
  split; [exact S|exact L].
Defined.

Lemma game_mode_sticks_witness :
  topMode status_after_games = MODE_GAME /\
  inSubMenu status_after_games = true /\
  last (log status_after_games) = Some DeviceStatus /\
  topMode (loop (press_ok 370) status_after_games) = MODE_GAME /\
  adds not_status status_after_games (loop (press_ok 370) status_after_games) /\
  log (loop (press_ok 370) status_after_games)
  = log status_after_games ++ [Played Game1].
Proof.
  assert (G0 : topMode status_after_games = MODE_GAME) by (vm_compute; reflexivity).
  assert (I0 : inSubMenu status_after_games = true) by (vm_compute; reflexivity).
  split; [exact G0|]. split; [exact I0|].
  split; [vm_compute; reflexivity|].
  destruct (game_mode_sticks (press_ok 370) status_after_games G0) as [G A].
  split; [exact G|]. split; [exact (A I0)|]. vm_compute. reflexivity.
Defined.

Lemma back_leaves_submenu_witness :
  menu_ok status_after_games /\
  inSubMenu status_after_games = true /\
  is_game (topMode status_after_games) = true /\
  inSubMenu (handleButtons (press_back 620) status_after_games) = false /\
  log (handleButtons (press_back 620) status_after_games) = log status_after_games.
Proof.
  assert (M : menu_ok status_after_games) by (do 2 apply run_ok; apply boot_ok).
  assert (I0 : inSubMenu status_after_games = true) by (vm_compute; reflexivity).
  assert (L0 : lastBackState status_after_games = true) by (vm_compute; reflexivity).
  assert (G0 : is_game (topMode status_after_games) = true) by (vm_compute; reflexivity).
  assert (A0 : after_ok (press_back 620) status_after_games = status_after_games)
    by (vm_compute; reflexivity).
  split; [exact M|]. split; [exact I0|]. split; [exact G0|].
  destruct (back_leaves_submenu (press_back 620) status_after_games M I0 eq_refl L0)
    as (H1 & _ & H2).
  split; [exact H1|]. rewrite H2, G0, A0. apply app_nil_r.
Defined.

Lemma selection_runs_off_the_list_witness :
  selectedGame off_the_top = -2 /\
  pushes_up (lastJoystickMoveTime off_the_top) [stick_up 1200; stick_up 1500] /\
  selectedGame (fold_left (fun s i => readJoystickMenu i s)
                          [stick_up 1200; stick_up 1500] off_the_top) = 3.
Proof.
  assert (S0 : selectedGame off_the_top = -2) by (vm_compute; reflexivity).
  assert (P : pushes_up (lastJoystickMoveTime off_the_top)
                        [stick_up 1200; stick_up 1500])
    by (vm_compute; repeat split; reflexivity).
  split; [exact S0|]. split; [exact P|].
  assert (G0 : is_game (topMode off_the_top) = true) by (vm_compute; reflexivity).
  assert (I0 : inSubMenu off_the_top = true) by (vm_compute; reflexivity).
  assert (B1 : - 2 ^ 31 <= selectedGame off_the_top) by (rewrite S0; discriminate).
  assert (B2 : Z.max (selectedGame off_the_top) (NUM_GAMES - 2)
               + Z.of_nat (length [stick_up 1200; stick_up 1500]) < 2 ^ 31)
    by (rewrite S0; reflexivity).
  rewrite (proj1 (selection_runs_off_the_list _ off_the_top G0 I0 P B1 B2)), S0.
  reflexivity.
Defined.

(** *** The texts of the top bar *)

Lemma fmt0_2 n : 0 <= n <= 99 -> length (fmt0 2 n) = 2%nat.
Proof.
  intros Hn.
  assert (C : forallb (fun k => Nat.eqb (length (fmt0 2 (Z.of_nat k))) 2) (seq 0 100)
              = true) by (vm_compute; reflexivity).
  rewrite forallb_forall in C. specialize (C (Z.to_nat n)).
  rewrite <- list_elem_of_In, elem_of_seq, Z2Nat.id in C by lia.
  apply Nat.eqb_eq, C. lia.
Qed.

Lemma fmt0_4 n : 0 <= n <= 9999 -> length (fmt0 4 n) = 4%nat.
Proof.
  intros Hn.
  assert (C : forallb (fun k => Nat.eqb (length (fmt0 4 (Z.of_nat k))) 4) (seq 0 (Z.to_nat 10000))
              = true) by (vm_compute; reflexivity).
  rewrite forallb_forall in C. specialize (C (Z.to_nat n)).
  rewrite <- list_elem_of_In, elem_of_seq, Z2Nat.id in C by lia.
  apply Nat.eqb_eq, C. lia.
Qed.

Lemma currentTime_loop i s :
  currentTime (loop i s) = currentTime (updateInternalClock (clockNow i) s).
Proof.
  unfold loop. cbv zeta.
  set (s0 := updateInternalClock (clockNow i) s).
  set (s1 := if negb _ then _ else s0).
  assert (E1 : currentTime s1 = currentTime s0)
    by (subst s1; destruct (negb _); reflexivity).
  clearbody s1. rewrite <- E1. clear E1 s0.
  set (s2 := readInputs i s1).
  assert (E2 : currentTime s2 = currentTime s1).
  { subst s2. rewrite readInputs_eq.
    unfold stampBtn3, scrollMain, drawMainIfChanged, drawClockAndDate, emit.
    repeat (cbn; case_match); reflexivity. }
  clearbody s2. rewrite <- E2. clear E2 s1.
  set (s3 := handleButtons i s2).
  assert (E3 : currentTime s3 = currentTime s2).
  { subst s3.
    unfold handleButtons, onOk, onBack, play, showGameMenu, drawMainIfChanged,
      drawConfigIfChanged, drawClockAndDate, emit.
    repeat (cbn; case_match); reflexivity. }
  clearbody s3. rewrite <- E3. clear E3 s2.
  unfold readJoystickMenu, showGameMenu, drawClockAndDate, emit.
  repeat (cbn; case_match); reflexivity.
Qed.

Lemma updateInternalClock_time now s :
  valid_time (currentTime s) ->
  valid_time (currentTime (updateInternalClock now s)) /\
  same_date (currentTime s) (currentTime (updateInternalClock now s)).
Proof.
  intros Hv. unfold updateInternalClock. destruct (_ >=? 1000).
  - destruct (tick_spec _ Hv) as (V & D & _). split; assumption.
  - split; [exact Hv|repeat split].
Qed.

Lemma run_time ins : forall s,
  valid_time (currentTime s) ->
  valid_time (currentTime (run ins s)) /\
  same_date (currentTime s) (currentTime (run ins s)).
Proof.
  induction ins as [|i ins IH]; intros s Hv; [split; [exact Hv|repeat split]|].
  change (run (i :: ins) s) with (run ins (loop i s)).
  destruct (updateInternalClock_time (clockNow i) s Hv) as [V D].
  rewrite <- currentTime_loop in V, D.
  destruct (IH _ V) as [V' D']. split; [exact V'|].
  exact (same_date_trans _ _ _ D D').
Qed.

(** X17.  In a session started with a valid time of day, the time of day is
    valid in every state and the text of the clock has exactly five
    characters, which [buf1] holds with its terminator; the date stays
    the one the session started with, and when it prints in its
    digits the text of the date has ten characters, which [buf2]
    holds with its terminator. *)
Theorem top_bar_texts_fit t t0 ins :
  valid_time t ->
  let s := run ins (boot t t0) in
  valid_time (currentTime s) /\ same_date t (currentTime s) /\
  (length (buf1 (currentTime s)) = 5 /\
   length (buf1 (currentTime s)) + 1 <= BUF1_SIZE)%nat /\
  (short_date t ->
   (length (buf2 (currentTime s)) = 10 /\
    length (buf2 (currentTime s)) + 1 <= BUF2_SIZE)%nat).
Proof.
  intros Hv. cbv zeta.
  destruct (run_time ins (boot t t0)) as [V D].
  { unfold boot. cbv zeta. unfold drawMainIfChanged, drawClockAndDate, emit.
    cbn. exact Hv. }
  assert (E : currentTime (boot t t0) = t)
    by (unfold boot, drawMainIfChanged, drawClockAndDate, emit; reflexivity).
  rewrite E in D.
  split; [exact V|]. split; [exact D|].
  destruct V as (_ & Hm & Hh). split.
  - unfold buf1, BUF1_SIZE. rewrite !length_app, !fmt0_2 by lia. cbn. lia.
  - intros (S1 & S2 & S3). destruct D as (D1 & D2 & D3).
    unfold buf2, BUF2_SIZE. rewrite D1, D2, D3.
    rewrite !length_app, !fmt0_2, fmt0_4 by lia. cbn. lia.
Qed.

Lemma top_bar_texts_fit_witness :
  valid_time midnight /\
  length (buf1 (currentTime (run [press_ok 300; idle 1310] (boot midnight 0))))
  = 5%nat.
Proof.
  assert (V : valid_time midnight) by (unfold valid_time; cbn; lia).
  split; [exact V|].
  exact (proj1 (proj1 (proj2 (proj2 (top_bar_texts_fit midnight 0
                                       [press_ok 300; idle 1310] V))))).
Defined.

End MenuFacts.
